(** * A shallow embedding of the raycasting demo (raycast.c)

    The C program keeps its state in globals (the framebuffer [pixels], the
    [player] record) and in locals of [r_raycast]; here every function takes
    the state it reads and returns the state it writes.

    Number representations:
    - [int] is a 32-bit two's complement integer, carried as a [Z] together
      with [wrap_int], which is applied wherever the C code computes a sum,
      difference or product of [int]s;
    - [uint32_t] colours are [Z]s in [0, 2^32);
    - [float] is IEEE-754 binary32 and [double] binary64, through the
      executable specification [SpecFloat] of the standard library. *)

From Stdlib Require Import ZArith Lia Bool SpecFloat.
From stdpp Require Import base numbers list sorting.

Local Open Scope Z_scope.

(** ** Compile-time constants *)

Definition SCREEN_WIDTH : Z := 1024.
Definition SCREEN_HEIGHT : Z := 512.
Definition FOV : Z := 60.
Definition RAY_COUNT : Z := 256.
Definition TEXTURE_SIZE : Z := 64.
Definition MAPX : Z := 8.
Definition MAPY : Z := 8.
Definition MAP_CELL_SIZE : Z := 64.

(** ** Machine integers *)

Definition INT_MIN : Z := - 2 ^ 31.
Definition INT_MAX : Z := 2 ^ 31 - 1.

(** The value an [int] computation leaves in a 32-bit register. *)
Definition wrap_int (z : Z) : Z := (z + 2 ^ 31) mod 2 ^ 32 - 2 ^ 31.

Definition in_int (z : Z) : Prop := INT_MIN <= z <= INT_MAX.

(** ** Framebuffer: [uint32_t *pixels], one cell per pixel, row-major *)

Definition r_drawpoint (x y : Z) (color : Z) (pixels : list Z) : list Z :=
  if (x <? 0) || (x >=? SCREEN_WIDTH) || (y <? 0) || (y >=? SCREEN_HEIGHT)
  then pixels
  else
    let index := wrap_int (wrap_int (SCREEN_WIDTH * y) + x) in
    if (index <? 0) || (index >=? SCREEN_WIDTH * SCREEN_HEIGHT)
    then pixels
    else <[Z.to_nat index := color]> pixels.

(** [r_drawline]: the [while (1)] loop of the C function, with the plotting
    primitive and the state it acts on left open, so that the same loop
    yields the framebuffer update (plot = [r_drawpoint]) and the sequence of
    the points it plots.  [fuel] bounds the number of iterations; [None]
    means that the loop is still running when the fuel is spent. *)
Section Bresenham.
Context {St : Type} (plot : Z -> Z -> St -> St).

Fixpoint r_drawline_loop (fuel : nat) (dx dy sx sy x1 y1 : Z)
      (x0 y0 err : Z) (st : St) : option St :=
    match fuel with
    | O => None
    | S fuel' =>
        let st := plot x0 y0 st in
        if (x0 =? x1) && (y0 =? y1) then Some st
        else
          let e2 := err in
          let '(err, x0) :=
            if e2 >? wrap_int (- dx)
            then (wrap_int (err - dy), wrap_int (x0 + sx))
            else (err, x0) in
          let '(err, y0) :=
            if e2 <? dy
            then (wrap_int (err + dx), wrap_int (y0 + sy))
            else (err, y0) in
          r_drawline_loop fuel' dx dy sx sy x1 y1 x0 y0 err st
    end.

Definition r_drawline_with (fuel : nat) (x0 y0 x1 y1 : Z) (st : St)
      : option St :=
    let dx := if x1 >? x0 then wrap_int (x1 - x0) else wrap_int (x0 - x1) in
    let dy := if y1 >? y0 then wrap_int (y1 - y0) else wrap_int (y0 - y1) in
    let sx := if x0 <? x1 then 1 else -1 in
    let sy := if y0 <? y1 then 1 else -1 in
    let err := Z.quot (if dx >? dy then dx else wrap_int (- dy)) 2 in
    r_drawline_loop fuel dx dy sx sy x1 y1 x0 y0 err st.
End Bresenham.

Definition r_drawline (fuel : nat) (x0 y0 x1 y1 : Z) (color : Z)
    (pixels : list Z) : option (list Z) :=
  r_drawline_with (fun x y => r_drawpoint x y color) fuel x0 y0 x1 y1 pixels.

(** The points handed to [r_drawpoint], in the order of the calls. *)
Definition r_drawline_points (fuel : nat) (x0 y0 x1 y1 : Z)
    : option (list (Z * Z)) :=
  r_drawline_with (fun x y pts => pts ++ [(x, y)]) fuel x0 y0 x1 y1 [].

(** [r_clearscreenbuffer] goes through [memset], which works on bytes: the
    framebuffer is viewed as its byte image (four bytes per pixel, least
    significant first), filled, and read back. *)
Definition pixel_bytes (p : Z) : list Z :=
  [p mod 256; (p / 2 ^ 8) mod 256; (p / 2 ^ 16) mod 256; (p / 2 ^ 24) mod 256].

Definition bytes_pixel (b0 b1 b2 b3 : Z) : Z :=
  b0 + 2 ^ 8 * b1 + 2 ^ 16 * b2 + 2 ^ 24 * b3.

Definition pixels_to_bytes (pixels : list Z) : list Z :=
  concat (pixel_bytes <$> pixels).

Fixpoint bytes_to_pixels (bytes : list Z) : list Z :=
  match bytes with
  | b0 :: b1 :: b2 :: b3 :: rest => bytes_pixel b0 b1 b2 b3 :: bytes_to_pixels rest
  | _ => []
  end.

(** [memset(s, c, n)]: [c] is converted to [unsigned char], and the first
    [n] bytes of [s] are set to it. *)
Definition memset (s : list Z) (c : Z) (n : Z) : list Z :=
  replicate (Z.to_nat n) (c mod 256) ++ drop (Z.to_nat n) s.

Definition r_clearscreenbuffer (pixels : list Z) : list Z :=
  bytes_to_pixels
    (memset (pixels_to_bytes pixels) 0xFFBBBBBB (4 * SCREEN_WIDTH * SCREEN_HEIGHT)).

(** ** Floating point: binary32 ([float]) and binary64 ([double]) *)

Module F32.
Definition prec : Z := 24.
Definition emax : Z := 128.
Definition add := SFadd prec emax.
Definition sub := SFsub prec emax.
Definition mul := SFmul prec emax.
Definition div := SFdiv prec emax.
Definition sqrt := SFsqrt prec emax.
Definition ltb := SFltb.
Definition leb := SFleb.
Definition eqb := SFeqb.
Definition valid := valid_binary prec emax.

(** [(float) z] for an [int] [z]. *)
Definition of_int (z : Z) : spec_float := binary_normalize prec emax z 0 false.

(** A decimal literal [n / d] with the suffix [f]: the binary32 number
    nearest to the quotient. *)
Definition lit (n d : positive) : spec_float :=
  SFdiv prec emax (S754_finite false n 0) (S754_finite false d 0).
End F32.

Module F64.
Definition prec : Z := 53.
Definition emax : Z := 1024.
Definition add := SFadd prec emax.
Definition sub := SFsub prec emax.
Definition mul := SFmul prec emax.
Definition div := SFdiv prec emax.
Definition sqrt := SFsqrt prec emax.

(** [(double) z] for an [int] [z]. *)
Definition of_int (z : Z) : spec_float := binary_normalize prec emax z 0 false.

(** The implicit conversion [float] to [double] (exact). *)
Definition of_f32 (x : spec_float) : spec_float :=
  match x with
  | S754_finite s m e => binary_normalize prec emax (cond_Zopp s (Zpos m)) e s
  | _ => x
  end.

(** The conversion [double] to [float] of an assignment or a cast. *)
Definition to_f32 (x : spec_float) : spec_float :=
  match x with
  | S754_finite s m e => binary_normalize F32.prec F32.emax (cond_Zopp s (Zpos m)) e s
  | _ => x
  end.
End F64.

Definition is_nan (x : spec_float) : bool :=
  match x with S754_nan => true | _ => false end.

(** [(int)floor(x)]: [floor] is exact on a [double], and so is the promotion
    of a [float]; the conversion to [int] is defined only for a finite
    value in the range of [int] ([None] stands for undefined behaviour). *)
Definition floor_Z (x : spec_float) : option Z :=
  match x with
  | S754_zero _ => Some 0
  | S754_finite s m e => Some (Z.shiftl (cond_Zopp s (Zpos m)) e)
  | _ => None
  end.

Definition int_of_floor (x : spec_float) : option Z :=
  match floor_Z x with
  | Some z => if (INT_MIN <=? z) && (z <=? INT_MAX) then Some z else None
  | None => None
  end.

(** ** The level *)

Module Level.
(** 0 = empty space, 1 - stone wall, 2 - mossy stone wall, 3 - color stone wall *)
Definition map : list Z :=
  [ 3;3;3;3;3;1;1;1;
    3;0;0;0;0;1;0;1;
    3;0;0;0;0;0;0;1;
    3;0;0;0;0;0;0;1;
    3;3;0;0;0;0;2;1;
    1;0;0;0;0;2;2;3;
    1;0;0;0;0;0;0;3;
    1;1;1;1;1;1;1;3 ].

(** 0 = no sprite, 1 - hangman, 2 - barrel, 3 - armor_suit, 4 - bed,
    5 - plant, 6 - sink, 7 - dead_plant, 8 - light *)
Definition map_sprites : list Z :=
  [ 0;0;0;0;0;0;0;0;
    0;2;0;0;5;0;6;0;
    0;0;0;8;0;0;8;0;
    0;3;0;0;0;0;7;0;
    0;0;0;0;0;1;0;0;
    0;0;0;8;0;0;0;0;
    0;2;0;0;0;8;4;0;
    0;0;0;0;0;0;0;0 ].
End Level.

(** [grid[i]] for an index already checked to lie in the array. *)
Definition cell_at (grid : list Z) (i : Z) : Z := default 0 (grid !! Z.to_nat i).

(** The grid cell of a world coordinate: [(int)floor(v / MAP_CELL_SIZE)]. *)
Definition cell_of (v : spec_float) : option Z :=
  int_of_floor (F32.div v (F32.of_int MAP_CELL_SIZE)).

(** ** Collision probe *)

Definition check_collision (x y : spec_float) : option bool :=
  mapX ← cell_of x;
  mapY ← cell_of y;
  if (mapX <? 0) || (mapX >=? MAPX) || (mapY <? 0) || (mapY >=? MAPY)
  then Some true
  else if cell_at Level.map (wrap_int (wrap_int (mapY * MAPX) + mapX)) >? 0
  then Some true
  else if (cell_at Level.map_sprites (wrap_int (wrap_int (mapY * MAPX) + mapX)) >? 0)
          && (cell_at Level.map_sprites (wrap_int (wrap_int (mapY * MAPX) + mapX)) <? 8)
  then Some true
  else Some false.

(** ** Player and sprites *)

Module Player.
Record t := {
  x : spec_float;             (* X position in world coordinates *)
  y : spec_float;             (* Y position in world coordinates *)
  dx : spec_float;            (* X component of the direction vector *)
  dy : spec_float;            (* Y component of the direction vector *)
  angle : spec_float;         (* facing angle in degrees *)
  rays_d : list spec_float    (* distance of each ray *)
}.
End Player.

Module Sprite.
Record t := {
  x : spec_float;             (* world position *)
  y : spec_float;
  dist : spec_float;          (* distance from the player *)
  type : Z                    (* sprite type *)
}.
End Sprite.

(** The body of the two collection loops of [r_render_sprites] for the cell
    (mx, my): the sprite stored at [sprites[sprite_count++]], if any. *)
Definition sprite_in_cell (player : Player.t) (my mx : Z) : option Sprite.t :=
  let spriteType := cell_at Level.map_sprites (wrap_int (wrap_int (my * MAPX) + mx)) in
  if spriteType >? 0 then
    let half := F32.mul (F32.of_int MAP_CELL_SIZE) (F32.lit 1 2) in
    let sx := F32.add (F32.of_int (wrap_int (mx * MAP_CELL_SIZE))) half in
    let sy := F32.add (F32.of_int (wrap_int (my * MAP_CELL_SIZE))) half in
    let dx := F32.sub sx (Player.x player) in
    let dy := F32.sub sy (Player.y player) in
    Some {| Sprite.x := sx; Sprite.y := sy;
            Sprite.dist := F32.sqrt (F32.add (F32.mul dx dx) (F32.mul dy dy));
            Sprite.type := spriteType |}
  else None.

Definition collect_sprites (player : Player.t) : list Sprite.t :=
  foldl (fun sprites my =>
           foldl (fun sprites mx =>
                    match sprite_in_cell player my mx with
                    | Some s => sprites ++ [s]
                    | None => sprites
                    end)
                 sprites (seqZ 0 MAPX))
        [] (seqZ 0 MAPY).

(** One step of the inner sorting loop: [sprites[i]] and [sprites[j]] are
    exchanged when the first is closer than the second. *)
Definition swap_if_closer (i j : nat) (sprites : list Sprite.t) : list Sprite.t :=
  match sprites !! i, sprites !! j with
  | Some si, Some sj =>
      if F32.ltb (Sprite.dist si) (Sprite.dist sj)
      then <[j := si]> (<[i := sj]> sprites)
      else sprites
  | _, _ => sprites
  end.

(** The two nested [for] loops that sort the sprites far to near:
    [i] runs over [0, sprite_count - 1) and [j] over [i + 1, sprite_count). *)
Definition sort_sprites (sprites : list Sprite.t) : list Sprite.t :=
  let sprite_count := length sprites in
  foldl (fun sprites i =>
           foldl (fun sprites j => swap_if_closer i j sprites)
                 sprites (seq (S i) (sprite_count - S i)))
        sprites (seq 0 (sprite_count - 1)).

(** ** Ray casting *)

(** Literals of the program. *)
Definition PI : spec_float := F32.lit 314159265359 100000000000.
Definition WALL_DISTANCE_DIMMING : spec_float := F32.of_int 15.
Definition FLOOR_DISTANCE_DIMMING : spec_float := F32.of_int 15.
Definition CEILING_DISTANCE_DIMMING : spec_float := F32.of_int 15.
Definition SPRITE_DISTANCE_DIMMING : spec_float := F32.of_int 11.
Definition WALL_MIN_BRIGHTNESS : spec_float := F32.lit 7 10.
Definition FLOOR_MIN_BRIGHTNESS : spec_float := F32.lit 65 100.
Definition CEILING_MIN_BRIGHTNESS : spec_float := F32.lit 65 100.
Definition SPRITE_MIN_BRIGHTNESS : spec_float := F32.lit 7 10.

Definition m_deg_to_rad (a : spec_float) : spec_float :=
  F32.div (F32.mul a PI) (F32.of_int 180).

Definition m_fix_ang (a : spec_float) : spec_float :=
  let a := if F32.ltb (F32.of_int 359) a then F32.sub a (F32.of_int 360) else a in
  let a := if F32.ltb a (F32.of_int 0) then F32.add a (F32.of_int 360) else a in
  a.

(** What one of the two grid-line tests of a ray leaves in its four
    variables ([hitX_H], [hitY_H], [wallType_H], [distanceH] for the
    horizontal test). *)
Module Hit.
Record t := {
  hitX : spec_float;
  hitY : spec_float;
  wallType : Z;
  distance : spec_float
}.
End Hit.

(** The values the variables are initialised with: no hit. *)
Definition no_hit : Hit.t :=
  {| Hit.hitX := F32.of_int 0; Hit.hitY := F32.of_int 0; Hit.wallType := 0;
     Hit.distance := F32.of_int 1000000 |}.

(** [floor] on a [double], as a [double]. *)
Definition floor_f64 (x : spec_float) : spec_float :=
  match x with
  | S754_finite s m e =>
      binary_normalize F64.prec F64.emax (Z.shiftl (cond_Zopp s (Zpos m)) e) 0 s
  | _ => x
  end.

(** [sqrt(dx*dx + dy*dy)] assigned to a [float]: the sum is a [float], the
    square root is taken on its promotion to [double]. *)
Definition hit_distance (player : Player.t) (testX testY : spec_float) : spec_float :=
  let dx := F32.sub testX (Player.x player) in
  let dy := F32.sub testY (Player.y player) in
  F64.to_f32 (F64.sqrt (F64.of_f32 (F32.add (F32.mul dx dx) (F32.mul dy dy)))).

(** The stepping loop shared by the two tests:
    [for (depth = 0; depth < bound; depth++)], with [fuel = bound - depth].
    The result carries the number of iterations that were entered. *)
Fixpoint grid_walk (fuel : nat) (player : Player.t)
    (testX testY deltaX deltaY : spec_float) (iterations : nat)
    : option (Hit.t * nat) :=
  match fuel with
  | O => Some (no_hit, iterations)
  | S fuel' =>
      mapX ← cell_of testX;
      mapY ← cell_of testY;
      if (mapX <? 0) || (mapX >=? MAPX) || (mapY <? 0) || (mapY >=? MAPY)
      then Some (no_hit, S iterations)
      else
        let cell := cell_at Level.map (wrap_int (wrap_int (mapY * MAPX) + mapX)) in
        if cell >? 0
        then Some ({| Hit.hitX := testX; Hit.hitY := testY; Hit.wallType := cell;
                      Hit.distance := hit_distance player testX testY |},
                   S iterations)
        else grid_walk fuel' player (F32.add testX deltaX) (F32.add testY deltaY)
               deltaX deltaY (S iterations)
  end.

(** [floor(v / MAP_CELL_SIZE) * MAP_CELL_SIZE], a [double]. *)
Definition cell_origin (v : spec_float) : spec_float :=
  F64.mul (floor_f64 (F64.of_f32 (F32.div v (F32.of_int MAP_CELL_SIZE))))
          (F64.of_f32 (F32.of_int MAP_CELL_SIZE)).

(** Horizontal grid lines. *)
Definition horizontal_test (player : Player.t) (rayDirX rayDirY : spec_float)
    : option (Hit.t * nat) :=
  if negb (F32.eqb rayDirY (F32.of_int 0)) then
    let '(deltaY, firstY) :=
      if F32.ltb rayDirY (F32.of_int 0)
      then (F32.of_int (- MAP_CELL_SIZE),
            F64.to_f32 (F64.sub (cell_origin (Player.y player))
                                (F64.of_f32 (F32.lit 1 100))))
      else (F32.of_int MAP_CELL_SIZE,
            F64.to_f32 (F64.add (cell_origin (Player.y player))
                              (F64.of_f32 (F32.of_int MAP_CELL_SIZE)))) in
    let deltaX := F32.mul deltaY (F32.div rayDirX rayDirY) in
    let testY := firstY in
    let testX := F32.add (Player.x player)
                   (F32.mul (F32.sub testY (Player.y player))
                            (F32.div rayDirX rayDirY)) in
    grid_walk (Z.to_nat MAPY) player testX testY deltaX deltaY 0
  else Some (no_hit, 0%nat).

(** Vertical grid lines. *)
Definition vertical_test (player : Player.t) (rayDirX rayDirY : spec_float)
    : option (Hit.t * nat) :=
  if negb (F32.eqb rayDirX (F32.of_int 0)) then
    let '(deltaX, firstX) :=
      if F32.ltb rayDirX (F32.of_int 0)
      then (F32.of_int (- MAP_CELL_SIZE),
            F64.to_f32 (F64.sub (cell_origin (Player.x player))
                                (F64.of_f32 (F32.lit 1 100))))
      else (F32.of_int MAP_CELL_SIZE,
            F64.to_f32 (F64.add (cell_origin (Player.x player))
                              (F64.of_f32 (F32.of_int MAP_CELL_SIZE)))) in
    let deltaY := F32.mul deltaX (F32.div rayDirY rayDirX) in
    let testX := firstX in
    let testY := F32.add (Player.y player)
                   (F32.mul (F32.sub testX (Player.x player))
                            (F32.div rayDirY rayDirX)) in
    grid_walk (Z.to_nat MAPX) player testX testY deltaX deltaY 0
  else Some (no_hit, 0%nat).

(** The wall hit of a ray: [hitX], [hitY], [distance], [currentWallType]
    (the fields of [wall]) and the flag [hitVertical]. *)
Module RayHit.
Record t := {
  wall : Hit.t;
  hitVertical : bool
}.
End RayHit.

(** "Determine which intersection is closer". *)
Definition closer_hit (H V : Hit.t) : RayHit.t :=
  if F32.ltb (Hit.distance H) (Hit.distance V)
  then {| RayHit.wall := H; RayHit.hitVertical := false |}
  else {| RayHit.wall := V; RayHit.hitVertical := true |}.

(** The two tests and the choice between them, for a ray of direction
    ([rayDirX], [rayDirY]). *)
Definition cast_ray (player : Player.t) (rayDirX rayDirY : spec_float)
    : option RayHit.t :=
  '(H, _) ← horizontal_test player rayDirX rayDirY;
  '(V, _) ← vertical_test player rayDirX rayDirY;
  Some (closer_hit H V).

(** A camera in the middle of the empty cell (1, 1), and the direction of
    the ray of angle 135 degrees: cos and -sin of 135 degrees are both
    -0.70710677 in binary32. *)
Definition corner_player : Player.t :=
  {| Player.x := F32.of_int 96; Player.y := F32.of_int 96;
     Player.dx := S754_finite true 11863283 (-24);
     Player.dy := S754_finite true 11863283 (-24);
     Player.angle := F32.of_int 135; Player.rays_d := [] |}.

Definition corner_hit : Hit.t :=
  {| Hit.hitX := S754_finite false 16774595 (-18);
     Hit.hitY := S754_finite false 16774595 (-18);
     Hit.wallType := 3;
     Hit.distance := S754_finite false 11866990 (-18) |}.

(** ** Drawing a sprite *)

(** [(int)x] for a [float] [x]: truncation toward zero; undefined ([None])
    unless the result fits an [int]. *)
Definition trunc_Z (x : spec_float) : option Z :=
  match x with
  | S754_zero _ => Some 0
  | S754_finite s m e => Some (cond_Zopp s (Z.shiftl (Zpos m) e))
  | _ => None
  end.

Definition int_of_trunc (x : spec_float) : option Z :=
  z ← trunc_Z x;
  if (INT_MIN <=? z) && (z <=? INT_MAX) then Some z else None.

(** [(uint32_t)x] for a [float] [x]. *)
Definition uint32_of_trunc (x : spec_float) : option Z :=
  z ← trunc_Z x;
  if (0 <=? z) && (z <? 2 ^ 32) then Some z else None.

(** [a[i]] for an [int] index: undefined outside the array. *)
Definition array_get {A} (a : list A) (i : Z) : option A :=
  if i <? 0 then None else a !! Z.to_nat i.

(** The "transparent" colour of the sprite textures. *)
Definition TRANSPARENT : Z := 0xFFFF00FF.

(** What the column loop of [r_render_sprites] reads of the sprite being
    drawn: the locals computed before the loop, and the texture returned by
    [r_get_sprite] (the pixel arrays of asset/assets.h are not part of the
    model and are taken as they come). *)
Module View.
Record t := {
  dist : spec_float;
  perpDist : spec_float;
  sprite_w : Z;
  sprite_h : Z;
  drawStartX : Z;
  drawEndX : Z;
  drawStartY : Z;
  drawEndY : Z;
  texX_start : Z;
  texY_start : Z;
  tex : list Z
}.
End View.

Definition eps : spec_float := F32.lit 5 10000.
Definition vp_right : spec_float := F32.of_int SCREEN_WIDTH.

(** [start + (int)(((v - first) * (float)TEXTURE_SIZE) / (float)size)],
    clamped to the texture. *)
Definition tex_coord (start v first size : Z) : option Z :=
  off ← int_of_trunc
         (F32.div (F32.mul (F32.of_int (wrap_int (v - first))) (F32.of_int TEXTURE_SIZE))
                  (F32.of_int size));
  let c := wrap_int (start + off) in
  Some (if c <? 0 then 0 else if c >=? TEXTURE_SIZE then TEXTURE_SIZE - 1 else c).

(** The ray indices and the weight used to interpolate the wall distance
    at the screen column [x]. *)
Definition wall_rays (column_width x : Z) : option (Z * Z * spec_float) :=
  let r_f := F32.div (F32.sub vp_right (F32.add (F32.of_int x) (F32.lit 1 2)))
                     (F32.of_int column_width) in
  r0 ← int_of_floor r_f;
  let t := F32.sub r_f (F32.of_int r0) in
  let r1 := wrap_int (r0 + 1) in
  let '(r0, t) := if r0 <? 0 then (0, F32.of_int 0) else (r0, t) in
  let '(r1, t) := if r1 >=? RAY_COUNT then (RAY_COUNT - 1, F32.of_int 0) else (r1, t) in
  Some (r0, r1, t).

Definition wall_distance_at (wall_distances : list spec_float)
    (column_width x : Z) : option spec_float :=
  '(r0, r1, t) ← wall_rays column_width x;
  d0 ← array_get wall_distances r0;
  d1 ← array_get wall_distances r1;
  Some (F32.add (F32.mul (F32.sub (F32.of_int 1) t) d0) (F32.mul t d1)).

(** Distance-based darkening of a sprite pixel. *)
Definition sprite_dark (dist : spec_float) : spec_float :=
  let dark := F32.sub (F32.of_int 1)
                (F32.div dist (F32.mul (F32.of_int MAP_CELL_SIZE) SPRITE_DISTANCE_DIMMING)) in
  if F32.ltb dark SPRITE_MIN_BRIGHTNESS then SPRITE_MIN_BRIGHTNESS else dark.

(** [channel * dark] stored in a [uint32_t]. *)
Definition scale_channel (channel : Z) (dark : spec_float) : option Z :=
  uint32_of_trunc (F32.mul (F32.of_int channel) dark).

Definition shade (color : Z) (dark : spec_float) : option Z :=
  r ← scale_channel (Z.land (Z.shiftr color 16) 0xFF) dark;
  g ← scale_channel (Z.land (Z.shiftr color 8) 0xFF) dark;
  b ← scale_channel (Z.land color 0xFF) dark;
  Some (Z.lor (Z.lor (Z.lor 0xFF000000 ((Z.shiftl r 16) mod 2 ^ 32))
                     ((Z.shiftl g 8) mod 2 ^ 32)) b).

(** The texel of the sprite shown at the screen position (x, y). *)
Definition sprite_texel (v : View.t) (x y : Z) : option Z :=
  texX ← tex_coord (View.texX_start v) x (View.drawStartX v) (View.sprite_w v);
  texY ← tex_coord (View.texY_start v) y (View.drawStartY v) (View.sprite_h v);
  array_get (View.tex v) (wrap_int (wrap_int (texY * TEXTURE_SIZE) + texX)).

(** One iteration of the loop over [y]. *)
Definition sprite_pixel (v : View.t) (x y : Z) (pixels : list Z) : option (list Z) :=
  color ← sprite_texel v x y;
  if color =? TRANSPARENT then Some pixels
  else
    c ← shade color (sprite_dark (View.dist v));
    Some (r_drawpoint x y c pixels).

(** [for (y = first; y <= last; y++)], with [count = last - first + 1]. *)
Fixpoint sprite_strip (v : View.t) (x : Z) (y : Z) (count : nat)
    (pixels : list Z) : option (list Z) :=
  match count with
  | O => Some pixels
  | S count' =>
      pixels ← sprite_pixel v x y pixels;
      sprite_strip v x (wrap_int (y + 1)) count' pixels
  end.

(** The body of the loop over the screen columns [x] of a sprite. *)
Definition sprite_column (v : View.t) (wall_distances : list spec_float)
    (column_width x : Z) (pixels : list Z) : option (list Z) :=
  wall_d ← wall_distance_at wall_distances column_width x;
  if F32.ltb (F32.sub wall_d eps) (View.perpDist v) then Some pixels
  else sprite_strip v x (View.drawStartY v)
         (Z.to_nat (View.drawEndY v - View.drawStartY v + 1)) pixels.

(** Vocabulary of the statements about sprite columns. *)
Definition pixel_index (x y : Z) : nat := Z.to_nat (SCREEN_WIDTH * y + x).

(** What the loop over [y] has done to the pixel (x, y) of the framebuffer
    [after], starting from [before]. *)
Definition pixel_drawn (v : View.t) (x y : Z) (before after : list Z) : Prop :=
  exists color : Z,
    sprite_texel v x y = Some color /\
    ((color = TRANSPARENT /\ after !! pixel_index x y = before !! pixel_index x y)
     \/ (color <> TRANSPARENT /\
         exists c : Z, shade color (sprite_dark (View.dist v)) = Some c /\
                       after !! pixel_index x y = Some c)).

(** Structural equality of two floats, as a boolean. *)
Definition same_float (a b : spec_float) : bool :=
  match a, b with
  | S754_zero s1, S754_zero s2 => Bool.eqb s1 s2
  | S754_infinity s1, S754_infinity s2 => Bool.eqb s1 s2
  | S754_nan, S754_nan => true
  | S754_finite s1 m1 e1, S754_finite s2 m2 e2 =>
      Bool.eqb s1 s2 && (m1 =? m2)%positive && (e1 =? e2)
  | _, _ => false
  end.

(** The rays and the weight the interpolation is expected to use at the
    column [x] of the 3D viewport, whose columns are two pixels wide: ray
    [r] is drawn on the columns [1024 - 2r] and [1023 - 2r]. *)
Definition nearest_rays (x : Z) : Z * Z * spec_float :=
  let r0 := (1023 - x) / 2 in
  if r0 + 1 >=? RAY_COUNT then (r0, RAY_COUNT - 1, F32.of_int 0)
  else (r0, r0 + 1, if Z.even (1023 - x) then F32.lit 1 4 else F32.lit 3 4).

Definition wall_rays_ok (x : Z) : bool :=
  match wall_rays 2 x with
  | Some (r0, r1, t) =>
      let '(e0, e1, et) := nearest_rays x in
      (r0 =? e0) && (r1 =? e1) && same_float t et
  | None => false
  end.

(** A sprite 64 pixels wide and high at distance 100, seen in front of walls
    at distance 300; the first row of its texture is transparent. *)
Definition sample_view : View.t :=
  {| View.dist := F32.of_int 100; View.perpDist := F32.of_int 100;
     View.sprite_w := 64; View.sprite_h := 64;
     View.drawStartX := 700; View.drawEndX := 763;
     View.drawStartY := 92; View.drawEndY := 93;
     View.texX_start := 0; View.texY_start := 0;
     View.tex := replicate 64 TRANSPARENT ++ replicate 4032 0xFF8040C0 |}.

Definition sample_walls : list spec_float := replicate 256 (F32.of_int 300).

(** Vocabulary of the sorting invariants.  [closer s t]: the test of the
    sorting loop, [s.dist < t.dist]. *)
Definition closer (s t : Sprite.t) : bool := F32.ltb (Sprite.dist s) (Sprite.dist t).

(** No sprite among the first [p] is closer than a sprite behind it. *)
Definition settled (p : nat) (a : list Sprite.t) : Prop :=
  forall (k l : nat) (s t : Sprite.t), (k < p)%nat -> (k < l)%nat ->
    a !! k = Some s -> a !! l = Some t -> closer s t = false.

(** [a[i]] is not closer than any of [a[i+1 .. j-1]]. *)
Definition leads (i j : nat) (a : list Sprite.t) : Prop :=
  forall (k : nat) (s t : Sprite.t), (i < k < j)%nat ->
    a !! i = Some s -> a !! k = Some t -> closer s t = false.

(** The player as the program initialises it. *)
Definition initial_player : Player.t :=
  {| Player.x := F32.of_int 200; Player.y := F32.of_int 195;
     Player.dx := F32.lit 423 1000; Player.dy := F32.lit 906 1000;
     Player.angle := F32.of_int 295;
     Player.rays_d := replicate (Z.to_nat RAY_COUNT) (F32.of_int 0) |}.

(** ** Distance-based darkening of walls, floor and ceiling *)

(** The factor the colour channels of a wall strip are multiplied with:
    [wallDarkening], after the minimum and the darkening of vertical
    walls. *)
Definition wall_darkening (correctedDistance : spec_float) (hitVertical : bool)
    : spec_float :=
  let wallDarkening :=
    F32.sub (F32.of_int 1)
      (F32.div correctedDistance
         (F32.mul (F32.of_int MAP_CELL_SIZE) WALL_DISTANCE_DIMMING)) in
  let wallDarkening :=
    if F32.ltb wallDarkening WALL_MIN_BRIGHTNESS then WALL_MIN_BRIGHTNESS
    else wallDarkening in
  if hitVertical then F32.mul wallDarkening (F32.lit 8 10) else wallDarkening.

(** [darkening] of a floor pixel. *)
Definition floor_darkening (floorDistance : spec_float) : spec_float :=
  let darkening :=
    F32.sub (F32.of_int 1)
      (F32.div floorDistance
         (F32.mul (F32.of_int MAP_CELL_SIZE) FLOOR_DISTANCE_DIMMING)) in
  if F32.ltb darkening FLOOR_MIN_BRIGHTNESS then FLOOR_MIN_BRIGHTNESS
  else darkening.

(** [darkening] of a ceiling pixel. *)
Definition ceiling_darkening (ceilDistance : spec_float) : spec_float :=
  let darkening :=
    F32.mul
      (F32.sub (F32.of_int 1)
         (F32.div ceilDistance
            (F32.mul (F32.of_int MAP_CELL_SIZE) CEILING_DISTANCE_DIMMING)))
      (F32.lit 85 100) in
  if F32.ltb darkening CEILING_MIN_BRIGHTNESS then CEILING_MIN_BRIGHTNESS
  else darkening.

(** A camera at the start position that looks along the x axis: the ray of
    its facing direction has [rayDirX = cos(0) = 1] and
    [rayDirY = -sin(0) = -0]. *)
Definition east_player : Player.t :=
  {| Player.x := F32.of_int 200; Player.y := F32.of_int 195;
     Player.dx := F32.of_int 1; Player.dy := S754_zero true;
     Player.angle := F32.of_int 0;
     Player.rays_d := replicate (Z.to_nat RAY_COUNT) (F32.of_int 0) |}.

(** ** The ray loop of [r_raycast] and its distance buffers *)

(** What the ray loop reads and writes besides the framebuffer: the player
    (whose [rays_d] it fills), the local array [wall_distances] and the
    angle [rangle] of the current ray. *)
Module Rays.
Record t := {
  player : Player.t;
  wall_distances : list spec_float;
  rangle : spec_float
}.
End Rays.

Definition angle_step : spec_float :=
  F32.div (F32.of_int FOV) (F32.of_int RAY_COUNT).

(** [player.rays_d[r] = v]. *)
Definition set_rays_d (player : Player.t) (r : nat) (v : spec_float) : Player.t :=
  {| Player.x := Player.x player; Player.y := Player.y player;
     Player.dx := Player.dx player; Player.dy := Player.dy player;
     Player.angle := Player.angle player;
     Player.rays_d := <[r := v]> (Player.rays_d player) |}.

Section Libm.
(** [cos] and [sin] of the C library, on [double]. *)
Variables cos sin : spec_float -> spec_float.

(** [rayDirX] and [rayDirY] of the ray of angle [rangle]. *)
Definition ray_direction (rangle : spec_float) : spec_float * spec_float :=
  let rayAngleRad := m_deg_to_rad rangle in
  (F64.to_f32 (cos (F64.of_f32 rayAngleRad)),
   F64.to_f32 (SFopp (sin (F64.of_f32 rayAngleRad)))).

(** [distance * cos(m_deg_to_rad(rangle - player.angle))], assigned to a
    [float]: the product is a [double]. *)
Definition corrected_distance (distance rangle angle : spec_float) : spec_float :=
  F64.to_f32
    (F64.mul (F64.of_f32 distance)
       (cos (F64.of_f32 (m_deg_to_rad (F32.sub rangle angle))))).

(** The body of the ray loop for the ray of index [r], as far as the two
    distance buffers and [rangle] go; the drawing of the column writes to
    the framebuffer only. *)
Definition ray_step (r : nat) (st : Rays.t) : option Rays.t :=
  let '(rayDirX, rayDirY) := ray_direction (Rays.rangle st) in
  h ← cast_ray (Rays.player st) rayDirX rayDirY;
  let correctedDistance :=
    corrected_distance (Hit.distance (RayHit.wall h)) (Rays.rangle st)
      (Player.angle (Rays.player st)) in
  Some {| Rays.player := set_rays_d (Rays.player st) r correctedDistance;
          Rays.wall_distances := <[r := correctedDistance]> (Rays.wall_distances st);
          Rays.rangle := F32.add (Rays.rangle st) angle_step |}.

(** [for (r = ...; r < RAY_COUNT; r++)] with [n = RAY_COUNT - r] rays to go. *)
Fixpoint ray_loop (n r : nat) (st : Rays.t) : option Rays.t :=
  match n with
  | O => Some st
  | S n' => st' ← ray_step r st; ray_loop n' (S r) st'
  end.

(** The angle of the leftmost ray. *)
Definition first_rangle (player : Player.t) : spec_float :=
  F32.sub (Player.angle player) (F32.div (F32.of_int FOV) (F32.of_int 2)).

(** The ray loop of [r_raycast]; [wall_distances] is what the local array
    holds when the function is entered. *)
Definition r_raycast_rays (player : Player.t) (wall_distances : list spec_float)
    : option Rays.t :=
  ray_loop (Z.to_nat RAY_COUNT) 0
    {| Rays.player := player; Rays.wall_distances := wall_distances;
       Rays.rangle := first_rangle player |}.

(** The angle and the wall hit of the ray of index [r]. *)
Fixpoint ray_angle (player : Player.t) (r : nat) : spec_float :=
  match r with
  | O => first_rangle player
  | S r' => F32.add (ray_angle player r') angle_step
  end.

Definition ray_hit (player : Player.t) (r : nat) : option RayHit.t :=
  let '(rayDirX, rayDirY) := ray_direction (ray_angle player r) in
  cast_ray player rayDirX rayDirY.
End Libm.

(** Stand-ins for the cosine and the sine of the C library, to run the ray
    loop: the power series up to the term of degree [2 * terms], on
    [double]. *)
Fixpoint series (terms : nat) (k : Z) (x2 : spec_float) : spec_float :=
  match terms with
  | O => F64.of_int 1
  | S terms' =>
      F64.sub (F64.of_int 1)
        (F64.mul (F64.div x2 (F64.of_int (k * (k + 1))))
                 (series terms' (k + 2) x2))
  end.

Definition cos_series (x : spec_float) : spec_float :=
  series 24 1 (F64.mul x x).

Definition sin_series (x : spec_float) : spec_float :=
  F64.mul x (series 24 2 (F64.mul x x)).

(** The brightness of none of the surfaces is greater at the distance
    [d2] than at the distance [d1]. *)
Definition brightness_not_increasing (d1 d2 : spec_float) : Prop :=
  F32.leb (wall_darkening d2 false) (wall_darkening d1 false) = true /\
  F32.leb (wall_darkening d2 true) (wall_darkening d1 true) = true /\
  F32.leb (floor_darkening d2) (floor_darkening d1) = true /\
  F32.leb (ceiling_darkening d2) (ceiling_darkening d1) = true /\
  F32.leb (sprite_dark d2) (sprite_dark d1) = true.

(** At the distance [d] every surface has at least its minimum brightness,
    a vertical wall the minimum of the walls darkened by [0.8f]. *)
Definition brightness_bounded (d : spec_float) : Prop :=
  F32.leb WALL_MIN_BRIGHTNESS (wall_darkening d false) = true /\
  F32.leb (F32.mul WALL_MIN_BRIGHTNESS (F32.lit 8 10)) (wall_darkening d true) = true /\
  F32.leb FLOOR_MIN_BRIGHTNESS (floor_darkening d) = true /\
  F32.leb CEILING_MIN_BRIGHTNESS (ceiling_darkening d) = true /\
  F32.leb SPRITE_MIN_BRIGHTNESS (sprite_dark d) = true.

(** Neither an infinity nor a NaN. *)
Definition is_finite (x : spec_float) : bool :=
  match x with S754_zero _ | S754_finite _ _ _ => true | _ => false end.

(** The alpha channel of a pixel in the 0xAARRGGBB format. *)
Definition alpha_channel (p : Z) : Z := Z.land (Z.shiftr p 24) 0xFF.

(** ** Rounding of fractions to floating-point numbers *)

Definition loc_frac (r d : Z) : location :=
  if r =? 0 then loc_Exact else loc_Inexact (Z.compare (2 * r) d).

Definition located (N D : Z) : shr_record :=
  shr_record_of_loc (N / D) (loc_frac (N mod D) D).

Definition rne (N D : Z) : Z :=
  round_nearest_even (N / D) (loc_frac (N mod D) D).

Section RoundingDefs.
Variables prec emax : Z.

Definition shift_of (m e : Z) : Z :=
  Z.max 0 (fexp prec emax (Zdigits2 m + e) - e).

Definition pack (s : bool) (M g : Z) : spec_float :=
  let '(mrs, e) := shr_fexp prec emax M g loc_Exact in
  match shr_m mrs with
  | Z0 => S754_zero s
  | Zpos m => if e <=? emax - prec then S754_finite s m e else S754_infinity s
  | Zneg _ => S754_nan
  end.

Definition rnd (s : bool) (N D e : Z) : spec_float :=
  binary_round_aux prec emax s (N / D) e (loc_frac (N mod D) D).

Definition fine (m e : Z) : Prop := e <= fexp prec emax (Zdigits2 m + e).

Definition div_exp (mx ex my ey : Z) : Z :=
  Z.min (fexp prec emax (Zdigits2 mx + ex - (Zdigits2 my + ey))) (ex - ey).

Definition pad_of (m e : Z) : Z := Z.max 0 (e - fexp prec emax (Zdigits2 m + e)).

End RoundingDefs.

Definition nonneg (x : spec_float) : bool := SFleb (S754_zero false) x.

Definition nonpos (x : spec_float) : bool := SFleb x (S754_zero false).

(** ** Values of floating-point numbers *)

Section ValueDefs.
Variables prec emax : Z.

(** The value of a finite number, in multiples of the least positive number
    [2 ^ emin] of the format. *)
Definition val (x : spec_float) : Z :=
  match x with
  | S754_finite s m e => cond_Zopp s (Zpos m) * 2 ^ (e - emin prec emax)
  | _ => 0
  end.

(** A zero or a finite number of the format. *)
Definition fin (x : spec_float) : bool :=
  match x with
  | S754_zero _ => true
  | S754_finite _ m e => bounded prec emax m e
  | _ => false
  end.

(** The number one in multiples of [2 ^ emin]. *)
Definition unit_val : Z := 2 ^ (- emin prec emax).
End ValueDefs.

(** ** Rays from inside an empty cell *)

(** A hit of a wall: the hit point lies in a cell of the grid that holds the
    wall code reported, and the distance is a number below the distance
    1000000 of no hit. *)
Definition wall_hit (h : Hit.t) : Prop :=
  (exists a b : Z,
     cell_of (Hit.hitX h) = Some a /\ cell_of (Hit.hitY h) = Some b /\
     0 <= a < MAPX /\ 0 <= b < MAPY /\
     Hit.wallType h = cell_at Level.map (b * MAPX + a)) /\
  Hit.wallType h > 0 /\
  fin F32.prec F32.emax (Hit.distance h) = true /\
  0 <= val F32.prec F32.emax (Hit.distance h) <= 2048 * unit_val F32.prec F32.emax.

(** The player stands in the grid. *)
Definition in_grid (player : Player.t) : Prop :=
  fin F32.prec F32.emax (Player.x player) = true /\
  fin F32.prec F32.emax (Player.y player) = true /\
  0 <= val F32.prec F32.emax (Player.x player) <= 512 * unit_val F32.prec F32.emax /\
  0 <= val F32.prec F32.emax (Player.y player) <= 512 * unit_val F32.prec F32.emax.

(** A coordinate across the direction of a walk: in the grid. *)
Definition transverse (c : spec_float) : Prop :=
  fin F32.prec F32.emax c = true /\
  0 <= val F32.prec F32.emax c < 512 * unit_val F32.prec F32.emax.

(** A coordinate between [64 k - 1/64] and [64 k - 1/128]: just before
    the grid line [k]. *)
Definition before_line (k : Z) (c : spec_float) : Prop :=
  fin F32.prec F32.emax c = true /\
  (4096 * k - 1) * 2 ^ 143 <= val F32.prec F32.emax c <= (8192 * k - 1) * 2 ^ 142.

(** A coordinate on the grid line [k]. *)
Definition on_line (k : Z) (c : spec_float) : Prop :=
  fin F32.prec F32.emax c = true /\
  val F32.prec F32.emax c = 64 * k * unit_val F32.prec F32.emax.

(** The numbers [64 k - 1/64] and [64 k - 1/128]. *)
Definition line_lo (k : Z) : spec_float :=
  binary_normalize F32.prec F32.emax (4096 * k - 1) (-6) false.

Definition line_hi (k : Z) : spec_float :=
  binary_normalize F32.prec F32.emax (8192 * k - 1) (-7) false.

(** ** The 2D map view and the HUD *)

(** [r_drawplayer]: a square of 9 by 9 pixels. *)
Definition r_drawplayer (x y : Z) (color : Z) (pixels : list Z) : list Z :=
  foldl (fun pixels i =>
           foldl (fun pixels j =>
                    r_drawpoint (wrap_int (x + i)) (wrap_int (y + j)) color pixels)
                 pixels (seqZ 0 9))
        pixels (seqZ 0 9).

(** [r_drawrectangle]: the lines [y + i] for [i] from 0 to [size], both
    included ([size] below INT_MAX, so that [i++] does not overflow). *)
Definition r_drawrectangle (fuel : nat) (x y size : Z) (color : Z)
    (pixels : list Z) : option (list Z) :=
  foldl (fun acc i =>
           pixels ← acc;
           r_drawline fuel x (wrap_int (y + i)) (wrap_int (x + size)) (wrap_int (y + i))
             color pixels)
        (Some pixels) (seqZ 0 (size + 1)).

(** The values of [i] in [for (i = 0; i <= n * MAP_CELL_SIZE; i += MAP_CELL_SIZE)]. *)
Definition grid_lines (n : Z) : list Z :=
  (fun k => wrap_int (k * MAP_CELL_SIZE)) <$> seqZ 0 (n + 1).

(** [r_drawlevel]: the wall cells, then the horizontal and the vertical
    lines of the grid. *)
Definition r_drawlevel (fuel : nat) (pixels : list Z) : option (list Z) :=
  pixels ←
    foldl (fun acc i =>
             foldl (fun acc j =>
                      pixels ← acc;
                      if cell_at Level.map (wrap_int (i + wrap_int (j * MAPX))) >? 0
                      then r_drawrectangle fuel (wrap_int (i * MAP_CELL_SIZE))
                             (wrap_int (j * MAP_CELL_SIZE)) MAP_CELL_SIZE 0xff888888 pixels
                      else Some pixels)
                   acc (seqZ 0 MAPY))
          (Some pixels) (seqZ 0 MAPX);
  pixels ←
    foldl (fun acc i =>
             pixels ← acc;
             r_drawline fuel 0 i (wrap_int (MAPX * MAP_CELL_SIZE)) i 0xFF000000 pixels)
          (Some pixels) (grid_lines MAPY);
  foldl (fun acc i =>
           pixels ← acc;
           r_drawline fuel i 0 i (wrap_int (MAPY * MAP_CELL_SIZE)) 0xFF000000 pixels)
        (Some pixels) (grid_lines MAPX).

(** [pixels[i] = v]: a store outside the framebuffer is undefined. *)
Definition store (i : Z) (v : Z) (pixels : list Z) : option (list Z) :=
  if (0 <=? i) && (i <? Z.of_nat (length pixels))
  then Some (<[Z.to_nat i := v]> pixels) else None.

(** The two nested loops of [r_draw_hud] that copy an image of [w] by [h]
    pixels to the framebuffer from the index [base] on; the state is the
    framebuffer and the counter of the image pixels ([pistol_pixel],
    [hud_pixel]).  With [key = Some c] the pixels of colour [c] are not
    copied. *)
Definition blit (image : list Z) (key : option Z) (base w h : Z)
    (pixels : list Z) : option (list Z) :=
  fst <$>
  foldl (fun acc y =>
           foldl (fun acc x =>
                    '(pixels, n) ← acc;
                    c ← array_get image n;
                    if bool_decide (key = Some c) then Some (pixels, wrap_int (n + 1))
                    else
                      pixels ← store (wrap_int (wrap_int (base + wrap_int (y * 1024)) + x))
                                 c pixels;
                      Some (pixels, wrap_int (n + 1)))
                 acc (seqZ 0 w))
        (Some (pixels, 0)) (seqZ 0 h).

(** [r_draw_hud]; [pistol] and [hud] are pixel arrays of asset/assets.h. *)
Definition r_draw_hud (pistol hud : list Z) (fuel : nat) (pixels : list Z)
    : option (list Z) :=
  pixels ← r_drawline fuel 763 256 773 256 0xFF45FF17 pixels;
  pixels ← r_drawline fuel 768 251 768 261 0xFF45FF17 pixels;
  pixels ← blit pistol (Some 0xFFFF00FF) 390876 122 131 pixels;
  blit hud None 486258 142 38 pixels.

(** The pixels of a region get a colour, the others stay. *)
Definition painted (region : Z -> Z -> bool) (color : Z) (before after : list Z)
    : Prop :=
  length after = length before /\
  forall x y : Z, 0 <= x < SCREEN_WIDTH -> 0 <= y < SCREEN_HEIGHT ->
    after !! pixel_index x y
    = if region x y then Some color else before !! pixel_index x y.

(** The square of side [size + 1] with the corner (x0, y0). *)
Definition in_square (x0 y0 size x y : Z) : bool :=
  (x0 <=? x) && (x <=? x0 + size) && (y0 <=? y) && (y <=? y0 + size).

(** A point of the bounding box of the segment from (x0, y0) to (x1, y1)
    that lies within half a pixel of it, measured along the minor axis. *)
Definition near_line (x0 y0 x1 y1 : Z) (p : Z * Z) : Prop :=
  Z.min x0 x1 <= p.1 <= Z.max x0 x1 /\
  Z.min y0 y1 <= p.2 <= Z.max y0 y1 /\
  2 * Z.abs ((p.1 - x0) * (y1 - y0) - (p.2 - y0) * (x1 - x0))
    <= Z.max (Z.abs (x1 - x0)) (Z.abs (y1 - y0)).

(** A pixel on a line of the grid of the 2D map view. *)
Definition on_grid (x y : Z) : bool :=
  (x <=? MAPX * MAP_CELL_SIZE) && (y <=? MAPY * MAP_CELL_SIZE) &&
  ((x mod MAP_CELL_SIZE =? 0) || (y mod MAP_CELL_SIZE =? 0)).

(** A pixel of a wall cell of the 2D map view. *)
Definition wall_pixel (x y : Z) : bool :=
  (x <? MAPX * MAP_CELL_SIZE) && (y <? MAPY * MAP_CELL_SIZE) &&
  (cell_at Level.map (y / MAP_CELL_SIZE * MAPX + x / MAP_CELL_SIZE) >? 0).

(** The rectangle of [w] by [h] pixels with the upper left corner (x0, y0). *)
Definition in_box (x0 y0 w h x y : Z) : bool :=
  (x0 <=? x) && (x <? x0 + w) && (y0 <=? y) && (y <? y0 + h).

(** The pixel (x, y) of the screen after an image of [w] by [h] pixels has
    been laid over it at (x0, y0): the pixel of the image, unless it has the
    colour [key] or (x, y) lies outside the image, where [under] stays. *)
Definition overlay (image : list Z) (key : option Z) (x0 y0 w h x y : Z)
    (under : option Z) : option Z :=
  if in_box x0 y0 w h x y then
    match image !! Z.to_nat ((y - y0) * w + (x - x0)) with
    | Some c => if bool_decide (key = Some c) then under else Some c
    | None => under
    end
  else under.

(** The two lines of the crosshair. *)
Definition crosshair (x y : Z) : bool :=
  (y =? 256) && (763 <=? x) && (x <=? 773) || (x =? 768) && (251 <=? y) && (y <=? 261).

(** ** Keyboard input *)

(** A decimal literal [n / d] without suffix: the [double] nearest to the
    quotient. *)
Definition lit64 (n d : positive) : spec_float :=
  SFdiv F64.prec F64.emax (S754_finite false n 0) (S754_finite false d 0).

Section Inputs.
(** [cos] and [sin] of the C library, on [double]. *)
Variables cos sin : spec_float -> spec_float.

(** A rotation key: [player.angle += 1.8] (left) or [player.angle -= 1.8]
    (right), computed on [double], and the three assignments after it. *)
Definition turn (left : bool) (player : Player.t) : Player.t :=
  let angle :=
    F64.to_f32 ((if left then F64.add else F64.sub)
                  (F64.of_f32 (Player.angle player)) (lit64 18 10)) in
  let angle := m_fix_ang angle in
  {| Player.x := Player.x player; Player.y := Player.y player;
     Player.dx := F64.to_f32 (cos (F64.of_f32 (m_deg_to_rad angle)));
     Player.dy := F64.to_f32 (SFopp (sin (F64.of_f32 (m_deg_to_rad angle))));
     Player.angle := angle;
     Player.rays_d := Player.rays_d player |}.

(** A movement key: forward ([player.x + player.dx * 2.5]) or backward
    ([player.x - player.dx * 2.5]), each coordinate after its own
    collision test. *)
Definition move (forward : bool) (player : Player.t) : option Player.t :=
  let step := if forward then F64.add else F64.sub in
  let new_x :=
    F64.to_f32 (step (F64.of_f32 (Player.x player))
                  (F64.mul (F64.of_f32 (Player.dx player)) (lit64 25 10))) in
  let new_y :=
    F64.to_f32 (step (F64.of_f32 (Player.y player))
                  (F64.mul (F64.of_f32 (Player.dy player)) (lit64 25 10))) in
  cx ← check_collision new_x (Player.y player);
  let x := if (cx : bool) then Player.x player else new_x in
  cy ← check_collision x new_y;
  let y := if (cy : bool) then Player.y player else new_y in
  Some {| Player.x := x; Player.y := y;
          Player.dx := Player.dx player; Player.dy := Player.dy player;
          Player.angle := Player.angle player;
          Player.rays_d := Player.rays_d player |}.

(** The part of [process_inputs] that reads the keyboard state: the keys
    left (or A), right (or D), up (or W) and down (or S), in this order. *)
Definition process_keys (left right up down : bool) (player : Player.t)
    : option Player.t :=
  let player := if left then turn true player else player in
  let player := if right then turn false player else player in
  player ← (if up then move true player else Some player);
  if down then move false player else Some player.

(** One call per frame, for the key states of a sequence of frames. *)
Definition run_keys (frames : list (bool * bool * bool * bool))
    (player : Player.t) : option Player.t :=
  foldl (fun acc '(l, r, u, d) => player ← acc; process_keys l r u d player)
        (Some player) frames.
End Inputs.

(** The player stands where [check_collision] finds no obstacle. *)
Definition standing (player : Player.t) : Prop :=
  check_collision (Player.x player) (Player.y player) = Some false.

(** A player with a finite position in a free cell, a direction whose
    components lie between -1 and 1 and an angle between 0 and 360. *)
Definition sane (player : Player.t) : Prop :=
  fin F32.prec F32.emax (Player.x player) = true /\
  fin F32.prec F32.emax (Player.y player) = true /\
  standing player /\
  fin F32.prec F32.emax (Player.dx player) = true /\
  fin F32.prec F32.emax (Player.dy player) = true /\
  Z.abs (val F32.prec F32.emax (Player.dx player)) <= unit_val F32.prec F32.emax /\
  Z.abs (val F32.prec F32.emax (Player.dy player)) <= unit_val F32.prec F32.emax /\
  fin F32.prec F32.emax (Player.angle player) = true /\
  0 <= val F32.prec F32.emax (Player.angle player) <= 360 * unit_val F32.prec F32.emax.

(** ** The rows of a wall slice *)

(** [wallHeight] of the column of a ray with the corrected distance
    [correctedDistance]. *)
Definition wall_height (correctedDistance : spec_float) : spec_float :=
  F32.div (F32.of_int (wrap_int (MAP_CELL_SIZE * SCREEN_HEIGHT))) correctedDistance.

(** [wallTop] and [wallBottom]: the ceiling is drawn in the rows above
    [wallTop], the wall from [wallTop] up to [wallBottom - 1] and the floor
    from [wallBottom] on. *)
Definition wall_rows (wallHeight : spec_float) : option (Z * Z) :=
  if F32.ltb (F32.of_int SCREEN_HEIGHT) wallHeight then Some (0, SCREEN_HEIGHT)
  else
    wallTop ← int_of_trunc (F32.div (F32.sub (F32.of_int SCREEN_HEIGHT) wallHeight)
                                    (F32.of_int 2));
    wallBottom ← int_of_trunc (F32.add (F32.of_int wallTop) wallHeight);
    Some (wallTop, wallBottom).

(* ================================================================== *)
(** * Proofs *)
(* ================================================================== *)

Lemma wrap_int_small z : in_int z -> wrap_int z = z.
Proof.
  unfold in_int, INT_MIN, INT_MAX, wrap_int. intros H.
  rewrite Z.mod_small; lia.
Qed.

(** ** Framebuffer primitives *)

Lemma r_drawpoint_out x y color pixels :
  x < 0 \/ x >= SCREEN_WIDTH \/ y < 0 \/ y >= SCREEN_HEIGHT ->
  r_drawpoint x y color pixels = pixels.
Proof.
  intros H. unfold r_drawpoint.
  destruct (x <? 0) eqn:E1; [done|].
  destruct (x >=? SCREEN_WIDTH) eqn:E2; [done|].
  destruct (y <? 0) eqn:E3; [done|].
  destruct (y >=? SCREEN_HEIGHT) eqn:E4; [done|].
  lia.
Qed.

Lemma r_drawpoint_in x y color pixels :
  0 <= x < SCREEN_WIDTH -> 0 <= y < SCREEN_HEIGHT ->
  r_drawpoint x y color pixels
  = <[Z.to_nat (SCREEN_WIDTH * y + x) := color]> pixels.
Proof.
  unfold SCREEN_WIDTH, SCREEN_HEIGHT. intros Hx Hy. unfold r_drawpoint.
  unfold SCREEN_WIDTH, SCREEN_HEIGHT.
  replace ((x <? 0) || (x >=? 1024) || (y <? 0) || (y >=? 512)) with false
    by (symmetry; repeat (apply orb_false_intro); lia).
  rewrite (wrap_int_small (1024 * y))
    by (unfold in_int, INT_MIN, INT_MAX; lia).
  rewrite (wrap_int_small (1024 * y + x))
    by (unfold in_int, INT_MIN, INT_MAX; lia).
  cbv zeta.
  replace ((1024 * y + x <? 0) || (1024 * y + x >=? 1024 * 512)) with false
    by (symmetry; apply orb_false_intro; lia).
  reflexivity.
Qed.

(** C7.  A call of [r_drawpoint] with a coordinate outside the screen leaves
    the whole framebuffer as it was; a call with a coordinate on the screen
    stores [color] at index [SCREEN_WIDTH * y + x] and changes no other
    cell (nor the size of the buffer). *)
Theorem r_drawpoint_frame (x y color : Z) (pixels : list Z) :
  length pixels = Z.to_nat (SCREEN_WIDTH * SCREEN_HEIGHT) ->
  (x < 0 \/ x >= SCREEN_WIDTH \/ y < 0 \/ y >= SCREEN_HEIGHT ->
     r_drawpoint x y color pixels = pixels) /\
  (0 <= x < SCREEN_WIDTH -> 0 <= y < SCREEN_HEIGHT ->
     r_drawpoint x y color pixels !! Z.to_nat (SCREEN_WIDTH * y + x) = Some color /\
     length (r_drawpoint x y color pixels) = length pixels /\
     forall j : nat, j <> Z.to_nat (SCREEN_WIDTH * y + x) ->
       r_drawpoint x y color pixels !! j = pixels !! j).
Proof.
  intros Hlen. split; [apply r_drawpoint_out|].
  intros Hx Hy. rewrite r_drawpoint_in by assumption.
  split; [|split].
  - apply list_lookup_insert_eq. rewrite Hlen.
    unfold SCREEN_WIDTH, SCREEN_HEIGHT in *. lia.
  - apply length_insert.
  - intros j Hj. apply list_lookup_insert_ne. congruence.
Qed.

Lemma r_drawpoint_frame_witness :
  let pixels := replicate (Z.to_nat (SCREEN_WIDTH * SCREEN_HEIGHT)) 0 in
  r_drawpoint (-1) 7 0xFF00BBBB pixels = pixels /\
  r_drawpoint 3 512 0xFF00BBBB pixels = pixels /\
  r_drawpoint 3 2 0xFF00BBBB pixels !! 2051%nat = Some 0xFF00BBBB /\
  r_drawpoint 3 2 0xFF00BBBB pixels !! 2050%nat = pixels !! 2050%nat.
Proof.
  intros pixels.
  assert (Hlen : length pixels = Z.to_nat (SCREEN_WIDTH * SCREEN_HEIGHT))
    by apply length_replicate.
  split; [|split; [|split]].
  - apply (r_drawpoint_frame (-1) 7 0xFF00BBBB pixels Hlen). lia.
  - apply (r_drawpoint_frame 3 512 0xFF00BBBB pixels Hlen).
    unfold SCREEN_HEIGHT. lia.
  - apply (r_drawpoint_frame 3 2 0xFF00BBBB pixels Hlen);
      unfold SCREEN_WIDTH, SCREEN_HEIGHT; lia.
  - apply (r_drawpoint_frame 3 2 0xFF00BBBB pixels Hlen);
      unfold SCREEN_WIDTH, SCREEN_HEIGHT; lia.
Defined.

(** ** Clearing the framebuffer *)

Lemma length_pixels_to_bytes pixels :
  length (pixels_to_bytes pixels) = (4 * length pixels)%nat.
Proof.
  unfold pixels_to_bytes. induction pixels as [|p ps IH]; [reflexivity|].
  cbn [fmap list_fmap concat]. rewrite length_app, IH. cbn. lia.
Qed.

Lemma bytes_to_pixels_replicate (n : nat) (b : Z) :
  bytes_to_pixels (replicate (4 * n) b) = replicate n (bytes_pixel b b b b).
Proof.
  induction n as [|n IH]; [reflexivity|].
  replace (4 * S n)%nat with (S (S (S (S (4 * n))))) by lia.
  cbn [replicate bytes_to_pixels]. now rewrite IH.
Qed.

Lemma memset_all (s : list Z) (c n : Z) :
  length s = Z.to_nat n -> memset s c n = replicate (Z.to_nat n) (c mod 256).
Proof.
  intros H. unfold memset. rewrite drop_ge by lia. apply app_nil_r.
Qed.

(** C10.  After [r_clearscreenbuffer] every pixel of the framebuffer is
    0xBBBBBBBB: [memset] keeps only the low byte 0xBB of 0xFFBBBBBB and
    stores it in every byte, so the alpha channel of the background is 0xBB
    and not 0xFF. *)
Theorem r_clearscreenbuffer_uniform (pixels : list Z) :
  length pixels = Z.to_nat (SCREEN_WIDTH * SCREEN_HEIGHT) ->
  r_clearscreenbuffer pixels
    = replicate (Z.to_nat (SCREEN_WIDTH * SCREEN_HEIGHT)) 0xBBBBBBBB /\
  (forall i p, r_clearscreenbuffer pixels !! i = Some p ->
     p = 0xBBBBBBBB /\ alpha_channel p = 0xBB /\ alpha_channel p <> 0xFF).
Proof.
  intros Hlen.
  assert (E : r_clearscreenbuffer pixels
              = replicate (Z.to_nat (SCREEN_WIDTH * SCREEN_HEIGHT)) 0xBBBBBBBB).
  { unfold r_clearscreenbuffer. rewrite memset_all.
    - replace (Z.to_nat (4 * SCREEN_WIDTH * SCREEN_HEIGHT))
        with (4 * Z.to_nat (SCREEN_WIDTH * SCREEN_HEIGHT))%nat
        by (unfold SCREEN_WIDTH, SCREEN_HEIGHT; lia).
      apply bytes_to_pixels_replicate.
    - rewrite length_pixels_to_bytes, Hlen.
      unfold SCREEN_WIDTH, SCREEN_HEIGHT. lia. }
  split; [exact E|].
  intros i p Hi. rewrite E in Hi. apply lookup_replicate in Hi as [-> _].
  repeat split. discriminate.
Qed.

Lemma r_clearscreenbuffer_uniform_witness :
  r_clearscreenbuffer (replicate (Z.to_nat (SCREEN_WIDTH * SCREEN_HEIGHT)) 0xFF000000)
    !! 2051%nat = Some 0xBBBBBBBB.
Proof.
  pose proof (r_clearscreenbuffer_uniform
    (replicate (Z.to_nat (SCREEN_WIDTH * SCREEN_HEIGHT)) 0xFF000000)
    (length_replicate _ _)) as [E _].
  rewrite E. apply lookup_replicate_2.
  unfold SCREEN_WIDTH, SCREEN_HEIGHT. lia.
Defined.

(** ** Bresenham line drawing *)

Lemma r_drawline_loop_unfold {St} (plot : Z -> Z -> St -> St) fuel dx dy sx sy x1 y1 x0 y0 err st :
  r_drawline_loop plot (S fuel) dx dy sx sy x1 y1 x0 y0 err st =
  if (x0 =? x1) && (y0 =? y1) then Some (plot x0 y0 st)
  else r_drawline_loop plot fuel dx dy sx sy x1 y1
         (if err >? wrap_int (- dx) then wrap_int (x0 + sx) else x0)
         (if err <? dy then wrap_int (y0 + sy) else y0)
         (let err1 := if err >? wrap_int (- dx) then wrap_int (err - dy) else err in
          if err <? dy then wrap_int (err1 + dx) else err1)
         (plot x0 y0 st).
Proof.
  cbn [r_drawline_loop]. destruct ((x0 =? x1) && (y0 =? y1)); [reflexivity|].
  destruct (err >? wrap_int (- dx)); destruct (err <? dy); reflexivity.
Qed.

Section Line.
Variables dx dy sx sy x0 y0 x1 y1 : Z.
Hypothesis Hdx : 0 <= dx.
Hypothesis Hdy : 0 <= dy.
Hypothesis Hsx : sx = 1 \/ sx = -1.
Hypothesis Hsy : sy = 1 \/ sy = -1.
Hypothesis Hx1 : x1 = x0 + sx * dx.
Hypothesis Hy1 : y1 = y0 + sy * dy.
Hypothesis Hsum : dx + dy <= INT_MAX.
Hypothesis Hx0i : in_int x0.
Hypothesis Hx1i : in_int x1.
Hypothesis Hy0i : in_int y0.
Hypothesis Hy1i : in_int y1.

Let pts_loop := r_drawline_loop (fun x y pts => pts ++ [(x, y)]).

Lemma x_between a : 0 <= a <= dx -> in_int (x0 + sx * a).
  Proof. unfold in_int, INT_MIN, INT_MAX in *. nia. Qed.
Lemma y_between b : 0 <= b <= dy -> in_int (y0 + sy * b).
  Proof. unfold in_int, INT_MIN, INT_MAX in *. nia. Qed.

Lemma x_major_loop (n : nat) : dy < dx ->
    forall a b err acc,
      0 <= a -> a + Z.of_nat n = dx -> 0 <= b ->
      0 <= err < dx -> err = Z.quot dx 2 - a * dy + b * dx ->
      exists pts,
        pts_loop (S n) dx dy sx sy x1 y1 (x0 + sx * a) (y0 + sy * b) err acc
          = Some (acc ++ (x0 + sx * a, y0 + sy * b) :: pts)
        /\ last ((x0 + sx * a, y0 + sy * b) :: pts) = Some (x1, y1)
        /\ length pts = n.
  Proof.
    intros Hmajor. pose proof (Z.quot_div_nonneg dx 2 Hdx ltac:(lia)) as Hq.
    assert (Hh : 0 <= 2 * Z.quot dx 2 <= dx).
    { rewrite Hq. Z.div_mod_to_equations. lia. }
    clear Hq.
    induction n as [|n IH]; intros a b err acc Ha Han Hb Herr Heq.
    - (* a = dx: the end point *)
      assert (a = dx) by lia. subst a.
      assert (b = dy) by nia. subst b.
      exists []. unfold pts_loop. rewrite r_drawline_loop_unfold.
      rewrite <- Hx1, <- Hy1, !Z.eqb_refl. cbn [andb].
      split; [|split]; reflexivity.
    - unfold pts_loop. rewrite r_drawline_loop_unfold.
      assert (Hne : (x0 + sx * a =? x1) = false) by (apply Z.eqb_neq; nia).
      rewrite Hne. cbn [andb].
      assert (Hb1 : err < dy -> b + 1 <= dy) by nia.
      assert (Hb0 : b <= dy) by nia.
      rewrite (wrap_int_small (- dx)) by (unfold in_int, INT_MIN, INT_MAX in *; lia).
      replace (err >? - dx) with true by (symmetry; apply Z.gtb_lt; lia).
      rewrite (wrap_int_small (err - dy)) by (unfold in_int, INT_MIN, INT_MAX in *; lia).
      replace (x0 + sx * a + sx) with (x0 + sx * (a + 1)) by ring.
      rewrite (wrap_int_small (x0 + sx * (a + 1))) by (apply x_between; lia).
      destruct (Z.ltb_spec err dy) as [Hlt|Hge].
      + rewrite (wrap_int_small (err - dy + dx)) by (unfold in_int, INT_MIN, INT_MAX in *; lia).
        replace (y0 + sy * b + sy) with (y0 + sy * (b + 1)) by ring.
        rewrite (wrap_int_small (y0 + sy * (b + 1))) by (apply y_between; lia).
        destruct (IH (a + 1) (b + 1) (err - dy + dx) (acc ++ [(x0 + sx * a, y0 + sy * b)]))
          as (pts & E & Hl & Hn); try lia.
        exists ((x0 + sx * (a + 1), y0 + sy * (b + 1)) :: pts).
        fold pts_loop. rewrite E. rewrite <- app_assoc. split; [reflexivity|].
        split; [exact Hl| cbn; lia].
      + cbv zeta.
        destruct (IH (a + 1) b (err - dy) (acc ++ [(x0 + sx * a, y0 + sy * b)]))
          as (pts & E & Hl & Hn); try lia.
        exists ((x0 + sx * (a + 1), y0 + sy * b) :: pts).
        fold pts_loop. rewrite E. rewrite <- app_assoc. split; [reflexivity|].
        split; [exact Hl| cbn; lia].
  Qed.

Lemma y_major_loop (n : nat) : dx <= dy ->
    forall a b err acc,
      0 <= a <= dx -> 0 <= b -> b + Z.of_nat n = dy ->
      (0 < dy -> - dy < err <= 0) -> err = Z.quot (- dy) 2 - a * dy + b * dx ->
      exists pts,
        pts_loop (S n) dx dy sx sy x1 y1 (x0 + sx * a) (y0 + sy * b) err acc
          = Some (acc ++ (x0 + sx * a, y0 + sy * b) :: pts)
        /\ last ((x0 + sx * a, y0 + sy * b) :: pts) = Some (x1, y1)
        /\ length pts = n.
  Proof.
    intros Hmajor.
    assert (Hh : 0 <= - (2 * Z.quot (- dy) 2) <= dy).
    { rewrite Z.quot_opp_l, Z.quot_div_nonneg by lia.
      Z.div_mod_to_equations. lia. }
    induction n as [|n IH]; intros a b err acc Ha Hb Hbn Herr Heq.
    - assert (b = dy) by lia. subst b.
      assert (a = dx) by nia. subst a.
      exists []. unfold pts_loop. rewrite r_drawline_loop_unfold.
      rewrite <- Hx1, <- Hy1, !Z.eqb_refl. cbn [andb].
      split; [|split]; reflexivity.
    - unfold pts_loop. rewrite r_drawline_loop_unfold.
      assert (Hne : (y0 + sy * b =? y1) = false) by (apply Z.eqb_neq; nia).
      rewrite Hne, andb_false_r.
      assert (Herr' : - dy < err <= 0) by (apply Herr; lia). clear Herr.
      assert (Ha1 : err > - dx -> a + 1 <= dx) by nia.
      rewrite (wrap_int_small (- dx)) by (unfold in_int, INT_MIN, INT_MAX in *; lia).
      replace (err <? dy) with true by (symmetry; apply Z.ltb_lt; lia).
      replace (y0 + sy * b + sy) with (y0 + sy * (b + 1)) by ring.
      rewrite (wrap_int_small (y0 + sy * (b + 1))) by (apply y_between; lia).
      destruct (Z.gtb_spec err (- dx)) as [Hgt|Hle]; cbv beta iota zeta.
      + rewrite (wrap_int_small (err - dy)) by (unfold in_int, INT_MIN, INT_MAX in *; lia).
        rewrite (wrap_int_small (err - dy + dx)) by (unfold in_int, INT_MIN, INT_MAX in *; lia).
        replace (x0 + sx * a + sx) with (x0 + sx * (a + 1)) by ring.
        rewrite (wrap_int_small (x0 + sx * (a + 1))) by (apply x_between; lia).
        destruct (IH (a + 1) (b + 1) (err - dy + dx) (acc ++ [(x0 + sx * a, y0 + sy * b)]))
          as (pts & E & Hl & Hn); try lia.
        exists ((x0 + sx * (a + 1), y0 + sy * (b + 1)) :: pts).
        fold pts_loop. rewrite E. rewrite <- app_assoc. split; [reflexivity|].
        split; [exact Hl| cbn; lia].
      + rewrite (wrap_int_small (err + dx)) by (unfold in_int, INT_MIN, INT_MAX in *; lia).
        destruct (IH a (b + 1) (err + dx) (acc ++ [(x0 + sx * a, y0 + sy * b)]))
          as (pts & E & Hl & Hn); try lia.
        exists ((x0 + sx * a, y0 + sy * (b + 1)) :: pts).
        fold pts_loop. rewrite E. rewrite <- app_assoc. split; [reflexivity|].
        split; [exact Hl| cbn; lia].
  Qed.
End Line.

Lemma r_drawline_loop_acc fuel dx dy sx sy x1 y1 x0 y0 err acc :
  r_drawline_loop (fun x y pts => pts ++ [(x, y)]) fuel dx dy sx sy x1 y1 x0 y0 err acc
  = (app acc) <$>
    r_drawline_loop (fun x y pts => pts ++ [(x, y)]) fuel dx dy sx sy x1 y1 x0 y0 err [].
Proof.
  revert x0 y0 err acc. induction fuel as [|fuel IH]; intros x0 y0 err acc; [reflexivity|].
  rewrite !r_drawline_loop_unfold.
  destruct ((x0 =? x1) && (y0 =? y1)); [reflexivity|].
  rewrite IH. rewrite (IH _ _ _ ([] ++ _)).
  rewrite <- option_fmap_compose. apply option_fmap_ext.
  intros pts. cbn. now rewrite <- app_assoc.
Qed.

Lemma r_drawline_loop_plot {St} (plot : Z -> Z -> St -> St)
    fuel dx dy sx sy x1 y1 x0 y0 err st :
  r_drawline_loop plot fuel dx dy sx sy x1 y1 x0 y0 err st
  = foldl (fun s p => plot p.1 p.2 s) st <$>
    r_drawline_loop (fun x y pts => pts ++ [(x, y)]) fuel dx dy sx sy x1 y1 x0 y0 err [].
Proof.
  revert x0 y0 err st. induction fuel as [|fuel IH]; intros x0 y0 err st; [reflexivity|].
  rewrite !r_drawline_loop_unfold.
  destruct ((x0 =? x1) && (y0 =? y1)); [reflexivity|].
  rewrite IH, (r_drawline_loop_acc _ _ _ _ _ _ _ _ _ _ ([] ++ _)).
  rewrite <- option_fmap_compose. apply option_fmap_ext.
  intros pts. reflexivity.
Qed.

Lemma r_drawline_loop_fuel {St} (plot : Z -> Z -> St -> St)
    fuel k dx dy sx sy x1 y1 x0 y0 err st r :
  r_drawline_loop plot fuel dx dy sx sy x1 y1 x0 y0 err st = Some r ->
  r_drawline_loop plot (fuel + k) dx dy sx sy x1 y1 x0 y0 err st = Some r.
Proof.
  revert x0 y0 err st. induction fuel as [|fuel IH]; intros x0 y0 err st; [discriminate|].
  replace (S fuel + k)%nat with (S (fuel + k)) by lia.
  rewrite !r_drawline_loop_unfold.
  destruct ((x0 =? x1) && (y0 =? y1)); [done|]. apply IH.
Qed.

(** C8 (amended).  For end points whose coordinate differences fit an [int]
    ([|x1 - x0| + |y1 - y0| <= INT_MAX]), [r_drawline] terminates: it plots
    [max |x1 - x0| |y1 - y0| + 1] points, the first of which is (x0, y0) and
    the last (x1, y1), and no wrap-around occurs.  The loop works on
    integers only.  The framebuffer it returns is the one obtained by
    calling [r_drawpoint] on these points in order. *)
Theorem r_drawline_endpoints (x0 y0 x1 y1 : Z) :
  in_int x0 -> in_int y0 -> in_int x1 -> in_int y1 ->
  Z.abs (x1 - x0) + Z.abs (y1 - y0) <= INT_MAX ->
  exists pts : list (Z * Z),
    head pts = Some (x0, y0) /\ last pts = Some (x1, y1) /\
    length pts = S (Z.to_nat (Z.max (Z.abs (x1 - x0)) (Z.abs (y1 - y0)))) /\
    forall fuel : nat, (length pts <= fuel)%nat ->
      r_drawline_points fuel x0 y0 x1 y1 = Some pts /\
      forall color pixels,
        r_drawline fuel x0 y0 x1 y1 color pixels
        = Some (foldl (fun px p => r_drawpoint p.1 p.2 color px) pixels pts).
Proof.
  intros Hx0 Hy0 Hx1 Hy1 Hsum.
  set (dx := Z.abs (x1 - x0)) in *. set (dy := Z.abs (y1 - y0)) in *.
  set (sx := if x0 <? x1 then 1 else -1).
  set (sy := if y0 <? y1 then 1 else -1).
  assert (Edx : (if x1 >? x0 then wrap_int (x1 - x0) else wrap_int (x0 - x1)) = dx).
  { unfold dx. destruct (Z.gtb_spec x1 x0);
      rewrite wrap_int_small; unfold in_int, INT_MIN, INT_MAX in *; lia. }
  assert (Edy : (if y1 >? y0 then wrap_int (y1 - y0) else wrap_int (y0 - y1)) = dy).
  { unfold dy. destruct (Z.gtb_spec y1 y0);
      rewrite wrap_int_small; unfold in_int, INT_MIN, INT_MAX in *; lia. }
  assert (Hsx : sx = 1 \/ sx = -1) by (unfold sx; destruct (x0 <? x1); auto).
  assert (Hsy : sy = 1 \/ sy = -1) by (unfold sy; destruct (y0 <? y1); auto).
  assert (Ex1 : x1 = x0 + sx * dx)
    by (unfold sx, dx; destruct (Z.ltb_spec x0 x1); lia).
  assert (Ey1 : y1 = y0 + sy * dy)
    by (unfold sy, dy; destruct (Z.ltb_spec y0 y1); lia).
  assert (Hdx : 0 <= dx) by (unfold dx; lia).
  assert (Hdy : 0 <= dy) by (unfold dy; lia).
  assert (Hloop : exists pts,
    r_drawline_loop (fun x y pts => pts ++ [(x, y)])
      (S (Z.to_nat (Z.max dx dy))) dx dy sx sy x1 y1 x0 y0
      (Z.quot (if dx >? dy then dx else wrap_int (- dy)) 2) []
      = Some ((x0, y0) :: pts)
    /\ last ((x0, y0) :: pts) = Some (x1, y1)
    /\ length pts = Z.to_nat (Z.max dx dy)).
  { destruct (Z.gtb_spec dx dy) as [Hgt|Hle].
    - destruct (x_major_loop dx dy sx sy x0 y0 x1 y1 Hdx Hdy Hsx Hsy Ex1 Ey1 Hsum
                  Hx0 Hx1 Hy0 Hy1 (Z.to_nat dx) Hgt 0 0 (Z.quot dx 2) [])
        as (pts & E & Hl & Hn); try lia.
      { rewrite Z.quot_div_nonneg by lia. Z.div_mod_to_equations. lia. }
      rewrite !Z.mul_0_r, !Z.add_0_r in E, Hl.
      exists pts. rewrite Z.max_l by lia. auto.
    - rewrite (wrap_int_small (- dy)) by (unfold in_int, INT_MIN, INT_MAX in *; lia).
      destruct (y_major_loop dx dy sx sy x0 y0 x1 y1 Hdx Hdy Hsx Hsy Ex1 Ey1 Hsum
                  Hx0 Hx1 Hy0 Hy1 (Z.to_nat dy) Hle 0 0 (Z.quot (- dy) 2) [])
        as (pts & E & Hl & Hn); try lia.
      { rewrite Z.quot_opp_l, Z.quot_div_nonneg by lia.
        Z.div_mod_to_equations. lia. }
      rewrite !Z.mul_0_r, !Z.add_0_r in E, Hl.
      exists pts. rewrite Z.max_r by lia. auto. }
  destruct Hloop as (pts & E & Hl & Hn).
  exists ((x0, y0) :: pts). split; [reflexivity|]. split; [exact Hl|].
  split; [cbn [length]; rewrite Hn; reflexivity|].
  intros fuel Hfuel. cbn [length] in Hfuel.
  assert (Ef : fuel = (S (Z.to_nat (Z.max dx dy)) + (fuel - S (Z.to_nat (Z.max dx dy))))%nat)
    by lia.
  apply (r_drawline_loop_fuel _ _ (fuel - S (Z.to_nat (Z.max dx dy)))) in E.
  rewrite <- Ef in E.
  assert (Epts : r_drawline_points fuel x0 y0 x1 y1 = Some ((x0, y0) :: pts)).
  { unfold r_drawline_points, r_drawline_with. rewrite Edx, Edy. exact E. }
  split; [exact Epts|].
  intros color pixels. unfold r_drawline, r_drawline_with.
  rewrite r_drawline_loop_plot. rewrite Edx, Edy. fold sx sy. rewrite E. reflexivity.
Qed.

Lemma r_drawline_endpoints_witness :
  exists pts : list (Z * Z),
    head pts = Some (763, 256) /\ last pts = Some (773, 256) /\
    length pts = 11%nat /\
    r_drawline_points 11 763 256 773 256 = Some pts.
Proof.
  destruct (r_drawline_endpoints 763 256 773 256) as (pts & Hh & Hl & Hn & Hf);
    try (unfold in_int, INT_MIN, INT_MAX; lia).
  exists pts. split; [exact Hh|]. split; [exact Hl|]. split; [exact Hn|].
  apply Hf. rewrite Hn. apply Nat.le_refl.
Defined.

(** The claim as stated (every pair of [int] end points) fails at the far
    ends of the [int] range: [x1 - x0] wraps to [-1], neither step is ever
    taken, and the loop plots (INT_MIN, 0) for ever. *)
Lemma r_drawline_wraps_forever :
  in_int INT_MIN /\ in_int INT_MAX /\
  forall fuel : nat, r_drawline_points fuel INT_MIN 0 INT_MAX 0 = None.
Proof.
  split; [unfold in_int, INT_MIN, INT_MAX; lia|].
  split; [unfold in_int, INT_MIN, INT_MAX; lia|].
  intros fuel. unfold r_drawline_points, r_drawline_with.
  replace (INT_MAX >? INT_MIN) with true by reflexivity.
  replace (INT_MIN <? INT_MAX) with true by reflexivity.
  replace (wrap_int (INT_MAX - INT_MIN)) with (-1) by reflexivity.
  replace (0 >? 0) with false by reflexivity.
  replace (0 <? 0) with false by reflexivity.
  replace (wrap_int (0 - 0)) with 0 by reflexivity.
  cbv zeta.
  replace (Z.quot (if -1 >? 0 then -1 else wrap_int (- 0)) 2) with 0 by reflexivity.
  enough (H : forall acc, r_drawline_loop (fun x y pts => pts ++ [(x, y)]) fuel
                          (-1) 0 1 (-1) INT_MAX 0 INT_MIN 0 0 acc = None) by apply H.
  induction fuel as [|fuel IH]; intros acc; [reflexivity|].
  rewrite r_drawline_loop_unfold.
  replace (INT_MIN =? INT_MAX) with false by reflexivity.
  replace (0 >? wrap_int (- -1)) with false by reflexivity.
  replace (0 <? 0) with false by reflexivity.
  cbv beta iota zeta. apply IH.
Qed.

(** ** Collision probe *)

Lemma cell_at_nonneg (grid : list Z) (i : Z) :
  Forall (fun v => 0 <= v) grid -> 0 <= cell_at grid i.
Proof.
  intros H. unfold cell_at. destruct (grid !! Z.to_nat i) as [v|] eqn:E; [|cbn; lia].
  cbn. exact (proj1 (Forall_lookup _ _) H _ _ E).
Qed.

Lemma map_nonneg : Forall (fun v => 0 <= v) Level.map.
Proof. unfold Level.map. repeat constructor; lia. Qed.

Lemma map_sprites_nonneg : Forall (fun v => 0 <= v) Level.map_sprites.
Proof. unfold Level.map_sprites. repeat constructor; lia. Qed.

(** C4.  [check_collision] is a function of the two coordinates alone (it
    reads the two constant grids and writes nothing).  With (mapX, mapY) the
    cell obtained by floor-dividing the coordinates by the cell size, it
    answers [true] exactly when the cell is outside the grid, or the wall
    grid is nonzero there, or the sprite grid holds a code from 1 to 7
    there; so it answers [false] on a cell with wall code 0 and sprite code
    0 or 8, and [true] outside the grid. *)
Theorem check_collision_spec (x y : spec_float) (mapX mapY : Z) :
  cell_of x = Some mapX -> cell_of y = Some mapY ->
  let outside := mapX < 0 \/ mapX >= MAPX \/ mapY < 0 \/ mapY >= MAPY in
  let wall := cell_at Level.map (mapY * MAPX + mapX) in
  let sprite := cell_at Level.map_sprites (mapY * MAPX + mapX) in
  exists b : bool,
    check_collision x y = Some b /\
    (b = true <-> outside \/ wall <> 0 \/ 1 <= sprite <= 7) /\
    (outside -> b = true) /\
    (~ outside -> wall = 0 -> sprite = 0 \/ sprite = 8 -> b = false).
Proof.
  intros Hx Hy outside wall sprite.
  unfold check_collision. rewrite Hx, Hy. cbn [mbind option_bind].
  destruct ((mapX <? 0) || (mapX >=? MAPX) || (mapY <? 0) || (mapY >=? MAPY)) eqn:Hout.
  - assert (Ho : outside).
    { unfold outside. rewrite !orb_true_iff in Hout. lia. }
    exists true. split; [reflexivity|]. tauto.
  - rewrite !orb_false_iff in Hout.
    assert (Hno : ~ outside) by (unfold outside; lia).
    rewrite (wrap_int_small (mapY * MAPX))
      by (unfold in_int, INT_MIN, INT_MAX, MAPX, MAPY in *; lia).
    rewrite (wrap_int_small (mapY * MAPX + mapX))
      by (unfold in_int, INT_MIN, INT_MAX, MAPX, MAPY in *; lia).
    fold wall sprite.
    pose proof (cell_at_nonneg Level.map (mapY * MAPX + mapX) map_nonneg) as Hw.
    pose proof (cell_at_nonneg Level.map_sprites (mapY * MAPX + mapX)
                  map_sprites_nonneg) as Hs.
    fold wall in Hw. fold sprite in Hs.
    destruct (Z.gtb_spec wall 0) as [Hw1|Hw1].
    { exists true. split; [reflexivity|]. split; [split; [lia|reflexivity]|].
      split; [reflexivity|]. lia. }
    destruct (Z.gtb_spec sprite 0) as [Hs1|Hs1]; cbn [andb].
    + destruct (Z.ltb_spec sprite 8) as [Hs2|Hs2].
      * exists true. split; [reflexivity|]. split; [split; [lia|reflexivity]|].
        split; [reflexivity|]. lia.
      * exists false. split; [reflexivity|].
        split; [split; [discriminate|intros [?|[?|?]]; [tauto|lia|lia]]|].
        split; [tauto|reflexivity].
    + exists false. split; [reflexivity|].
      split; [split; [discriminate|intros [?|[?|?]]; [tauto|lia|lia]]|].
      split; [tauto|reflexivity].
Qed.

Lemma check_collision_spec_witness :
  check_collision (F32.of_int 200) (F32.of_int 195) = Some false /\
  check_collision (F32.of_int 100) (F32.of_int 100) = Some true /\
  check_collision (F32.of_int 600) (F32.of_int 100) = Some true.
Proof.
  split; [|split].
  - destruct (check_collision_spec (F32.of_int 200) (F32.of_int 195) 3 3)
      as (b & E & _ & _ & Hf); [reflexivity..|].
    rewrite E. f_equal. apply Hf.
    + unfold MAPX, MAPY. lia.
    + reflexivity.
    + left. reflexivity.
  - destruct (check_collision_spec (F32.of_int 100) (F32.of_int 100) 1 1)
      as (b & E & Ht & _ & _); [reflexivity..|].
    rewrite E. f_equal. apply Ht. right. right. vm_compute. split; discriminate.
  - destruct (check_collision_spec (F32.of_int 600) (F32.of_int 100) 9 1)
      as (b & E & _ & Ho & _); [reflexivity..|].
    rewrite E. f_equal. apply Ho. unfold MAPX. lia.
Defined.

(** ** Order facts on [SFcompare] *)

Lemma SFcompare_swap (a b : spec_float) :
  SFcompare b a = CompOpp <$> SFcompare a b.
Proof.
  destruct a as [sa|sa| |sa ma ea], b as [sb|sb| |sb mb eb]; cbn;
    try reflexivity; try (destruct sa; reflexivity); try (destruct sb; reflexivity);
    try (destruct sa, sb; reflexivity).
  change (Pos.compare_cont Eq mb ma) with (Pos.compare mb ma).
  change (Pos.compare_cont Eq ma mb) with (Pos.compare ma mb).
  destruct sa, sb; try reflexivity;
    destruct (Z.compare_spec ea eb); destruct (Z.compare_spec eb ea); try lia;
    try reflexivity;
    destruct (Pos.compare_spec ma mb); destruct (Pos.compare_spec mb ma); try lia;
    reflexivity.
Qed.

Lemma SFltb_asym (a b : spec_float) : SFltb a b = true -> SFltb b a = false.
Proof.
  unfold SFltb. rewrite (SFcompare_swap a b).
  destruct (SFcompare a b) as [[]|]; cbn; congruence.
Qed.

Lemma SFltb_false_leb (a b : spec_float) :
  is_nan a = false -> is_nan b = false -> SFltb a b = false -> SFleb b a = true.
Proof.
  unfold SFltb, SFleb. rewrite (SFcompare_swap a b). intros Ha Hb.
  destruct (SFcompare a b) as [[]|] eqn:E; cbn; try congruence.
  destruct a, b; cbn in *; discriminate.
Qed.

Lemma SFcompare_finite_Lt s1 m1 e1 s2 m2 e2 :
  SFcompare (S754_finite s1 m1 e1) (S754_finite s2 m2 e2) = Some Lt <->
  match s1, s2 with
  | true, false => True
  | false, true => False
  | false, false => e1 < e2 \/ (e1 = e2 /\ (m1 < m2)%positive)
  | true, true => e2 < e1 \/ (e1 = e2 /\ (m2 < m1)%positive)
  end.
Proof.
  cbn. change (Pos.compare_cont Eq m1 m2) with (Pos.compare m1 m2).
  destruct s1, s2; try (split; [trivial|reflexivity]); try (split; [discriminate|tauto]);
    destruct (Z.compare_spec e1 e2) as [He|He|He];
    destruct (Pos.compare_spec m1 m2) as [Hm|Hm|Hm]; cbn;
    split; intros Hc; try discriminate Hc; try reflexivity; try lia.
Qed.

Lemma SFltb_trans (a b c : spec_float) :
  SFltb a b = true -> SFltb b c = true -> SFltb a c = true.
Proof.
  unfold SFltb.
  destruct (SFcompare a b) as [[]|] eqn:Eab; try discriminate.
  destruct (SFcompare b c) as [[]|] eqn:Ebc; try discriminate.
  intros _ _.
  enough (SFcompare a c = Some Lt) as -> by reflexivity.
  destruct a as [sa|sa| |sa ma ea], b as [sb|sb| |sb mb eb], c as [sc|sc| |sc mc ec];
    try discriminate Eab; try discriminate Ebc;
    repeat match goal with
    | H : SFcompare (S754_finite _ _ _) (S754_finite _ _ _) = Some Lt |- _ =>
        apply SFcompare_finite_Lt in H
    | |- SFcompare (S754_finite _ _ _) (S754_finite _ _ _) = Some Lt =>
        apply SFcompare_finite_Lt
    end;
    repeat match goal with s : bool |- _ => destruct s end;
    cbn in *; try congruence; try tauto; lia.
Qed.

(** ** Sorting the sprites *)

Section SpriteSort.
Implicit Types (sprites a : list Sprite.t) (s t : Sprite.t) (i j k l p : nat).

Lemma swap_if_closer_length i j a : length (swap_if_closer i j a) = length a.
Proof.
  unfold swap_if_closer.
  destruct (a !! i) as [si|]; [|reflexivity].
  destruct (a !! j) as [sj|]; [|reflexivity].
  destruct (F32.ltb _ _); [|reflexivity].
  now rewrite !length_insert.
Qed.

Lemma swap_Permutation {A} (xs : list A) i j (x y : A) :
  i <> j -> xs !! i = Some x -> xs !! j = Some y ->
  <[j := x]> (<[i := y]> xs) ≡ₚ xs.
Proof.
  intros Hij Hi Hj.
  assert (Hli : (i < length xs)%nat) by (eapply lookup_lt_Some; eauto).
  assert (Hlj : (j < length xs)%nat) by (eapply lookup_lt_Some; eauto).
  set (xs1 := <[i := y]> xs).
  assert (H1j : xs1 !! j = Some y)
    by (unfold xs1; rewrite list_lookup_insert_ne by done; exact Hj).
  assert (H1i : xs1 !! i = Some y)
    by (unfold xs1; apply list_lookup_insert_eq; exact Hli).
  assert (H2j : <[j := x]> xs1 !! j = Some x)
    by (apply list_lookup_insert_eq; unfold xs1; rewrite length_insert; exact Hlj).
  pose proof (delete_Permutation _ _ _ Hi) as P0.
  pose proof (delete_Permutation _ _ _ H1i) as P1.
  pose proof (delete_Permutation _ _ _ H1j) as P1j.
  pose proof (delete_Permutation _ _ _ H2j) as P2.
  assert (D1 : delete i xs1 = delete i xs).
  { unfold xs1. rewrite !delete_take_drop, take_insert_ge, drop_insert_lt by lia.
    reflexivity. }
  assert (D2 : delete j (<[j := x]> xs1) = delete j xs1).
  { rewrite !delete_take_drop, take_insert_ge, drop_insert_lt by lia. reflexivity. }
  rewrite D1 in P1. rewrite D2 in P2.
  apply (Permutation_cons_inv (a := y)), (Permutation_cons_inv (a := x)).
  transitivity (x :: x :: xs1).
  - apply perm_skip. rewrite P2. rewrite P1j at 2. apply perm_swap.
  - rewrite P1. rewrite P0 at 2. apply perm_skip, perm_swap.
Qed.

Lemma swap_if_closer_Permutation i j a : i <> j -> swap_if_closer i j a ≡ₚ a.
Proof.
  intros Hij. unfold swap_if_closer.
  destruct (a !! i) as [si|] eqn:Hi; [|reflexivity].
  destruct (a !! j) as [sj|] eqn:Hj; [|reflexivity].
  destruct (F32.ltb _ _); [|reflexivity].
  now apply swap_Permutation.
Qed.

Lemma swap_if_closer_lookup i j a s t :
  i <> j -> a !! i = Some s -> a !! j = Some t ->
  (closer s t = true /\ swap_if_closer i j a !! i = Some t /\
   swap_if_closer i j a !! j = Some s /\
   forall k, k <> i -> k <> j -> swap_if_closer i j a !! k = a !! k)
  \/ (closer s t = false /\ swap_if_closer i j a = a).
Proof.
  intros Hij Hi Hj. unfold swap_if_closer. rewrite Hi, Hj. fold (closer s t).
  destruct (closer s t); [left|right; done].
  assert (Hli : (i < length a)%nat) by (eapply lookup_lt_Some; eauto).
  assert (Hlj : (j < length a)%nat) by (eapply lookup_lt_Some; eauto).
  split; [done|]. split; [|split].
  - rewrite list_lookup_insert_ne by done. now apply list_lookup_insert_eq.
  - apply list_lookup_insert_eq. now rewrite length_insert.
  - intros k Hki Hkj. now rewrite !list_lookup_insert_ne by done.
Qed.

Lemma closer_asym s t : closer s t = true -> closer t s = false.
Proof. apply SFltb_asym. Qed.

Lemma closer_trans s t u : closer s t = true -> closer t u = true -> closer s u = true.
Proof. apply SFltb_trans. Qed.

Lemma swap_if_closer_settled p i j a :
  (p <= i)%nat -> (i < j)%nat -> settled p a -> settled p (swap_if_closer i j a).
Proof.
  intros Hpi Hij Hs.
  destruct (a !! i) as [si|] eqn:Hi;
    [|unfold swap_if_closer; now rewrite Hi].
  destruct (a !! j) as [sj|] eqn:Hj;
    [|unfold swap_if_closer; now rewrite Hi, Hj].
  destruct (swap_if_closer_lookup i j a si sj) as [(Hc & Ei & Ej & Ek)|[_ ->]];
    [lia|done..| |done].
  intros k l s t Hk Hkl Hsk Htl.
  rewrite Ek in Hsk by lia.
  destruct (decide (l = i)) as [->|Hli].
  { rewrite Ei in Htl. injection Htl as <-. eapply (Hs k j); eauto; lia. }
  destruct (decide (l = j)) as [->|Hlj].
  { rewrite Ej in Htl. injection Htl as <-. eapply (Hs k i); eauto; lia. }
  rewrite Ek in Htl by done. eapply (Hs k l); eauto.
Qed.

Lemma swap_if_closer_leads i j a :
  (i < j)%nat -> leads i j a -> leads i (S j) (swap_if_closer i j a).
Proof.
  intros Hij Hl.
  destruct (a !! i) as [si|] eqn:Hi.
  2:{ unfold swap_if_closer. rewrite Hi. intros k s t _ Hs. congruence. }
  destruct (a !! j) as [sj|] eqn:Hj.
  2:{ unfold swap_if_closer. rewrite Hi, Hj. intros k s t Hk Hs Ht.
      destruct (decide (k = j)) as [->|]; [congruence|].
      eapply (Hl k); eauto; lia. }
  destruct (swap_if_closer_lookup i j a si sj) as [(Hc & Ei & Ej & Ek)|[Hc ->]];
    [lia|done..| |].
  - intros k s t Hk Hs Ht. rewrite Ei in Hs. injection Hs as <-.
    destruct (decide (k = j)) as [->|Hkj].
    + rewrite Ej in Ht. injection Ht as <-. now apply closer_asym.
    + rewrite Ek in Ht by lia.
      assert (Hsi : closer si t = false) by (eapply (Hl k); eauto; lia).
      destruct (closer sj t) eqn:E; [|done].
      rewrite (closer_trans si sj t Hc E) in Hsi. done.
  - intros k s t Hk Hs Ht.
    destruct (decide (k = j)) as [->|Hkj]; [congruence|].
    eapply (Hl k); eauto; lia.
Qed.

Lemma inner_loop_spec i c : forall j a,
  (i < j)%nat -> settled i a -> leads i j a ->
  let a' := foldl (fun sprites j => swap_if_closer i j sprites) a (seq j c) in
  settled i a' /\ leads i (j + c) a' /\ length a' = length a /\ a' ≡ₚ a.
Proof.
  induction c as [|c IH]; intros j a Hij Hs Hl; cbn [seq foldl].
  - rewrite Nat.add_0_r. done.
  - destruct (IH (S j) (swap_if_closer i j a)) as (Hs' & Hl' & Hlen & Hp).
    + lia.
    + apply swap_if_closer_settled; [lia|done|done].
    + now apply swap_if_closer_leads.
    + cbn zeta. split; [exact Hs'|]. split.
      * replace (j + S c)%nat with (S j + c)%nat by lia. exact Hl'.
      * split.
        -- now rewrite Hlen, swap_if_closer_length.
        -- rewrite Hp. apply swap_if_closer_Permutation. lia.
Qed.

Lemma outer_loop_spec n c : forall i a,
  length a = n -> settled i a ->
  let a' := foldl (fun sprites i =>
                     foldl (fun sprites j => swap_if_closer i j sprites)
                           sprites (seq (S i) (n - S i)))
                  a (seq i c) in
  settled (i + c) a' /\ length a' = n /\ a' ≡ₚ a.
Proof.
  induction c as [|c IH]; intros i a Hn Hs; cbn [seq foldl].
  - rewrite Nat.add_0_r. done.
  - destruct (inner_loop_spec i (n - S i) (S i) a) as (Hs1 & Hl1 & Hlen1 & Hp1);
      [lia|done|intros k s t Hk; lia|].
    set (a1 := foldl _ a (seq (S i) (n - S i))) in *.
    destruct (IH (S i) a1) as (Hs' & Hlen' & Hp').
    + congruence.
    + intros k l s t Hk Hkl Hsk Htl.
      destruct (decide (k = i)) as [->|Hki].
      * apply (Hl1 l); [|done..].
        apply lookup_lt_Some in Htl. lia.
      * apply (Hs1 k l); [lia|done..].
    + cbn zeta. split; [|split].
      * replace (i + S c)%nat with (S i + c)%nat by lia. exact Hs'.
      * exact Hlen'.
      * now rewrite Hp'.
Qed.

Lemma pairwise_StronglySorted {A} (R : A -> A -> Prop) (xs : list A) :
  (forall k l x y, (k < l)%nat -> xs !! k = Some x -> xs !! l = Some y -> R x y) ->
  StronglySorted R xs.
Proof.
  induction xs as [|x xs IH]; intros H; constructor.
  - apply IH. intros k l y z Hkl Hy Hz. apply (H (S k) (S l)); [lia|done..].
  - apply Forall_lookup. intros l y Hy. apply (H 0%nat (S l)); [lia|done..].
Qed.

Lemma sort_sprites_spec sprites :
  sort_sprites sprites ≡ₚ sprites /\
  StronglySorted (fun s t => closer s t = false) (sort_sprites sprites).
Proof.
  unfold sort_sprites.
  destruct (outer_loop_spec (length sprites) (length sprites - 1) 0%nat sprites)
    as (Hs & Hlen & Hp); [done|intros k l s t Hk; lia|].
  cbn zeta in *. split; [exact Hp|].
  apply pairwise_StronglySorted. intros k l s t Hkl Hsk Htl.
  apply (Hs k l); [|done..].
  apply lookup_lt_Some in Htl. lia.
Qed.
End SpriteSort.

Lemma StronglySorted_weaken {A} (P : A -> Prop) (R1 R2 : A -> A -> Prop) (xs : list A) :
  (forall x y, P x -> P y -> R1 x y -> R2 x y) ->
  Forall P xs -> StronglySorted R1 xs -> StronglySorted R2 xs.
Proof.
  intros HR HP HS. induction HS as [|x xs HS IH Hx]; constructor.
  - apply IH. now inversion HP.
  - inversion HP as [|? ? Px Pxs]; subst.
    apply Forall_forall. intros y Hy.
    apply HR; [done| |].
    + exact (proj1 (Forall_forall _ _) Pxs y Hy).
    + exact (proj1 (Forall_forall _ _) Hx y Hy).
Qed.

(** C5.  The sort of [r_render_sprites] returns a permutation of the
    sprites it is given (those collected from the sprite grid), ordered far
    to near: no sprite is closer to the camera than a sprite that follows
    it, that is, when no distance is a NaN, the distances are
    non-increasing.  Three sprites at distances 10, 50 and 30 come out in
    the order 50, 30, 10. *)
Theorem sort_sprites_far_to_near (sprites : list Sprite.t) :
  sort_sprites sprites ≡ₚ sprites /\
  StronglySorted
    (fun s t => F32.ltb (Sprite.dist s) (Sprite.dist t) = false)
    (sort_sprites sprites) /\
  (Forall (fun s => is_nan (Sprite.dist s) = false) sprites ->
   StronglySorted
     (fun s t => F32.leb (Sprite.dist t) (Sprite.dist s) = true)
     (sort_sprites sprites)) /\
  (forall a b c : Sprite.t,
     Sprite.dist a = F32.of_int 10 -> Sprite.dist b = F32.of_int 50 ->
     Sprite.dist c = F32.of_int 30 ->
     sort_sprites [a; b; c] = [b; c; a]).
Proof.
  destruct (sort_sprites_spec sprites) as [Hp Hs].
  split; [exact Hp|]. split; [exact Hs|]. split.
  - intros Hnan.
    apply (StronglySorted_weaken
             (fun s => is_nan (Sprite.dist s) = false)
             (fun s t => closer s t = false)); [| |exact Hs].
    + intros s t Hx Hy Hc. now apply SFltb_false_leb.
    + now rewrite Hp.
  - intros a b c Ha Hb Hc. unfold sort_sprites, swap_if_closer.
    repeat (cbn; rewrite ?Ha, ?Hb, ?Hc;
            try match goal with
                | |- context [F32.ltb (F32.of_int ?x) (F32.of_int ?y)] =>
                    let v := eval vm_compute in (F32.ltb (F32.of_int x) (F32.of_int y)) in
                    change (F32.ltb (F32.of_int x) (F32.of_int y)) with v
                end).
    reflexivity.
Qed.

Lemma sort_sprites_far_to_near_witness :
  Forall (fun s => is_nan (Sprite.dist s) = false) (collect_sprites initial_player) /\
  sort_sprites (collect_sprites initial_player) ≡ₚ collect_sprites initial_player /\
  StronglySorted
     (fun s t => F32.leb (Sprite.dist t) (Sprite.dist s) = true)
     (sort_sprites (collect_sprites initial_player)).
Proof.
  assert (H : Forall (fun s => is_nan (Sprite.dist s) = false)
                (collect_sprites initial_player)).
  { vm_compute. repeat constructor. }
  split; [exact H|].
  destruct (sort_sprites_far_to_near (collect_sprites initial_player))
    as (Hp & _ & Hs & _).
  split; [exact Hp|exact (Hs H)].
Defined.

(** ** The closer of the two hits *)

Lemma SFcompare_refl (a : spec_float) : is_nan a = false -> SFcompare a a = Some Eq.
Proof.
  destruct a as [s|s| |s m e]; cbn; try discriminate; intros _;
    try (destruct s; reflexivity).
  change (Pos.compare_cont Eq m m) with (Pos.compare m m).
  rewrite Z.compare_refl, Pos.compare_refl. destruct s; reflexivity.
Qed.

Lemma SFleb_refl (a : spec_float) : is_nan a = false -> SFleb a a = true.
Proof. intros H. unfold SFleb. now rewrite SFcompare_refl. Qed.

Lemma SFltb_leb (a b : spec_float) : SFltb a b = true -> SFleb a b = true.
Proof. unfold SFltb, SFleb. destruct (SFcompare a b) as [[]|]; congruence. Qed.

Lemma SFeqb_not_ltb (a b : spec_float) : SFeqb a b = true -> SFltb a b = false.
Proof. unfold SFltb, SFeqb. destruct (SFcompare a b) as [[]|]; congruence. Qed.

(** C1 (amended).  The wall hit of a ray is the result of the horizontal
    test when its distance is strictly smaller than that of the vertical
    test, and the result of the vertical test otherwise; so a tie goes to
    the vertical hit (flag [hitVertical] set, hit point, material and
    distance of the vertical test).  Unless a distance is a NaN, the
    distance reported is the smaller of the two. *)
Theorem cast_ray_closer_hit (player : Player.t) (rayDirX rayDirY : spec_float)
    (H V : Hit.t) (nH nV : nat) :
  horizontal_test player rayDirX rayDirY = Some (H, nH) ->
  vertical_test player rayDirX rayDirY = Some (V, nV) ->
  cast_ray player rayDirX rayDirY = Some (closer_hit H V) /\
  (F32.ltb (Hit.distance H) (Hit.distance V) = true ->
     closer_hit H V = {| RayHit.wall := H; RayHit.hitVertical := false |}) /\
  (F32.ltb (Hit.distance H) (Hit.distance V) = false ->
     closer_hit H V = {| RayHit.wall := V; RayHit.hitVertical := true |}) /\
  (F32.eqb (Hit.distance H) (Hit.distance V) = true ->
     closer_hit H V = {| RayHit.wall := V; RayHit.hitVertical := true |}) /\
  (is_nan (Hit.distance H) = false -> is_nan (Hit.distance V) = false ->
     F32.leb (Hit.distance (RayHit.wall (closer_hit H V))) (Hit.distance H) = true /\
     F32.leb (Hit.distance (RayHit.wall (closer_hit H V))) (Hit.distance V) = true).
Proof.
  intros EH EV. split.
  { unfold cast_ray. rewrite EH, EV. reflexivity. }
  unfold closer_hit, F32.ltb, F32.eqb, F32.leb.
  split; [intros ->; reflexivity|].
  split; [intros ->; reflexivity|].
  split; [intros E; now rewrite (SFeqb_not_ltb _ _ E)|].
  intros NH NV.
  destruct (SFltb (Hit.distance H) (Hit.distance V)) eqn:E; cbn.
  - split; [now apply SFleb_refl|now apply SFltb_leb].
  - split; [now apply SFltb_false_leb|now apply SFleb_refl].
Qed.

Lemma cast_ray_closer_hit_witness :
  cast_ray corner_player (Player.dx corner_player) (Player.dy corner_player)
  = Some {| RayHit.wall := corner_hit; RayHit.hitVertical := true |}.
Proof.
  destruct (cast_ray_closer_hit corner_player
              (Player.dx corner_player) (Player.dy corner_player)
              corner_hit corner_hit 1 1 eq_refl eq_refl) as (E & _ & _ & Htie & _).
  rewrite E, Htie by reflexivity. reflexivity.
Defined.

(** The claim as stated (a tie resolves to the horizontal hit) fails for the
    ray through the corner of the cell: both tests hit at the same distance
    and the ray is recorded as a vertical hit. *)
Lemma cast_ray_tie_is_vertical :
  horizontal_test corner_player (Player.dx corner_player) (Player.dy corner_player)
    = Some (corner_hit, 1%nat) /\
  vertical_test corner_player (Player.dx corner_player) (Player.dy corner_player)
    = Some (corner_hit, 1%nat) /\
  RayHit.hitVertical <$>
    cast_ray corner_player (Player.dx corner_player) (Player.dy corner_player)
    = Some true.
Proof. split; [|split]; vm_compute; reflexivity. Qed.

(** ** Sprite columns and the depth test *)

Lemma pixel_index_inj x y y' :
  0 <= x < SCREEN_WIDTH -> 0 <= y -> 0 <= y' ->
  pixel_index x y = pixel_index x y' -> y = y'.
Proof. unfold pixel_index, SCREEN_WIDTH. lia. Qed.

Lemma sprite_strip_spec (v : View.t) (x : Z) :
  0 <= x < SCREEN_WIDTH ->
  forall (count : nat) (y : Z) (pixels pixels' : list Z),
    0 <= y -> y + Z.of_nat count <= SCREEN_HEIGHT ->
    length pixels = Z.to_nat (SCREEN_WIDTH * SCREEN_HEIGHT) ->
    sprite_strip v x y count pixels = Some pixels' ->
    length pixels' = length pixels /\
    (forall y', y <= y' < y + Z.of_nat count -> pixel_drawn v x y' pixels pixels') /\
    (forall j : nat, (forall y', y <= y' < y + Z.of_nat count -> j <> pixel_index x y') ->
       pixels' !! j = pixels !! j).
Proof.
  intros Hx. induction count as [|count IH]; intros y pixels pixels' Hy Hend Hlen E.
  - cbn in E. injection E as <-. split; [done|]. split; [lia|done].
  - cbn [sprite_strip] in E.
    destruct (sprite_pixel v x y pixels) as [pixels1|] eqn:E1; [|discriminate].
    cbn [mbind option_bind] in E.
    rewrite (wrap_int_small (y + 1)) in E
      by (unfold in_int, INT_MIN, INT_MAX, SCREEN_HEIGHT in *; lia).
    (* the pixel of row [y] *)
    assert (H1 : length pixels1 = length pixels /\ pixel_drawn v x y pixels pixels1 /\
                 forall j, j <> pixel_index x y -> pixels1 !! j = pixels !! j).
    { unfold sprite_pixel in E1.
      destruct (sprite_texel v x y) as [color|] eqn:Et; [|discriminate].
      cbn [mbind option_bind] in E1.
      destruct (Z.eqb_spec color TRANSPARENT) as [Hc|Hc].
      - injection E1 as <-. split; [done|]. split; [|done].
        exists color. split; [done|]. left. done.
      - destruct (shade color (sprite_dark (View.dist v))) as [c|] eqn:Es; [|discriminate].
        cbn [mbind option_bind] in E1. injection E1 as <-.
        destruct (r_drawpoint_frame x y c pixels Hlen) as [_ Hin].
        destruct Hin as (Hw & Hl & Hf); [lia|unfold SCREEN_HEIGHT in *; lia|].
        split; [exact Hl|]. split; [|exact Hf].
        exists color. split; [done|]. right. split; [done|]. exists c. done. }
    destruct H1 as (Hlen1 & Hd1 & Hf1).
    destruct (IH (y + 1) pixels1 pixels') as (Hlen' & Hd' & Hf');
      [lia|lia|congruence|exact E|].
    split; [congruence|]. split.
    + intros y' Hy'. destruct (Z.eq_dec y' y) as [->|Hne].
      * destruct Hd1 as (color & Et & Hcase). exists color. split; [done|].
        rewrite Hf'.
        2:{ intros y2 Hy2 Hj. apply pixel_index_inj in Hj; lia. }
        exact Hcase.
      * destruct (Hd' y') as (color & Et & Hcase); [lia|].
        exists color. split; [done|].
        rewrite <- Hf1; [exact Hcase|].
        intros Hj. apply pixel_index_inj in Hj; lia.
    + intros j Hj. rewrite Hf'.
      * apply Hf1. apply Hj. lia.
      * intros y' Hy'. apply Hj. lia.
Qed.

Lemma same_float_eq a b : same_float a b = true -> a = b.
Proof.
  destruct a as [s1|s1| |s1 m1 e1], b as [s2|s2| |s2 m2 e2]; cbn; try discriminate;
    try reflexivity.
  - intros H. apply Bool.eqb_prop in H. congruence.
  - intros H. apply Bool.eqb_prop in H. congruence.
  - rewrite !andb_true_iff. intros [[H1 H2] H3].
    apply Bool.eqb_prop in H1. apply Pos.eqb_eq in H2. apply Z.eqb_eq in H3.
    congruence.
Qed.

Lemma wall_rays_viewport (x : Z) :
  512 <= x < SCREEN_WIDTH -> wall_rays 2 x = Some (nearest_rays x).
Proof.
  intros Hx.
  assert (Hall : forallb wall_rays_ok (seqZ 512 512) = true) by (vm_compute; reflexivity).
  rewrite forallb_forall in Hall.
  assert (Hin : In x (seqZ 512 512)).
  { apply list_elem_of_In, elem_of_seqZ. unfold SCREEN_WIDTH in Hx. lia. }
  specialize (Hall x Hin). unfold wall_rays_ok in Hall.
  destruct (wall_rays 2 x) as [[[r0 r1] t]|]; [|discriminate].
  destruct (nearest_rays x) as [[e0 e1] et].
  rewrite !andb_true_iff in Hall. destruct Hall as [[H0 H1] Ht].
  apply Z.eqb_eq in H0, H1. apply same_float_eq in Ht. congruence.
Qed.


Lemma sample_view_column (pixels : list Z) :
  sprite_column sample_view sample_walls 2 700 pixels
  = Some (r_drawpoint 700 93 4285347492 pixels).
Proof.
  unfold sprite_column.
  replace (wall_distance_at sample_walls 2 700) with (Some (F32.of_int 300))
    by (vm_compute; reflexivity).
  cbn [mbind option_bind].
  replace (F32.ltb (F32.sub (F32.of_int 300) eps) (View.perpDist sample_view))
    with false by (vm_compute; reflexivity).
  replace (Z.to_nat (View.drawEndY sample_view - View.drawStartY sample_view + 1))
    with 2%nat by reflexivity.
  cbn [sprite_strip]. unfold sprite_pixel.
  replace (sprite_texel sample_view 700 (View.drawStartY sample_view))
    with (Some TRANSPARENT) by (vm_compute; reflexivity).
  cbn [mbind option_bind]. rewrite Z.eqb_refl.
  replace (wrap_int (View.drawStartY sample_view + 1)) with 93 by reflexivity.
  replace (sprite_texel sample_view 700 93)
    with (Some 0xFF8040C0) by (vm_compute; reflexivity).
  cbn [mbind option_bind].
  replace (0xFF8040C0 =? TRANSPARENT) with false by reflexivity.
  replace (shade 0xFF8040C0 (sprite_dark (View.dist sample_view)))
    with (Some 4285347492) by (vm_compute; reflexivity).
  reflexivity.
Qed.


(** ** Rounding: monotonicity of the arithmetic operations *)

(** * Rounding in [SpecFloat]: the fraction behind a located mantissa *)

(** ** Number of binary digits *)

Lemma digits2_pos_bounds (m : positive) :
  2 ^ (Zpos (digits2_pos m) - 1) <= Zpos m < 2 ^ Zpos (digits2_pos m).
Proof.
  induction m as [m IH|m IH|]; cbn [digits2_pos].
  - rewrite Pos2Z.inj_succ.
    replace (Z.succ (Zpos (digits2_pos m)) - 1) with (Z.succ (Zpos (digits2_pos m) - 1)) by lia.
    rewrite !Z.pow_succ_r by lia. lia.
  - rewrite Pos2Z.inj_succ.
    replace (Z.succ (Zpos (digits2_pos m)) - 1) with (Z.succ (Zpos (digits2_pos m) - 1)) by lia.
    rewrite !Z.pow_succ_r by lia. lia.
  - cbn. lia.
Qed.

Lemma Zdigits2_nonneg (z : Z) : 0 <= Zdigits2 z.
Proof. destruct z; cbn; lia. Qed.

Lemma Zdigits2_bounds (z : Z) :
  0 < z -> 2 ^ (Zdigits2 z - 1) <= z < 2 ^ Zdigits2 z.
Proof. destruct z as [|m|m]; try lia. intros _. apply digits2_pos_bounds. Qed.

Lemma Zdigits2_unique (z d : Z) :
  2 ^ (d - 1) <= z < 2 ^ d -> 0 < z -> Zdigits2 z = d.
Proof.
  intros H Hz. pose proof (Zdigits2_bounds z Hz) as Hb.
  assert (0 < d).
  { destruct (Z.le_gt_cases d 0) as [Hd|]; [|lia].
    destruct (Z.eq_dec d 0) as [->|]; [cbn in H; lia|].
    rewrite (Z.pow_neg_r 2 d) in H by lia. lia. }
  pose proof (Zdigits2_nonneg z).
  destruct (Z.lt_trichotomy (Zdigits2 z) d) as [Hlt|[Heq|Hgt]]; [|done|].
  - assert (2 ^ Zdigits2 z <= 2 ^ (d - 1)) by (apply Z.pow_le_mono_r; lia). lia.
  - assert (2 ^ d <= 2 ^ (Zdigits2 z - 1)) by (apply Z.pow_le_mono_r; lia). lia.
Qed.

Lemma Zdigits2_mono (a b : Z) : 0 <= a <= b -> Zdigits2 a <= Zdigits2 b.
Proof.
  intros H. destruct (Z.eq_dec a 0) as [->|]; [apply Zdigits2_nonneg|].
  pose proof (Zdigits2_bounds a ltac:(lia)). pose proof (Zdigits2_bounds b ltac:(lia)).
  destruct (Z.le_gt_cases (Zdigits2 a) (Zdigits2 b)) as [|Hgt]; [done|].
  assert (2 ^ Zdigits2 b <= 2 ^ (Zdigits2 a - 1)) by (apply Z.pow_le_mono_r; lia). lia.
Qed.

Lemma Zdigits2_shift (z k : Z) :
  0 < z -> 0 <= k -> Zdigits2 (z * 2 ^ k) = Zdigits2 z + k.
Proof.
  intros Hz Hk. pose proof (Zdigits2_bounds z Hz) as Hb.
  pose proof (Zdigits2_nonneg z).
  assert (0 < 2 ^ k) by (apply Z.pow_pos_nonneg; lia).
  assert (0 < Zdigits2 z).
  { destruct z; try lia. cbn. lia. }
  apply Zdigits2_unique; [|nia].
  replace (Zdigits2 z + k - 1) with ((Zdigits2 z - 1) + k) by lia.
  rewrite !Z.pow_add_r by lia. nia.
Qed.

Lemma Zdigits2_div_pow (z n : Z) :
  0 < z -> 0 <= n -> 2 ^ n <= z -> Zdigits2 (z / 2 ^ n) = Zdigits2 z - n.
Proof.
  intros Hz Hn Hle. pose proof (Zdigits2_bounds z Hz) as Hb.
  assert (Hp : 0 < 2 ^ n) by (apply Z.pow_pos_nonneg; lia).
  assert (Hq : 0 < z / 2 ^ n) by (apply Z.div_str_pos; lia).
  assert (Hd : n < Zdigits2 z).
  { destruct (Z.le_gt_cases (Zdigits2 z) n); [|lia].
    assert (2 ^ Zdigits2 z <= 2 ^ n) by (apply Z.pow_le_mono_r; lia). lia. }
  apply Zdigits2_unique; [|done].
  replace (Zdigits2 z) with ((Zdigits2 z - n) + n) in Hb at 2 by lia.
  replace (Zdigits2 z - 1) with ((Zdigits2 z - n - 1) + n) in Hb by lia.
  rewrite !Z.pow_add_r in Hb by lia.
  split.
  - apply Z.div_le_lower_bound; lia.
  - apply Z.div_lt_upper_bound; lia.
Qed.

(** ** Located fractions

    A nonnegative fraction [N / D] is carried through the rounding functions
    as its integer part and the position of the rest with respect to one
    half. *)



Lemma loc_of_shr_record_of_loc m l :
  loc_of_shr_record (shr_record_of_loc m l) = l.
Proof. destruct l as [|[]]; reflexivity. Qed.

Lemma shr_m_located N D : shr_m (located N D) = N / D.
Proof. unfold located. destruct (loc_frac _ _) as [|[]]; reflexivity. Qed.

Lemma loc_of_located N D :
  loc_of_shr_record (located N D) = loc_frac (N mod D) D.
Proof. apply loc_of_shr_record_of_loc. Qed.

Lemma shr_1_nonneg (m : Z) (r s : bool) :
  0 <= m ->
  shr_1 {| shr_m := m; shr_r := r; shr_s := s |}
  = {| shr_m := m / 2; shr_r := Z.odd m; shr_s := r || s |}.
Proof.
  intros Hm. destruct m as [|[p|p|]|p]; try lia; cbn [shr_1].
  - reflexivity.
  - replace (Z.pos p~1 / 2) with (Z.pos p)
      by (rewrite Pos2Z.inj_xI; Z.div_mod_to_equations; lia).
    reflexivity.
  - replace (Z.pos p~0 / 2) with (Z.pos p)
      by (rewrite Pos2Z.inj_xO; Z.div_mod_to_equations; lia).
    reflexivity.
  - reflexivity.
Qed.

Lemma shr_record_of_loc_fields m l :
  shr_record_of_loc m l
  = {| shr_m := m;
       shr_r := match l with loc_Inexact Eq | loc_Inexact Gt => true | _ => false end;
       shr_s := match l with loc_Inexact Lt | loc_Inexact Gt => true | _ => false end |}.
Proof. destruct l as [|[]]; reflexivity. Qed.

(** One shift to the right doubles the denominator. *)
Lemma shr_1_located (N D : Z) :
  0 <= N -> 0 < D -> shr_1 (located N D) = located N (2 * D).
Proof.
  intros HN HD. unfold located.
  assert (Hm : 0 <= N / D) by (apply Z.div_pos; lia).
  pose proof (Z.mod_pos_bound N D HD) as Hr.
  pose proof (Z.div_mod N D ltac:(lia)) as HND.
  set (m := N / D) in *. set (r := N mod D) in *.
  pose proof (Z.div_mod m 2 ltac:(lia)) as Hm2.
  pose proof (Z.mod_pos_bound m 2 ltac:(lia)) as Hm2b.
  assert (Hq : N / (2 * D) = m / 2 /\ N mod (2 * D) = (m mod 2) * D + r).
  { assert (Hb : 0 <= m mod 2 * D + r < 2 * D) by nia.
    assert (He : N = 2 * D * (m / 2) + (m mod 2 * D + r)) by nia.
    split; symmetry.
    - exact (Z.div_unique_pos _ _ _ _ Hb He).
    - exact (Z.mod_unique_pos _ _ _ _ Hb He). }
  destruct Hq as [-> ->].
  rewrite (shr_record_of_loc_fields m), shr_1_nonneg by done.
  rewrite (shr_record_of_loc_fields (m / 2)).
  rewrite Zodd_mod. unfold loc_frac.
  destruct (Z.eqb_spec (m mod 2) 1) as [H1|H1].
  - rewrite H1.
    replace (1 * D + r =? 0) with false by (symmetry; apply Z.eqb_neq; lia).
    destruct (Z.eqb_spec r 0) as [Hr0|Hr0].
    + replace (2 * (1 * D + r) ?= 2 * D) with Eq
        by (symmetry; apply Z.compare_eq_iff; lia).
      reflexivity.
    + replace (2 * (1 * D + r) ?= 2 * D) with Gt
        by (symmetry; apply Z.compare_gt_iff; lia).
      destruct (2 * r ?= D); reflexivity.
  - assert (H0 : m mod 2 = 0) by lia. rewrite H0.
    replace (0 * D + r) with r by lia.
    destruct (Z.eqb_spec r 0) as [Hr0|Hr0]; [reflexivity|].
    replace (2 * r ?= 2 * D) with Lt by (symmetry; apply Z.compare_lt_iff; lia).
    destruct (2 * r ?= D); reflexivity.
Qed.

Lemma iter_pos_shr_1_located (p : positive) : forall N D : Z,
  0 <= N -> 0 < D ->
  SpecFloat.iter_pos shr_1 p (located N D) = located N (2 ^ Zpos p * D).
Proof.
  induction p as [p IH|p IH|]; intros N D HN HD; cbn [SpecFloat.iter_pos].
  - rewrite shr_1_located, !IH by (try apply Z.mul_pos_pos; try apply Z.pow_pos_nonneg; lia).
    f_equal. replace (Z.pos p~1) with (Z.pos p + Z.pos p + 1) by lia.
    rewrite !Z.pow_add_r by lia. lia.
  - rewrite !IH by (try apply Z.mul_pos_pos; try apply Z.pow_pos_nonneg; lia).
    f_equal. replace (Z.pos p~0) with (Z.pos p + Z.pos p) by lia.
    rewrite !Z.pow_add_r by lia. lia.
  - rewrite shr_1_located by lia. reflexivity.
Qed.

Lemma shr_located (N D e n : Z) :
  0 <= N -> 0 < D ->
  shr (located N D) e n = (located N (2 ^ Z.max 0 n * D), e + Z.max 0 n).
Proof.
  intros HN HD. destruct n as [|p|p]; cbn [shr].
  - change (Z.max 0 0) with 0. now rewrite Z.pow_0_r, Z.mul_1_l, Z.add_0_r.
  - rewrite iter_pos_shr_1_located by lia. rewrite Z.max_r by lia. reflexivity.
  - rewrite Z.max_l by lia. now rewrite Z.pow_0_r, Z.mul_1_l, Z.add_0_r.
Qed.

(** ** Round to nearest, ties to even, of a fraction *)


Lemma rne_bounds (N D : Z) : 0 < D -> N / D <= rne N D <= N / D + 1.
Proof.
  intros HD. unfold rne, loc_frac, round_nearest_even.
  destruct (N mod D =? 0); [lia|].
  destruct (2 * (N mod D) ?= D); [destruct (Z.even (N / D))|..]; lia.
Qed.

Lemma rne_exact (M : Z) : rne M 1 = M.
Proof.
  unfold rne. rewrite Z.mod_1_r, Z.div_1_r. reflexivity.
Qed.

Lemma rne_mono (N1 D1 N2 D2 : Z) :
  0 < D1 -> 0 < D2 -> 0 <= N1 -> N1 * D2 <= N2 * D1 -> rne N1 D1 <= rne N2 D2.
Proof.
  intros HD1 HD2 HN1 Hle.
  pose proof (rne_bounds N1 D1 HD1) as B1. pose proof (rne_bounds N2 D2 HD2) as B2.
  pose proof (Z.div_mod N1 D1 ltac:(lia)) as E1.
  pose proof (Z.div_mod N2 D2 ltac:(lia)) as E2.
  pose proof (Z.mod_pos_bound N1 D1 HD1) as R1.
  pose proof (Z.mod_pos_bound N2 D2 HD2) as R2.
  assert (Hm : N1 / D1 <= N2 / D2).
  { destruct (Z.le_gt_cases (N1 / D1) (N2 / D2)) as [|Hgt]; [done|].
    assert (N1 / D1 * D1 * D2 <= N1 * D2) by nia.
    assert (N2 * D1 < (N2 / D2 + 1) * D2 * D1) by nia.
    assert ((N2 / D2 + 1) * (D1 * D2) <= N1 / D1 * (D1 * D2))
      by (apply Z.mul_le_mono_nonneg_r; nia).
    lia. }
  destruct (Z.eq_dec (N1 / D1) (N2 / D2)) as [Heq|Hne]; [|lia].
  assert (Hr : (N1 mod D1) * D2 <= (N2 mod D2) * D1) by nia.
  unfold rne, loc_frac, round_nearest_even in *. rewrite <- Heq in *.
  set (m := N1 / D1) in *. set (r1 := N1 mod D1) in *. set (r2 := N2 mod D2) in *.
  destruct (Z.eqb_spec r1 0) as [H10|H10].
  { destruct (r2 =? 0); [lia|].
    destruct (2 * r2 ?= D2); [destruct (Z.even m)|..]; lia. }
  destruct (Z.eqb_spec r2 0) as [H20|H20]; [nia|].
  destruct (Z.compare_spec (2 * r1) D1) as [C1|C1|C1];
    destruct (Z.compare_spec (2 * r2) D2) as [C2|C2|C2];
    try destruct (Z.even m); try lia; nia.
Qed.

Lemma rne_scale (N D c : Z) : 0 < D -> 0 < c -> rne (N * c) (D * c) = rne N D.
Proof.
  intros HD Hc. unfold rne, loc_frac.
  rewrite Z.div_mul_cancel_r by lia.
  rewrite Z.mul_mod_distr_r by lia.
  replace (N mod D * c =? 0) with (N mod D =? 0).
  2:{ destruct (Z.eqb_spec (N mod D) 0) as [->|H]; [reflexivity|].
      symmetry. apply Z.eqb_neq. nia. }
  replace (2 * (N mod D * c) ?= D * c) with (2 * (N mod D) ?= D); [reflexivity|].
  destruct (Z.compare_spec (2 * (N mod D)) D); symmetry.
  - apply Z.compare_eq_iff. nia.
  - apply Z.compare_lt_iff. nia.
  - apply Z.compare_gt_iff. nia.
Qed.

(** ** The two stages of [binary_round_aux] *)

Section Rounding.
Variables prec emax : Z.
Hypothesis Hprec : 0 < prec.
Local Abbreviation pack := (pack prec emax).
Local Abbreviation rnd := (rnd prec emax).
Local Abbreviation shift_of := (shift_of prec emax).
Local Abbreviation fine := (fine prec emax).
Local Abbreviation div_exp := (div_exp prec emax).
Local Abbreviation pad_of := (pad_of prec emax).

(** The last stage: the rounded mantissa [M] at the exponent [g] is brought
    to its final exponent and tested for overflow. *)

(** [binary_round_aux] on the fraction [N / D] at the exponent [e]. *)

(** The number of places the first stage shifts by. *)

Lemma located_exact (M : Z) : shr_record_of_loc M loc_Exact = located M 1.
Proof. unfold located. now rewrite Z.div_1_r, Z.mod_1_r. Qed.

Lemma shr_fexp_located (N D e : Z) :
  0 <= N -> 0 < D ->
  shr_fexp prec emax (N / D) e (loc_frac (N mod D) D)
  = (located N (2 ^ shift_of (N / D) e * D), e + shift_of (N / D) e).
Proof.
  intros HN HD. unfold shr_fexp. fold (located N D).
  now rewrite shr_located.
Qed.

Lemma pack_eval (s : bool) (M g : Z) :
  0 <= M ->
  pack s M g
  = match M / 2 ^ shift_of M g with
    | Z0 => S754_zero s
    | Zpos m =>
        if g + shift_of M g <=? emax - prec
        then S754_finite s m (g + shift_of M g) else S754_infinity s
    | Zneg _ => S754_nan
    end.
Proof.
  intros HM. unfold pack.
  replace loc_Exact with (loc_frac (M mod 1) 1) by now rewrite Z.mod_1_r.
  replace M with (M / 1) at 1 by apply Z.div_1_r.
  rewrite shr_fexp_located by lia.
  rewrite shr_m_located, Z.div_1_r, Z.mul_1_r. reflexivity.
Qed.

Lemma rnd_stages (s : bool) (N D e : Z) :
  0 <= N -> 0 < D ->
  rnd s N D e
  = pack s (rne N (2 ^ shift_of (N / D) e * D)) (e + shift_of (N / D) e).
Proof.
  intros HN HD. unfold rnd, binary_round_aux.
  rewrite shr_fexp_located by lia.
  rewrite shr_m_located, loc_of_located. reflexivity.
Qed.

Lemma fexp_mono (x y : Z) : x <= y -> fexp prec emax x <= fexp prec emax y.
Proof. unfold fexp. lia. Qed.

Lemma shift_of_mono (M1 M2 g : Z) :
  0 <= M1 <= M2 -> shift_of M1 g <= shift_of M2 g.
Proof.
  intros H. unfold shift_of.
  pose proof (Zdigits2_mono M1 M2 H).
  pose proof (fexp_mono (Zdigits2 M1 + g) (Zdigits2 M2 + g) ltac:(lia)). lia.
Qed.

Lemma shift_of_nonneg (M g : Z) : 0 <= shift_of M g.
Proof. unfold shift_of. lia. Qed.

(** When the shift is not forced by the least exponent, it leaves exactly
    [prec] digits. *)
Lemma shifted_digits (M g : Z) :
  0 < M -> emin prec emax < g + shift_of M g -> 0 < shift_of M g ->
  2 ^ (prec - 1) <= M / 2 ^ shift_of M g < 2 ^ prec.
Proof.
  intros HM Hmin Hpos. unfold shift_of, fexp in *.
  pose proof (Zdigits2_bounds M HM) as Hb.
  set (d := Zdigits2 M) in *.
  assert (Hn : Z.max 0 (Z.max (d + g - prec) (emin prec emax) - g) = d - prec) by lia.
  rewrite Hn in *.
  assert (Hp : 0 < 2 ^ (d - prec)) by (apply Z.pow_pos_nonneg; lia).
  replace d with ((d - prec) + prec) in Hb at 2 by lia.
  replace (d - 1) with ((d - prec) + (prec - 1)) in Hb by lia.
  rewrite !Z.pow_add_r in Hb by lia.
  split.
  - apply Z.div_le_lower_bound; lia.
  - apply Z.div_lt_upper_bound; lia.
Qed.

Lemma SFleb_zero_pack (s : bool) (M g : Z) :
  0 <= M -> SFleb (S754_zero s) (pack false M g) = true.
Proof.
  intros HM. rewrite pack_eval by done.
  assert (0 <= M / 2 ^ shift_of M g).
  { apply Z.div_pos; [done|]. apply Z.pow_pos_nonneg; [lia|apply shift_of_nonneg]. }
  destruct (M / 2 ^ shift_of M g) as [|m|m]; [reflexivity| |lia].
  destruct (_ <=? _); reflexivity.
Qed.

Lemma SFleb_finite_pos (m1 m2 : positive) (e1 e2 : Z) :
  e1 < e2 \/ (e1 = e2 /\ (m1 <= m2)%positive) ->
  SFleb (S754_finite false m1 e1) (S754_finite false m2 e2) = true.
Proof.
  unfold SFleb. cbn. change (Pos.compare_cont Eq m1 m2) with (Pos.compare m1 m2).
  intros [H|[-> H]].
  - apply Z.compare_lt_iff in H. now rewrite H.
  - rewrite Z.compare_refl. destruct (Pos.compare_spec m1 m2); try reflexivity. lia.
Qed.

(** The last stage is monotone at a fixed exponent. *)
Lemma pack_mono (M1 M2 g : Z) :
  0 <= M1 <= M2 -> SFleb (pack false M1 g) (pack false M2 g) = true.
Proof.
  intros HM.
  destruct (Z.eq_dec M1 0) as [->|HM1].
  { replace (pack false 0 g) with (S754_zero false).
    - apply SFleb_zero_pack. lia.
    - rewrite pack_eval by lia. rewrite Z.div_0_l; [reflexivity|].
      apply Z.pow_nonzero; [lia|apply shift_of_nonneg]. }
  pose proof (shift_of_mono M1 M2 g HM) as Hn.
  pose proof (shift_of_nonneg M1 g) as Hn1.
  rewrite !pack_eval by lia.
  set (n1 := shift_of M1 g) in *. set (n2 := shift_of M2 g) in *.
  assert (Hp1 : 0 < 2 ^ n1) by (apply Z.pow_pos_nonneg; lia).
  assert (Hp2 : 0 < 2 ^ n2) by (apply Z.pow_pos_nonneg; lia).
  assert (HF1 : 0 <= M1 / 2 ^ n1) by (apply Z.div_pos; lia).
  destruct (Z.eq_dec n1 n2) as [Heq|Hne].
  - rewrite <- Heq.
    assert (HF : M1 / 2 ^ n1 <= M2 / 2 ^ n1) by (apply Z.div_le_mono; lia).
    destruct (M1 / 2 ^ n1) as [|m1|m1], (M2 / 2 ^ n1) as [|m2|m2]; try lia.
    + reflexivity.
    + destruct (_ <=? _); reflexivity.
    + destruct (_ <=? _); [|reflexivity].
      apply SFleb_finite_pos. right. split; [done|lia].
  - assert (HF2 : 2 ^ (prec - 1) <= M2 / 2 ^ n2 < 2 ^ prec).
    { apply shifted_digits; [lia| |fold n2; lia].
      fold n2. unfold n1, n2, shift_of, fexp in *. lia. }
    assert (0 < 2 ^ (prec - 1)) by (apply Z.pow_pos_nonneg; lia).
    destruct (M2 / 2 ^ n2) as [|m2|m2]; try lia.
    destruct (M1 / 2 ^ n1) as [|m1|m1]; try lia.
    + destruct (_ <=? _); reflexivity.
    + destruct (Z.leb_spec (g + n1) (emax - prec)), (Z.leb_spec (g + n2) (emax - prec));
        try reflexivity; try lia.
      apply SFleb_finite_pos. left. lia.
Qed.

(** A mantissa with trailing zeros can be moved to a higher exponent, as
    long as the exponent stays below the one the format assigns. *)
Lemma pack_refine (s : bool) (M g k : Z) :
  0 < M -> 0 <= k -> g <= fexp prec emax (Zdigits2 M + g) ->
  pack s (M * 2 ^ k) (g - k) = pack s M g.
Proof.
  intros HM Hk Hfine.
  assert (Hpk : 0 < 2 ^ k) by (apply Z.pow_pos_nonneg; lia).
  rewrite !pack_eval by nia.
  assert (Hs : shift_of (M * 2 ^ k) (g - k) = shift_of M g + k).
  { unfold shift_of. rewrite Zdigits2_shift by lia.
    replace (Zdigits2 M + k + (g - k)) with (Zdigits2 M + g) by lia. lia. }
  rewrite Hs.
  replace (g - k + (shift_of M g + k)) with (g + shift_of M g) by lia.
  replace (M * 2 ^ k / 2 ^ (shift_of M g + k)) with (M / 2 ^ shift_of M g).
  - reflexivity.
  - pose proof (shift_of_nonneg M g).
    rewrite Z.pow_add_r by lia.
    rewrite Z.div_mul_cancel_r; [reflexivity| |lia].
    apply Z.pow_nonzero; lia.
Qed.

Lemma fexp_ge (x : Z) : x - prec <= fexp prec emax x /\ emin prec emax <= fexp prec emax x.
Proof. unfold fexp. lia. Qed.

(** Rounding is monotone at a fixed exponent of the input. *)
Lemma rnd_mono (N1 D1 N2 D2 e : Z) :
  0 <= N1 -> 0 < D1 -> 0 < D2 -> N1 * D2 <= N2 * D1 ->
  SFleb (rnd false N1 D1 e) (rnd false N2 D2 e) = true.
Proof.
  intros HN1 HD1 HD2 Hle.
  assert (HN2 : 0 <= N2) by nia.
  rewrite !rnd_stages by lia.
  set (m1 := N1 / D1). set (m2 := N2 / D2).
  assert (Hm1 : 0 <= m1) by (apply Z.div_pos; lia).
  assert (Hm : m1 <= m2).
  { unfold m1, m2.
    pose proof (Z.div_mod N1 D1 ltac:(lia)). pose proof (Z.div_mod N2 D2 ltac:(lia)).
    pose proof (Z.mod_pos_bound N1 D1 HD1). pose proof (Z.mod_pos_bound N2 D2 HD2).
    destruct (Z.le_gt_cases (N1 / D1) (N2 / D2)) as [|Hgt]; [done|].
    assert (N1 / D1 * D1 * D2 <= N1 * D2) by nia.
    assert (N2 * D1 < (N2 / D2 + 1) * D2 * D1) by nia.
    assert ((N2 / D2 + 1) * (D1 * D2) <= N1 / D1 * (D1 * D2))
      by (apply Z.mul_le_mono_nonneg_r; nia).
    lia. }
  pose proof (shift_of_mono m1 m2 e ltac:(lia)) as Hn.
  pose proof (shift_of_nonneg m1 e) as Hn1.
  set (n1 := shift_of m1 e) in *. set (n2 := shift_of m2 e) in *.
  assert (Hp1 : 0 < 2 ^ n1) by (apply Z.pow_pos_nonneg; lia).
  assert (Hp2 : 0 < 2 ^ n2) by (apply Z.pow_pos_nonneg; lia).
  pose proof (rne_bounds N1 (2 ^ n1 * D1) ltac:(nia)) as B1.
  pose proof (rne_bounds N2 (2 ^ n2 * D2) ltac:(nia)) as B2.
  assert (Hq1 : N1 / (2 ^ n1 * D1) = m1 / 2 ^ n1)
    by (rewrite (Z.mul_comm (2 ^ n1)), <- Z.div_div by lia; reflexivity).
  assert (Hq2 : N2 / (2 ^ n2 * D2) = m2 / 2 ^ n2)
    by (rewrite (Z.mul_comm (2 ^ n2)), <- Z.div_div by lia; reflexivity).
  rewrite Hq1 in B1. rewrite Hq2 in B2.
  assert (Hq1' : 0 <= m1 / 2 ^ n1) by (apply Z.div_pos; lia).
  destruct (Z.eq_dec n1 n2) as [Heq|Hne].
  - rewrite <- Heq. apply pack_mono. split; [lia|].
    apply rne_mono; nia.
  - (* the second fraction lies in a higher binade *)
    assert (Hm2 : 0 < m2).
    { destruct (Z.eq_dec m2 0) as [E|]; [|lia].
      assert (m1 = 0) by lia. unfold n1, n2 in Hne. congruence. }
    assert (Hmin : emin prec emax < e + n2).
    { unfold n1, n2, shift_of in *.
      pose proof (fexp_ge (Zdigits2 m1 + e)). lia. }
    pose proof (shifted_digits m2 e Hm2 Hmin ltac:(fold n2; lia)) as HF2.
    fold n2 in HF2.
    assert (Hpp : 0 < 2 ^ (prec - 1)) by (apply Z.pow_pos_nonneg; lia).
    set (M1 := rne N1 (2 ^ n1 * D1)) in *. set (M2 := rne N2 (2 ^ n2 * D2)) in *.
    assert (Hd2 : n2 = Zdigits2 m2 - prec).
    { unfold n2, shift_of, fexp in *. lia. }
    assert (Hd12 : Zdigits2 m1 < Zdigits2 m2).
    { unfold n1, n2, shift_of, fexp in *. lia. }
    rewrite <- (pack_refine false M2 (e + n2) (n2 - n1)); [|lia|lia|].
    2:{ pose proof (Zdigits2_mono (2 ^ (prec - 1)) M2 ltac:(lia)) as Hd.
        rewrite (Zdigits2_unique (2 ^ (prec - 1)) prec) in Hd.
        - pose proof (fexp_ge (Zdigits2 M2 + (e + n2))). lia.
        - split; [lia|]. apply Z.pow_lt_mono_r; lia.
        - lia. }
    replace (e + n2 - (n2 - n1)) with (e + n1) by lia.
    apply pack_mono. split; [lia|].
    (* M1 <= m1 / 2^n1 + 1 <= 2^(prec - 1) * 2^(n2 - n1) <= M2 * 2^(n2 - n1) *)
    assert (Hk : 0 < 2 ^ (n2 - n1)) by (apply Z.pow_pos_nonneg; lia).
    assert (Hb1 : m1 / 2 ^ n1 < 2 ^ (prec - 1) * 2 ^ (n2 - n1)).
    { rewrite <- Z.pow_add_r by lia.
      apply Z.div_lt_upper_bound; [lia|].
      rewrite <- Z.pow_add_r by lia.
      replace (n1 + (prec - 1 + (n2 - n1))) with (Zdigits2 m2 - 1) by lia.
      destruct (Z.eq_dec m1 0) as [->|]; [apply Z.pow_pos_nonneg; lia|].
      pose proof (Zdigits2_bounds m1 ltac:(lia)).
      assert (2 ^ Zdigits2 m1 <= 2 ^ (Zdigits2 m2 - 1))
        by (apply Z.pow_le_mono_r; lia).
      lia. }
    nia.
Qed.

(** The result of rounding does not depend on the exponent at which the
    fraction is presented, below the exponent the format assigns to it. *)
Lemma rnd_refine (s : bool) (N D e k : Z) :
  0 <= N -> 0 < D -> 0 <= k ->
  e <= fexp prec emax (Zdigits2 (N / D) + e) ->
  rnd s (N * 2 ^ k) D (e - k) = rnd s N D e.
Proof.
  intros HN HD Hk Hfine.
  assert (Hpk : 0 < 2 ^ k) by (apply Z.pow_pos_nonneg; lia).
  rewrite !rnd_stages by nia.
  assert (Hs : shift_of (N * 2 ^ k / D) (e - k) = shift_of (N / D) e + k).
  { pose proof (Z.div_mod N D ltac:(lia)) as E. pose proof (Z.mod_pos_bound N D HD) as R.
    assert (Hm : 0 <= N / D) by (apply Z.div_pos; lia).
    destruct (Z.eq_dec (N / D) 0) as [H0|H0].
    - (* below the least exponent *)
      rewrite H0 in *. cbn [Zdigits2] in Hfine.
      assert (Hlt : N * 2 ^ k / D < 2 ^ k) by (apply Z.div_lt_upper_bound; nia).
      assert (Hq : 0 <= N * 2 ^ k / D) by (apply Z.div_pos; nia).
      assert (Hd : Zdigits2 (N * 2 ^ k / D) <= k).
      { destruct (Z.eq_dec (N * 2 ^ k / D) 0) as [->|]; [cbn; lia|].
        pose proof (Zdigits2_bounds (N * 2 ^ k / D) ltac:(lia)) as Hb.
        destruct (Z.le_gt_cases (Zdigits2 (N * 2 ^ k / D)) k); [done|].
        assert (2 ^ k <= 2 ^ (Zdigits2 (N * 2 ^ k / D) - 1))
          by (apply Z.pow_le_mono_r; lia).
        lia. }
      unfold shift_of, fexp in *. cbn [Zdigits2]. lia.
    - assert (Hd : Zdigits2 (N * 2 ^ k / D) = Zdigits2 (N / D) + k).
      { pose proof (Zdigits2_bounds (N / D) ltac:(lia)) as Hb.
        set (d := Zdigits2 (N / D)) in *.
        assert (0 < d) by (unfold d; destruct (N / D); cbn; lia).
        assert (Hp : 0 < 2 ^ (d - 1)) by (apply Z.pow_pos_nonneg; lia).
        assert (Hlo : D * 2 ^ (d - 1) <= N) by nia.
        assert (Hhi : N < D * 2 ^ d) by nia.
        apply Zdigits2_unique.
        - replace (d + k - 1) with ((d - 1) + k) by lia.
          rewrite !Z.pow_add_r by lia. split.
          + apply Z.div_le_lower_bound; [lia|].
            rewrite Z.mul_assoc. apply Z.mul_le_mono_nonneg_r; lia.
          + apply Z.div_lt_upper_bound; [lia|].
            rewrite Z.mul_assoc. apply Z.mul_lt_mono_pos_r; lia.
        - apply Z.div_str_pos. nia. }
      unfold shift_of. rewrite Hd.
      replace (Zdigits2 (N / D) + k + (e - k)) with (Zdigits2 (N / D) + e) by lia.
      lia. }
  rewrite Hs.
  pose proof (shift_of_nonneg (N / D) e).
  replace (e - k + (shift_of (N / D) e + k)) with (e + shift_of (N / D) e) by lia.
  f_equal.
  rewrite Z.pow_add_r by lia.
  replace (2 ^ shift_of (N / D) e * 2 ^ k * D)
    with (2 ^ shift_of (N / D) e * D * 2 ^ k) by lia.
  apply rne_scale; [|lia].
  apply Z.mul_pos_pos; [|lia]. apply Z.pow_pos_nonneg; lia.
Qed.

(** The exponent the format assigns is not above the exponent of the
    input: nothing is lost before the rounding. *)

(** Rounding is monotone in the value [(N / D) * 2 ^ e]. *)
Lemma rnd_mono_value (N1 D1 e1 N2 D2 e2 : Z) :
  0 <= N1 -> 0 < D1 -> 0 < D2 ->
  fine (N1 / D1) e1 -> fine (N2 / D2) e2 ->
  N1 * 2 ^ (e1 - Z.min e1 e2) * D2 <= N2 * 2 ^ (e2 - Z.min e1 e2) * D1 ->
  SFleb (rnd false N1 D1 e1) (rnd false N2 D2 e2) = true.
Proof.
  intros HN1 HD1 HD2 F1 F2 Hle.
  set (t := Z.min e1 e2) in *.
  assert (Hp1 : 0 < 2 ^ (e1 - t)) by (apply Z.pow_pos_nonneg; lia).
  assert (Hp2 : 0 < 2 ^ (e2 - t)) by (apply Z.pow_pos_nonneg; lia).
  assert (HN2 : 0 <= N2) by nia.
  rewrite <- (rnd_refine false N1 D1 e1 (e1 - t)) by (done || lia).
  rewrite <- (rnd_refine false N2 D2 e2 (e2 - t)) by (done || lia).
  replace (e1 - (e1 - t)) with t by lia. replace (e2 - (e2 - t)) with t by lia.
  apply rnd_mono; [nia|done|done|done].
Qed.

Lemma pack_valid (s : bool) (M g : Z) :
  0 <= M -> (0 < M -> fine M g) -> valid_binary prec emax (pack s M g) = true.
Proof.
  intros HM Hfine. rewrite pack_eval by done.
  pose proof (shift_of_nonneg M g) as Hn.
  assert (Hp : 0 < 2 ^ shift_of M g) by (apply Z.pow_pos_nonneg; lia).
  destruct (M / 2 ^ shift_of M g) as [|m|m] eqn:EF; [reflexivity| |].
  2:{ pose proof (Z.div_pos M (2 ^ shift_of M g) HM Hp). lia. }
  destruct (Z.leb_spec (g + shift_of M g) (emax - prec)) as [Hb|Hb]; [|reflexivity].
  cbn [valid_binary]. unfold bounded, canonical_mantissa.
  apply andb_true_intro. split; [|apply Z.leb_le; done].
  apply Z.eqb_eq.
  assert (HM0 : 0 < M).
  { destruct (Z.eq_dec M 0) as [->|]; [|lia]. rewrite Z.div_0_l in EF by lia. lia. }
  specialize (Hfine HM0). unfold fine in Hfine.
  assert (Hle : 2 ^ shift_of M g <= M).
  { destruct (Z.le_gt_cases (2 ^ shift_of M g) M); [done|].
    rewrite Z.div_small in EF by lia. lia. }
  change (Z.pos (digits2_pos m)) with (Zdigits2 (Z.pos m)).
  rewrite <- EF, Zdigits2_div_pow by lia.
  replace (Zdigits2 M - shift_of M g + (g + shift_of M g)) with (Zdigits2 M + g) by lia.
  unfold shift_of. lia.
Qed.

Lemma rnd_fine_stage (N D e : Z) :
  0 <= N -> 0 < D -> fine (N / D) e ->
  0 < rne N (2 ^ shift_of (N / D) e * D) ->
  fine (rne N (2 ^ shift_of (N / D) e * D)) (e + shift_of (N / D) e).
Proof.
  intros HN HD Hfine HM. unfold fine in *.
  set (m := N / D) in *. set (n := shift_of m e) in *.
  assert (Hm : 0 <= m) by (apply Z.div_pos; lia).
  pose proof (shift_of_nonneg m e) as Hn. fold n in Hn.
  assert (Hp : 0 < 2 ^ n) by (apply Z.pow_pos_nonneg; lia).
  pose proof (rne_bounds N (2 ^ n * D) ltac:(nia)) as B.
  assert (Hq : N / (2 ^ n * D) = m / 2 ^ n)
    by (rewrite (Z.mul_comm (2 ^ n)), <- Z.div_div by lia; reflexivity).
  rewrite Hq in B.
  set (M := rne N (2 ^ n * D)) in *.
  assert (Hg : e + n = fexp prec emax (Zdigits2 m + e)) by (unfold n, shift_of; lia).
  pose proof (fexp_ge (Zdigits2 M + (e + n))) as [G1 G2].
  destruct (Z.le_gt_cases (2 ^ n) m) as [Hle|Hgt].
  - (* the shifted mantissa is not zero *)
    assert (Hm' : 0 < m / 2 ^ n) by (apply Z.div_str_pos; lia).
    pose proof (Zdigits2_mono (m / 2 ^ n) M ltac:(lia)) as Hd.
    rewrite Zdigits2_div_pow in Hd by lia.
    pose proof (fexp_mono (Zdigits2 m + e) (Zdigits2 M + (e + n)) ltac:(lia)). lia.
  - (* it is: the exponent is the least one *)
    assert (Hemin : e + n = emin prec emax).
    { destruct (Z.eq_dec m 0) as [E0|E0].
      - rewrite E0 in *. cbn [Zdigits2] in *. unfold fexp in *. lia.
      - pose proof (Zdigits2_bounds m ltac:(lia)) as Hb.
        assert (Zdigits2 m - 1 < n).
        { destruct (Z.le_gt_cases n (Zdigits2 m - 1)); [|lia].
          assert (2 ^ n <= 2 ^ (Zdigits2 m - 1)) by (apply Z.pow_le_mono_r; lia). lia. }
        unfold fexp in *. lia. }
    lia.
Qed.

Lemma rnd_valid (s : bool) (N D e : Z) :
  0 <= N -> 0 < D -> fine (N / D) e -> valid_binary prec emax (rnd s N D e) = true.
Proof.
  intros HN HD Hfine. rewrite rnd_stages by done.
  pose proof (shift_of_nonneg (N / D) e).
  assert (0 < 2 ^ shift_of (N / D) e * D)
    by (apply Z.mul_pos_pos; [apply Z.pow_pos_nonneg|]; lia).
  pose proof (rne_bounds N (2 ^ shift_of (N / D) e * D) ltac:(done)).
  assert (0 <= N / (2 ^ shift_of (N / D) e * D)) by (apply Z.div_pos; lia).
  apply pack_valid; [lia|]. now apply rnd_fine_stage.
Qed.

(** A mantissa that is already at the exponent of the format is returned
    as it is. *)
Lemma rnd_canonical (s : bool) (m : positive) (e : Z) :
  bounded prec emax m e = true -> rnd s (Zpos m) 1 e = S754_finite s m e.
Proof.
  unfold bounded, canonical_mantissa. intros H.
  apply andb_prop in H as [Hc Hb]. apply Z.eqb_eq in Hc. apply Z.leb_le in Hb.
  rewrite rnd_stages by lia.
  assert (Hs : shift_of (Z.pos m / 1) e = 0).
  { unfold shift_of. rewrite Z.div_1_r. cbn [Zdigits2]. lia. }
  rewrite Hs, Z.pow_0_r, Z.mul_1_l, rne_exact, Z.add_0_r.
  rewrite pack_eval by lia.
  assert (Hs' : shift_of (Z.pos m) e = 0) by (unfold shift_of; cbn [Zdigits2]; lia).
  rewrite Hs', Z.pow_0_r, Z.div_1_r, Z.add_0_r.
  destruct (Z.leb_spec e (emax - prec)); [reflexivity|lia].
Qed.

(** ** The operations as roundings of exact values *)

Hypothesis Hemax : prec < emax.

Lemma emin_nonpos : emin prec emax <= 0.
Proof. unfold emin. lia. Qed.

Lemma bounded_canonical (m : positive) (e : Z) :
  bounded prec emax m e = true ->
  e = fexp prec emax (Zdigits2 (Zpos m) + e) /\ e <= emax - prec.
Proof.
  unfold bounded, canonical_mantissa. intros H.
  apply andb_prop in H as [Hc Hb]. apply Z.eqb_eq in Hc. apply Z.leb_le in Hb.
  cbn [Zdigits2]. lia.
Qed.

Lemma Zdigits2_pow2 (k : Z) : 0 <= k -> Zdigits2 (2 ^ k) = k + 1.
Proof.
  intros Hk. apply Zdigits2_unique.
  - replace (k + 1 - 1) with k by lia. split; [lia|].
    apply Z.pow_lt_mono_r; lia.
  - apply Z.pow_pos_nonneg; lia.
Qed.

Lemma Zdigits2_mul_ge (a b : Z) :
  0 < a -> 0 < b -> Zdigits2 a + Zdigits2 b - 1 <= Zdigits2 (a * b).
Proof.
  intros Ha Hb.
  pose proof (Zdigits2_bounds a Ha) as Ba. pose proof (Zdigits2_bounds b Hb) as Bb.
  assert (0 < Zdigits2 a) by (destruct a; cbn; lia).
  assert (0 < Zdigits2 b) by (destruct b; cbn; lia).
  assert (Hpa : 0 < 2 ^ (Zdigits2 a - 1)) by (apply Z.pow_pos_nonneg; lia).
  assert (Hpb : 0 < 2 ^ (Zdigits2 b - 1)) by (apply Z.pow_pos_nonneg; lia).
  pose proof (Zdigits2_mono (2 ^ (Zdigits2 a - 1 + (Zdigits2 b - 1))) (a * b)) as Hm.
  rewrite Zdigits2_pow2 in Hm by lia.
  rewrite Z.pow_add_r in Hm by lia.
  assert (2 ^ (Zdigits2 a - 1) * 2 ^ (Zdigits2 b - 1) <= a * b) by nia.
  lia.
Qed.

Lemma SFmul_finite (sx sy : bool) (mx my : positive) (ex ey : Z) :
  SFmul prec emax (S754_finite sx mx ex) (S754_finite sy my ey)
  = rnd (xorb sx sy) (Zpos mx * Zpos my) 1 (ex + ey).
Proof.
  unfold rnd. rewrite Z.div_1_r, Z.mod_1_r. reflexivity.
Qed.

Lemma fine_mul (mx my : positive) (ex ey : Z) :
  bounded prec emax mx ex = true -> bounded prec emax my ey = true ->
  fine (Zpos mx * Zpos my / 1) (ex + ey).
Proof.
  intros Hx Hy. apply bounded_canonical in Hx as [Hx _], Hy as [Hy _].
  rewrite Z.div_1_r. unfold fine.
  pose proof (Zdigits2_mul_ge (Zpos mx) (Zpos my) ltac:(lia) ltac:(lia)) as Hd.
  pose proof emin_nonpos.
  assert (0 < Zdigits2 (Zpos mx)) by (cbn; lia).
  assert (0 < Zdigits2 (Zpos my)) by (cbn; lia).
  unfold fexp in *. lia.
Qed.

Lemma new_location_loc_frac (nb k : Z) :
  0 < nb -> 0 <= k -> new_location nb k = loc_frac k nb.
Proof.
  intros Hnb Hk. unfold new_location, new_location_even, new_location_odd, loc_frac.
  destruct (Z.even nb) eqn:Ev; [reflexivity|].
  destruct (k =? 0); [reflexivity|]. f_equal.
  assert (Ho : Z.odd nb = true) by (rewrite <- Z.negb_even, Ev; reflexivity).
  apply Z.odd_spec in Ho as [c Hc].
  destruct (Z.compare_spec (2 * k + 1) nb), (Z.compare_spec (2 * k) nb);
    try reflexivity; lia.
Qed.

(** The exponent and the shift chosen by [SFdiv_core_binary]. *)

Lemma SFdiv_finite (sx sy : bool) (mx my : positive) (ex ey : Z) :
  let e' := div_exp (Zpos mx) ex (Zpos my) ey in
  SFdiv prec emax (S754_finite sx mx ex) (S754_finite sy my ey)
  = rnd (xorb sx sy) (Zpos mx * 2 ^ (ex - ey - e')) (Zpos my) e'.
Proof.
  intros e'. unfold SFdiv, SFdiv_core_binary. fold (div_exp (Zpos mx) ex (Zpos my) ey).
  fold e'.
  assert (Hs : 0 <= ex - ey - e') by (unfold e', div_exp; lia).
  set (m' := match ex - ey - e' with
             | 0 => Z.pos mx
             | Z.pos _ => Z.shiftl (Z.pos mx) (ex - ey - e')
             | Z.neg _ => 0
             end).
  assert (Hm' : m' = Zpos mx * 2 ^ (ex - ey - e')).
  { unfold m'. destruct (ex - ey - e') as [|p|p] eqn:E; [cbn; lia| |lia].
    rewrite Z.shiftl_mul_pow2 by lia. reflexivity. }
  rewrite Hm'.
  assert (Hp : 0 < 2 ^ (ex - ey - e')) by (apply Z.pow_pos_nonneg; lia).
  unfold rnd, Z.div, Z.modulo.
  destruct (Z.div_eucl (Z.pos mx * 2 ^ (ex - ey - e')) (Z.pos my)) as [q r] eqn:E.
  cbn [fst snd].
  rewrite new_location_loc_frac; [reflexivity|lia|].
  pose proof (Z.mod_pos_bound (Z.pos mx * 2 ^ (ex - ey - e')) (Z.pos my) ltac:(lia)) as Hr.
  unfold Z.modulo in Hr. rewrite E in Hr. lia.
Qed.

Lemma fine_div (mx my : positive) (ex ey : Z) :
  let e' := div_exp (Zpos mx) ex (Zpos my) ey in
  fine (Zpos mx * 2 ^ (ex - ey - e') / Zpos my) e'.
Proof.
  intros e'. unfold fine.
  assert (Hs : 0 <= ex - ey - e') by (unfold e', div_exp; lia).
  set (k := ex - ey - e') in *.
  assert (Hp : 0 < 2 ^ k) by (apply Z.pow_pos_nonneg; lia).
  set (q := Z.pos mx * 2 ^ k / Z.pos my).
  assert (Hq : 0 <= q) by (apply Z.div_pos; lia).
  assert (He' : e' <= fexp prec emax (Zdigits2 (Zpos mx) + k + e' - Zdigits2 (Zpos my))).
  { replace (Zdigits2 (Zpos mx) + k + e' - Zdigits2 (Zpos my))
      with (Zdigits2 (Zpos mx) + ex - (Zdigits2 (Zpos my) + ey)) by (unfold k; lia).
    unfold e', div_exp. lia. }
  assert (Hd : Zdigits2 (Zpos mx) + k - Zdigits2 (Zpos my) <= Zdigits2 q).
  { pose proof (Zdigits2_bounds (Zpos mx) ltac:(lia)) as Bx.
    pose proof (Zdigits2_bounds (Zpos my) ltac:(lia)) as By.
    pose proof (Zdigits2_nonneg q).
    set (dx := Zdigits2 (Zpos mx)) in *. set (dy := Zdigits2 (Zpos my)) in *.
    assert (0 < dx) by (unfold dx; cbn; lia).
    assert (0 < dy) by (unfold dy; cbn; lia).
    destruct (Z.le_gt_cases (dx + k - dy) 0) as [|Hpos]; [lia|].
    (* 2^(dx - 1 + k - dy) <= q *)
    assert (Hlow : 2 ^ (dx + k - dy - 1) <= q).
    { unfold q. apply Z.div_le_lower_bound; [lia|].
      assert (E1 : Z.pos my * 2 ^ (dx + k - dy - 1) <= 2 ^ dy * 2 ^ (dx + k - dy - 1)).
      { apply Z.mul_le_mono_nonneg_r; [apply Z.pow_nonneg|]; lia. }
      rewrite <- Z.pow_add_r in E1 by lia.
      replace (dy + (dx + k - dy - 1)) with ((dx - 1) + k) in E1 by lia.
      rewrite Z.pow_add_r in E1 by lia.
      assert (2 ^ (dx - 1) * 2 ^ k <= Z.pos mx * 2 ^ k)
        by (apply Z.mul_le_mono_nonneg_r; lia).
      lia. }
    pose proof (Zdigits2_mono (2 ^ (dx + k - dy - 1)) q) as Hm.
    rewrite Zdigits2_pow2 in Hm by lia.
    assert (0 < 2 ^ (dx + k - dy - 1)) by (apply Z.pow_pos_nonneg; lia).
    lia. }
  pose proof (fexp_mono (Zdigits2 (Zpos mx) + k + e' - Zdigits2 (Zpos my)) (Zdigits2 q + e')
                ltac:(lia)).
  lia.
Qed.

(** ** The order of valid numbers is the order of their values *)

Lemma SFleb_finite_pos_inv (m1 m2 : positive) (e1 e2 : Z) :
  SFleb (S754_finite false m1 e1) (S754_finite false m2 e2) = true ->
  e1 < e2 \/ (e1 = e2 /\ (m1 <= m2)%positive).
Proof.
  unfold SFleb. cbn. change (Pos.compare_cont Eq m1 m2) with (Pos.compare m1 m2).
  destruct (Z.compare_spec e1 e2) as [->|H|H]; [|now left|discriminate].
  destruct (Pos.compare_spec m1 m2); try discriminate; intros _; right; split; lia.
Qed.

Lemma SFleb_value (m1 m2 : positive) (e1 e2 u : Z) :
  bounded prec emax m1 e1 = true -> bounded prec emax m2 e2 = true ->
  SFleb (S754_finite false m1 e1) (S754_finite false m2 e2) = true ->
  u <= e1 -> u <= e2 ->
  Zpos m1 * 2 ^ (e1 - u) <= Zpos m2 * 2 ^ (e2 - u).
Proof.
  intros B1 B2 Hle Hu1 Hu2.
  apply bounded_canonical in B1 as [C1 _], B2 as [C2 _].
  apply SFleb_finite_pos_inv in Hle as [Hlt|[-> Hm]].
  2:{ apply Z.mul_le_mono_nonneg_r; [apply Z.pow_nonneg|]; lia. }
  pose proof (Zdigits2_bounds (Zpos m1) ltac:(lia)) as D1.
  pose proof (Zdigits2_bounds (Zpos m2) ltac:(lia)) as D2.
  set (d1 := Zdigits2 (Zpos m1)) in *. set (d2 := Zdigits2 (Zpos m2)) in *.
  assert (0 < d1) by (unfold d1; cbn; lia).
  assert (0 < d2) by (unfold d2; cbn; lia).
  assert (Hmag : d1 + e1 < d2 + e2).
  { destruct (Z.le_gt_cases (d2 + e2) (d1 + e1)) as [Hge|]; [|lia].
    pose proof (fexp_mono _ _ Hge). lia. }
  assert (0 < 2 ^ (e1 - u)) by (apply Z.pow_pos_nonneg; lia).
  assert (0 < 2 ^ (e2 - u)) by (apply Z.pow_pos_nonneg; lia).
  assert (Hv1 : Zpos m1 * 2 ^ (e1 - u) < 2 ^ d1 * 2 ^ (e1 - u))
    by (apply Z.mul_lt_mono_pos_r; lia).
  assert (Hv2 : 2 ^ (d2 - 1) * 2 ^ (e2 - u) <= Zpos m2 * 2 ^ (e2 - u))
    by (apply Z.mul_le_mono_nonneg_r; lia).
  rewrite <- Z.pow_add_r in Hv1, Hv2 by lia.
  assert (2 ^ (d1 + (e1 - u)) <= 2 ^ (d2 - 1 + (e2 - u)))
    by (apply Z.pow_le_mono_r; lia).
  lia.
Qed.

(** ** [binary_round] and [binary_normalize] *)

Lemma Pos_iter_xO (m d : positive) : Zpos (Pos.iter xO m d) = Zpos m * 2 ^ Zpos d.
Proof.
  induction d as [|d IH] using Pos.peano_ind.
  - cbn. lia.
  - rewrite Pos.iter_succ, Pos2Z.inj_xO, IH, Pos2Z.inj_succ, Z.pow_succ_r by lia. lia.
Qed.

Lemma shl_align_spec (m : positive) (e e' : Z) :
  Zpos (fst (shl_align m e e')) = Zpos m * 2 ^ Z.max 0 (e - e') /\
  snd (shl_align m e e') = e - Z.max 0 (e - e').
Proof.
  unfold shl_align. destruct (e' - e) as [|d|d] eqn:E; cbn [fst snd].
  - replace (Z.max 0 (e - e')) with 0 by lia. rewrite Z.pow_0_r. lia.
  - replace (Z.max 0 (e - e')) with 0 by lia. rewrite Z.pow_0_r. lia.
  - replace (Z.max 0 (e - e')) with (Zpos d) by lia. rewrite Pos_iter_xO. lia.
Qed.

(** The number of places [binary_round] shifts to the left. *)

Lemma binary_round_rnd (s : bool) (m : positive) (e : Z) :
  binary_round prec emax s m e
  = rnd s (Zpos m * 2 ^ pad_of (Zpos m) e) 1 (e - pad_of (Zpos m) e).
Proof.
  unfold binary_round, pad_of.
  pose proof (shl_align_spec m e (fexp prec emax (Z.pos (digits2_pos m) + e))) as [H1 H2].
  destruct (shl_align m e (fexp prec emax (Z.pos (digits2_pos m) + e))) as [mz ez].
  cbn [fst snd] in H1, H2. cbn [Zdigits2]. rewrite <- H1, <- H2.
  unfold rnd. rewrite Z.div_1_r, Z.mod_1_r. reflexivity.
Qed.

Lemma fine_pad (m e : Z) :
  0 < m -> fine (m * 2 ^ pad_of m e / 1) (e - pad_of m e).
Proof.
  intros Hm. unfold fine, pad_of. rewrite Z.div_1_r.
  rewrite Zdigits2_shift by lia.
  replace (Zdigits2 m + Z.max 0 (e - fexp prec emax (Zdigits2 m + e))
           + (e - Z.max 0 (e - fexp prec emax (Zdigits2 m + e))))
    with (Zdigits2 m + e) by lia.
  lia.
Qed.

Lemma binary_round_valid (s : bool) (m : positive) (e : Z) :
  valid_binary prec emax (binary_round prec emax s m e) = true.
Proof.
  rewrite binary_round_rnd. apply rnd_valid; [|lia|apply fine_pad; lia].
  pose proof (Z.pow_nonneg 2 (pad_of (Zpos m) e) ltac:(lia)). lia.
Qed.

Lemma binary_normalize_valid (z e : Z) (szero : bool) :
  valid_binary prec emax (binary_normalize prec emax z e szero) = true.
Proof. destruct z; [reflexivity|apply binary_round_valid..]. Qed.

(** A valid number goes through [binary_round] unchanged. *)
Lemma binary_round_canonical (s : bool) (m : positive) (e : Z) :
  bounded prec emax m e = true -> binary_round prec emax s m e = S754_finite s m e.
Proof.
  intros Hb. rewrite binary_round_rnd.
  pose proof (bounded_canonical m e Hb) as [Hc _].
  assert (Hp : pad_of (Zpos m) e = 0) by (unfold pad_of; lia).
  rewrite Hp, Z.pow_0_r, Z.mul_1_r, Z.sub_0_r. now apply rnd_canonical.
Qed.

(** ** Monotonicity of the operations on the nonnegative numbers *)

(** The results of rounding a nonnegative value: a zero, a positive finite
    number or the positive infinity. *)

Lemma nonneg_cases (x : spec_float) :
  nonneg x = true ->
  (exists s, x = S754_zero s) \/ (exists m e, x = S754_finite false m e)
  \/ x = S754_infinity false.
Proof.
  destruct x as [s|[]| |[] m e]; cbn; try discriminate; intros _; eauto.
Qed.

Lemma pack_nonneg (M g : Z) : 0 <= M -> nonneg (pack false M g) = true.
Proof. apply SFleb_zero_pack. Qed.

Lemma rnd_nonneg (N D e : Z) : 0 <= N -> 0 < D -> nonneg (rnd false N D e) = true.
Proof.
  intros HN HD. rewrite rnd_stages by done. apply pack_nonneg.
  pose proof (shift_of_nonneg (N / D) e).
  assert (0 < 2 ^ shift_of (N / D) e * D)
    by (apply Z.mul_pos_pos; [apply Z.pow_pos_nonneg|]; lia).
  pose proof (rne_bounds N (2 ^ shift_of (N / D) e * D) ltac:(done)).
  assert (0 <= N / (2 ^ shift_of (N / D) e * D)) by (apply Z.div_pos; lia).
  lia.
Qed.

Lemma nonneg_le_infinity (x : spec_float) :
  nonneg x = true -> SFleb x (S754_infinity false) = true.
Proof. intros H. destruct (nonneg_cases x H) as [[s ->]|[(m & e & ->)| ->]]; reflexivity. Qed.

Lemma zero_le_nonneg (s : bool) (x : spec_float) :
  nonneg x = true -> SFleb (S754_zero s) x = true.
Proof. intros H. destruct (nonneg_cases x H) as [[s' ->]|[(m & e & ->)| ->]]; reflexivity. Qed.

(** How two nonnegative numbers in order can look. *)
Lemma nonneg_le_cases (x y : spec_float) :
  nonneg x = true -> SFleb x y = true ->
  (exists s, x = S754_zero s) /\ nonneg y = true
  \/ (exists mx ex my ey, x = S754_finite false mx ex /\ y = S754_finite false my ey)
  \/ (nonneg x = true /\ y = S754_infinity false).
Proof.
  intros Hx Hle.
  destruct (nonneg_cases x Hx) as [[s ->]|[(m & e & ->)| ->]].
  - left. split; [eauto|]. destruct y as [s'|[]| |[] m' e']; cbn in *; done.
  - destruct y as [s'|[]| |[] m' e']; cbn in Hle; try discriminate.
    + right. right. done.
    + right. left. eauto 6.
  - destruct y as [s'|[]| |[] m' e']; cbn in Hle; try discriminate.
    right. right. done.
Qed.

Lemma div_num_nonneg (mx : positive) (ex my ey : Z) :
  0 <= Zpos mx * 2 ^ (ex - ey - div_exp (Zpos mx) ex my ey).
Proof.
  apply Z.mul_nonneg_nonneg; [lia|]. apply Z.pow_nonneg. lia.
Qed.

Theorem SFdiv_mono (x y : spec_float) (mc : positive) (ec : Z) :
  valid_binary prec emax x = true -> valid_binary prec emax y = true ->
  nonneg x = true -> SFleb x y = true ->
  SFleb (SFdiv prec emax x (S754_finite false mc ec))
        (SFdiv prec emax y (S754_finite false mc ec)) = true.
Proof.
  intros Vx Vy Hx Hle.
  assert (Hp : forall k, 0 <= k -> 0 < 2 ^ k) by (intros; apply Z.pow_pos_nonneg; lia).
  destruct (nonneg_le_cases x y Hx Hle)
    as [[[s ->] Hy]|[(mx & ex & my & ey & -> & ->)|[_ ->]]].
  - destruct (nonneg_cases y Hy) as [[s' ->]|[(m & e & ->)| ->]]; try reflexivity.
    rewrite SFdiv_finite. cbn [SFdiv xorb]. apply zero_le_nonneg, rnd_nonneg.
    + apply div_num_nonneg.
    + lia.
  - rewrite !SFdiv_finite. cbn [xorb valid_binary] in *.
    set (e1 := div_exp (Zpos mx) ex (Zpos mc) ec).
    set (e2 := div_exp (Zpos my) ey (Zpos mc) ec).
    assert (H1 : 0 <= ex - ec - e1) by (unfold e1, div_exp; lia).
    assert (H2 : 0 <= ey - ec - e2) by (unfold e2, div_exp; lia).
    apply rnd_mono_value;
      [apply div_num_nonneg|lia|lia|apply fine_div|apply fine_div|].
    set (t := Z.min e1 e2).
    pose proof (SFleb_value mx my ex ey (ec + t) Vx Vy Hle ltac:(lia) ltac:(lia)) as Hv.
    assert (E1 : Zpos mx * 2 ^ (ex - ec - e1) * 2 ^ (e1 - t)
                 = Zpos mx * 2 ^ (ex - (ec + t))).
    { rewrite <- Z.mul_assoc, <- Z.pow_add_r by lia. do 2 f_equal. lia. }
    assert (E2 : Zpos my * 2 ^ (ey - ec - e2) * 2 ^ (e2 - t)
                 = Zpos my * 2 ^ (ey - (ec + t))).
    { rewrite <- Z.mul_assoc, <- Z.pow_add_r by lia. do 2 f_equal. lia. }
    rewrite E1, E2. apply Z.mul_le_mono_nonneg_r; lia.
  - apply nonneg_le_infinity.
    destruct (nonneg_cases x Hx) as [[s ->]|[(m & e & ->)| ->]]; try reflexivity.
    rewrite SFdiv_finite. cbn [xorb]. apply rnd_nonneg; [|lia].
    apply div_num_nonneg.
Qed.

Theorem SFmul_mono (x y : spec_float) (mk : positive) (ek : Z) :
  valid_binary prec emax x = true -> valid_binary prec emax y = true ->
  bounded prec emax mk ek = true ->
  nonneg x = true -> SFleb x y = true ->
  SFleb (SFmul prec emax x (S754_finite false mk ek))
        (SFmul prec emax y (S754_finite false mk ek)) = true.
Proof.
  intros Vx Vy Vk Hx Hle.
  destruct (nonneg_le_cases x y Hx Hle)
    as [[[s ->] Hy]|[(mx & ex & my & ey & -> & ->)|[_ ->]]].
  - destruct (nonneg_cases y Hy) as [[s' ->]|[(m & e & ->)| ->]]; try reflexivity.
    rewrite SFmul_finite. cbn [SFmul xorb]. apply zero_le_nonneg, rnd_nonneg; lia.
  - rewrite !SFmul_finite. cbn [xorb valid_binary] in *.
    apply rnd_mono_value;
      [lia|lia|lia|now apply fine_mul|now apply fine_mul|].
    set (t := Z.min (ex + ek) (ey + ek)).
    pose proof (SFleb_value mx my ex ey (t - ek) Vx Vy Hle ltac:(lia) ltac:(lia)) as Hv.
    replace (ex + ek - t) with (ex - (t - ek)) by lia.
    replace (ey + ek - t) with (ey - (t - ek)) by lia.
    nia.
  - apply nonneg_le_infinity.
    destruct (nonneg_cases x Hx) as [[s ->]|[(m & e & ->)| ->]]; try reflexivity.
    rewrite SFmul_finite. cbn [xorb]. apply rnd_nonneg; lia.
Qed.

Lemma SFdiv_valid (x : spec_float) (mc : positive) (ec : Z) :
  valid_binary prec emax (SFdiv prec emax x (S754_finite false mc ec)) = true.
Proof.
  destruct x as [s|s| |s m e]; try reflexivity.
  rewrite SFdiv_finite. apply rnd_valid; [|lia|apply fine_div].
  apply div_num_nonneg.
Qed.

Lemma SFmul_valid (x : spec_float) (mk : positive) (ek : Z) :
  valid_binary prec emax x = true -> bounded prec emax mk ek = true ->
  valid_binary prec emax (SFmul prec emax x (S754_finite false mk ek)) = true.
Proof.
  intros Vx Vk. destruct x as [s|s| |s m e]; try reflexivity.
  rewrite SFmul_finite. apply rnd_valid; [lia|lia|now apply fine_mul].
Qed.

Lemma SFdiv_nonneg (x : spec_float) (mc : positive) (ec : Z) :
  nonneg x = true -> nonneg (SFdiv prec emax x (S754_finite false mc ec)) = true.
Proof.
  intros Hx. destruct (nonneg_cases x Hx) as [[s ->]|[(m & e & ->)| ->]]; try reflexivity.
  rewrite SFdiv_finite. apply rnd_nonneg; [|lia].
  apply div_num_nonneg.
Qed.

(** ** Subtraction from a positive number *)

Lemma SFsub_finite (mc mq : positive) (ec eq : Z) :
  SFsub prec emax (S754_finite false mc ec) (S754_finite false mq eq)
  = binary_normalize prec emax
      (Zpos mc * 2 ^ (ec - Z.min ec eq) - Zpos mq * 2 ^ (eq - Z.min ec eq))
      (Z.min ec eq) false.
Proof.
  unfold SFsub. cbn [cond_Zopp].
  pose proof (shl_align_spec mc ec (Z.min ec eq)) as [H1 _].
  pose proof (shl_align_spec mq eq (Z.min ec eq)) as [H2 _].
  rewrite H1, H2.
  replace (Z.max 0 (ec - Z.min ec eq)) with (ec - Z.min ec eq) by lia.
  replace (Z.max 0 (eq - Z.min ec eq)) with (eq - Z.min ec eq) by lia.
  reflexivity.
Qed.

Lemma binary_normalize_pos (z e : Z) :
  0 < z ->
  binary_normalize prec emax z e false
  = rnd false (z * 2 ^ pad_of z e) 1 (e - pad_of z e).
Proof.
  intros Hz. destruct z as [|m|m]; try lia. cbn [binary_normalize].
  apply binary_round_rnd.
Qed.


Lemma rnd_nonpos (N D e : Z) : 0 <= N -> 0 < D -> nonpos (rnd true N D e) = true.
Proof.
  intros HN HD. rewrite rnd_stages by done.
  pose proof (shift_of_nonneg (N / D) e).
  assert (0 < 2 ^ shift_of (N / D) e * D)
    by (apply Z.mul_pos_pos; [apply Z.pow_pos_nonneg|]; lia).
  pose proof (rne_bounds N (2 ^ shift_of (N / D) e * D) ltac:(done)).
  assert (0 <= N / (2 ^ shift_of (N / D) e * D)) by (apply Z.div_pos; lia).
  rewrite pack_eval by lia.
  set (M := rne N (2 ^ shift_of (N / D) e * D)) in *.
  assert (0 <= M / 2 ^ shift_of M (e + shift_of (N / D) e)).
  { apply Z.div_pos; [lia|]. apply Z.pow_pos_nonneg; [lia|apply shift_of_nonneg]. }
  destruct (M / _) as [|p|p]; [reflexivity| |lia].
  destruct (_ <=? _); reflexivity.
Qed.

Lemma binary_normalize_nonpos (z e : Z) :
  z <= 0 -> nonpos (binary_normalize prec emax z e false) = true.
Proof.
  intros Hz. destruct z as [|m|m]; [reflexivity|lia|]. cbn [binary_normalize].
  rewrite binary_round_rnd. apply rnd_nonpos; [|lia].
  apply Z.mul_nonneg_nonneg; [lia|apply Z.pow_nonneg; unfold pad_of; lia].
Qed.

Lemma nonpos_lt_finite (x : spec_float) (m : positive) (e : Z) :
  nonpos x = true -> SFltb x (S754_finite false m e) = true.
Proof. destruct x as [s|[]| |[] m' e']; cbn; done. Qed.

Lemma binary_normalize_nonneg (z e : Z) :
  0 <= z -> nonneg (binary_normalize prec emax z e false) = true.
Proof.
  intros Hz. destruct (Z.eq_dec z 0) as [->|]; [reflexivity|].
  rewrite binary_normalize_pos by lia. apply rnd_nonneg; [|lia].
  apply Z.mul_nonneg_nonneg; [lia|apply Z.pow_nonneg; unfold pad_of; lia].
Qed.

(** Two integers at two exponents, in the order of their values, are
    normalized to numbers in the same order. *)
Lemma binary_normalize_mono (z1 e1 z2 e2 : Z) :
  0 <= z1 ->
  z1 * 2 ^ (e1 - Z.min e1 e2) <= z2 * 2 ^ (e2 - Z.min e1 e2) ->
  SFleb (binary_normalize prec emax z1 e1 false)
        (binary_normalize prec emax z2 e2 false) = true.
Proof.
  intros Hz1 Hle.
  assert (Hq1 : 0 < 2 ^ (e1 - Z.min e1 e2)) by (apply Z.pow_pos_nonneg; lia).
  assert (Hq2 : 0 < 2 ^ (e2 - Z.min e1 e2)) by (apply Z.pow_pos_nonneg; lia).
  assert (Hz2 : 0 <= z2) by nia.
  destruct (Z.eq_dec z1 0) as [->|Hz1'].
  { apply zero_le_nonneg. now apply binary_normalize_nonneg. }
  assert (Hz2' : 0 < z2) by nia.
  rewrite !binary_normalize_pos by lia.
  set (p1 := pad_of z1 e1). set (p2 := pad_of z2 e2).
  assert (Hp1 : 0 <= p1) by (unfold p1, pad_of; lia).
  assert (Hp2 : 0 <= p2) by (unfold p2, pad_of; lia).
  assert (Hpp1 : 0 < 2 ^ p1) by (apply Z.pow_pos_nonneg; lia).
  assert (Hpp2 : 0 < 2 ^ p2) by (apply Z.pow_pos_nonneg; lia).
  apply rnd_mono_value; [nia|lia|lia|apply fine_pad; lia|apply fine_pad; lia|].
  set (t := Z.min (e1 - p1) (e2 - p2)). set (u := Z.min e1 e2) in *.
  assert (E1 : z1 * 2 ^ p1 * 2 ^ (e1 - p1 - t) = z1 * 2 ^ (e1 - u) * 2 ^ (u - t)).
  { rewrite <- !Z.mul_assoc, <- !Z.pow_add_r by lia. do 2 f_equal. lia. }
  assert (E2 : z2 * 2 ^ p2 * 2 ^ (e2 - p2 - t) = z2 * 2 ^ (e2 - u) * 2 ^ (u - t)).
  { rewrite <- !Z.mul_assoc, <- !Z.pow_add_r by lia. do 2 f_equal. lia. }
  rewrite !Z.mul_1_r, E1, E2.
  apply Z.mul_le_mono_nonneg_r; [apply Z.pow_nonneg; lia|done].
Qed.

Lemma SFleb_refl_valid (x : spec_float) : x <> S754_nan -> SFleb x x = true.
Proof.
  destruct x as [s|s| |s m e]; try done; intros _; unfold SFleb; cbn.
  - destruct s; reflexivity.
  - change (Pos.compare_cont Eq m m) with (Pos.compare m m).
    rewrite Z.compare_refl, Pos.compare_refl. destruct s; reflexivity.
Qed.

(** [c - q] does not increase when [q] increases, as long as the
    difference stays nonnegative. *)
Theorem SFsub_anti (mc : positive) (ec : Z) (q1 q2 : spec_float) :
  bounded prec emax mc ec = true ->
  valid_binary prec emax q1 = true -> valid_binary prec emax q2 = true ->
  nonneg q1 = true -> SFleb q1 q2 = true ->
  SFleb q2 (S754_finite false mc ec) = true ->
  SFleb (SFsub prec emax (S754_finite false mc ec) q2)
        (SFsub prec emax (S754_finite false mc ec) q1) = true.
Proof.
  intros Vc V1 V2 H1 Hle Hpos.
  assert (Hc : S754_finite false mc ec
               = binary_normalize prec emax (Zpos mc) ec false).
  { cbn [binary_normalize]. symmetry. now apply binary_round_canonical. }
  destruct (nonneg_le_cases q1 q2 H1 Hle)
    as [[[s ->] Hy]|[(m1 & e1 & m2 & e2 & -> & ->)|[_ ->]]].
  - destruct (nonneg_cases q2 Hy) as [[s' ->]|[(m & e & ->)| ->]].
    + cbn [SFsub]. now apply SFleb_refl_valid.
    + rewrite SFsub_finite.
      change (SFsub prec emax (S754_finite false mc ec) (S754_zero s))
        with (S754_finite false mc ec).
      rewrite Hc. cbn [valid_binary] in V2.
      pose proof (SFleb_value m mc e ec (Z.min ec e) V2 Vc Hpos ltac:(lia) ltac:(lia)) as Hz.
      apply binary_normalize_mono; [lia|].
      set (u := Z.min ec e) in *.
      assert (0 < 2 ^ (e - u)) by (apply Z.pow_pos_nonneg; lia).
      assert (Hk : 0 < 2 ^ (u - Z.min u ec)) by (apply Z.pow_pos_nonneg; lia).
      assert (E : Z.pos mc * 2 ^ (ec - Z.min u ec)
                  = Z.pos mc * 2 ^ (ec - u) * 2 ^ (u - Z.min u ec)).
      { rewrite <- Z.mul_assoc, <- Z.pow_add_r by lia. do 2 f_equal. lia. }
      rewrite E. apply Z.mul_le_mono_nonneg_r; [lia|]. nia.
    + cbn in Hpos. discriminate.
  - cbn [valid_binary] in V1, V2. rewrite !SFsub_finite.
    pose proof (SFleb_value m2 mc e2 ec (Z.min ec e2) V2 Vc Hpos ltac:(lia) ltac:(lia)) as Hz.
    apply binary_normalize_mono; [lia|].
    set (u1 := Z.min ec e1) in *. set (u2 := Z.min ec e2) in *.
    set (t := Z.min u2 u1).
    pose proof (SFleb_value m1 m2 e1 e2 t V1 V2 Hle ltac:(lia) ltac:(lia)) as Hv.
    assert (Hd : forall (m : positive) (e u : Z), u <= e -> t <= u ->
              Z.pos m * 2 ^ (e - u) * 2 ^ (u - t) = Z.pos m * 2 ^ (e - t)).
    { intros m e u Hu Ht. rewrite <- Z.mul_assoc, <- Z.pow_add_r by lia.
      do 2 f_equal. lia. }
    rewrite !Z.mul_sub_distr_r, !Hd by lia. lia.
  - cbn in Hpos. discriminate.
Qed.

Lemma SFsub_valid (mc : positive) (ec : Z) (q : spec_float) :
  bounded prec emax mc ec = true -> valid_binary prec emax q = true ->
  valid_binary prec emax (SFsub prec emax (S754_finite false mc ec) q) = true.
Proof.
  intros Vc Vq. destruct q as [s|s| |s m e]; try done.
  unfold SFsub. apply binary_normalize_valid.
Qed.

(** [c - q] is below zero when [q] is above [c]. *)
Lemma SFsub_nonpos (mc : positive) (ec : Z) (q : spec_float) :
  bounded prec emax mc ec = true -> valid_binary prec emax q = true ->
  SFltb (S754_finite false mc ec) q = true ->
  nonpos (SFsub prec emax (S754_finite false mc ec) q) = true.
Proof.
  intros Vc Vq Hlt. destruct q as [s|[]| |[] m e]; try done.
  cbn [valid_binary] in Vq. rewrite SFsub_finite.
  apply binary_normalize_nonpos.
  destruct (Z.le_gt_cases (Zpos m * 2 ^ (e - Z.min ec e))
                          (Zpos mc * 2 ^ (ec - Z.min ec e))) as [Hle|Hgt]; [|lia].
  exfalso.
  assert (SFleb (S754_finite false m e) (S754_finite false mc ec) = true) as Hl.
  { replace (S754_finite false m e) with (rnd false (Zpos m) 1 e)
      by now apply rnd_canonical.
    replace (S754_finite false mc ec) with (rnd false (Zpos mc) 1 ec)
      by now apply rnd_canonical.
    apply bounded_canonical in Vq as [Cq _]. apply bounded_canonical in Vc as [Cc _].
    apply rnd_mono_value; try lia.
    - unfold fine. rewrite Z.div_1_r. lia.
    - unfold fine. rewrite Z.div_1_r. lia.
    - rewrite !Z.mul_1_r. now rewrite (Z.min_comm e ec). }
  apply SFleb_finite_pos_inv in Hl. revert Hlt. unfold SFltb. cbn.
  change (Pos.compare_cont Eq mc m) with (Pos.compare mc m).
  destruct (Z.compare_spec ec e) as [->|H|H]; [|lia|discriminate].
  destruct (Pos.compare_spec mc m); try discriminate; lia.
Qed.

Lemma SFsub_nonneg (mc : positive) (ec : Z) (q : spec_float) :
  bounded prec emax mc ec = true -> valid_binary prec emax q = true ->
  nonneg q = true -> SFleb q (S754_finite false mc ec) = true ->
  nonneg (SFsub prec emax (S754_finite false mc ec) q) = true.
Proof.
  intros Vc Vq Hq Hle.
  destruct (nonneg_cases q Hq) as [[s ->]|[(m & e & ->)| ->]];
    [reflexivity| |discriminate].
  cbn [valid_binary] in Vq. rewrite SFsub_finite. apply binary_normalize_nonneg.
  pose proof (SFleb_value m mc e ec (Z.min ec e) Vq Vc Hle ltac:(lia) ltac:(lia)).
  lia.
Qed.

Lemma SFmul_nonneg (x : spec_float) (mk : positive) (ek : Z) :
  nonneg x = true -> nonneg (SFmul prec emax x (S754_finite false mk ek)) = true.
Proof.
  intros Hx. destruct (nonneg_cases x Hx) as [[s ->]|[(m & e & ->)| ->]]; try reflexivity.
  rewrite SFmul_finite. apply rnd_nonneg; lia.
Qed.

Lemma SFmul_nonpos (x : spec_float) (mk : positive) (ek : Z) :
  nonpos x = true -> nonpos (SFmul prec emax x (S754_finite false mk ek)) = true.
Proof.
  destruct x as [s|[]| |[] m e]; try discriminate; intros _; try reflexivity.
  rewrite SFmul_finite. apply rnd_nonpos; lia.
Qed.

End Rounding.

Lemma nonneg_not_nan (x : spec_float) : nonneg x = true -> is_nan x = false.
Proof. destruct x; done. Qed.

Lemma nonpos_not_nan (x : spec_float) : nonpos x = true -> is_nan x = false.
Proof. destruct x; done. Qed.

Lemma nonneg_le (x y : spec_float) :
  nonneg x = true -> SFleb x y = true -> nonneg y = true.
Proof.
  intros Hx Hle.
  destruct (nonneg_le_cases x y Hx Hle) as [[_ Hy]|[(mx & ex & my & ey & -> & ->)|[_ ->]]];
    done.
Qed.

(** ** The order of the floating-point numbers *)

Lemma SFcompare_finite_Eq s1 m1 e1 s2 m2 e2 :
  SFcompare (S754_finite s1 m1 e1) (S754_finite s2 m2 e2) = Some Eq <->
  s1 = s2 /\ m1 = m2 /\ e1 = e2.
Proof.
  cbn. change (Pos.compare_cont Eq m1 m2) with (Pos.compare m1 m2).
  destruct s1, s2; try (split; [discriminate|intros (? & _); discriminate]);
    destruct (Z.compare_spec e1 e2) as [He|He|He];
    destruct (Pos.compare_spec m1 m2) as [Hm|Hm|Hm]; cbn;
    split; try discriminate; try (intros (_ & ? & ?); lia);
    intros _; repeat split; lia.
Qed.

Lemma SFleb_ltb_trans (a b c : spec_float) :
  SFleb a b = true -> SFltb b c = true -> SFltb a c = true.
Proof.
  unfold SFleb, SFltb.
  destruct (SFcompare a b) as [[]|] eqn:Eab; try discriminate;
    destruct (SFcompare b c) as [[]|] eqn:Ebc; try discriminate; intros _ _.
  - enough (SFcompare a c = Some Lt) as -> by reflexivity.
    destruct a as [sa|sa| |sa ma ea], b as [sb|sb| |sb mb eb], c as [sc|sc| |sc mc ec];
      try discriminate Eab; try discriminate Ebc;
      try (apply SFcompare_finite_Eq in Eab as (-> & -> & ->); exact Ebc);
      destruct sa, sb, sc; cbn in *; congruence.
  - fold (SFltb a c). apply (SFltb_trans a b c); unfold SFltb.
    + now rewrite Eab.
    + now rewrite Ebc.
Qed.

(** [if (x < m) x = m;] *)
Lemma clamp_ge (m x : spec_float) :
  is_nan m = false -> is_nan x = false ->
  SFleb m (if SFltb x m then m else x) = true.
Proof.
  intros Hm Hx. destruct (SFltb x m) eqn:E.
  - now apply SFleb_refl.
  - now apply SFltb_false_leb.
Qed.

Lemma clamp_mono (m x y : spec_float) :
  is_nan m = false -> is_nan x = false -> is_nan y = false ->
  SFleb x y = true ->
  SFleb (if SFltb x m then m else x) (if SFltb y m then m else y) = true.
Proof.
  intros Hm Hx Hy Hle.
  destruct (SFltb x m) eqn:Ex, (SFltb y m) eqn:Ey.
  - now apply SFleb_refl.
  - now apply SFltb_false_leb.
  - rewrite (SFleb_ltb_trans x y m Hle Ey) in Ex. discriminate.
  - exact Hle.
Qed.

Lemma clamp_low (m x y : spec_float) :
  is_nan m = false -> is_nan y = false -> SFltb x m = true ->
  SFleb (if SFltb x m then m else x) (if SFltb y m then m else y) = true.
Proof. intros Hm Hy ->. now apply clamp_ge. Qed.

(** ** Shading *)

Lemma F32_prec_pos : 0 < F32.prec.
Proof. reflexivity. Qed.

Lemma F32_prec_emax : F32.prec < F32.emax.
Proof. reflexivity. Qed.

Lemma F64_prec_pos : 0 < F64.prec.
Proof. reflexivity. Qed.

Section Attenuation.
(** The number one and the dimming distance [K = MAP_CELL_SIZE * dimming],
    a positive number of the format. *)
Variables (mK : positive) (eK : Z).
Let one : spec_float := S754_finite false 8388608 (-23).
Let K : spec_float := S754_finite false mK eK.

(** [1.0f - d / K] *)
Let att (d : spec_float) : spec_float := F32.sub one (F32.div d K).

Lemma att_valid (d : spec_float) : F32.valid (att d) = true.
Proof.
  unfold att, one, K, F32.valid, F32.sub, F32.div.
  apply (SFsub_valid F32.prec F32.emax F32_prec_pos); [vm_compute; reflexivity|].
  apply (SFdiv_valid F32.prec F32.emax F32_prec_pos).
Qed.

Lemma att_cases (d : spec_float) :
  nonneg d = true ->
  nonneg (att d) = true /\ SFleb (F32.div d K) one = true
  \/ nonpos (att d) = true.
Proof.
  intros Hd.
  pose proof (SFdiv_valid F32.prec F32.emax F32_prec_pos d mK eK) as Vq.
  pose proof (SFdiv_nonneg F32.prec F32.emax d mK eK Hd) as Hq.
  fold (F32.div d K) in Vq, Hq.
  destruct (SFltb one (F32.div d K)) eqn:E.
  - right. now apply (SFsub_nonpos F32.prec F32.emax F32_prec_pos).
  - left. apply SFltb_false_leb in E; [|reflexivity|now apply nonneg_not_nan].
    split; [|exact E].
    now apply (SFsub_nonneg F32.prec F32.emax).
Qed.

Lemma att_not_nan (d : spec_float) : nonneg d = true -> is_nan (att d) = false.
Proof.
  intros Hd. destruct (att_cases d Hd) as [[H _]|H].
  - now apply nonneg_not_nan.
  - now apply nonpos_not_nan.
Qed.

Lemma att_anti (d1 d2 : spec_float) :
  F32.valid d1 = true -> F32.valid d2 = true ->
  nonneg d1 = true -> SFleb d1 d2 = true ->
  SFleb (F32.div d2 K) one = true ->
  SFleb (att d2) (att d1) = true.
Proof.
  intros V1 V2 H1 Hle Hq.
  apply (SFsub_anti F32.prec F32.emax F32_prec_pos F32_prec_emax); try done.
  - apply (SFdiv_valid F32.prec F32.emax F32_prec_pos).
  - apply (SFdiv_valid F32.prec F32.emax F32_prec_pos).
  - now apply (SFdiv_nonneg F32.prec F32.emax).
  - now apply (SFdiv_mono F32.prec F32.emax F32_prec_pos).
Qed.

(** [1.0f - d / K] with the minimum [m]. *)
Section Minimum.
Variables (mm : positive) (em : Z).
Hypothesis Hm : bounded F32.prec F32.emax mm em = true.
Let m : spec_float := S754_finite false mm em.
Let dark (d : spec_float) : spec_float :=
  if SFltb (att d) m then m else att d.

Lemma dark_valid (d : spec_float) : F32.valid (dark d) = true.
Proof. unfold dark. destruct (SFltb _ _); [exact Hm|apply att_valid]. Qed.

Lemma dark_ge (d : spec_float) : nonneg d = true -> SFleb m (dark d) = true.
Proof. intros Hd. apply clamp_ge; [reflexivity|now apply att_not_nan]. Qed.

Lemma dark_nonneg (d : spec_float) : nonneg d = true -> nonneg (dark d) = true.
Proof. intros Hd. apply (nonneg_le m); [reflexivity|now apply dark_ge]. Qed.

Lemma dark_anti (d1 d2 : spec_float) :
  F32.valid d1 = true -> F32.valid d2 = true ->
  nonneg d1 = true -> SFleb d1 d2 = true ->
  SFleb (dark d2) (dark d1) = true.
Proof.
  intros V1 V2 H1 Hle.
  pose proof (nonneg_le d1 d2 H1 Hle) as H2.
  destruct (att_cases d2 H2) as [[_ Hq]|Hn].
  - apply clamp_mono; try reflexivity; try now apply att_not_nan.
    now apply att_anti.
  - apply clamp_low; [reflexivity|now apply att_not_nan|].
    now apply nonpos_lt_finite.
Qed.

(** The same, multiplied with a positive number [k] afterwards. *)
Variables (mk : positive) (ek : Z).
Hypothesis Hk : bounded F32.prec F32.emax mk ek = true.
Let k : spec_float := S754_finite false mk ek.

Lemma dark_mul_ge (d : spec_float) :
  nonneg d = true -> SFleb (F32.mul m k) (F32.mul (dark d) k) = true.
Proof.
  intros Hd.
  apply (SFmul_mono F32.prec F32.emax F32_prec_pos F32_prec_emax); try done.
  - apply dark_valid.
  - now apply dark_ge.
Qed.

Lemma dark_mul_anti (d1 d2 : spec_float) :
  F32.valid d1 = true -> F32.valid d2 = true ->
  nonneg d1 = true -> SFleb d1 d2 = true ->
  SFleb (F32.mul (dark d2) k) (F32.mul (dark d1) k) = true.
Proof.
  intros V1 V2 H1 Hle.
  pose proof (nonneg_le d1 d2 H1 Hle) as H2.
  apply (SFmul_mono F32.prec F32.emax F32_prec_pos F32_prec_emax); try done.
  - apply dark_valid.
  - apply dark_valid.
  - now apply dark_nonneg.
  - now apply dark_anti.
Qed.

(** The same, multiplied with [k] before the minimum is taken. *)
Let dark' (d : spec_float) : spec_float :=
  if SFltb (F32.mul (att d) k) m then m else F32.mul (att d) k.

Lemma att_mul_not_nan (d : spec_float) :
  nonneg d = true -> is_nan (F32.mul (att d) k) = false.
Proof.
  intros Hd. destruct (att_cases d Hd) as [[H _]|H].
  - apply nonneg_not_nan.
    now apply (SFmul_nonneg F32.prec F32.emax).
  - apply nonpos_not_nan.
    now apply (SFmul_nonpos F32.prec F32.emax).
Qed.

Lemma dark'_ge (d : spec_float) : nonneg d = true -> SFleb m (dark' d) = true.
Proof. intros Hd. apply clamp_ge; [reflexivity|now apply att_mul_not_nan]. Qed.

Lemma dark'_anti (d1 d2 : spec_float) :
  F32.valid d1 = true -> F32.valid d2 = true ->
  nonneg d1 = true -> SFleb d1 d2 = true ->
  SFleb (dark' d2) (dark' d1) = true.
Proof.
  intros V1 V2 H1 Hle.
  pose proof (nonneg_le d1 d2 H1 Hle) as H2.
  destruct (att_cases d2 H2) as [[Hp Hq]|Hn].
  - apply clamp_mono; try reflexivity; try now apply att_mul_not_nan.
    apply (SFmul_mono F32.prec F32.emax F32_prec_pos F32_prec_emax); try done.
    + apply att_valid.
    + apply att_valid.
    + now apply att_anti.
  - apply clamp_low; [reflexivity|now apply att_mul_not_nan|].
    apply nonpos_lt_finite.
    now apply (SFmul_nonpos F32.prec F32.emax).
Qed.
End Minimum.
End Attenuation.

Lemma f32_one : F32.of_int 1 = S754_finite false 8388608 (-23).
Proof. vm_compute. reflexivity. Qed.

Lemma dimming_15 :
  F32.mul (F32.of_int MAP_CELL_SIZE) (F32.of_int 15) = S754_finite false 15728640 (-14).
Proof. vm_compute. reflexivity. Qed.

Lemma dimming_11 :
  F32.mul (F32.of_int MAP_CELL_SIZE) (F32.of_int 11) = S754_finite false 11534336 (-14).
Proof. vm_compute. reflexivity. Qed.

Lemma f32_lit_7_10 : F32.lit 7 10 = S754_finite false 11744051 (-24).
Proof. vm_compute. reflexivity. Qed.

Lemma f32_lit_65_100 : F32.lit 65 100 = S754_finite false 10905190 (-24).
Proof. vm_compute. reflexivity. Qed.

Lemma f32_lit_8_10 : F32.lit 8 10 = S754_finite false 13421773 (-24).
Proof. vm_compute. reflexivity. Qed.

Lemma f32_lit_85_100 : F32.lit 85 100 = S754_finite false 14260634 (-24).
Proof. vm_compute. reflexivity. Qed.

Ltac shading_constants :=
  unfold brightness_not_increasing, brightness_bounded, wall_darkening,
    floor_darkening, ceiling_darkening, sprite_dark, WALL_DISTANCE_DIMMING,
    FLOOR_DISTANCE_DIMMING, CEILING_DISTANCE_DIMMING, SPRITE_DISTANCE_DIMMING,
    WALL_MIN_BRIGHTNESS, FLOOR_MIN_BRIGHTNESS, CEILING_MIN_BRIGHTNESS,
    SPRITE_MIN_BRIGHTNESS;
  rewrite ?f32_one, ?dimming_15, ?dimming_11, ?f32_lit_7_10, ?f32_lit_65_100,
    ?f32_lit_8_10, ?f32_lit_85_100;
  unfold F32.leb, F32.ltb.

Lemma brightness_bounded_nonneg (d : spec_float) :
  nonneg d = true -> brightness_bounded d.
Proof.
  intros Hd. shading_constants. repeat split.
  - now apply dark_ge.
  - now apply dark_mul_ge.
  - now apply dark_ge.
  - now apply dark'_ge.
  - now apply dark_ge.
Qed.

(** C2 (amended).  For two distances [0 <= d1 <= d2] the brightness factor
    of every surface kind (wall hit on a horizontal or on a vertical face,
    floor, ceiling, sprite) at [d2] is not greater than at [d1].  At a
    distance [d >= 0] the factor of a horizontal wall face, of the floor, of
    the ceiling and of a sprite is at least the minimum brightness of its
    kind; the factor of a vertical wall face is at least
    [WALL_MIN_BRIGHTNESS * 0.8f], which is below [WALL_MIN_BRIGHTNESS]: the
    darkening of vertical faces is applied after the minimum. *)
Theorem brightness_monotone_bounded (d1 d2 : spec_float) :
  F32.valid d1 = true -> F32.valid d2 = true ->
  F32.leb (F32.of_int 0) d1 = true -> F32.leb d1 d2 = true ->
  brightness_not_increasing d1 d2 /\
  brightness_bounded d1 /\ brightness_bounded d2 /\
  F32.ltb (F32.mul WALL_MIN_BRIGHTNESS (F32.lit 8 10)) WALL_MIN_BRIGHTNESS = true.
Proof.
  intros V1 V2 H1 Hle.
  change (nonneg d1 = true) in H1. unfold F32.leb in Hle.
  pose proof (nonneg_le d1 d2 H1 Hle) as H2.
  split; [|split; [|split]];
    [|now apply brightness_bounded_nonneg|now apply brightness_bounded_nonneg
     |vm_compute; reflexivity].
  shading_constants. repeat split.
  - now apply dark_anti.
  - apply dark_mul_anti; try done. 
  - now apply dark_anti.
  - apply dark'_anti; try done.
  - now apply dark_anti.
Qed.

Lemma brightness_monotone_bounded_witness :
  brightness_not_increasing (F32.of_int 100) (F32.of_int 248) /\
  brightness_bounded (F32.of_int 100) /\ brightness_bounded (F32.of_int 248) /\
  F32.ltb (F32.mul WALL_MIN_BRIGHTNESS (F32.lit 8 10)) WALL_MIN_BRIGHTNESS = true.
Proof.
  apply (brightness_monotone_bounded (F32.of_int 100) (F32.of_int 248));
    vm_compute; reflexivity.
Defined.

(** The ray along the facing direction of [east_player] hits a vertical wall
    face at the distance 248, and the brightness factor of that wall strip
    is below [WALL_MIN_BRIGHTNESS]. *)
Lemma wall_darkening_vertical_below_minimum :
  exists h : RayHit.t,
    cast_ray east_player (F32.of_int 1) (S754_zero true) = Some h /\
    RayHit.hitVertical h = true /\
    Hit.distance (RayHit.wall h) = F32.of_int 248 /\
    F32.ltb (wall_darkening (Hit.distance (RayHit.wall h)) (RayHit.hitVertical h))
            WALL_MIN_BRIGHTNESS = true.
Proof.
  eexists. split; [vm_compute; reflexivity|]. cbn [RayHit.hitVertical RayHit.wall Hit.distance].
  repeat split; vm_compute; reflexivity.
Qed.

(** ** Fisheye correction *)

Lemma F32_sub_diag (a : spec_float) :
  is_finite a = true -> F32.sub a a = S754_zero false.
Proof.
  destruct a as [[]| | |s m e]; try discriminate; intros _; try reflexivity.
  unfold F32.sub, SFsub. rewrite Z.sub_diag. reflexivity.
Qed.

(** A [float] promoted to [double]: the same number. *)
Lemma F64_of_f32_finite (s : bool) (m : positive) (e : Z) :
  bounded F32.prec F32.emax m e = true ->
  exists (M : positive) (p : Z),
    F64.of_f32 (S754_finite s m e) = S754_finite s M (e - p) /\
    0 <= p /\ Zpos M = Zpos m * 2 ^ p /\
    bounded F64.prec F64.emax M (e - p) = true.
Proof.
  intros Hb. pose proof (bounded_canonical _ _ _ _ Hb) as [Hc He].
  set (p := pad_of F64.prec F64.emax (Zpos m) e).
  assert (Hp : 0 <= p) by (unfold p, pad_of; lia).
  assert (Hpos : 0 < Zpos m * 2 ^ p)
    by (apply Z.mul_pos_pos; [lia|apply Z.pow_pos_nonneg; lia]).
  destruct (Zpos m * 2 ^ p) as [|M|M] eqn:EM; try lia.
  exists M, p.
  assert (HbM : bounded F64.prec F64.emax M (e - p) = true).
  { unfold bounded, canonical_mantissa. apply andb_true_intro.
    change (Z.pos (digits2_pos M)) with (Zdigits2 (Zpos M)).
    rewrite <- EM, Zdigits2_shift by lia.
    pose proof (Zdigits2_nonneg (Zpos m)).
    assert (0 < Zdigits2 (Zpos m)) by (cbn; lia).
    revert Hc He. unfold p, pad_of, fexp, emin, F64.prec, F64.emax, F32.prec, F32.emax.
    intros Hc He. split; [apply Z.eqb_eq|apply Z.leb_le]; lia. }
  repeat split; try done.
  replace (F64.of_f32 (S754_finite s m e)) with (binary_round F64.prec F64.emax s m e)
    by (destruct s; reflexivity).
  rewrite binary_round_rnd. fold p. rewrite EM. now apply rnd_canonical.
Qed.

(** A [double] that holds a [float], converted to [float]. *)
Lemma F64_to_f32_finite (s : bool) (m M : positive) (e p : Z) :
  bounded F32.prec F32.emax m e = true ->
  0 <= p -> Zpos M = Zpos m * 2 ^ p ->
  F64.to_f32 (S754_finite s M (e - p)) = S754_finite s m e.
Proof.
  intros Hb Hp EM. pose proof (bounded_canonical _ _ _ _ Hb) as [Hc He].
  replace (F64.to_f32 (S754_finite s M (e - p)))
    with (binary_round F32.prec F32.emax s M (e - p)) by (destruct s; reflexivity).
  rewrite binary_round_rnd.
  assert (Hpad : pad_of F32.prec F32.emax (Zpos M) (e - p) = 0).
  { unfold pad_of. rewrite EM, Zdigits2_shift by lia.
    replace (Zdigits2 (Z.pos m) + p + (e - p)) with (Zdigits2 (Z.pos m) + e) by lia.
    lia. }
  rewrite Hpad, Z.pow_0_r, Z.mul_1_r, Z.sub_0_r, EM.
  rewrite (rnd_refine F32.prec F32.emax F32_prec_pos) by (rewrite ?Z.div_1_r; lia).
  now apply rnd_canonical.
Qed.

(** The product of a [double] with one is the [double]. *)
Lemma F64_mul_one (s : bool) (M : positive) (E : Z) :
  bounded F64.prec F64.emax M E = true ->
  F64.mul (S754_finite s M E) (F64.of_int 1) = S754_finite s M E.
Proof.
  intros Hb. pose proof (bounded_canonical _ _ _ _ Hb) as [Hc He].
  change (F64.of_int 1) with (S754_finite false 4503599627370496 (-52)).
  unfold F64.mul. rewrite SFmul_finite, xorb_false_r.
  change (Z.pos 4503599627370496) with (2 ^ 52).
  change (E + -52) with (E + - (52)). rewrite Z.add_opp_r.
  rewrite (rnd_refine F64.prec F64.emax F64_prec_pos) by (rewrite ?Z.div_1_r; lia).
  now apply rnd_canonical.
Qed.

Lemma F64_mul_one_f32 (x : spec_float) :
  F32.valid x = true ->
  F64.to_f32 (F64.mul (F64.of_f32 x) (F64.of_int 1)) = x.
Proof.
  intros Vx. destruct x as [[]|[]| |s m e]; try reflexivity.
  destruct (F64_of_f32_finite s m e Vx) as (M & p & -> & Hp & EM & HbM).
  rewrite F64_mul_one by done. now apply F64_to_f32_finite.
Qed.

(** The tests of a ray read the position of the player only. *)
Lemma grid_walk_camera (p q : Player.t) (fuel : nat)
    (testX testY deltaX deltaY : spec_float) (iterations : nat) :
  Player.x p = Player.x q -> Player.y p = Player.y q ->
  grid_walk fuel p testX testY deltaX deltaY iterations
  = grid_walk fuel q testX testY deltaX deltaY iterations.
Proof.
  intros Hx Hy. revert testX testY iterations.
  induction fuel as [|fuel IH]; intros testX testY iterations; [reflexivity|].
  cbn [grid_walk]. unfold hit_distance. rewrite Hx, Hy.
  destruct (cell_of testX) as [mapX|]; [|reflexivity].
  destruct (cell_of testY) as [mapY|]; [|reflexivity].
  cbn. destruct (_ || _); [reflexivity|].
  destruct (_ >? 0); [reflexivity|]. apply IH.
Qed.

Lemma horizontal_test_camera (p q : Player.t) (rayDirX rayDirY : spec_float) :
  Player.x p = Player.x q -> Player.y p = Player.y q ->
  horizontal_test p rayDirX rayDirY = horizontal_test q rayDirX rayDirY.
Proof.
  intros Hx Hy. unfold horizontal_test. rewrite Hx, Hy.
  destruct (negb _); [|reflexivity].
  destruct (F32.ltb rayDirY _); cbv beta iota zeta; now apply grid_walk_camera.
Qed.

Lemma vertical_test_camera (p q : Player.t) (rayDirX rayDirY : spec_float) :
  Player.x p = Player.x q -> Player.y p = Player.y q ->
  vertical_test p rayDirX rayDirY = vertical_test q rayDirX rayDirY.
Proof.
  intros Hx Hy. unfold vertical_test. rewrite Hx, Hy.
  destruct (negb _); [|reflexivity].
  destruct (F32.ltb rayDirX _); cbv beta iota zeta; now apply grid_walk_camera.
Qed.

Lemma cast_ray_camera (p q : Player.t) (rayDirX rayDirY : spec_float) :
  Player.x p = Player.x q -> Player.y p = Player.y q ->
  cast_ray p rayDirX rayDirY = cast_ray q rayDirX rayDirY.
Proof.
  intros Hx Hy. unfold cast_ray.
  now rewrite (horizontal_test_camera p q), (vertical_test_camera p q).
Qed.

(** The distance of a test is a number of the format [float]. *)
Lemma F64_to_f32_valid (x : spec_float) : F32.valid (F64.to_f32 x) = true.
Proof.
  destruct x as [s|s| |s m e]; try reflexivity.
  apply (binary_normalize_valid F32.prec F32.emax F32_prec_pos).
Qed.

Lemma grid_walk_valid (p : Player.t) (fuel : nat)
    (testX testY deltaX deltaY : spec_float) (iterations n : nat) (h : Hit.t) :
  grid_walk fuel p testX testY deltaX deltaY iterations = Some (h, n) ->
  F32.valid (Hit.distance h) = true.
Proof.
  revert testX testY iterations.
  induction fuel as [|fuel IH]; intros testX testY iterations; cbn [grid_walk].
  - intros [= <- _]. vm_compute. reflexivity.
  - destruct (cell_of testX) as [mapX|]; [|discriminate].
    destruct (cell_of testY) as [mapY|]; [|discriminate].
    cbn. destruct (_ || _).
    + intros [= <- _]. vm_compute. reflexivity.
    + destruct (_ >? 0).
      * intros [= <- _]. apply F64_to_f32_valid.
      * apply IH.
Qed.

Lemma cast_ray_valid (p : Player.t) (rayDirX rayDirY : spec_float) (h : RayHit.t) :
  cast_ray p rayDirX rayDirY = Some h ->
  F32.valid (Hit.distance (RayHit.wall h)) = true.
Proof.
  unfold cast_ray.
  destruct (horizontal_test p rayDirX rayDirY) as [[H nH]|] eqn:EH; [|discriminate].
  destruct (vertical_test p rayDirX rayDirY) as [[V nV]|] eqn:EV; [|discriminate].
  cbn. intros [= <-].
  assert (VH : F32.valid (Hit.distance H) = true).
  { revert EH. unfold horizontal_test. destruct (negb _).
    - destruct (F32.ltb rayDirY _); cbv beta iota zeta; apply grid_walk_valid.
    - intros [= <- _]. vm_compute. reflexivity. }
  assert (VV : F32.valid (Hit.distance V) = true).
  { revert EV. unfold vertical_test. destruct (negb _).
    - destruct (F32.ltb rayDirX _); cbv beta iota zeta; apply grid_walk_valid.
    - intros [= <- _]. vm_compute. reflexivity. }
  unfold closer_hit. destruct (F32.ltb _ _); assumption.
Qed.

Section Fisheye.
Variables cos sin : spec_float -> spec_float.

Lemma ray_loop_spec (p0 : Player.t) (n r : nat) (st st' : Rays.t) :
  ray_loop cos sin n r st = Some st' ->
  Player.x (Rays.player st) = Player.x p0 ->
  Player.y (Rays.player st) = Player.y p0 ->
  Player.angle (Rays.player st) = Player.angle p0 ->
  Rays.rangle st = ray_angle p0 r ->
  (r + n <= length (Rays.wall_distances st))%nat ->
  (r + n <= length (Player.rays_d (Rays.player st)))%nat ->
  (forall i : nat, (r <= i < r + n)%nat ->
     exists h : RayHit.t,
       ray_hit cos sin p0 i = Some h /\
       Rays.wall_distances st' !! i
       = Some (corrected_distance cos (Hit.distance (RayHit.wall h))
                 (ray_angle p0 i) (Player.angle p0)) /\
       Player.rays_d (Rays.player st') !! i
       = Some (corrected_distance cos (Hit.distance (RayHit.wall h))
                 (ray_angle p0 i) (Player.angle p0))) /\
  (forall i : nat, (i < r)%nat ->
     Rays.wall_distances st' !! i = Rays.wall_distances st !! i /\
     Player.rays_d (Rays.player st') !! i = Player.rays_d (Rays.player st) !! i).
Proof.
  revert r st. induction n as [|n IH]; intros r st Hrun Hx Hy Ha Hr Hw Hd.
  - injection Hrun as <-. split; [intros i Hi; lia|done].
  - cbn [ray_loop] in Hrun.
    destruct (ray_step cos sin r st) as [st1|] eqn:E1; [|discriminate].
    cbn [mbind option_bind] in Hrun. revert E1. unfold ray_step.
    destruct (ray_direction cos sin (Rays.rangle st)) as [rayDirX rayDirY] eqn:Ed.
    destruct (cast_ray (Rays.player st) rayDirX rayDirY) as [h|] eqn:Eh; [|discriminate].
    cbn [mbind option_bind]. intros [= <-].
    apply IH in Hrun;
      cbn [Rays.player Rays.wall_distances Rays.rangle set_rays_d Player.x Player.y
           Player.angle Player.rays_d ray_angle] in *;
      [|assumption|assumption|assumption|now rewrite Hr
       |rewrite length_insert; lia|rewrite length_insert; lia].
    destruct Hrun as [Hnew Hold]. split.
    + intros i Hi. destruct (decide (i = r)) as [->|Hne].
      * exists h. destruct (Hold r ltac:(lia)) as [-> ->].
        rewrite !list_lookup_insert_eq by lia.
        rewrite Hr, Ha. repeat split.
        unfold ray_hit. rewrite <- Hr, Ed.
        rewrite <- Eh. symmetry. now apply cast_ray_camera.
      * apply Hnew. lia.
    + intros i Hi. destruct (Hold i ltac:(lia)) as [-> ->].
      rewrite !list_lookup_insert_ne by lia. done.
Qed.

(** C3.  When the ray loop has run, the entry [r] of the wall distance
    buffer (and of [player.rays_d]) is the distance of the wall hit of the ray
    [r] multiplied by the cosine of the difference of the angle of the ray and
    the angle of the player (the product taken on [double] and stored as a
    [float]).  With [cos(0) = 1], for a ray whose angle is exactly the finite
    angle of the player, that entry is the distance of the wall hit itself. *)
Theorem corrected_distance_stored (player : Player.t)
    (wall_distances : list spec_float) (st : Rays.t) (r : nat) :
  length (Player.rays_d player) = Z.to_nat RAY_COUNT ->
  length wall_distances = Z.to_nat RAY_COUNT ->
  r_raycast_rays cos sin player wall_distances = Some st ->
  (r < Z.to_nat RAY_COUNT)%nat ->
  exists h : RayHit.t,
    ray_hit cos sin player r = Some h /\
    let distance := Hit.distance (RayHit.wall h) in
    let correctedDistance :=
      F64.to_f32
        (F64.mul (F64.of_f32 distance)
           (cos (F64.of_f32
                   (m_deg_to_rad (F32.sub (ray_angle player r) (Player.angle player)))))) in
    Rays.wall_distances st !! r = Some correctedDistance /\
    Player.rays_d (Rays.player st) !! r = Some correctedDistance /\
    (cos (S754_zero false) = F64.of_int 1 ->
     is_finite (Player.angle player) = true ->
     ray_angle player r = Player.angle player ->
     correctedDistance = distance).
Proof.
  intros Hd Hw Hrun Hr.
  apply (ray_loop_spec player) in Hrun as [Hnew _];
    cbn [Rays.player Rays.wall_distances Rays.rangle ray_angle];
    [|reflexivity|reflexivity|reflexivity|reflexivity|lia|lia].
  destruct (Hnew r ltac:(lia)) as (h & Hh & Ew & Ed).
  exists h. split; [exact Hh|]. cbn zeta.
  split; [exact Ew|]. split; [exact Ed|].
  intros Hcos Hfin Hang.
  rewrite Hang, F32_sub_diag by done.
  change (F64.of_f32 (m_deg_to_rad (S754_zero false))) with (S754_zero false).
  rewrite Hcos. apply F64_mul_one_f32.
  unfold ray_hit in Hh. destruct (ray_direction _ _ _) as [rayDirX rayDirY].
  now apply cast_ray_valid in Hh.
Qed.
End Fisheye.

Lemma corrected_distance_stored_witness :
  exists st : Rays.t,
    r_raycast_rays cos_series sin_series initial_player
      (replicate (Z.to_nat RAY_COUNT) S754_nan) = Some st /\
    cos_series (S754_zero false) = F64.of_int 1 /\
    ray_angle initial_player 128 = Player.angle initial_player /\
    exists h : RayHit.t,
      ray_hit cos_series sin_series initial_player 128 = Some h /\
      Rays.wall_distances st !! 128%nat = Some (Hit.distance (RayHit.wall h)) /\
      Player.rays_d (Rays.player st) !! 128%nat = Some (Hit.distance (RayHit.wall h)).
Proof.
  assert (exists st : Rays.t,
            r_raycast_rays cos_series sin_series initial_player
              (replicate (Z.to_nat RAY_COUNT) S754_nan) = Some st) as [st E]
    by (eexists; vm_compute; reflexivity).
  exists st. split; [exact E|].
  split; [vm_compute; reflexivity|]. split; [vm_compute; reflexivity|].
  destruct (corrected_distance_stored cos_series sin_series initial_player
              (replicate (Z.to_nat RAY_COUNT) S754_nan) st 128
              eq_refl eq_refl E ltac:(vm_compute; lia))
    as (h & Hh & Ew & Ed & Hsame).
  exists h. split; [exact Hh|]. cbv zeta in Ew, Ed, Hsame.
  rewrite Hsame in Ew, Ed by (vm_compute; reflexivity).
  split; assumption.
Defined.

(** * Rays from inside an empty cell *)

(** ** The value of a floating-point number *)

Section Value.
Variables prec emax : Z.
Hypothesis Hprec : 0 < prec.
Hypothesis Hemax : prec < emax.
Local Abbreviation emin := (emin prec emax).
Local Abbreviation fexp := (fexp prec emax).
Local Abbreviation V := (val prec emax).
Local Abbreviation F := (fin prec emax).
Local Abbreviation rnd := (rnd prec emax).
Local Abbreviation fine := (fine prec emax).
Local Abbreviation U := (unit_val prec emax).

Lemma bounded_digits (m : positive) (e : Z) :
  bounded prec emax m e = true ->
  emin <= e /\ Zdigits2 (Zpos m) <= prec /\
  (emin < e -> Zdigits2 (Zpos m) = prec).
Proof.
  intros Hb. apply bounded_canonical in Hb as [Hc _].
  revert Hc. unfold SpecFloat.fexp. fold emin. lia.
Qed.

(** Of two positive numbers of the format, the one with the smaller
    exponent is the smaller one. *)
Lemma canonical_lt (m1 m2 : positive) (e1 e2 u : Z) :
  bounded prec emax m1 e1 = true -> bounded prec emax m2 e2 = true ->
  e1 < e2 -> u <= e1 ->
  Zpos m1 * 2 ^ (e1 - u) < Zpos m2 * 2 ^ (e2 - u).
Proof.
  intros B1 B2 Hlt Hu.
  apply bounded_digits in B1 as (E1 & D1 & _), B2 as (E2 & _ & D2).
  specialize (D2 ltac:(lia)).
  pose proof (Zdigits2_bounds (Zpos m1) ltac:(lia)) as [_ H1].
  pose proof (Zdigits2_bounds (Zpos m2) ltac:(lia)) as [H2 _].
  rewrite D2 in H2.
  assert (Hp1 : 2 ^ Zdigits2 (Z.pos m1) <= 2 ^ prec) by (apply Z.pow_le_mono_r; lia).
  assert (Hq : 0 < 2 ^ (e1 - u)) by (apply Z.pow_pos_nonneg; lia).
  assert (Hs : 2 ^ (e2 - u) = 2 ^ (e1 - u) * 2 ^ (e2 - e1))
    by (rewrite <- Z.pow_add_r by lia; f_equal; lia).
  assert (Hd : 2 <= 2 ^ (e2 - e1)).
  { change 2 with (2 ^ 1) at 1. apply Z.pow_le_mono_r; lia. }
  assert (Hpp : 2 ^ prec = 2 * 2 ^ (prec - 1)).
  { rewrite <- Z.pow_succ_r by lia. f_equal. lia. }
  rewrite Hs. nia.
Qed.

Lemma SFcompare_val (a b : spec_float) :
  F a = true -> F b = true -> SFcompare a b = Some (V a ?= V b).
Proof.
  assert (Hp : forall e, emin <= e -> 0 < 2 ^ (e - emin))
    by (intros; apply Z.pow_pos_nonneg; lia).
  assert (Hpos : forall (m1 m2 : positive) (e1 e2 : Z),
    bounded prec emax m1 e1 = true -> bounded prec emax m2 e2 = true ->
    match e1 ?= e2 with
    | Eq => (m1 ?= m2)%positive
    | c => c
    end = (Zpos m1 * 2 ^ (e1 - emin) ?= Zpos m2 * 2 ^ (e2 - emin))).
  { intros m1 m2 e1 e2 B1 B2.
    pose proof (bounded_digits _ _ B1) as (E1 & _). pose proof (bounded_digits _ _ B2) as (E2 & _).
    destruct (Z.compare_spec e1 e2) as [->|Hlt|Hgt].
    - specialize (Hp e2 E2).
      destruct (Pos.compare_spec m1 m2) as [->|H|H]; symmetry.
      + apply Z.compare_eq_iff. reflexivity.
      + apply Z.compare_lt_iff. nia.
      + apply Z.compare_gt_iff. nia.
    - symmetry. apply Z.compare_lt_iff. now apply canonical_lt.
    - symmetry. apply Z.compare_gt_iff. now apply canonical_lt. }
  destruct a as [sa| | |sa ma ea], b as [sb| | |sb mb eb]; try discriminate;
    cbn [fin val]; intros Ba Bb.
  - reflexivity.
  - pose proof (bounded_digits _ _ Bb) as (Eb & _). specialize (Hp eb Eb).
    cbn [SFcompare]. destruct sb; cbn [cond_Zopp]; f_equal; symmetry.
    + apply Z.compare_gt_iff. lia.
    + apply Z.compare_lt_iff. lia.
  - pose proof (bounded_digits _ _ Ba) as (Ea & _). specialize (Hp ea Ea).
    cbn [SFcompare]. destruct sa; cbn [cond_Zopp]; f_equal; symmetry.
    + apply Z.compare_lt_iff. lia.
    + apply Z.compare_gt_iff. lia.
  - pose proof (bounded_digits _ _ Ba) as (Ea & _). pose proof (bounded_digits _ _ Bb) as (Eb & _).
    pose proof (Hp ea Ea). pose proof (Hp eb Eb).
    cbn [SFcompare]. change (Pos.compare_cont Eq ma mb) with (Pos.compare ma mb).
    destruct sa, sb; cbn [cond_Zopp]; f_equal.
    + rewrite !Z.mul_opp_l, Z.compare_opp. rewrite <- (Hpos mb ma eb ea) by done.
      rewrite (Z.compare_antisym ea eb), (Pos.compare_antisym ma mb).
      destruct (ea ?= eb), (ma ?= mb)%positive; reflexivity.
    + symmetry. apply Z.compare_lt_iff. lia.
    + symmetry. apply Z.compare_gt_iff. lia.
    + rewrite <- (Hpos ma mb ea eb) by done.
      destruct (ea ?= eb); reflexivity.
Qed.

Lemma SFltb_val (a b : spec_float) :
  F a = true -> F b = true -> SFltb a b = (V a <? V b).
Proof.
  intros Ha Hb. unfold SFltb, Z.ltb. rewrite SFcompare_val by done.
  destruct (V a ?= V b); reflexivity.
Qed.

Lemma SFleb_val (a b : spec_float) :
  F a = true -> F b = true -> SFleb a b = (V a <=? V b).
Proof.
  intros Ha Hb. unfold SFleb, Z.leb. rewrite SFcompare_val by done.
  destruct (V a ?= V b); reflexivity.
Qed.

Lemma SFeqb_val (a b : spec_float) :
  F a = true -> F b = true -> SFeqb a b = (V a =? V b).
Proof.
  intros Ha Hb. unfold SFeqb. rewrite SFcompare_val by done.
  destruct (Z.compare_spec (V a) (V b)); symmetry;
    [apply Z.eqb_eq|apply Z.eqb_neq..]; lia.
Qed.

Lemma fin_valid (x : spec_float) : F x = true -> valid_binary prec emax x = true.
Proof. destruct x; done. Qed.

Lemma fin_not_nan (x : spec_float) : F x = true -> is_nan x = false.
Proof. destruct x; done. Qed.

Lemma val_opp (x : spec_float) : V (SFopp x) = - V x.
Proof. destruct x as [s| | |[] m e]; cbn; lia. Qed.

Lemma fin_opp (x : spec_float) : F (SFopp x) = F x.
Proof. destruct x; reflexivity. Qed.

Lemma val_nonneg (x : spec_float) : nonneg x = true -> 0 <= V x.
Proof.
  intros H. destruct (nonneg_cases x H) as [[s ->]|[(m & e & ->)| ->]]; cbn; lia.
Qed.

(** A rounded value is at most an upper bound of the format. *)
Lemma rnd_upper (N D e k : Z) (mh : positive) (eh : Z) :
  0 <= N -> 0 < D -> fine (N / D) e -> bounded prec emax mh eh = true ->
  0 <= k -> 0 <= e - emin + k ->
  N * 2 ^ (e - emin + k) <= Zpos mh * 2 ^ (eh - emin) * (D * 2 ^ k) ->
  SFleb (rnd false N D e) (S754_finite false mh eh) = true.
Proof.
  intros HN HD Hfine Hb Hk Hek Hle.
  rewrite <- (rnd_canonical prec emax false mh eh Hb).
  pose proof (bounded_digits _ _ Hb) as (Eh & _).
  pose proof (bounded_canonical _ _ _ _ Hb) as [Hc _].
  set (t := Z.min e eh).
  assert (Hp : 0 < 2 ^ (t - emin + k)) by (apply Z.pow_pos_nonneg; lia).
  apply (rnd_mono_value prec emax Hprec); try lia.
  - done.
  - unfold fine. rewrite Z.div_1_r. lia.
  - fold t. apply (Z.mul_le_mono_pos_r _ _ (2 ^ (t - emin + k))); [done|].
    replace (N * 2 ^ (e - t) * 1 * 2 ^ (t - emin + k)) with (N * 2 ^ (e - emin + k)).
    2:{ rewrite Z.mul_1_r, <- Z.mul_assoc, <- Z.pow_add_r by lia. do 2 f_equal. lia. }
    replace (Z.pos mh * 2 ^ (eh - t) * D * 2 ^ (t - emin + k))
      with (Z.pos mh * 2 ^ (eh - emin) * (D * 2 ^ k)); [done|].
    transitivity (Z.pos mh * D * (2 ^ (eh - emin) * 2 ^ k)); [ring|].
    transitivity (Z.pos mh * D * (2 ^ (eh - t) * 2 ^ (t - emin + k))); [|ring].
    rewrite <- !Z.pow_add_r by lia. do 2 f_equal. lia.
Qed.

(** A rounded value is at least a lower bound of the format. *)
Lemma rnd_lower (N D e k : Z) (ml : positive) (el : Z) :
  0 <= N -> 0 < D -> fine (N / D) e -> bounded prec emax ml el = true ->
  0 <= k -> 0 <= e - emin + k ->
  Zpos ml * 2 ^ (el - emin) * (D * 2 ^ k) <= N * 2 ^ (e - emin + k) ->
  SFleb (S754_finite false ml el) (rnd false N D e) = true.
Proof.
  intros HN HD Hfine Hb Hk Hek Hle.
  rewrite <- (rnd_canonical prec emax false ml el Hb).
  pose proof (bounded_digits _ _ Hb) as (El & _).
  pose proof (bounded_canonical _ _ _ _ Hb) as [Hc _].
  set (t := Z.min el e).
  assert (Hp : 0 < 2 ^ (t - emin + k)) by (apply Z.pow_pos_nonneg; lia).
  apply (rnd_mono_value prec emax Hprec); try lia.
  - unfold fine. rewrite Z.div_1_r. lia.
  - done.
  - fold t. apply (Z.mul_le_mono_pos_r _ _ (2 ^ (t - emin + k))); [done|].
    replace (N * 2 ^ (e - t) * 1 * 2 ^ (t - emin + k)) with (N * 2 ^ (e - emin + k)).
    2:{ rewrite Z.mul_1_r, <- Z.mul_assoc, <- Z.pow_add_r by lia. do 2 f_equal. lia. }
    replace (Z.pos ml * 2 ^ (el - t) * D * 2 ^ (t - emin + k))
      with (Z.pos ml * 2 ^ (el - emin) * (D * 2 ^ k)); [done|].
    transitivity (Z.pos ml * D * (2 ^ (el - emin) * 2 ^ k)); [ring|].
    transitivity (Z.pos ml * D * (2 ^ (el - t) * 2 ^ (t - emin + k))); [|ring].
    rewrite <- !Z.pow_add_r by lia. do 2 f_equal. lia.
Qed.

Lemma rnd_opp (N D e : Z) :
  0 <= N -> 0 < D -> rnd true N D e = SFopp (rnd false N D e).
Proof.
  intros HN HD. rewrite !rnd_stages by done.
  pose proof (shift_of_nonneg prec emax (N / D) e).
  assert (0 < 2 ^ shift_of prec emax (N / D) e * D)
    by (apply Z.mul_pos_pos; [apply Z.pow_pos_nonneg|]; lia).
  pose proof (rne_bounds N (2 ^ shift_of prec emax (N / D) e * D) ltac:(done)).
  assert (0 <= N / (2 ^ shift_of prec emax (N / D) e * D)) by (apply Z.div_pos; lia).
  rewrite !pack_eval by lia.
  match goal with
  | |- context [match ?x / ?y with _ => _ end] => destruct (x / y) as [|p|p]
  end; try reflexivity.
  destruct (_ <=? _); reflexivity.
Qed.

Lemma rnd_zero (s : bool) (D e : Z) : 0 < D -> rnd s 0 D e = S754_zero s.
Proof.
  intros HD. rewrite rnd_stages by lia. rewrite Z.div_0_l by lia.
  assert (0 < 2 ^ shift_of prec emax 0 e * D).
  { apply Z.mul_pos_pos; [apply Z.pow_pos_nonneg|]; [lia|apply shift_of_nonneg|lia]. }
  assert (E : rne 0 (2 ^ shift_of prec emax 0 e * D) = 0).
  { unfold rne. rewrite Z.div_0_l, Z.mod_0_l by lia. reflexivity. }
  rewrite E, pack_eval by lia. rewrite Z.div_0_l; [reflexivity|].
  apply Z.pow_nonzero; [lia|apply shift_of_nonneg].
Qed.

(** The rounding of a nonnegative value that lies between two numbers of
    the format lies between them. *)
Lemma rnd_bracket_pos (N D e k : Z) (lo hi : spec_float) :
  0 <= N -> 0 < D -> fine (N / D) e -> 0 <= k -> 0 <= e - emin + k ->
  F lo = true -> F hi = true ->
  V lo * (D * 2 ^ k) <= N * 2 ^ (e - emin + k) <= V hi * (D * 2 ^ k) ->
  F (rnd false N D e) = true /\ V lo <= V (rnd false N D e) <= V hi.
Proof.
  intros HN HD Hfine Hk Hek Flo Fhi [Hlo Hhi].
  assert (Hdk : 0 < D * 2 ^ k) by (apply Z.mul_pos_pos; [|apply Z.pow_pos_nonneg]; lia).
  assert (Hpe : 0 < 2 ^ (e - emin + k)) by (apply Z.pow_pos_nonneg; lia).
  assert (Hvh : 0 <= V hi) by nia.
  pose proof (rnd_nonneg prec emax N D e HN HD) as Hr.
  pose proof (rnd_valid prec emax Hprec false N D e HN HD Hfine) as Vr.
  pose proof (val_nonneg _ Hr) as Hvr.
  destruct (Z.eq_dec N 0) as [->|HN0].
  { rewrite rnd_zero by done. cbn. split; [done|]. nia. }
  assert (Fr : F (rnd false N D e) = true /\ V (rnd false N D e) <= V hi).
  { destruct hi as [sh| | |[] mh eh]; try discriminate.
    - cbn in Hhi. nia.
    - cbn in Hvh. pose proof (Z.pow_pos_nonneg 2 (eh - emin)). 
      pose proof (bounded_digits _ _ Fhi) as (Eh & _). nia.
    - pose proof (rnd_upper N D e k mh eh HN HD Hfine Fhi Hk Hek Hhi) as Hle.
      assert (Fr : F (rnd false N D e) = true).
      { destruct (nonneg_cases _ Hr) as [[s Ez]|[(m & e0 & Ez)|Ez]];
          rewrite Ez in *; [reflexivity|exact Vr|discriminate]. }
      split; [exact Fr|].
      rewrite SFleb_val in Hle by done. now apply Z.leb_le. }
  destruct Fr as [Fr Hup]. split; [exact Fr|]. split; [|exact Hup].
  destruct (Z.le_gt_cases (V lo) 0) as [Hl0|Hl0]; [lia|].
  destruct lo as [sl| | |[] ml el]; try (cbn in Hl0; lia).
  pose proof (rnd_lower N D e k ml el HN HD Hfine Flo Hk Hek Hlo) as Hle.
  rewrite SFleb_val in Hle by done. now apply Z.leb_le.
Qed.

Lemma rnd_bracket (s : bool) (N D e k : Z) (lo hi : spec_float) :
  0 <= N -> 0 < D -> fine (N / D) e -> 0 <= k -> 0 <= e - emin + k ->
  F lo = true -> F hi = true ->
  V lo * (D * 2 ^ k) <= cond_Zopp s N * 2 ^ (e - emin + k) <= V hi * (D * 2 ^ k) ->
  F (rnd s N D e) = true /\ V lo <= V (rnd s N D e) <= V hi.
Proof.
  intros HN HD Hfine Hk Hek Flo Fhi Hb. destruct s; cbn [cond_Zopp] in Hb.
  - rewrite rnd_opp, fin_opp, val_opp by done.
    assert (H' : V (SFopp hi) * (D * 2 ^ k) <= N * 2 ^ (e - emin + k)
                 <= V (SFopp lo) * (D * 2 ^ k)) by (rewrite !val_opp; lia).
    destruct (rnd_bracket_pos N D e k (SFopp hi) (SFopp lo) HN HD Hfine Hk Hek)
      as [Fr Hr]; rewrite ?fin_opp; try done.
    rewrite !val_opp in Hr. split; [done|lia].
  - now apply (rnd_bracket_pos N D e k).
Qed.

(** ** The arithmetic operations on finite numbers *)

Lemma unit_val_pos : 0 < U.
Proof.
  apply Z.pow_pos_nonneg; [lia|].
  pose proof (emin_nonpos prec emax Hprec Hemax). lia.
Qed.

Lemma val_finite (s : bool) (m : positive) (e : Z) :
  V (S754_finite s m e) = cond_Zopp s (Zpos m * 2 ^ (e - emin)).
Proof. destruct s; cbn; lia. Qed.

Theorem SFmul_bracket (x y lo hi : spec_float) :
  F x = true -> F y = true -> F lo = true -> F hi = true ->
  V lo * U <= V x * V y <= V hi * U ->
  F (SFmul prec emax x y) = true /\ V lo <= V (SFmul prec emax x y) <= V hi.
Proof.
  intros Fx Fy Flo Fhi Hb. pose proof unit_val_pos as HU.
  destruct x as [sx| | |sx mx ex], y as [sy| | |sy my ey]; try discriminate;
    try (cbn in *; split; [reflexivity|nia]).
  rewrite SFmul_finite.
  pose proof (bounded_digits _ _ Fx) as (Ex & _).
  pose proof (bounded_digits _ _ Fy) as (Ey & _).
  pose proof (emin_nonpos prec emax Hprec Hemax) as Hemin.
  apply (rnd_bracket _ _ _ _ (- emin)); try done; try lia.
  - now apply fine_mul.
  - fold U. rewrite Z.mul_1_l.
    replace (cond_Zopp (xorb sx sy) (Z.pos mx * Z.pos my) * 2 ^ (ex + ey - emin + - emin))
      with (V (S754_finite sx mx ex) * V (S754_finite sy my ey)); [done|].
    replace (ex + ey - emin + - emin) with ((ex - emin) + (ey - emin)) by lia.
    rewrite Z.pow_add_r by lia. cbn [val]. destruct sx, sy; cbn [cond_Zopp xorb]; ring.
Qed.

Theorem SFdiv_bracket (x y lo hi : spec_float) :
  F x = true -> F y = true -> F lo = true -> F hi = true ->
  V y <> 0 ->
  (0 < V y -> V lo * V y <= V x * U <= V hi * V y) ->
  (V y < 0 -> V hi * V y <= V x * U <= V lo * V y) ->
  F (SFdiv prec emax x y) = true /\ V lo <= V (SFdiv prec emax x y) <= V hi.
Proof.
  intros Fx Fy Flo Fhi Hy Hp Hn. pose proof unit_val_pos as HU.
  destruct y as [sy| | |sy my ey]; try discriminate; [cbn in Hy; lia|].
  pose proof (bounded_digits _ _ Fy) as (Ey & _).
  assert (Hpy : 0 < 2 ^ (ey - emin)) by (apply Z.pow_pos_nonneg; lia).
  destruct x as [sx| | |sx mx ex]; try discriminate.
  { cbn [SFdiv fin val]. split; [reflexivity|].
    cbn [val] in Hp, Hn. destruct sy; cbn [cond_Zopp] in *; nia. }
  pose proof (bounded_digits _ _ Fx) as (Ex & _).
  pose proof (emin_nonpos prec emax Hprec Hemax) as Hemin.
  rewrite SFdiv_finite.
  set (e' := div_exp prec emax (Z.pos mx) ex (Z.pos my) ey).
  assert (He' : 0 <= ex - ey - e' /\ 0 <= e' - emin + (ey - emin)).
  { unfold e', div_exp, SpecFloat.fexp. fold emin. lia. }
  apply (rnd_bracket _ _ _ _ (ey - emin) lo hi); try done; try lia;
    [apply fine_div|].
  assert (Hnum : 0 <= Z.pos mx * 2 ^ (ex - ey - e')) by lia.
  { assert (E : Z.pos mx * 2 ^ (ex - ey - e') * 2 ^ (e' - emin + (ey - emin))
                = Z.pos mx * 2 ^ (ex - emin) * U).
    { unfold unit_val. rewrite <- !Z.mul_assoc, <- !Z.pow_add_r by lia.
      do 2 f_equal. lia. }
    assert (E' : cond_Zopp (xorb sx sy) (Z.pos mx * 2 ^ (ex - ey - e'))
                 * 2 ^ (e' - emin + (ey - emin))
                 = cond_Zopp (xorb sx sy) (Z.pos mx * 2 ^ (ex - emin) * U)).
    { rewrite <- E. destruct (xorb sx sy); cbn [cond_Zopp]; ring. }
    rewrite E'. cbn [val] in Hp, Hn.
    destruct sx, sy; cbn [cond_Zopp xorb] in *; nia. }
Qed.

Lemma binary_normalize_bracket (z e : Z) (szero : bool) (lo hi : spec_float) :
  emin <= e -> F lo = true -> F hi = true ->
  V lo <= z * 2 ^ (e - emin) <= V hi ->
  F (binary_normalize prec emax z e szero) = true /\
  V lo <= V (binary_normalize prec emax z e szero) <= V hi.
Proof.
  intros He Flo Fhi Hb.
  assert (Hworks : forall (s : bool) (m : positive),
    V lo <= cond_Zopp s (Zpos m) * 2 ^ (e - emin) <= V hi ->
    F (binary_round prec emax s m e) = true /\
    V lo <= V (binary_round prec emax s m e) <= V hi).
  { intros s m Hm. rewrite binary_round_rnd.
    set (p := pad_of prec emax (Z.pos m) e).
    assert (Hp : 0 <= p) by (unfold p, pad_of; lia).
    assert (Hpp : 0 < 2 ^ p) by (apply Z.pow_pos_nonneg; lia).
    apply (rnd_bracket _ _ _ _ p lo hi); try done; try lia.
    - apply fine_pad. lia.
    - replace (e - p - emin + p) with (e - emin) by lia.
      destruct s; cbn [cond_Zopp] in *; nia. }
  destruct z as [|m|m]; cbn [binary_normalize].
  - cbn. split; [reflexivity|lia].
  - now apply (Hworks false).
  - now apply (Hworks true).
Qed.

Lemma shl_align_val (s : bool) (m : positive) (e ez : Z) :
  emin <= ez -> ez <= e ->
  cond_Zopp s (Zpos (fst (shl_align m e ez))) * 2 ^ (ez - emin)
  = V (S754_finite s m e).
Proof.
  intros Hz He. pose proof (shl_align_spec m e ez) as [-> _].
  replace (Z.max 0 (e - ez)) with (e - ez) by lia.
  cbn [val]. replace (e - emin) with ((e - ez) + (ez - emin)) by lia.
  rewrite Z.pow_add_r by lia. destruct s; cbn [cond_Zopp]; ring.
Qed.

Theorem SFadd_bracket (x y lo hi : spec_float) :
  F x = true -> F y = true -> F lo = true -> F hi = true ->
  V lo <= V x + V y <= V hi ->
  F (SFadd prec emax x y) = true /\ V lo <= V (SFadd prec emax x y) <= V hi.
Proof.
  intros Fx Fy Flo Fhi Hb.
  destruct x as [sx| | |sx mx ex], y as [sy| | |sy my ey]; try discriminate.
  - cbn [SFadd]. destruct sx, sy; (split; [reflexivity|]); cbn [val] in *; lia.
  - cbn [SFadd]. split; [exact Fy|]. cbn [val] in *. lia.
  - cbn [SFadd]. split; [exact Fx|]. cbn [val] in *. lia.
  - pose proof (bounded_digits _ _ Fx) as (Ex & _).
    pose proof (bounded_digits _ _ Fy) as (Ey & _).
    unfold SFadd. apply binary_normalize_bracket; try done; try lia.
    rewrite Z.mul_add_distr_r, !shl_align_val by lia. exact Hb.
Qed.

Theorem SFsub_bracket (x y lo hi : spec_float) :
  F x = true -> F y = true -> F lo = true -> F hi = true ->
  V lo <= V x - V y <= V hi ->
  F (SFsub prec emax x y) = true /\ V lo <= V (SFsub prec emax x y) <= V hi.
Proof.
  intros Fx Fy Flo Fhi Hb.
  destruct x as [sx| | |sx mx ex], y as [sy| | |sy my ey]; try discriminate.
  - cbn [SFsub]. destruct sx, sy; (split; [reflexivity|]); cbn [val negb] in *; lia.
  - cbn [SFsub]. split; [exact Fy|]. rewrite val_finite in *. cbn [val] in Hb.
    destruct sy; cbn [cond_Zopp negb] in *; lia.
  - cbn [SFsub]. split; [exact Fx|]. cbn [val] in *. lia.
  - pose proof (bounded_digits _ _ Fx) as (Ex & _).
    pose proof (bounded_digits _ _ Fy) as (Ey & _).
    unfold SFsub. apply binary_normalize_bracket; try done; try lia.
    rewrite Z.mul_sub_distr_r, !shl_align_val by lia. exact Hb.
Qed.

(** A number of the format is its own bracket. *)
Lemma fin_finite_val (x : spec_float) :
  F x = true -> is_finite x = true.
Proof. destruct x; done. Qed.

(** ** Rounding with an arbitrary location *)

Lemma shr_m_shr_1 (r : shr_record) :
  0 <= shr_m r -> shr_m (shr_1 r) = shr_m r / 2.
Proof. destruct r as [m b s]. cbn [shr_m]. intros Hm. now rewrite shr_1_nonneg. Qed.

Lemma shr_m_iter (p : positive) : forall r : shr_record,
  0 <= shr_m r ->
  shr_m (SpecFloat.iter_pos shr_1 p r) = shr_m r / 2 ^ Zpos p.
Proof.
  assert (Hdd : forall a b c : Z, 0 < b -> 0 < c -> a / b / c = a / (b * c))
    by (intros; apply Z.div_div; lia).
  assert (Hnn : forall a k : Z, 0 <= a -> 0 <= k -> 0 <= a / 2 ^ k).
  { intros a k Ha Hk. apply Z.div_pos; [done|]. apply Z.pow_pos_nonneg; lia. }
  induction p as [p IH|p IH|]; intros r Hr; cbn [SpecFloat.iter_pos].
  - assert (H1 : 0 <= shr_m (shr_1 r)).
    { rewrite shr_m_shr_1 by done. apply Z.div_pos; lia. }
    assert (H2 : 0 <= shr_m (SpecFloat.iter_pos shr_1 p (shr_1 r))).
    { rewrite IH by done. apply Hnn; lia. }
    rewrite IH, IH, shr_m_shr_1 by done.
    replace (Z.pos p~1) with (1 + Z.pos p + Z.pos p) by lia.
    rewrite !Z.pow_add_r, !Hdd by (try apply Z.mul_pos_pos; try apply Z.pow_pos_nonneg; lia).
    f_equal. rewrite Z.pow_1_r. ring.
  - assert (H2 : 0 <= shr_m (SpecFloat.iter_pos shr_1 p r)).
    { rewrite IH by done. apply Hnn; lia. }
    rewrite IH, IH by done.
    replace (Z.pos p~0) with (Z.pos p + Z.pos p) by lia.
    rewrite !Z.pow_add_r, !Hdd by (try apply Z.mul_pos_pos; try apply Z.pow_pos_nonneg; lia).
    reflexivity.
  - now rewrite shr_m_shr_1.
Qed.

Lemma round_nearest_even_bounds (m : Z) (l : location) :
  m <= round_nearest_even m l <= m + 1.
Proof. destruct l as [|[]]; cbn; try destruct (Z.even m); lia. Qed.

(** The first stage of [binary_round_aux] leaves the mantissa shifted, or
    its successor. *)
Lemma binary_round_aux_stage (s : bool) (m e : Z) (l : location) :
  0 <= m ->
  exists M : Z,
    m / 2 ^ shift_of prec emax m e <= M <= m / 2 ^ shift_of prec emax m e + 1 /\
    binary_round_aux prec emax s m e l
    = pack prec emax s M (e + shift_of prec emax m e).
Proof.
  intros Hm. unfold binary_round_aux, shr_fexp at 1, shr, shift_of.
  set (n := SpecFloat.fexp prec emax (Zdigits2 m + e) - e).
  destruct n as [|p|p] eqn:En.
  - exists (round_nearest_even m l). rewrite Z.max_l by lia.
    rewrite Z.pow_0_r, Z.div_1_r, Z.add_0_r.
    split; [apply round_nearest_even_bounds|].
    rewrite shr_record_of_loc_fields at 1. cbn [shr_m].
    rewrite loc_of_shr_record_of_loc. reflexivity.
  - rewrite Z.max_r by lia.
    set (r := SpecFloat.iter_pos shr_1 p (shr_record_of_loc m l)).
    exists (round_nearest_even (shr_m r) (loc_of_shr_record r)).
    assert (Er : shr_m r = m / 2 ^ Z.pos p).
    { unfold r. rewrite shr_m_iter; rewrite shr_record_of_loc_fields; cbn [shr_m]; done. }
    rewrite <- Er. split; [apply round_nearest_even_bounds|reflexivity].
  - exists (round_nearest_even m l). rewrite Z.max_l by lia.
    rewrite Z.pow_0_r, Z.div_1_r, Z.add_0_r.
    split; [apply round_nearest_even_bounds|].
    rewrite shr_record_of_loc_fields at 1. cbn [shr_m].
    rewrite loc_of_shr_record_of_loc. reflexivity.
Qed.

(** What [pack] returns for a mantissa [M] at the exponent [g]. *)
Lemma pack_cases (s : bool) (M g : Z) :
  0 <= M ->
  pack prec emax s M g = S754_zero s \/
  exists (m : positive) (e : Z),
    g <= e /\ Zpos m * 2 ^ (e - g) <= M /\
    pack prec emax s M g
    = if e <=? emax - prec then S754_finite s m e else S754_infinity s.
Proof.
  intros HM. rewrite pack_eval by done.
  pose proof (shift_of_nonneg prec emax M g) as Hn.
  set (n := shift_of prec emax M g) in *.
  assert (Hp : 0 < 2 ^ n) by (apply Z.pow_pos_nonneg; lia).
  pose proof (Z.div_mod M (2 ^ n) ltac:(lia)) as Hdm.
  pose proof (Z.mod_pos_bound M (2 ^ n) Hp) as Hmod.
  destruct (M / 2 ^ n) as [|m|m] eqn:E; [now left| |].
  - right. exists m, (g + n). replace (g + n - g) with n by lia.
    split; [lia|]. split; [lia|reflexivity].
  - pose proof (Z.div_pos M (2 ^ n) HM Hp). lia.
Qed.

End Value.

(** ** Values of [float] numbers *)

Local Abbreviation v32 := (val F32.prec F32.emax).
Local Abbreviation f32 := (fin F32.prec F32.emax).
Local Abbreviation U32 := (unit_val F32.prec F32.emax).

Lemma U32_eq : U32 = 2 ^ 149.
Proof. reflexivity. Qed.

Lemma F32_add_bracket (x y lo hi : spec_float) :
  f32 x = true -> f32 y = true -> f32 lo = true -> f32 hi = true ->
  v32 lo <= v32 x + v32 y <= v32 hi ->
  f32 (F32.add x y) = true /\ v32 lo <= v32 (F32.add x y) <= v32 hi.
Proof. apply (SFadd_bracket F32.prec F32.emax F32_prec_pos F32_prec_emax). Qed.

Lemma F32_sub_bracket (x y lo hi : spec_float) :
  f32 x = true -> f32 y = true -> f32 lo = true -> f32 hi = true ->
  v32 lo <= v32 x - v32 y <= v32 hi ->
  f32 (F32.sub x y) = true /\ v32 lo <= v32 (F32.sub x y) <= v32 hi.
Proof. apply (SFsub_bracket F32.prec F32.emax F32_prec_pos F32_prec_emax). Qed.

Lemma F32_mul_bracket (x y lo hi : spec_float) :
  f32 x = true -> f32 y = true -> f32 lo = true -> f32 hi = true ->
  v32 lo * U32 <= v32 x * v32 y <= v32 hi * U32 ->
  f32 (F32.mul x y) = true /\ v32 lo <= v32 (F32.mul x y) <= v32 hi.
Proof. apply (SFmul_bracket F32.prec F32.emax F32_prec_pos F32_prec_emax). Qed.

Lemma F32_div_bracket (x y lo hi : spec_float) :
  f32 x = true -> f32 y = true -> f32 lo = true -> f32 hi = true ->
  v32 y <> 0 ->
  (0 < v32 y -> v32 lo * v32 y <= v32 x * U32 <= v32 hi * v32 y) ->
  (v32 y < 0 -> v32 hi * v32 y <= v32 x * U32 <= v32 lo * v32 y) ->
  f32 (F32.div x y) = true /\ v32 lo <= v32 (F32.div x y) <= v32 hi.
Proof. apply (SFdiv_bracket F32.prec F32.emax F32_prec_pos F32_prec_emax). Qed.

Lemma F32_ltb_val (a b : spec_float) :
  f32 a = true -> f32 b = true -> F32.ltb a b = (v32 a <? v32 b).
Proof. apply (SFltb_val F32.prec F32.emax F32_prec_pos). Qed.

Lemma F32_eqb_val (a b : spec_float) :
  f32 a = true -> f32 b = true -> F32.eqb a b = (v32 a =? v32 b).
Proof. apply (SFeqb_val F32.prec F32.emax F32_prec_pos). Qed.

(** [floor] of a finite number, as an integer. *)
Lemma floor_Z_val (q : spec_float) :
  f32 q = true -> floor_Z q = Some (v32 q / U32).
Proof.
  destruct q as [s| | |s m e]; try discriminate; intros Hq; [reflexivity|].
  pose proof (bounded_digits F32.prec F32.emax m e Hq)
    as (He & _).
  change (emin F32.prec F32.emax) with (-149) in *.
  cbn [floor_Z val]. f_equal. rewrite U32_eq.
  change (e - emin F32.prec F32.emax) with (e - -149).
  set (z := cond_Zopp s (Z.pos m)).
  destruct (Z.le_gt_cases 0 e) as [H0|H0].
  - rewrite Z.shiftl_mul_pow2 by lia.
    replace (e - -149) with (e + 149) by lia.
    rewrite Z.pow_add_r, Z.mul_assoc, Z.div_mul by lia. reflexivity.
  - rewrite Z.shiftl_div_pow2 by lia.
    replace (2 ^ 149) with (2 ^ (- e) * 2 ^ (e - -149))
      by (rewrite <- Z.pow_add_r by lia; f_equal; lia).
    rewrite Z.div_mul_cancel_r; [reflexivity| |]; apply Z.pow_nonzero; lia.
Qed.

(** The cell of a coordinate: the coordinate lies in [64 a, 64 (a + 1)),
    unless it is a negative number so small that its quotient by 64 is
    rounded to zero. *)
Lemma cell_of_spec (x : spec_float) :
  f32 x = true -> - (2 ^ 36 * U32) <= v32 x <= 2 ^ 36 * U32 ->
  exists a : Z,
    cell_of x = Some a /\
    (64 * U32 * a <= v32 x < 64 * U32 * (a + 1) \/ (a = 0 /\ - U32 <= v32 x < 0)).
Proof.
  intros Fx Hx. unfold cell_of, int_of_floor.
  change (F32.of_int MAP_CELL_SIZE) with (S754_finite false 8388608 (-17)).
  set (c64 := S754_finite false 8388608 (-17)).
  set (q := F32.div x c64).
  assert (Hq : f32 q = true /\
               (64 * v32 q = v32 x \/
                (- 2 ^ 30 <= v32 x <= 2 ^ 30 /\ - 2 ^ 30 <= v32 q <= 2 ^ 30 /\
                 (0 <= v32 x -> 0 <= v32 q) /\ (v32 x <= 0 -> v32 q <= 0)))).
  { destruct x as [s| | |s m e]; try discriminate.
    { split; [reflexivity|]. left. reflexivity. }
    pose proof (bounded_digits F32.prec F32.emax m e Fx) as (He & Hd & Hn).
    pose proof (bounded_canonical F32.prec F32.emax m e Fx) as [Hc Hmax].
    change (emin F32.prec F32.emax) with (-149) in *.
    destruct (Z.le_gt_cases (-143) e) as [Hbig|Hsmall].
    - assert (Fc : f32 (S754_finite s m (e - 6)) = true).
      { cbn [fin]. unfold bounded, canonical_mantissa. apply andb_true_intro.
        change (Z.pos (digits2_pos m)) with (Zdigits2 (Zpos m)).
        specialize (Hn ltac:(lia)). rewrite Hn.
        unfold SpecFloat.fexp, SpecFloat.emin, F32.prec, F32.emax in *.
        split; [apply Z.eqb_eq|apply Z.leb_le]; lia. }
      destruct (F32_div_bracket (S754_finite s m e) c64
                  (S754_finite s m (e - 6)) (S754_finite s m (e - 6)))
        as [Fq Vq]; try done.
      + intros _. rewrite !val_finite. change (v32 c64) with (2 ^ 155).
        rewrite U32_eq. change (emin F32.prec F32.emax) with (-149).
        replace (e - -149) with ((e - 6 - -149) + 6) by lia.
        rewrite Z.pow_add_r by lia. destruct s; cbn [cond_Zopp]; lia.
      + fold q in Fq, Vq. split; [exact Fq|]. left.
        rewrite !val_finite in *. change (emin F32.prec F32.emax) with (-149) in *.
        replace (e - -149) with ((e - 6 - -149) + 6) by lia.
        rewrite Z.pow_add_r by lia. destruct s; cbn [cond_Zopp] in *; lia.
    - assert (Hm : Zpos m < 2 ^ 24).
      { pose proof (Zdigits2_bounds (Zpos m) ltac:(lia)) as [_ Hlt].
        eapply Z.lt_le_trans; [exact Hlt|]. apply Z.pow_le_mono_r; unfold F32.prec in Hd; lia. }
      assert (Hp : 0 < 2 ^ (e - -149) <= 2 ^ 5).
      { split; [apply Z.pow_pos_nonneg; lia|apply Z.pow_le_mono_r; lia]. }
      assert (Hv : - 2 ^ 30 <= v32 (S754_finite s m e) <= 2 ^ 30).
      { rewrite val_finite. change (emin F32.prec F32.emax) with (-149).
        destruct s; cbn [cond_Zopp]; nia. }
      assert (Hnz : v32 (S754_finite s m e) <> 0).
      { rewrite val_finite. change (emin F32.prec F32.emax) with (-149).
        destruct s; cbn [cond_Zopp]; nia. }
      set (T := S754_finite false 8388608 (-142)).
      destruct (Z.le_gt_cases 0 (v32 (S754_finite s m e))) as [Hs|Hs].
      + destruct (F32_div_bracket (S754_finite s m e) c64 (S754_zero false) T)
          as [Fq Vq]; try done.
        * intros _. change (v32 c64) with (2 ^ 155). change (v32 T) with (2 ^ 30).
          rewrite U32_eq. change (v32 (S754_zero false)) with 0. lia.
        * fold q in Fq, Vq. change (v32 T) with (2 ^ 30) in Vq.
          change (v32 (S754_zero false)) with 0 in Vq.
          split; [exact Fq|]. right. lia.
      + destruct (F32_div_bracket (S754_finite s m e) c64 (SFopp T) (S754_zero false))
          as [Fq Vq]; try done.
        * intros _. change (v32 c64) with (2 ^ 155). change (v32 (SFopp T)) with (- 2 ^ 30).
          rewrite U32_eq. change (v32 (S754_zero false)) with 0. lia.
        * fold q in Fq, Vq. change (v32 (SFopp T)) with (- 2 ^ 30) in Vq.
          change (v32 (S754_zero false)) with 0 in Vq.
          split; [exact Fq|]. right. lia. }
  destruct Hq as [Fq Hq]. rewrite (floor_Z_val q Fq).
  rewrite U32_eq in *.
  pose proof (Z.div_mod (v32 q) (2 ^ 149) ltac:(lia)) as Hdm.
  pose proof (Z.mod_pos_bound (v32 q) (2 ^ 149) ltac:(lia)) as Hmod.
  set (a := v32 q / 2 ^ 149) in *.
  assert (Hrange : (INT_MIN <=? a) && (a <=? INT_MAX) = true).
  { apply andb_true_intro. unfold INT_MIN, INT_MAX.
    split; apply Z.leb_le; lia. }
  rewrite Hrange. exists a. split; [reflexivity|]. lia.
Qed.

(** [floor(v / MAP_CELL_SIZE) * MAP_CELL_SIZE] for a coordinate in a cell
    inside the grid. *)
Lemma cell_origin_spec (x : spec_float) (a : Z) :
  cell_of x = Some a -> 1 <= a <= 6 -> cell_origin x = F64.of_int (64 * a).
Proof.
  unfold cell_of, int_of_floor, cell_origin. intros Hc Ha.
  set (q := F32.div x (F32.of_int MAP_CELL_SIZE)) in *.
  assert (Vq : F32.valid q = true)
    by apply (SFdiv_valid F32.prec F32.emax F32_prec_pos).
  destruct (floor_Z q) as [z|] eqn:Ef; [|discriminate].
  destruct ((INT_MIN <=? z) && (z <=? INT_MAX)); [|discriminate].
  injection Hc as ->.
  destruct q as [s| | |s m e]; try discriminate.
  { cbn in Ef. injection Ef as <-. lia. }
  cbn [floor_Z] in Ef. injection Ef as Ef.
  destruct (F64_of_f32_finite s m e Vq) as (M & p & -> & Hp & EM & _).
  cbn [floor_f64].
  replace (Z.shiftl (cond_Zopp s (Z.pos M)) (e - p)) with a.
  2:{ rewrite <- Ef.
      replace (cond_Zopp s (Z.pos M)) with (Z.shiftl (cond_Zopp s (Z.pos m)) p).
      - rewrite Z.shiftl_shiftl by lia. f_equal. lia.
      - rewrite Z.shiftl_mul_pow2, EM by lia. destruct s; cbn [cond_Zopp]; lia. }
  assert (Hcases : a = 1 \/ a = 2 \/ a = 3 \/ a = 4 \/ a = 5 \/ a = 6) by lia.
  destruct Hcases as [->|[->|[->|[->|[->| ->]]]]]; vm_compute; reflexivity.
Qed.

(** ** The distance of a hit *)

(** The square root of a [double] that is at most [2 ^ 20]: zero, or a
    number that is at most [2 ^ 11] and whose exponent is at least the
    least exponent of the format [float]. *)
Lemma F64_sqrt_bound (M : positive) (E : Z) :
  bounded F64.prec F64.emax M E = true -> -201 <= E ->
  Zpos M * 2 ^ (E + 298) <= 2 ^ 318 ->
  F64.sqrt (S754_finite false M E) = S754_zero false \/
  exists (m : positive) (e : Z),
    F64.sqrt (S754_finite false M E) = S754_finite false m e /\
    -149 <= e /\ Zpos m * 2 ^ (e + 149) <= 2 ^ 160.
Proof.
  intros Hb HE Hv.
  pose proof (bounded_digits F64.prec F64.emax M E Hb) as (_ & _ & Hd).
  change (emin F64.prec F64.emax) with (-1074) in Hd. specialize (Hd ltac:(lia)).
  unfold F64.sqrt, SFsqrt, SFsqrt_core_binary. rewrite Hd.
  set (e' := Z.min _ _).
  assert (He' : e' = E / 2 - 26).
  { unfold e', SpecFloat.fexp, SpecFloat.emin, F64.prec, F64.emax.
    rewrite !Z.div2_div. Z.div_mod_to_equations. lia. }
  clearbody e'.
  set (s := E - 2 * e').
  assert (Hs : 0 <= s) by (unfold s; Z.div_mod_to_equations; lia).
  set (m' := match s with Z.pos _ => Z.shiftl (Z.pos M) s | 0 => Z.pos M | Z.neg _ => 0 end).
  assert (Hm' : m' = Zpos M * 2 ^ s).
  { unfold m'. destruct s as [|p|p] eqn:Es; [cbn; lia| |lia].
    now rewrite Z.shiftl_mul_pow2. }
  clearbody m'.
  assert (Hps : 0 < 2 ^ s) by (apply Z.pow_pos_nonneg; lia).
  pose proof (Z.sqrtrem_sqrt m') as Hq. pose proof (Z.sqrt_spec m' ltac:(nia)) as Hsq.
  destruct (Z.sqrtrem m') as [q r]. cbn [fst] in Hq. subst q.
  set (q := Z.sqrt m') in *. cbv zeta in Hsq.
  set (l := if r =? 0 then _ else _). clearbody l.
  assert (Hq0 : 0 <= q) by apply Z.sqrt_nonneg.
  clearbody q.
  destruct (binary_round_aux_stage F64.prec F64.emax false q e' l Hq0)
    as (Mst & HM & ->).
  set (n := shift_of F64.prec F64.emax q e') in *.
  assert (Hn : 0 <= n) by apply shift_of_nonneg.
  assert (Hpn : 0 < 2 ^ n) by (apply Z.pow_pos_nonneg; lia).
  assert (Hqd : 0 <= q / 2 ^ n) by (apply Z.div_pos; lia).
  (* the value of the root *)
  assert (HE298 : 0 <= E + 298) by lia.
  assert (He149 : 0 <= e' + 149) by (clear - He' HE; Z.div_mod_to_equations; lia).
  assert (Hroot : q * 2 ^ (e' + 149) <= 2 ^ 159).
  { apply Z.square_le_simpl_nonneg; [lia|].
    replace (2 ^ 159 * 2 ^ 159) with (2 ^ 318) by (rewrite <- Z.pow_add_r by lia; reflexivity).
    eapply Z.le_trans; [|exact Hv].
    replace (2 ^ (E + 298)) with (2 ^ s * (2 ^ (e' + 149) * 2 ^ (e' + 149))).
    2:{ rewrite <- !Z.pow_add_r by lia. f_equal. unfold s. lia. }
    assert (0 < 2 ^ (e' + 149)) by (apply Z.pow_pos_nonneg; lia).
    nia. }
  assert (Hq1 : 1 <= q).
  { destruct (Z.le_gt_cases 1 q); [done|]. assert (q = 0) by lia. nia. }
  assert (He10 : e' <= 10).
  { destruct (Z.le_gt_cases e' 10); [done|].
    assert (2 ^ 160 <= 2 ^ (e' + 149)) by (apply Z.pow_le_mono_r; lia). nia. }
  assert (Hdq : Zdigits2 q + e' <= 11).
  { pose proof (Zdigits2_bounds q ltac:(lia)) as [Hlo _].
    destruct (Z.le_gt_cases (Zdigits2 q + e') 11); [done|].
    assert (2 ^ (11 - e') <= 2 ^ (Zdigits2 q - 1)) by (apply Z.pow_le_mono_r; lia).
    assert (2 ^ (11 - e') * 2 ^ (e' + 149) = 2 ^ 160)
      by (rewrite <- Z.pow_add_r by lia; f_equal; lia).
    assert (0 < 2 ^ (e' + 149)) by (apply Z.pow_pos_nonneg; lia).
    nia. }
  assert (Hne : n + e' <= 10).
  { unfold n, shift_of, SpecFloat.fexp, SpecFloat.emin, F64.prec, F64.emax. lia. }
  assert (Hulp : 2 ^ n * 2 ^ (e' + 149) <= 2 ^ 159).
  { rewrite <- Z.pow_add_r by lia. apply Z.pow_le_mono_r; lia. }
  assert (Hst : Mst * 2 ^ (e' + n + 149) <= 2 ^ 160).
  { replace (e' + n + 149) with (n + (e' + 149)) by lia. rewrite Z.pow_add_r by lia.
    pose proof (Z.mul_div_le q (2 ^ n) Hpn).
    assert (0 < 2 ^ (e' + 149)) by (apply Z.pow_pos_nonneg; lia).
    replace (2 ^ 160) with (2 ^ 159 + 2 ^ 159) by reflexivity. nia. }
  destruct (pack_cases F64.prec F64.emax false Mst (e' + n) ltac:(lia))
    as [->|(m & e & Hge & Hle & ->)]; [now left|right].
  assert (Hfin : Zpos m * 2 ^ (e + 149) <= 2 ^ 160).
  { replace (e + 149) with ((e - (e' + n)) + (e' + n + 149)) by lia.
    rewrite Z.pow_add_r by lia.
    assert (0 < 2 ^ (e' + n + 149)) by (apply Z.pow_pos_nonneg; lia). nia. }
  assert (He11 : e <= 11).
  { destruct (Z.le_gt_cases e 11); [done|].
    assert (2 ^ 161 <= 2 ^ (e + 149)) by (apply Z.pow_le_mono_r; lia). nia. }
  exists m, e. replace (e <=? F64.emax - F64.prec) with true
    by (symmetry; apply Z.leb_le; unfold F64.emax, F64.prec; lia).
  repeat split; [lia|done].
Qed.

(** Replaces the value of a constant by its numeral. *)
Ltac v32_const c :=
  let n := eval vm_compute in (v32 c) in
  change (v32 c) with n in *.

Lemma square_bound (a b : Z) : - b <= a <= b -> 0 <= a * a <= b * b.
Proof. nia. Qed.

(** The distance of a hit point in the grid from a player in the grid is at
    most 2048. *)
Lemma hit_distance_bound (player : Player.t) (testX testY : spec_float) :
  f32 (Player.x player) = true -> f32 (Player.y player) = true ->
  f32 testX = true -> f32 testY = true ->
  - U32 <= v32 (Player.x player) <= 512 * U32 ->
  - U32 <= v32 (Player.y player) <= 512 * U32 ->
  - U32 <= v32 testX <= 512 * U32 -> - U32 <= v32 testY <= 512 * U32 ->
  f32 (hit_distance player testX testY) = true /\
  0 <= v32 (hit_distance player testX testY) <= 2048 * U32.
Proof.
  intros Fpx Fpy Fx Fy Hpx Hpy Hx Hy. unfold hit_distance.
  set (lo := F32.of_int (-513)). set (hi := F32.of_int 513).
  destruct (F32_sub_bracket testX (Player.x player) lo hi) as [Fdx Hdx]; try done.
  { v32_const lo. v32_const hi. rewrite U32_eq in *. lia. }
  destruct (F32_sub_bracket testY (Player.y player) lo hi) as [Fdy Hdy]; try done.
  { v32_const lo. v32_const hi. rewrite U32_eq in *. lia. }
  set (dx := F32.sub testX (Player.x player)) in *.
  set (dy := F32.sub testY (Player.y player)) in *.
  v32_const lo. v32_const hi.
  set (sq := F32.of_int 524288).
  destruct (F32_mul_bracket dx dx (S754_zero false) sq) as [Fdx2 Hdx2]; try done.
  { v32_const sq. change (v32 (S754_zero false)) with 0. rewrite U32_eq.
    pose proof (square_bound (v32 dx) (513 * 2 ^ 149) Hdx). lia. }
  destruct (F32_mul_bracket dy dy (S754_zero false) sq) as [Fdy2 Hdy2]; try done.
  { v32_const sq. change (v32 (S754_zero false)) with 0. rewrite U32_eq.
    pose proof (square_bound (v32 dy) (513 * 2 ^ 149) Hdy). lia. }
  set (sm := F32.of_int 1048576).
  destruct (F32_add_bracket (F32.mul dx dx) (F32.mul dy dy) (S754_zero false) sm)
    as [Fs Hs]; try done.
  { v32_const sq. v32_const sm. change (v32 (S754_zero false)) with 0 in *. lia. }
  set (s := F32.add (F32.mul dx dx) (F32.mul dy dy)) in *.
  v32_const sm. change (v32 (S754_zero false)) with 0 in *. clearbody s.
  clear - Fs Hs. rewrite U32_eq.
  destruct s as [[]| | |sg m e]; try discriminate;
    try (split; [reflexivity|cbn; lia]).
  assert (sg = false) as ->.
  { destruct sg; [|reflexivity]. rewrite val_finite in Hs. cbn [cond_Zopp] in Hs.
    pose proof (bounded_digits F32.prec F32.emax m e Fs) as (He & _).
    change (emin F32.prec F32.emax) with (-149) in *.
    assert (0 < 2 ^ (e - -149)) by (apply Z.pow_pos_nonneg; lia). nia. }
  pose proof (bounded_digits F32.prec F32.emax m e Fs) as (He & _).
  change (emin F32.prec F32.emax) with (-149) in *.
  destruct (F64_of_f32_finite false m e Fs) as (M & p & -> & Hp & EM & HbM).
  assert (HE : -201 <= e - p).
  { pose proof (bounded_canonical F64.prec F64.emax M (e - p) HbM) as [Hc _].
    rewrite EM, Zdigits2_shift in Hc by lia.
    assert (0 < Zdigits2 (Zpos m)) by (cbn; lia).
    revert Hc. unfold SpecFloat.fexp, SpecFloat.emin, F64.prec, F64.emax. lia. }
  assert (Hv : Zpos M * 2 ^ (e - p + 298) <= 2 ^ 318).
  { rewrite EM. rewrite val_finite in Hs. cbn [cond_Zopp] in Hs.
    change (emin F32.prec F32.emax) with (-149) in Hs.
    replace (Z.pos m * 2 ^ p * 2 ^ (e - p + 298))
      with (Z.pos m * 2 ^ (e - -149) * 2 ^ 149).
    - replace (2 ^ 318) with (1048576 * 2 ^ 149 * 2 ^ 149) by reflexivity.
      apply Z.mul_le_mono_nonneg_r; lia.
    - rewrite <- !Z.mul_assoc, <- !Z.pow_add_r by lia. do 2 f_equal. lia. }
  destruct (F64_sqrt_bound M (e - p) HbM HE Hv) as [->|(mr & er & -> & Her & Hr)].
  { split; [reflexivity|cbn; lia]. }
  cbn [F64.to_f32 cond_Zopp].
  destruct (binary_normalize_bracket F32.prec F32.emax F32_prec_pos F32_prec_emax
              (Zpos mr) er false (S754_zero false) (F32.of_int 2048))
    as [Fr Hrr]; try done.
  { change (emin F32.prec F32.emax) with (-149).
    change (v32 (S754_zero false)) with 0. v32_const (F32.of_int 2048).
    replace (er - -149) with (er + 149) by lia.
    change (2 ^ 160) with (2048 * 2 ^ 149) in Hr. lia. }
Qed.

Lemma map_boundary (a b : Z) :
  0 <= a < 8 -> 0 <= b < 8 ->
  cell_at Level.map (wrap_int (wrap_int (b * MAPX) + a)) = 0 ->
  1 <= a <= 6 /\ 1 <= b <= 6.
Proof.
  intros Ha Hb.
  assert (Ea : a = 0 \/ a = 1 \/ a = 2 \/ a = 3 \/ a = 4 \/ a = 5 \/ a = 6 \/ a = 7) by lia.
  assert (Eb : b = 0 \/ b = 1 \/ b = 2 \/ b = 3 \/ b = 4 \/ b = 5 \/ b = 6 \/ b = 7) by lia.
  destruct Ea as [->|[->|[->|[->|[->|[->|[->| ->]]]]]]];
    destruct Eb as [->|[->|[->|[->|[->|[->|[->| ->]]]]]]];
    vm_compute; intros H; try discriminate H; split; split; discriminate.
Qed.

Lemma wrap_index (a b : Z) :
  0 <= a < 8 -> 0 <= b < 8 -> wrap_int (wrap_int (b * MAPX) + a) = b * MAPX + a.
Proof.
  intros Ha Hb. unfold MAPX.
  rewrite (wrap_int_small (b * 8)) by (unfold in_int, INT_MIN, INT_MAX; lia).
  apply wrap_int_small. unfold in_int, INT_MIN, INT_MAX. lia.
Qed.

(** A coordinate whose cell lies in the grid. *)
Lemma cell_in_grid (x : spec_float) (a : Z) :
  f32 x = true -> - (2 ^ 36 * U32) <= v32 x <= 2 ^ 36 * U32 ->
  cell_of x = Some a -> 0 <= a < 8 ->
  - U32 <= v32 x < 512 * U32 /\ (1 <= a -> 64 * U32 * a <= v32 x < 64 * U32 * (a + 1)).
Proof.
  intros Fx Hx Hc Ha. destruct (cell_of_spec x Fx Hx) as (a' & Hc' & Hs).
  rewrite Hc in Hc'. injection Hc' as <-. rewrite U32_eq in *.
  assert (0 < 2 ^ 149) by lia.
  destruct Hs as [Hs|[-> Hs]]; (split; [nia|intros; nia]).
Qed.

(** The number of iterations of the stepping loop is at most its bound. *)
Lemma grid_walk_iterations (player : Player.t) (fuel : nat)
    (testX testY deltaX deltaY : spec_float) (iterations n : nat) (h : Hit.t) :
  grid_walk fuel player testX testY deltaX deltaY iterations = Some (h, n) ->
  (n <= iterations + fuel)%nat.
Proof.
  revert testX testY iterations.
  induction fuel as [|fuel IH]; intros testX testY iterations; cbn [grid_walk].
  - intros [= _ <-]. lia.
  - destruct (cell_of testX) as [mapX|]; [|discriminate].
    destruct (cell_of testY) as [mapY|]; [|discriminate].
    cbn. destruct (_ || _); [intros [= _ <-]; lia|].
    destruct (_ >? 0); [intros [= _ <-]; lia|].
    intros H. apply IH in H. lia.
Qed.

(** One iteration of the stepping loop at a point of a cell of the grid. *)
Lemma grid_walk_step (player : Player.t) (fuel : nat)
    (testX testY deltaX deltaY : spec_float) (iterations : nat) (a b : Z) :
  cell_of testX = Some a -> cell_of testY = Some b ->
  0 <= a < 8 -> 0 <= b < 8 ->
  grid_walk (S fuel) player testX testY deltaX deltaY iterations
  = if cell_at Level.map (b * MAPX + a) >? 0
    then Some ({| Hit.hitX := testX; Hit.hitY := testY;
                  Hit.wallType := cell_at Level.map (b * MAPX + a);
                  Hit.distance := hit_distance player testX testY |},
               S iterations)
    else grid_walk fuel player (F32.add testX deltaX) (F32.add testY deltaY)
           deltaX deltaY (S iterations).
Proof.
  intros Ha Hb Ra Rb. cbn [grid_walk]. rewrite Ha, Hb. cbn [mbind option_bind].
  replace ((a <? 0) || (a >=? MAPX) || (b <? 0) || (b >=? MAPY)) with false.
  - now rewrite wrap_index.
  - symmetry. unfold MAPX, MAPY. repeat (apply orb_false_intro); lia.
Qed.

Lemma grid_walk_out (player : Player.t) (fuel : nat)
    (testX testY deltaX deltaY : spec_float) (iterations : nat) (a b : Z) :
  cell_of testX = Some a -> cell_of testY = Some b ->
  ~ (0 <= a < 8 /\ 0 <= b < 8) ->
  grid_walk (S fuel) player testX testY deltaX deltaY iterations
  = Some (no_hit, S iterations).
Proof.
  intros Ha Hb Hout. cbn [grid_walk]. rewrite Ha, Hb. cbn [mbind option_bind].
  replace ((a <? 0) || (a >=? MAPX) || (b <? 0) || (b >=? MAPY)) with true; [done|].
  symmetry. unfold MAPX, MAPY.
  destruct (Z.ltb_spec a 0), (Z.geb_spec a 8), (Z.ltb_spec b 0), (Z.geb_spec b 8);
    try reflexivity; lia.
Qed.

(** The stepping loop from a point and with steps of moderate size returns:
    no conversion to [int] is undefined.  It reports no hit or a hit of a
    wall. *)
Lemma grid_walk_total (player : Player.t) :
  in_grid player ->
  forall (fuel : nat) (testX testY deltaX deltaY : spec_float) (iterations : nat),
  f32 testX = true -> f32 testY = true -> f32 deltaX = true -> f32 deltaY = true ->
  - (2 ^ 36 * U32) <= v32 testX <= 2 ^ 36 * U32 ->
  - (2 ^ 36 * U32) <= v32 testY <= 2 ^ 36 * U32 ->
  - (2 ^ 34 * U32) <= v32 deltaX <= 2 ^ 34 * U32 ->
  - (2 ^ 34 * U32) <= v32 deltaY <= 2 ^ 34 * U32 ->
  exists (h : Hit.t) (n : nat),
    grid_walk fuel player testX testY deltaX deltaY iterations = Some (h, n) /\
    (h = no_hit \/ wall_hit h).
Proof.
  intros (Fpx & Fpy & Hpx & Hpy) fuel.
  induction fuel as [|fuel IH]; intros X Y dX dY it FX FY FdX FdY HX HY HdX HdY.
  { exists no_hit, it. split; [reflexivity|now left]. }
  assert (HU : U32 = 2 ^ 149) by reflexivity.
  destruct (cell_of_spec X FX ltac:(rewrite HU in *; lia)) as (a & Ea & _).
  destruct (cell_of_spec Y FY ltac:(rewrite HU in *; lia)) as (b & Eb & _).
  destruct (decide (0 <= a < 8 /\ 0 <= b < 8)) as [[Ra Rb]|Hout].
  2:{ exists no_hit, (S it). split; [now apply (grid_walk_out _ _ _ _ _ _ _ a b)|now left]. }
  rewrite (grid_walk_step _ _ _ _ _ _ _ a b) by done.
  destruct (cell_in_grid X a FX ltac:(rewrite HU in *; lia) Ea Ra) as [BX _].
  destruct (cell_in_grid Y b FY ltac:(rewrite HU in *; lia) Eb Rb) as [BY _].
  destruct (Z.gtb_spec (cell_at Level.map (b * MAPX + a)) 0) as [Hw|He].
  - eexists _, _. split; [reflexivity|right]. unfold wall_hit. cbn [Hit.hitX Hit.hitY Hit.wallType Hit.distance].
    split; [exists a, b; unfold MAPX, MAPY in *; done|].
    split; [lia|].
    apply hit_distance_bound; try done; rewrite HU in *; lia.
  - set (lo := F32.of_int (- 2 ^ 35)). set (hi := F32.of_int (2 ^ 35)).
    destruct (F32_add_bracket X dX lo hi) as [FX' HX']; try done.
    { v32_const lo. v32_const hi. rewrite HU in *. lia. }
    destruct (F32_add_bracket Y dY lo hi) as [FY' HY']; try done.
    { v32_const lo. v32_const hi. rewrite HU in *. lia. }
    apply IH; try done.
    + revert HX'. v32_const lo. v32_const hi. rewrite HU. lia.
    + revert HY'. v32_const lo. v32_const hi. rewrite HU. lia.
Qed.

(** A walk with an invariant [P k] that holds [k] steps before a cell of the
    boundary of the grid hits a wall. *)
Lemma grid_walk_hits (player : Player.t) (deltaX deltaY : spec_float)
    (P : nat -> spec_float -> spec_float -> Prop) :
  in_grid player ->
  (forall k X Y, P k X Y ->
     f32 X = true /\ f32 Y = true /\
     exists a b : Z, cell_of X = Some a /\ cell_of Y = Some b /\
       0 <= a < 8 /\ 0 <= b < 8 /\
       - U32 <= v32 X <= 512 * U32 /\ - U32 <= v32 Y <= 512 * U32 /\
       (k = O -> a = 0 \/ a = 7 \/ b = 0 \/ b = 7)) ->
  (forall k X Y a b, P (S k) X Y ->
     cell_of X = Some a -> cell_of Y = Some b -> 1 <= a <= 6 -> 1 <= b <= 6 ->
     P k (F32.add X deltaX) (F32.add Y deltaY)) ->
  forall (k fuel : nat) (X Y : spec_float) (iterations : nat),
  P k X Y -> (k < fuel)%nat ->
  exists (h : Hit.t) (n : nat),
    grid_walk fuel player X Y deltaX deltaY iterations = Some (h, n) /\ wall_hit h.
Proof.
  intros (Fpx & Fpy & Hpx & Hpy) Hcell Hstep k.
  induction k as [|k IH]; intros fuel X Y it HP Hk;
    (destruct fuel as [|fuel]; [lia|]);
    destruct (Hcell _ X Y HP) as (FX & FY & a & b & Ea & Eb & Ra & Rb & BX & BY & Hb);
    rewrite (grid_walk_step _ _ _ _ _ _ _ a b) by done;
    assert (Hhit : 0 < cell_at Level.map (b * MAPX + a) ->
              wall_hit {| Hit.hitX := X; Hit.hitY := Y;
                          Hit.wallType := cell_at Level.map (b * MAPX + a);
                          Hit.distance := hit_distance player X Y |})
      by (intros Hw; unfold wall_hit; cbn [Hit.hitX Hit.hitY Hit.wallType Hit.distance];
          (split; [exists a, b; unfold MAPX, MAPY in *; done|]);
          (split; [lia|]);
          apply hit_distance_bound; try done; rewrite U32_eq in *; lia);
    destruct (Z.gtb_spec (cell_at Level.map (b * MAPX + a)) 0) as [Hw|He];
    try (eexists _, _; split; [reflexivity|now apply Hhit]).
  - exfalso. pose proof (cell_at_nonneg Level.map (b * MAPX + a)) as Hnn.
    assert (E0 : cell_at Level.map (wrap_int (wrap_int (b * MAPX) + a)) = 0).
    { rewrite wrap_index by done. pose proof (Hnn map_nonneg). lia. }
    apply map_boundary in E0; try done. specialize (Hb eq_refl). lia.
  - pose proof (cell_at_nonneg Level.map (b * MAPX + a)) as Hnn.
    assert (E0 : cell_at Level.map (wrap_int (wrap_int (b * MAPX) + a)) = 0).
    { rewrite wrap_index by done. pose proof (Hnn map_nonneg). lia. }
    apply map_boundary in E0 as [Ia Ib]; try done.
    apply IH; [|lia]. now apply (Hstep k X Y a b).
Qed.

Ltac each_line k H :=
  assert (H : k = 0 \/ k = 1 \/ k = 2 \/ k = 3 \/ k = 4 \/ k = 5 \/ k = 6 \/ k = 7 \/ k = 8)
    by lia;
  destruct H as [->|[->|[->|[->|[->|[->|[->|[->| ->]]]]]]]].

Lemma grid_line_val (k : Z) :
  0 <= k <= 8 ->
  f32 (F32.of_int (64 * k)) = true /\ v32 (F32.of_int (64 * k)) = 64 * k * U32.
Proof. intros Hk. each_line k H; split; vm_compute; reflexivity. Qed.

Lemma line_lo_val (k : Z) :
  0 <= k <= 8 ->
  f32 (line_lo k) = true /\ v32 (line_lo k) = (4096 * k - 1) * 2 ^ 143.
Proof. intros Hk. each_line k H; split; vm_compute; reflexivity. Qed.

Lemma line_hi_val (k : Z) :
  0 <= k <= 8 ->
  f32 (line_hi k) = true /\ v32 (line_hi k) = (8192 * k - 1) * 2 ^ 142.
Proof. intros Hk. each_line k H; split; vm_compute; reflexivity. Qed.

(** The numbers from 256 on are multiples of [2 ^ -15]. *)
Lemma val_multiple (x : spec_float) :
  f32 x = true -> 256 * U32 <= v32 x -> exists q : Z, v32 x = q * 2 ^ 134.
Proof.
  intros Fx Hx. rewrite U32_eq in Hx.
  destruct x as [s| | |s m e]; try discriminate; [cbn in Hx; lia|].
  pose proof (bounded_digits F32.prec F32.emax m e Fx) as (He & Hd & _).
  change (emin F32.prec F32.emax) with (-149) in *. unfold F32.prec in Hd.
  rewrite val_finite in *. change (emin F32.prec F32.emax) with (-149) in *.
  assert (Hm : Zpos m < 2 ^ 24).
  { pose proof (Zdigits2_bounds (Zpos m) ltac:(lia)) as [_ Hlt].
    eapply Z.lt_le_trans; [exact Hlt|]. apply Z.pow_le_mono_r; lia. }
  assert (Hp : 0 < 2 ^ (e - -149)) by (apply Z.pow_pos_nonneg; lia).
  destruct s; cbn [cond_Zopp] in *; [lia|].
  assert (He15 : -15 <= e).
  { destruct (Z.le_gt_cases (-15) e); [done|].
    assert (2 ^ (e - -149) <= 2 ^ 133) by (apply Z.pow_le_mono_r; lia).
    change (256 * 2 ^ 149) with (2 ^ 24 * 2 ^ 133) in Hx. nia. }
  exists (Zpos m * 2 ^ (e + 15)).
  rewrite <- Z.mul_assoc, <- Z.pow_add_r by lia. do 2 f_equal. lia.
Qed.

(** A step of at most one cell from an inner cell stays in the grid. *)
Lemma transverse_step (c d : spec_float) (a : Z) :
  transverse c -> cell_of c = Some a -> 1 <= a <= 6 ->
  f32 d = true -> - (64 * U32) <= v32 d <= 64 * U32 ->
  transverse (F32.add c d).
Proof.
  intros [Fc Hc] Ea Ha Fd Hd.
  assert (HU : U32 = 2 ^ 149) by reflexivity.
  destruct (cell_in_grid c a Fc ltac:(rewrite HU in *; lia) Ea ltac:(lia)) as [_ Hin].
  specialize (Hin ltac:(lia)).
  assert (Hc' : 64 * U32 <= v32 c < 448 * U32) by (rewrite HU in *; nia).
  assert (Hup : v32 c + v32 d <= 512 * 2 ^ 149 - 2 ^ 134).
  { destruct (Z.le_gt_cases (256 * U32) (v32 c)) as [Hbig|Hsmall].
    - destruct (val_multiple c Fc Hbig) as [q Hq]. rewrite HU in *.
      change (448 * 2 ^ 149) with (448 * 2 ^ 15 * 2 ^ 134) in Hc'.
      change (512 * 2 ^ 149) with (512 * 2 ^ 15 * 2 ^ 134).
      change (64 * 2 ^ 149) with (64 * 2 ^ 15 * 2 ^ 134) in Hd.
      rewrite Hq in *. nia.
    - rewrite HU in *. lia. }
  set (hi := S754_finite false 16777215 (-15)).
  destruct (F32_add_bracket c d (S754_zero false) hi) as [Fs Hs]; try done.
  { change (v32 (S754_zero false)) with 0. v32_const hi. rewrite HU in *. lia. }
  split; [exact Fs|]. revert Hs. change (v32 (S754_zero false)) with 0.
  v32_const hi. rewrite HU. lia.
Qed.

Lemma transverse_cell (c : spec_float) :
  transverse c ->
  exists a : Z, cell_of c = Some a /\ 0 <= a < 8.
Proof.
  intros [Fc Hc]. assert (HU : U32 = 2 ^ 149) by reflexivity.
  destruct (cell_of_spec c Fc ltac:(rewrite HU in *; lia)) as (a & Ea & Hs).
  exists a. split; [exact Ea|]. rewrite HU in *. nia.
Qed.

Lemma before_line_cell (k : Z) (c : spec_float) :
  1 <= k <= 8 -> before_line k c -> cell_of c = Some (k - 1).
Proof.
  intros Hk [Fc Hc]. assert (HU : U32 = 2 ^ 149) by reflexivity.
  destruct (cell_of_spec c Fc ltac:(rewrite HU in *; lia)) as (a & Ea & Hs).
  rewrite Ea. f_equal. rewrite HU in *.
  change (2 ^ 149) with (64 * 2 ^ 143) in Hs.
  change (2 ^ 143) with (2 * 2 ^ 142) in *. nia.
Qed.

Lemma on_line_cell (k : Z) (c : spec_float) :
  0 <= k <= 8 -> on_line k c -> cell_of c = Some k.
Proof.
  intros Hk [Fc Hc]. assert (HU : U32 = 2 ^ 149) by reflexivity.
  destruct (cell_of_spec c Fc ltac:(rewrite HU in *; lia)) as (a & Ea & Hs).
  rewrite Ea. f_equal. rewrite HU in *. nia.
Qed.

Lemma before_line_step (k : Z) (c : spec_float) :
  0 <= k <= 7 -> before_line (k + 1) c ->
  before_line k (F32.add c (F32.of_int (- MAP_CELL_SIZE))).
Proof.
  intros Hk [Fc Hc].
  destruct (line_lo_val k ltac:(lia)) as [Flo Vlo].
  destruct (line_hi_val k ltac:(lia)) as [Fhi Vhi].
  destruct (F32_add_bracket c (F32.of_int (- MAP_CELL_SIZE)) (line_lo k) (line_hi k))
    as [Fs Hs]; try done.
  { rewrite Vlo, Vhi. v32_const (F32.of_int (- MAP_CELL_SIZE)).
    change (2 ^ 143) with (2 * 2 ^ 142) in *. lia. }
  split; [exact Fs|]. now rewrite Vlo, Vhi in Hs.
Qed.

Lemma on_line_step (k : Z) (c : spec_float) :
  0 <= k <= 7 -> on_line k c ->
  on_line (k + 1) (F32.add c (F32.of_int MAP_CELL_SIZE)).
Proof.
  intros Hk [Fc Hc].
  destruct (grid_line_val (k + 1) ltac:(lia)) as [Fl Vl].
  destruct (F32_add_bracket c (F32.of_int MAP_CELL_SIZE)
              (F32.of_int (64 * (k + 1))) (F32.of_int (64 * (k + 1))))
    as [Fs Hs]; try done.
  { rewrite Vl, Hc. v32_const (F32.of_int MAP_CELL_SIZE). rewrite U32_eq. lia. }
  split; [exact Fs|]. rewrite Vl in Hs. lia.
Qed.

Lemma before_line_bounds (k : Z) (c : spec_float) :
  1 <= k <= 8 -> before_line k c -> - U32 <= v32 c <= 512 * U32.
Proof.
  intros Hk [_ Hc]. rewrite U32_eq. change (2 ^ 149) with (128 * 2 ^ 142).
  change (2 ^ 143) with (2 * 2 ^ 142) in Hc. lia.
Qed.

Lemma on_line_bounds (k : Z) (c : spec_float) :
  0 <= k <= 8 -> on_line k c -> - U32 <= v32 c <= 512 * U32.
Proof. intros Hk [_ Hc]. rewrite Hc, U32_eq. lia. Qed.

Lemma transverse_bounds (c : spec_float) :
  transverse c -> - U32 <= v32 c <= 512 * U32.
Proof. intros [_ Hc]. rewrite U32_eq in *. lia. Qed.

Section Walks.
Variable player : Player.t.
Hypothesis Hplayer : in_grid player.
Variable delta : spec_float.
Hypothesis Fdelta : f32 delta = true.
Hypothesis Hdelta : - (64 * U32) <= v32 delta <= 64 * U32.

(** Up: towards the row 0. *)
Lemma walk_up (k fuel : nat) (X Y : spec_float) (iterations : nat) :
  transverse X -> before_line (Z.of_nat k + 1) Y -> (k <= 7)%nat -> (k < fuel)%nat ->
  exists (h : Hit.t) (n : nat),
    grid_walk fuel player X Y delta (F32.of_int (- MAP_CELL_SIZE)) iterations
    = Some (h, n) /\ wall_hit h.
Proof.
  intros HX HY Hk Hf.
  apply (grid_walk_hits player delta (F32.of_int (- MAP_CELL_SIZE))
           (fun k X Y => transverse X /\ before_line (Z.of_nat k + 1) Y /\ (k <= 7)%nat)
           Hplayer) with (k := k); try done.
  - clear. intros k X Y (HX & HY & Hk).
    destruct (transverse_cell X HX) as (a & Ea & Ra).
    split; [apply HX|]. split; [apply HY|].
    exists a, (Z.of_nat k). rewrite Ea.
    rewrite (before_line_cell (Z.of_nat k + 1) Y) by (done || lia).
    repeat split; try lia; try (f_equal; lia).
    + now apply transverse_bounds.
    + now apply transverse_bounds.
    + apply (before_line_bounds (Z.of_nat k + 1)); [lia|done].
    + apply (before_line_bounds (Z.of_nat k + 1)); [lia|done].
  - intros k' X' Y' a b (HX' & HY' & Hk') Ea Eb Ia Ib.
    split; [now apply (transverse_step X' delta a)|].
    split; [|lia]. apply before_line_step; [lia|].
    replace (Z.of_nat k' + 1 + 1) with (Z.of_nat (S k') + 1) by lia. exact HY'.
Qed.

(** Down: towards the row 7. *)
Lemma walk_down (k fuel : nat) (X Y : spec_float) (iterations : nat) :
  transverse X -> on_line (7 - Z.of_nat k) Y -> (k <= 7)%nat -> (k < fuel)%nat ->
  exists (h : Hit.t) (n : nat),
    grid_walk fuel player X Y delta (F32.of_int MAP_CELL_SIZE) iterations
    = Some (h, n) /\ wall_hit h.
Proof.
  intros HX HY Hk Hf.
  apply (grid_walk_hits player delta (F32.of_int MAP_CELL_SIZE)
           (fun k X Y => transverse X /\ on_line (7 - Z.of_nat k) Y /\ (k <= 7)%nat)
           Hplayer) with (k := k); try done.
  - clear. intros k X Y (HX & HY & Hk).
    destruct (transverse_cell X HX) as (a & Ea & Ra).
    split; [apply HX|]. split; [apply HY|].
    exists a, (7 - Z.of_nat k). rewrite Ea.
    rewrite (on_line_cell (7 - Z.of_nat k) Y) by (done || lia).
    repeat split; try lia.
    + now apply transverse_bounds.
    + now apply transverse_bounds.
    + apply (on_line_bounds (7 - Z.of_nat k)); [lia|done].
    + apply (on_line_bounds (7 - Z.of_nat k)); [lia|done].
  - intros k' X' Y' a b (HX' & HY' & Hk') Ea Eb Ia Ib.
    split; [now apply (transverse_step X' delta a)|].
    split; [|lia].
    replace (7 - Z.of_nat k') with (7 - Z.of_nat (S k') + 1) by lia.
    apply on_line_step; [lia|exact HY'].
Qed.

(** Left: towards the column 0. *)
Lemma walk_left (k fuel : nat) (X Y : spec_float) (iterations : nat) :
  before_line (Z.of_nat k + 1) X -> transverse Y -> (k <= 7)%nat -> (k < fuel)%nat ->
  exists (h : Hit.t) (n : nat),
    grid_walk fuel player X Y (F32.of_int (- MAP_CELL_SIZE)) delta iterations
    = Some (h, n) /\ wall_hit h.
Proof.
  intros HX HY Hk Hf.
  apply (grid_walk_hits player (F32.of_int (- MAP_CELL_SIZE)) delta
           (fun k X Y => before_line (Z.of_nat k + 1) X /\ transverse Y /\ (k <= 7)%nat)
           Hplayer) with (k := k); try done.
  - clear. intros k X Y (HX & HY & Hk).
    destruct (transverse_cell Y HY) as (b & Eb & Rb).
    split; [apply HX|]. split; [apply HY|].
    exists (Z.of_nat k), b. rewrite Eb.
    rewrite (before_line_cell (Z.of_nat k + 1) X) by (done || lia).
    repeat split; try lia; try (f_equal; lia).
    + apply (before_line_bounds (Z.of_nat k + 1)); [lia|done].
    + apply (before_line_bounds (Z.of_nat k + 1)); [lia|done].
    + now apply transverse_bounds.
    + now apply transverse_bounds.
  - intros k' X' Y' a b (HX' & HY' & Hk') Ea Eb Ia Ib.
    split; [|split; [now apply (transverse_step Y' delta b)|lia]].
    apply before_line_step; [lia|].
    replace (Z.of_nat k' + 1 + 1) with (Z.of_nat (S k') + 1) by lia. exact HX'.
Qed.

(** Right: towards the column 7. *)
Lemma walk_right (k fuel : nat) (X Y : spec_float) (iterations : nat) :
  on_line (7 - Z.of_nat k) X -> transverse Y -> (k <= 7)%nat -> (k < fuel)%nat ->
  exists (h : Hit.t) (n : nat),
    grid_walk fuel player X Y (F32.of_int MAP_CELL_SIZE) delta iterations
    = Some (h, n) /\ wall_hit h.
Proof.
  intros HX HY Hk Hf.
  apply (grid_walk_hits player (F32.of_int MAP_CELL_SIZE) delta
           (fun k X Y => on_line (7 - Z.of_nat k) X /\ transverse Y /\ (k <= 7)%nat)
           Hplayer) with (k := k); try done.
  - clear. intros k X Y (HX & HY & Hk).
    destruct (transverse_cell Y HY) as (b & Eb & Rb).
    split; [apply HX|]. split; [apply HY|].
    exists (7 - Z.of_nat k), b. rewrite Eb.
    rewrite (on_line_cell (7 - Z.of_nat k) X) by (done || lia).
    repeat split; try lia.
    + apply (on_line_bounds (7 - Z.of_nat k)); [lia|done].
    + apply (on_line_bounds (7 - Z.of_nat k)); [lia|done].
    + now apply transverse_bounds.
    + now apply transverse_bounds.
  - intros k' X' Y' a b (HX' & HY' & Hk') Ea Eb Ia Ib.
    split; [|split; [now apply (transverse_step Y' delta b)|lia]].
    replace (7 - Z.of_nat k') with (7 - Z.of_nat (S k') + 1) by lia.
    apply on_line_step; [lia|exact HX'].
Qed.
End Walks.

Ltac each_cell a H :=
  assert (H : a = 1 \/ a = 2 \/ a = 3 \/ a = 4 \/ a = 5 \/ a = 6) by lia;
  destruct H as [->|[->|[->|[->|[->| ->]]]]].

(** The first grid line before the player: [floor(v / 64) * 64 - 0.01f]. *)
Lemma first_before (a : Z) :
  1 <= a <= 6 ->
  before_line a
    (F64.to_f32 (F64.sub (F64.of_int (64 * a)) (F64.of_f32 (F32.lit 1 100)))).
Proof.
  intros Ha. unfold before_line.
  each_cell a H; (split; [vm_compute; reflexivity|]); vm_compute; split; discriminate.
Qed.

(** The first grid line after the player: [floor(v / 64) * 64 + 64]. *)
Lemma first_after (a : Z) :
  1 <= a <= 6 ->
  on_line (a + 1)
    (F64.to_f32 (F64.add (F64.of_int (64 * a)) (F64.of_f32 (F32.of_int MAP_CELL_SIZE)))).
Proof.
  intros Ha. unfold on_line.
  each_cell a H; split; vm_compute; reflexivity.
Qed.

(** Powers of two. *)
Lemma pow2_val (n : Z) :
  0 <= n <= 40 ->
  f32 (F32.of_int (2 ^ n)) = true /\ v32 (F32.of_int (2 ^ n)) = 2 ^ n * U32 /\
  f32 (F32.of_int (- 2 ^ n)) = true /\ v32 (F32.of_int (- 2 ^ n)) = - (2 ^ n * U32).
Proof.
  intros Hn. rewrite <- (Z2Nat.id n) by lia.
  assert (Hk : (Z.to_nat n <= 40)%nat) by lia.
  generalize dependent (Z.to_nat n). clear. intros k Hk.
  do 41 (destruct k as [|k]; [vm_compute; repeat split; reflexivity|]).
  lia.
Qed.

(** The first point of a walk lies in a cell of the boundary. *)
Lemma walk_boundary (player : Player.t) (fuel : nat)
    (X Y deltaX deltaY : spec_float) (iterations : nat) (a b : Z) :
  in_grid player -> f32 X = true -> f32 Y = true ->
  - U32 <= v32 X <= 512 * U32 -> - U32 <= v32 Y <= 512 * U32 ->
  cell_of X = Some a -> cell_of Y = Some b -> 0 <= a < 8 -> 0 <= b < 8 ->
  a = 0 \/ a = 7 \/ b = 0 \/ b = 7 ->
  exists (h : Hit.t) (n : nat),
    grid_walk (S fuel) player X Y deltaX deltaY iterations = Some (h, n) /\
    wall_hit h.
Proof.
  intros Hp FX FY BX BY Ea Eb Ra Rb Hb.
  apply (grid_walk_hits player deltaX deltaY
           (fun k X' Y' => k = O /\ X' = X /\ Y' = Y) Hp) with (k := O);
    [| |done|lia].
  - intros k X' Y' (-> & -> & ->). split; [done|]. split; [done|].
    exists a, b. done.
  - intros k X' Y' a' b' (Hk & _). discriminate.
Qed.

Lemma mul_bound (a b A B : Z) :
  - A <= a <= A -> - B <= b <= B -> - (A * B) <= a * b <= A * B.
Proof. nia. Qed.

(** A product of size at most [d], with its sign. *)
Lemma F32_mul_abs (x y d : spec_float) :
  f32 x = true -> f32 y = true -> f32 d = true ->
  - (v32 d * U32) <= v32 x * v32 y <= v32 d * U32 ->
  f32 (F32.mul x y) = true /\
  - v32 d <= v32 (F32.mul x y) <= v32 d /\
  (0 <= v32 x * v32 y -> 0 <= v32 (F32.mul x y)) /\
  (v32 x * v32 y <= 0 -> v32 (F32.mul x y) <= 0).
Proof.
  intros Fx Fy Fd Hd.
  assert (Fo : f32 (SFopp d) = true) by (now rewrite fin_opp).
  pose proof (val_opp F32.prec F32.emax d) as Vo.
  assert (HU : 0 < U32) by (rewrite U32_eq; lia).
  destruct (F32_mul_bracket x y (SFopp d) d) as [Fm Hm]; try done.
  { rewrite Vo. lia. }
  rewrite Vo in Hm. split; [exact Fm|]. split; [exact Hm|]. split; intros Hs.
  - destruct (F32_mul_bracket x y (S754_zero false) d) as [_ Hm']; try done.
    + change (v32 (S754_zero false)) with 0. lia.
    + change (v32 (S754_zero false)) with 0 in Hm'. lia.
  - destruct (F32_mul_bracket x y (SFopp d) (S754_zero false)) as [_ Hm']; try done.
    + rewrite Vo. change (v32 (S754_zero false)) with 0. lia.
    + change (v32 (S754_zero false)) with 0 in Hm'. lia.
Qed.

(** A quotient of size at most [c], with its sign. *)
Lemma F32_div_abs (x y c : spec_float) :
  f32 x = true -> f32 y = true -> f32 c = true -> v32 y <> 0 ->
  Z.abs (v32 x) * U32 <= v32 c * Z.abs (v32 y) ->
  f32 (F32.div x y) = true /\
  - v32 c <= v32 (F32.div x y) <= v32 c /\
  (0 <= v32 x * v32 y -> 0 <= v32 (F32.div x y)) /\
  (v32 x * v32 y <= 0 -> v32 (F32.div x y) <= 0).
Proof.
  intros Fx Fy Fc Hy Hc.
  assert (Fo : f32 (SFopp c) = true) by (now rewrite fin_opp).
  pose proof (val_opp F32.prec F32.emax c) as Vo.
  assert (HU : 0 < U32) by (rewrite U32_eq; lia).
  assert (Hpos : 0 < v32 y ->
            - v32 c * v32 y <= v32 x * U32 <= v32 c * v32 y).
  { set (U := U32) in *. clearbody U. intros Hp. rewrite (Z.abs_eq (v32 y)) in Hc by lia.
    destruct (Z.abs_spec (v32 x)) as [[? E]|[? E]]; rewrite E in Hc; nia. }
  assert (Hneg : v32 y < 0 ->
            v32 c * v32 y <= v32 x * U32 <= - v32 c * v32 y).
  { set (U := U32) in *. clearbody U. intros Hp. rewrite (Z.abs_neq (v32 y)) in Hc by lia.
    destruct (Z.abs_spec (v32 x)) as [[? E]|[? E]]; rewrite E in Hc; nia. }
  destruct (F32_div_bracket x y (SFopp c) c) as [Fm Hm]; try done.
  { intros Hp. rewrite Vo. apply Hpos, Hp. }
  { intros Hp. rewrite Vo. apply Hneg, Hp. }
  rewrite Vo in Hm. split; [exact Fm|]. split; [exact Hm|]. split; intros Hs.
  - destruct (F32_div_bracket x y (S754_zero false) c) as [_ Hm']; try done.
    + intros Hp. specialize (Hpos Hp). change (v32 (S754_zero false)) with 0.
      set (U := U32) in *. clearbody U. nia.
    + intros Hp. specialize (Hneg Hp). change (v32 (S754_zero false)) with 0.
      set (U := U32) in *. clearbody U. nia.
    + change (v32 (S754_zero false)) with 0 in Hm'. lia.
  - destruct (F32_div_bracket x y (SFopp c) (S754_zero false)) as [_ Hm']; try done.
    + intros Hp. specialize (Hpos Hp). rewrite Vo. change (v32 (S754_zero false)) with 0.
      set (U := U32) in *. clearbody U. nia.
    + intros Hp. specialize (Hneg Hp). rewrite Vo. change (v32 (S754_zero false)) with 0.
      set (U := U32) in *. clearbody U. nia.
    + rewrite Vo in Hm'. change (v32 (S754_zero false)) with 0 in Hm'. lia.
Qed.

(** *** The horizontal test *)

Section HorizontalTest.
Variable player : Player.t.
Hypothesis Hplayer : in_grid player.
(** The components of the direction across and along the walk. *)
Variables dt dm : spec_float.
Hypothesis Fdt : f32 dt = true.
Hypothesis Fdm : f32 dm = true.
Hypothesis Hdm : v32 dm <> 0.
(** The cell of the player across and along the walk. *)
Variables ct cm : Z.
Hypothesis Ect : cell_of (Player.x player) = Some ct.
Hypothesis Ecm : cell_of (Player.y player) = Some cm.
Hypothesis Rt : 1 <= ct <= 6.
Hypothesis Rm : 1 <= cm <= 6.

Let pt := Player.x player.
Let pm := Player.y player.
Let r := F32.div dt dm.
Let M0n := F64.to_f32 (F64.sub (cell_origin pm) (F64.of_f32 (F32.lit 1 100))).
Let M0p :=
  F64.to_f32 (F64.add (cell_origin pm) (F64.of_f32 (F32.of_int MAP_CELL_SIZE))).
Let dMn := F32.of_int (- MAP_CELL_SIZE).
Let dMp := F32.of_int MAP_CELL_SIZE.
Let tn := F32.sub M0n pm.
Let tp := F32.sub M0p pm.
Let T0n := F32.add pt (F32.mul tn r).
Let T0p := F32.add pt (F32.mul tp r).

Lemma horizontal_player :
  f32 pt = true /\ f32 pm = true /\
  64 * U32 * ct <= v32 pt < 64 * U32 * (ct + 1) /\
  64 * U32 * cm <= v32 pm < 64 * U32 * (cm + 1).
Proof.
  destruct Hplayer as (Fx & Fy & Hx & Hy).
  assert (HU : U32 = 2 ^ 149) by reflexivity.
  assert (Ft : f32 pt = true) by done. assert (Fm : f32 pm = true) by done.
  assert (Bt : 0 <= v32 pt <= 512 * U32) by done.
  assert (Bm : 0 <= v32 pm <= 512 * U32) by done.
  destruct (cell_in_grid pt ct Ft ltac:(rewrite HU in *; lia) Ect ltac:(lia)) as [_ Ht].
  destruct (cell_in_grid pm cm Fm ltac:(rewrite HU in *; lia) Ecm ltac:(lia)) as [_ Hm].
  specialize (Ht ltac:(lia)). specialize (Hm ltac:(lia)). done.
Qed.

Lemma horizontal_neg :
  v32 dm < 0 ->
  horizontal_test player dt dm = grid_walk 8 player T0n M0n (F32.mul dMn r) dMn 0.
Proof.
  intros Hneg. unfold horizontal_test.
  rewrite F32_eqb_val, F32_ltb_val by done.
  change (v32 (F32.of_int 0)) with 0.
  replace (v32 dm =? 0) with false by (symmetry; apply Z.eqb_neq; lia).
  replace (v32 dm <? 0) with true by (symmetry; apply Z.ltb_lt; lia).
  reflexivity.
Qed.

Lemma horizontal_pos :
  0 < v32 dm ->
  horizontal_test player dt dm = grid_walk 8 player T0p M0p (F32.mul dMp r) dMp 0.
Proof.
  intros Hpos. unfold horizontal_test.
  rewrite F32_eqb_val, F32_ltb_val by done.
  change (v32 (F32.of_int 0)) with 0.
  replace (v32 dm =? 0) with false by (symmetry; apply Z.eqb_neq; lia).
  replace (v32 dm <? 0) with false by (symmetry; apply Z.ltb_ge; lia).
  reflexivity.
Qed.

Lemma horizontal_first_neg : before_line cm M0n.
Proof. unfold M0n. rewrite (cell_origin_spec pm cm) by done. now apply first_before. Qed.

Lemma horizontal_first_pos : on_line (cm + 1) M0p.
Proof. unfold M0p. rewrite (cell_origin_spec pm cm) by done. now apply first_after. Qed.

(** The slope. *)
Lemma horizontal_ratio (n : Z) :
  0 <= n <= 28 -> Z.abs (v32 dt) <= 2 ^ n * Z.abs (v32 dm) ->
  f32 r = true /\ - (2 ^ n * U32) <= v32 r <= 2 ^ n * U32.
Proof.
  intros Hn Hs. destruct (pow2_val n ltac:(lia)) as (Fh & Vh & Fl & Vl).
  assert (HU : 0 < U32) by (rewrite U32_eq; lia).
  assert (Hp : 0 < 2 ^ n) by (apply Z.pow_pos_nonneg; lia).
  destruct (F32_div_bracket dt dm (F32.of_int (- 2 ^ n)) (F32.of_int (2 ^ n)))
    as [Fr Hr]; try done.
  - intros Hpos. rewrite Vl, Vh. set (P := 2 ^ n) in *. set (U := U32) in *.
    clearbody P U. nia.
  - intros Hneg. rewrite Vl, Vh. set (P := 2 ^ n) in *. set (U := U32) in *.
    clearbody P U. nia.
  - rewrite Vl, Vh in Hr. done.
Qed.

(** The distance to the first grid line. *)
Lemma horizontal_tn : f32 tn = true /\ - (1025 * 2 ^ 145) <= v32 tn <= - 2 ^ 142.
Proof.
  destruct horizontal_player as (Ft & Fm & Ht & Hm).
  destruct horizontal_first_neg as [FM HM].
  set (lo := binary_normalize F32.prec F32.emax (-1025) (-4) false).
  set (hi := binary_normalize F32.prec F32.emax (-1) (-7) false).
  destruct (F32_sub_bracket M0n pm lo hi) as [Fs Hs]; try done.
  v32_const lo. v32_const hi. rewrite U32_eq in *.
  change (2 ^ 143) with (2 * 2 ^ 142) in HM.
  change (2 ^ 149) with (128 * 2 ^ 142) in Hm. lia.
Qed.

Lemma horizontal_tp : f32 tp = true /\ 0 <= v32 tp <= 64 * U32.
Proof.
  destruct horizontal_player as (Ft & Fm & Ht & Hm).
  destruct horizontal_first_pos as [FM HM].
  destruct (F32_sub_bracket M0p pm (S754_zero false) (F32.of_int 64)) as [Fs Hs]; try done.
  change (v32 (S754_zero false)) with 0. v32_const (F32.of_int 64).
  rewrite HM. rewrite U32_eq in *. lia.
Qed.

(** The step across the walk and the first point, for a slope of at most
    [2 ^ n]. *)
Section Slope.
Variable n : Z.
Hypothesis Hn : 0 <= n <= 28.
Hypothesis Hslope : Z.abs (v32 dt) <= 2 ^ n * Z.abs (v32 dm).

Lemma horizontal_product (t : spec_float) :
  f32 t = true -> - (1025 * 2 ^ 145) <= v32 t <= 64 * U32 ->
  f32 (F32.mul t r) = true /\
  - (2 ^ (n + 7) * U32) <= v32 (F32.mul t r) <= 2 ^ (n + 7) * U32.
Proof.
  intros Ft Ht. destruct (horizontal_ratio n Hn Hslope) as [Fr Hr].
  destruct (pow2_val (n + 7) ltac:(lia)) as (Fh & Vh & Fl & Vl).
  assert (Hp : 0 < 2 ^ n) by (apply Z.pow_pos_nonneg; lia).
  destruct (F32_mul_bracket t r (F32.of_int (- 2 ^ (n + 7))) (F32.of_int (2 ^ (n + 7))))
    as [Fu Hu]; try done.
  - rewrite Vl, Vh. rewrite Z.pow_add_r by lia. change (2 ^ 7) with 128.
    assert (Ht' : - (128 * U32) <= v32 t <= 128 * U32) by (rewrite U32_eq in *; lia).
    pose proof (mul_bound _ _ _ _ Ht' Hr). lia.
  - rewrite Vl, Vh in Hu. done.
Qed.

Lemma horizontal_start (t : spec_float) :
  f32 t = true -> - (1025 * 2 ^ 145) <= v32 t <= 64 * U32 ->
  f32 (F32.add pt (F32.mul t r)) = true /\
  - (2 ^ 36 * U32) <= v32 (F32.add pt (F32.mul t r)) <= 2 ^ 36 * U32.
Proof.
  intros Ft Ht. destruct (horizontal_product t Ft Ht) as [Fu Hu].
  destruct horizontal_player as (Fpt & _ & Hpt & _).
  destruct (pow2_val 36 ltac:(lia)) as (Fh & Vh & Fl & Vl).
  assert (Hp : 2 ^ (n + 7) <= 2 ^ 35) by (apply Z.pow_le_mono_r; lia).
  destruct (F32_add_bracket pt (F32.mul t r) (F32.of_int (- 2 ^ 36))
              (F32.of_int (2 ^ 36))) as [Fs Hs];
    [done|done|done|done| |rewrite Vl, Vh in Hs; done].
  rewrite Vl, Vh. rewrite U32_eq in *. nia.
Qed.

Lemma horizontal_delta (dM : spec_float) :
  f32 dM = true -> - (64 * U32) <= v32 dM <= 64 * U32 ->
  f32 (F32.mul dM r) = true /\
  - (2 ^ (n + 6) * U32) <= v32 (F32.mul dM r) <= 2 ^ (n + 6) * U32.
Proof.
  intros Fd Hd. destruct (horizontal_ratio n Hn Hslope) as [Fr Hr].
  destruct (pow2_val (n + 6) ltac:(lia)) as (Fh & Vh & Fl & Vl).
  destruct (F32_mul_bracket dM r (F32.of_int (- 2 ^ (n + 6))) (F32.of_int (2 ^ (n + 6))))
    as [Fu Hu]; try done.
  - rewrite Vl, Vh. rewrite Z.pow_add_r by lia. change (2 ^ 6) with 64.
    pose proof (mul_bound _ _ _ _ Hd Hr). lia.
  - rewrite Vl, Vh in Hu. done.
Qed.

(** The test returns: no conversion to [int] is undefined. *)
Lemma horizontal_total :
  exists (h : Hit.t) (k : nat),
    horizontal_test player dt dm = Some (h, k) /\ (h = no_hit \/ wall_hit h).
Proof.
  assert (HU : U32 = 2 ^ 149) by reflexivity.
  assert (Hp : 0 < 2 ^ n <= 2 ^ 28).
  { split; [apply Z.pow_pos_nonneg; lia|apply Z.pow_le_mono_r; lia]. }
  assert (FdMn : f32 dMn = true) by reflexivity.
  assert (FdMp : f32 dMp = true) by reflexivity.
  assert (HdMn : - (64 * U32) <= v32 dMn <= 64 * U32) by (vm_compute; split; discriminate).
  assert (HdMp : - (64 * U32) <= v32 dMp <= 64 * U32) by (vm_compute; split; discriminate).
  destruct (Z.lt_trichotomy (v32 dm) 0) as [Hneg|[H0|Hpos]]; [|done|].
  - rewrite (horizontal_neg Hneg).
    destruct horizontal_tn as [Ft Ht]. destruct horizontal_first_neg as [FM HM].
    pose proof (before_line_bounds cm M0n ltac:(lia) horizontal_first_neg) as BM.
    destruct (horizontal_start tn Ft ltac:(rewrite HU; lia)) as [FT HT].
    destruct (horizontal_delta dMn FdMn HdMn) as [Fd Hd].
    fold T0n in FT, HT.
    rewrite !Z.pow_add_r in Hd by lia. change (2 ^ 6) with 64 in Hd.
    apply grid_walk_total; try done; rewrite HU in *; lia.
  - rewrite (horizontal_pos Hpos).
    destruct horizontal_tp as [Ft Ht]. destruct horizontal_first_pos as [FM HM].
    pose proof (on_line_bounds (cm + 1) M0p ltac:(lia) horizontal_first_pos) as BM.
    destruct (horizontal_start tp Ft ltac:(rewrite HU in *; lia)) as [FT HT].
    destruct (horizontal_delta dMp FdMp HdMp) as [Fd Hd].
    fold T0p in FT, HT.
    rewrite !Z.pow_add_r in Hd by lia. change (2 ^ 6) with 64 in Hd.
    apply grid_walk_total; try done; rewrite HU in *; lia.
Qed.
End Slope.

(** The first point of the walk of a ray that crosses at most one cell per
    step: it lies in the grid, unless the player is within 1/8 of the side of
    the grid the ray goes to and the slope is more than 1/2. *)
Lemma horizontal_first (t : spec_float) :
  f32 t = true -> - (1025 * 2 ^ 145) <= v32 t <= 1025 * 2 ^ 145 ->
  0 <= v32 t * v32 dm ->
  Z.abs (v32 dt) <= Z.abs (v32 dm) ->
  transverse (F32.add pt (F32.mul t r)) \/
  Z.abs (v32 dm) < 2 * Z.abs (v32 dt) /\
  (v32 pt < 64 * U32 + 2 ^ 146 /\ v32 dt < 0 \/
   448 * U32 - 2 ^ 146 < v32 pt /\ 0 < v32 dt).
Proof.
  intros Ft Ht Hs Hsl.
  assert (HU : U32 = 2 ^ 149) by reflexivity.
  destruct horizontal_player as (Fpt & _ & Hpt & _).
  (* the slope *)
  set (one := F32.of_int 1). set (half := F32.lit 1 2).
  assert (Fone : f32 one = true) by reflexivity.
  assert (Fhalf : f32 half = true) by reflexivity.
  destruct (F32_div_abs dt dm one Fdt Fdm Fone Hdm) as (Fr & Hr & Hrp & Hrn).
  { v32_const one. rewrite HU in *. lia. }
  fold r in Fr, Hr, Hrp, Hrn. v32_const one.
  assert (Hr2 : 2 * Z.abs (v32 dt) <= Z.abs (v32 dm) ->
                - 2 ^ 148 <= v32 r <= 2 ^ 148).
  { intros H2. destruct (F32_div_abs dt dm half Fdt Fdm Fhalf Hdm) as (_ & Hh & _).
    - v32_const half. rewrite HU in *. lia.
    - v32_const half. exact Hh. }
  (* the product *)
  set (big := binary_normalize F32.prec F32.emax 1025 (-4) false).
  set (small := F32.of_int 33).
  assert (Fbig : f32 big = true) by reflexivity.
  assert (Fsmall : f32 small = true) by reflexivity.
  destruct (F32_mul_abs t r big Ft Fr Fbig) as (Fu & Hu & Hup & Hun).
  { v32_const big. rewrite HU in *.
    assert (Ht' : - (1025 * 2 ^ 145) <= v32 t <= 1025 * 2 ^ 145) by lia.
    pose proof (mul_bound _ _ _ _ Ht' Hr). lia. }
  v32_const big.
  assert (Hu2 : 2 * Z.abs (v32 dt) <= Z.abs (v32 dm) ->
                - (33 * 2 ^ 149) <= v32 (F32.mul t r) <= 33 * 2 ^ 149).
  { intros H2. specialize (Hr2 H2).
    destruct (F32_mul_abs t r small Ft Fr Fsmall) as (_ & Hh & _).
    - v32_const small. rewrite HU in *.
      assert (Ht' : - (1025 * 2 ^ 145) <= v32 t <= 1025 * 2 ^ 145) by lia.
      assert (Hr' : - 2 ^ 148 <= v32 r <= 2 ^ 148) by lia.
      pose proof (mul_bound _ _ _ _ Ht' Hr'). lia.
    - v32_const small. exact Hh. }
  (* the sign of the product is the sign of [dt] *)
  assert (Hsp : 0 <= v32 dt -> 0 <= v32 (F32.mul t r)).
  { intros Hd. apply Hup.
    destruct (Z.lt_trichotomy (v32 dm) 0) as [Hneg|[H0|Hpos]]; [|done|].
    - assert (v32 r <= 0) by (apply Hrn; nia). nia.
    - assert (0 <= v32 r) by (apply Hrp; nia). nia. }
  assert (Hsn : v32 dt <= 0 -> v32 (F32.mul t r) <= 0).
  { intros Hd. apply Hun.
    destruct (Z.lt_trichotomy (v32 dm) 0) as [Hneg|[H0|Hpos]]; [|done|].
    - assert (0 <= v32 r) by (apply Hrp; nia). nia.
    - assert (v32 r <= 0) by (apply Hrn; nia). nia. }
  (* the sum *)
  set (top := S754_finite false 16777215 (-15)).
  assert (Ftop : f32 top = true) by reflexivity.
  assert (Hsum : 0 <= v32 pt + v32 (F32.mul t r) <= 512 * 2 ^ 149 - 2 ^ 134 ->
                 transverse (F32.add pt (F32.mul t r))).
  { intros Hb.
    destruct (F32_add_bracket pt (F32.mul t r) (S754_zero false) top) as [Fs Hs']; try done.
    split; [exact Fs|]. revert Hs'. change (v32 (S754_zero false)) with 0.
    v32_const top. rewrite HU. lia. }
  rewrite HU in *.
  destruct (Z.le_gt_cases (2 * Z.abs (v32 dt)) (Z.abs (v32 dm))) as [H2|H2].
  { left. apply Hsum. specialize (Hu2 H2). nia. }
  destruct (Z.lt_trichotomy (v32 dt) 0) as [Hneg|[H0|Hpos]].
  - specialize (Hsn ltac:(lia)).
    destruct (Z.le_gt_cases (64 * 2 ^ 149 + 2 ^ 146) (v32 pt)) as [Hfar|Hnear].
    + left. apply Hsum. nia.
    + right. split; [exact H2|]. left. done.
  - rewrite H0 in H2. lia.
  - specialize (Hsp ltac:(lia)).
    destruct (Z.le_gt_cases (v32 pt) (448 * 2 ^ 149 - 2 ^ 146)) as [Hfar|Hnear].
    + left. apply Hsum. nia.
    + right. split; [exact H2|]. right. done.
Qed.

(** A ray that crosses at most one cell per step hits a wall, unless the
    player is within 1/8 of the side of the grid the ray goes to. *)
Lemma horizontal_steep :
  Z.abs (v32 dt) <= Z.abs (v32 dm) ->
  (exists (h : Hit.t) (k : nat), horizontal_test player dt dm = Some (h, k) /\ wall_hit h) \/
  Z.abs (v32 dm) < 2 * Z.abs (v32 dt) /\
  (v32 pt < 64 * U32 + 2 ^ 146 /\ v32 dt < 0 \/
   448 * U32 - 2 ^ 146 < v32 pt /\ 0 < v32 dt).
Proof.
  intros Hsl.
  assert (HU : U32 = 2 ^ 149) by reflexivity.
  assert (Hsl0 : Z.abs (v32 dt) <= 2 ^ 0 * Z.abs (v32 dm)) by lia.
  assert (FdMn : f32 dMn = true) by reflexivity.
  assert (FdMp : f32 dMp = true) by reflexivity.
  assert (HdMn : - (64 * U32) <= v32 dMn <= 64 * U32) by (vm_compute; split; discriminate).
  assert (HdMp : - (64 * U32) <= v32 dMp <= 64 * U32) by (vm_compute; split; discriminate).
  destruct (Z.lt_trichotomy (v32 dm) 0) as [Hneg|[H0|Hpos]]; [|done|].
  - rewrite (horizontal_neg Hneg). destruct horizontal_tn as [Ft Ht].
    destruct (horizontal_first tn Ft ltac:(lia) ltac:(nia) Hsl) as [HT|Hc];
      [left|right; exact Hc].
    fold T0n in HT.
    destruct (horizontal_delta 0 ltac:(lia) Hsl0 dMn FdMn HdMn) as [Fd Hd].
    change (2 ^ (0 + 6)) with 64 in Hd.
    pose proof horizontal_first_neg as HM.
    replace cm with (Z.of_nat (Z.to_nat (cm - 1)) + 1) in HM by lia.
    eapply (walk_up player Hplayer _ Fd Hd (Z.to_nat (cm - 1)) 8);
      first [exact HT | exact HM | lia].
  - rewrite (horizontal_pos Hpos). destruct horizontal_tp as [Ft Ht].
    destruct (horizontal_first tp Ft ltac:(rewrite HU in *; lia) ltac:(nia) Hsl) as [HT|Hc];
      [left|right; exact Hc].
    fold T0p in HT.
    destruct (horizontal_delta 0 ltac:(lia) Hsl0 dMp FdMp HdMp) as [Fd Hd].
    change (2 ^ (0 + 6)) with 64 in Hd.
    pose proof horizontal_first_pos as HM.
    replace (cm + 1) with (7 - Z.of_nat (Z.to_nat (6 - cm))) in HM by lia.
    eapply (walk_down player Hplayer _ Fd Hd (Z.to_nat (6 - cm)) 8);
      first [exact HT | exact HM | lia].
Qed.

(** A ray towards a side of the grid from within 1/8 of it, of slope less
    than 2: the first point of the walk lies in a cell of that side. *)
Lemma horizontal_corner :
  Z.abs (v32 dt) < 2 * Z.abs (v32 dm) ->
  (v32 pm < 64 * U32 + 2 ^ 146 /\ v32 dm < 0 \/
   448 * U32 - 2 ^ 146 < v32 pm /\ 0 < v32 dm) ->
  exists (h : Hit.t) (k : nat), horizontal_test player dt dm = Some (h, k) /\ wall_hit h.
Proof.
  intros Hsl Hside.
  assert (HU : U32 = 2 ^ 149) by reflexivity.
  destruct horizontal_player as (Fpt & Fpm & Hpt & Hpm).
  set (two := F32.of_int 2). set (half := F32.lit 1 2).
  set (quarter := F32.lit 1 4).
  set (lo := binary_normalize F32.prec F32.emax 127 (-1) false).
  set (hi := binary_normalize F32.prec F32.emax 897 (-1) false).
  assert (Ftwo : f32 two = true) by reflexivity.
  assert (Fhalf : f32 half = true) by reflexivity.
  assert (Fquarter : f32 quarter = true) by reflexivity.
  assert (Fqo : f32 (SFopp quarter) = true) by reflexivity.
  assert (Flo : f32 lo = true) by reflexivity.
  assert (Fhi : f32 hi = true) by reflexivity.
  destruct (F32_div_abs dt dm two Fdt Fdm Ftwo Hdm) as (Fr & Hr & _).
  { v32_const two. rewrite HU in *. lia. }
  fold r in Fr, Hr. v32_const two.
  assert (Hfirst : forall t : spec_float,
            f32 t = true -> - 2 ^ 147 <= v32 t <= 2 ^ 147 ->
            transverse (F32.add pt (F32.mul t r))).
  { intros t Ft Ht.
    destruct (F32_mul_abs t r half Ft Fr Fhalf) as (Fu & Hu & _).
    { v32_const half. rewrite HU in *.
      pose proof (mul_bound _ _ _ _ Ht Hr). lia. }
    v32_const half.
    destruct (F32_add_bracket pt (F32.mul t r) lo hi) as [Fs Hs]; try done.
    { v32_const lo. v32_const hi. rewrite HU in *. nia. }
    split; [exact Fs|]. revert Hs. v32_const lo. v32_const hi. rewrite HU. lia. }
  destruct Hside as [[Hnear Hneg]|[Hnear Hpos]].
  - rewrite (horizontal_neg Hneg).
    assert (Ecm1 : cm = 1) by (rewrite HU in *; nia).
    pose proof horizontal_first_neg as HM. rewrite Ecm1 in HM.
    destruct (F32_sub_bracket M0n pm (SFopp quarter) (S754_zero false)) as [Ft Ht];
      try done; try apply HM.
    { destruct HM as [_ HM]. v32_const (SFopp quarter).
      change (v32 (S754_zero false)) with 0. rewrite HU in *.
      change (2 ^ 143) with (2 * 2 ^ 142) in HM.
      change (2 ^ 149) with (128 * 2 ^ 142) in Hpm, Hnear.
      change (2 ^ 146) with (16 * 2 ^ 142) in Hnear. lia. }
    fold tn in Ft, Ht. revert Ht. v32_const (SFopp quarter).
    change (v32 (S754_zero false)) with 0. intros Ht.
    pose proof (Hfirst tn Ft ltac:(lia)) as HT. fold T0n in HT.
    destruct (transverse_cell _ HT) as (a & Ea & Ra).
    pose proof (before_line_cell 1 M0n ltac:(lia) HM) as Eb.
    pose proof (transverse_bounds _ HT) as BT.
    pose proof (before_line_bounds 1 M0n ltac:(lia) HM) as BM.
    apply (walk_boundary player 7 T0n M0n _ _ 0%nat a 0);
      first [done | apply HT | apply HM | lia].
  - rewrite (horizontal_pos Hpos).
    assert (Ecm6 : cm = 6) by (rewrite HU in *; nia).
    pose proof horizontal_first_pos as HM. rewrite Ecm6 in HM.
    destruct (F32_sub_bracket M0p pm (S754_zero false) quarter) as [Ft Ht];
      try done; try apply HM.
    { destruct HM as [_ HM]. v32_const quarter.
      change (v32 (S754_zero false)) with 0. rewrite HM, HU in *.
      rewrite Ecm6 in Hpm. lia. }
    fold tp in Ft, Ht. revert Ht. v32_const quarter.
    change (v32 (S754_zero false)) with 0. intros Ht.
    pose proof (Hfirst tp Ft ltac:(lia)) as HT. fold T0p in HT.
    destruct (transverse_cell _ HT) as (a & Ea & Ra).
    pose proof (on_line_cell 7 M0p ltac:(lia) HM) as Eb.
    pose proof (transverse_bounds _ HT) as BT.
    pose proof (on_line_bounds 7 M0p ltac:(lia) HM) as BM.
    apply (walk_boundary player 7 T0p M0p _ _ 0%nat a 7);
      first [done | apply HT | apply HM | lia].
Qed.
End HorizontalTest.

(** *** The vertical test *)

Section VerticalTest.
Variable player : Player.t.
Hypothesis Hplayer : in_grid player.
(** The components of the direction across and along the walk. *)
Variables dt dm : spec_float.
Hypothesis Fdt : f32 dt = true.
Hypothesis Fdm : f32 dm = true.
Hypothesis Hdm : v32 dm <> 0.
(** The cell of the player across and along the walk. *)
Variables ct cm : Z.
Hypothesis Ect : cell_of (Player.y player) = Some ct.
Hypothesis Ecm : cell_of (Player.x player) = Some cm.
Hypothesis Rt : 1 <= ct <= 6.
Hypothesis Rm : 1 <= cm <= 6.

Let pt := Player.y player.
Let pm := Player.x player.
Let r := F32.div dt dm.
Let M0n := F64.to_f32 (F64.sub (cell_origin pm) (F64.of_f32 (F32.lit 1 100))).
Let M0p :=
  F64.to_f32 (F64.add (cell_origin pm) (F64.of_f32 (F32.of_int MAP_CELL_SIZE))).
Let dMn := F32.of_int (- MAP_CELL_SIZE).
Let dMp := F32.of_int MAP_CELL_SIZE.
Let tn := F32.sub M0n pm.
Let tp := F32.sub M0p pm.
Let T0n := F32.add pt (F32.mul tn r).
Let T0p := F32.add pt (F32.mul tp r).

Lemma vertical_player :
  f32 pt = true /\ f32 pm = true /\
  64 * U32 * ct <= v32 pt < 64 * U32 * (ct + 1) /\
  64 * U32 * cm <= v32 pm < 64 * U32 * (cm + 1).
Proof.
  destruct Hplayer as (Fx & Fy & Hx & Hy).
  assert (HU : U32 = 2 ^ 149) by reflexivity.
  assert (Ft : f32 pt = true) by done. assert (Fm : f32 pm = true) by done.
  assert (Bt : 0 <= v32 pt <= 512 * U32) by done.
  assert (Bm : 0 <= v32 pm <= 512 * U32) by done.
  destruct (cell_in_grid pt ct Ft ltac:(rewrite HU in *; lia) Ect ltac:(lia)) as [_ Ht].
  destruct (cell_in_grid pm cm Fm ltac:(rewrite HU in *; lia) Ecm ltac:(lia)) as [_ Hm].
  specialize (Ht ltac:(lia)). specialize (Hm ltac:(lia)). done.
Qed.

Lemma vertical_neg :
  v32 dm < 0 ->
  vertical_test player dm dt = grid_walk 8 player M0n T0n dMn (F32.mul dMn r) 0.
Proof.
  intros Hneg. unfold vertical_test.
  rewrite F32_eqb_val, F32_ltb_val by done.
  change (v32 (F32.of_int 0)) with 0.
  replace (v32 dm =? 0) with false by (symmetry; apply Z.eqb_neq; lia).
  replace (v32 dm <? 0) with true by (symmetry; apply Z.ltb_lt; lia).
  reflexivity.
Qed.

Lemma vertical_pos :
  0 < v32 dm ->
  vertical_test player dm dt = grid_walk 8 player M0p T0p dMp (F32.mul dMp r) 0.
Proof.
  intros Hpos. unfold vertical_test.
  rewrite F32_eqb_val, F32_ltb_val by done.
  change (v32 (F32.of_int 0)) with 0.
  replace (v32 dm =? 0) with false by (symmetry; apply Z.eqb_neq; lia).
  replace (v32 dm <? 0) with false by (symmetry; apply Z.ltb_ge; lia).
  reflexivity.
Qed.

Lemma vertical_first_neg : before_line cm M0n.
Proof. unfold M0n. rewrite (cell_origin_spec pm cm) by done. now apply first_before. Qed.

Lemma vertical_first_pos : on_line (cm + 1) M0p.
Proof. unfold M0p. rewrite (cell_origin_spec pm cm) by done. now apply first_after. Qed.

(** The slope. *)
Lemma vertical_ratio (n : Z) :
  0 <= n <= 28 -> Z.abs (v32 dt) <= 2 ^ n * Z.abs (v32 dm) ->
  f32 r = true /\ - (2 ^ n * U32) <= v32 r <= 2 ^ n * U32.
Proof.
  intros Hn Hs. destruct (pow2_val n ltac:(lia)) as (Fh & Vh & Fl & Vl).
  assert (HU : 0 < U32) by (rewrite U32_eq; lia).
  assert (Hp : 0 < 2 ^ n) by (apply Z.pow_pos_nonneg; lia).
  destruct (F32_div_bracket dt dm (F32.of_int (- 2 ^ n)) (F32.of_int (2 ^ n)))
    as [Fr Hr]; try done.
  - intros Hpos. rewrite Vl, Vh. set (P := 2 ^ n) in *. set (U := U32) in *.
    clearbody P U. nia.
  - intros Hneg. rewrite Vl, Vh. set (P := 2 ^ n) in *. set (U := U32) in *.
    clearbody P U. nia.
  - rewrite Vl, Vh in Hr. done.
Qed.

(** The distance to the first grid line. *)
Lemma vertical_tn : f32 tn = true /\ - (1025 * 2 ^ 145) <= v32 tn <= - 2 ^ 142.
Proof.
  destruct vertical_player as (Ft & Fm & Ht & Hm).
  destruct vertical_first_neg as [FM HM].
  set (lo := binary_normalize F32.prec F32.emax (-1025) (-4) false).
  set (hi := binary_normalize F32.prec F32.emax (-1) (-7) false).
  destruct (F32_sub_bracket M0n pm lo hi) as [Fs Hs]; try done.
  v32_const lo. v32_const hi. rewrite U32_eq in *.
  change (2 ^ 143) with (2 * 2 ^ 142) in HM.
  change (2 ^ 149) with (128 * 2 ^ 142) in Hm. lia.
Qed.

Lemma vertical_tp : f32 tp = true /\ 0 <= v32 tp <= 64 * U32.
Proof.
  destruct vertical_player as (Ft & Fm & Ht & Hm).
  destruct vertical_first_pos as [FM HM].
  destruct (F32_sub_bracket M0p pm (S754_zero false) (F32.of_int 64)) as [Fs Hs]; try done.
  change (v32 (S754_zero false)) with 0. v32_const (F32.of_int 64).
  rewrite HM. rewrite U32_eq in *. lia.
Qed.

(** The step across the walk and the first point, for a slope of at most
    [2 ^ n]. *)
Section Slope.
Variable n : Z.
Hypothesis Hn : 0 <= n <= 28.
Hypothesis Hslope : Z.abs (v32 dt) <= 2 ^ n * Z.abs (v32 dm).

Lemma vertical_product (t : spec_float) :
  f32 t = true -> - (1025 * 2 ^ 145) <= v32 t <= 64 * U32 ->
  f32 (F32.mul t r) = true /\
  - (2 ^ (n + 7) * U32) <= v32 (F32.mul t r) <= 2 ^ (n + 7) * U32.
Proof.
  intros Ft Ht. destruct (vertical_ratio n Hn Hslope) as [Fr Hr].
  destruct (pow2_val (n + 7) ltac:(lia)) as (Fh & Vh & Fl & Vl).
  assert (Hp : 0 < 2 ^ n) by (apply Z.pow_pos_nonneg; lia).
  destruct (F32_mul_bracket t r (F32.of_int (- 2 ^ (n + 7))) (F32.of_int (2 ^ (n + 7))))
    as [Fu Hu]; try done.
  - rewrite Vl, Vh. rewrite Z.pow_add_r by lia. change (2 ^ 7) with 128.
    assert (Ht' : - (128 * U32) <= v32 t <= 128 * U32) by (rewrite U32_eq in *; lia).
    pose proof (mul_bound _ _ _ _ Ht' Hr). lia.
  - rewrite Vl, Vh in Hu. done.
Qed.

Lemma vertical_start (t : spec_float) :
  f32 t = true -> - (1025 * 2 ^ 145) <= v32 t <= 64 * U32 ->
  f32 (F32.add pt (F32.mul t r)) = true /\
  - (2 ^ 36 * U32) <= v32 (F32.add pt (F32.mul t r)) <= 2 ^ 36 * U32.
Proof.
  intros Ft Ht. destruct (vertical_product t Ft Ht) as [Fu Hu].
  destruct vertical_player as (Fpt & _ & Hpt & _).
  destruct (pow2_val 36 ltac:(lia)) as (Fh & Vh & Fl & Vl).
  assert (Hp : 2 ^ (n + 7) <= 2 ^ 35) by (apply Z.pow_le_mono_r; lia).
  destruct (F32_add_bracket pt (F32.mul t r) (F32.of_int (- 2 ^ 36))
              (F32.of_int (2 ^ 36))) as [Fs Hs];
    [done|done|done|done| |rewrite Vl, Vh in Hs; done].
  rewrite Vl, Vh. rewrite U32_eq in *. nia.
Qed.

Lemma vertical_delta (dM : spec_float) :
  f32 dM = true -> - (64 * U32) <= v32 dM <= 64 * U32 ->
  f32 (F32.mul dM r) = true /\
  - (2 ^ (n + 6) * U32) <= v32 (F32.mul dM r) <= 2 ^ (n + 6) * U32.
Proof.
  intros Fd Hd. destruct (vertical_ratio n Hn Hslope) as [Fr Hr].
  destruct (pow2_val (n + 6) ltac:(lia)) as (Fh & Vh & Fl & Vl).
  destruct (F32_mul_bracket dM r (F32.of_int (- 2 ^ (n + 6))) (F32.of_int (2 ^ (n + 6))))
    as [Fu Hu]; try done.
  - rewrite Vl, Vh. rewrite Z.pow_add_r by lia. change (2 ^ 6) with 64.
    pose proof (mul_bound _ _ _ _ Hd Hr). lia.
  - rewrite Vl, Vh in Hu. done.
Qed.

(** The test returns: no conversion to [int] is undefined. *)
Lemma vertical_total :
  exists (h : Hit.t) (k : nat),
    vertical_test player dm dt = Some (h, k) /\ (h = no_hit \/ wall_hit h).
Proof.
  assert (HU : U32 = 2 ^ 149) by reflexivity.
  assert (Hp : 0 < 2 ^ n <= 2 ^ 28).
  { split; [apply Z.pow_pos_nonneg; lia|apply Z.pow_le_mono_r; lia]. }
  assert (FdMn : f32 dMn = true) by reflexivity.
  assert (FdMp : f32 dMp = true) by reflexivity.
  assert (HdMn : - (64 * U32) <= v32 dMn <= 64 * U32) by (vm_compute; split; discriminate).
  assert (HdMp : - (64 * U32) <= v32 dMp <= 64 * U32) by (vm_compute; split; discriminate).
  destruct (Z.lt_trichotomy (v32 dm) 0) as [Hneg|[H0|Hpos]]; [|done|].
  - rewrite (vertical_neg Hneg).
    destruct vertical_tn as [Ft Ht]. destruct vertical_first_neg as [FM HM].
    pose proof (before_line_bounds cm M0n ltac:(lia) vertical_first_neg) as BM.
    destruct (vertical_start tn Ft ltac:(rewrite HU; lia)) as [FT HT].
    destruct (vertical_delta dMn FdMn HdMn) as [Fd Hd].
    fold T0n in FT, HT.
    rewrite !Z.pow_add_r in Hd by lia. change (2 ^ 6) with 64 in Hd.
    apply grid_walk_total; try done; rewrite HU in *; lia.
  - rewrite (vertical_pos Hpos).
    destruct vertical_tp as [Ft Ht]. destruct vertical_first_pos as [FM HM].
    pose proof (on_line_bounds (cm + 1) M0p ltac:(lia) vertical_first_pos) as BM.
    destruct (vertical_start tp Ft ltac:(rewrite HU in *; lia)) as [FT HT].
    destruct (vertical_delta dMp FdMp HdMp) as [Fd Hd].
    fold T0p in FT, HT.
    rewrite !Z.pow_add_r in Hd by lia. change (2 ^ 6) with 64 in Hd.
    apply grid_walk_total; try done; rewrite HU in *; lia.
Qed.
End Slope.

(** The first point of the walk of a ray that crosses at most one cell per
    step: it lies in the grid, unless the player is within 1/8 of the side of
    the grid the ray goes to and the slope is more than 1/2. *)
Lemma vertical_first (t : spec_float) :
  f32 t = true -> - (1025 * 2 ^ 145) <= v32 t <= 1025 * 2 ^ 145 ->
  0 <= v32 t * v32 dm ->
  Z.abs (v32 dt) <= Z.abs (v32 dm) ->
  transverse (F32.add pt (F32.mul t r)) \/
  Z.abs (v32 dm) < 2 * Z.abs (v32 dt) /\
  (v32 pt < 64 * U32 + 2 ^ 146 /\ v32 dt < 0 \/
   448 * U32 - 2 ^ 146 < v32 pt /\ 0 < v32 dt).
Proof.
  intros Ft Ht Hs Hsl.
  assert (HU : U32 = 2 ^ 149) by reflexivity.
  destruct vertical_player as (Fpt & _ & Hpt & _).
  (* the slope *)
  set (one := F32.of_int 1). set (half := F32.lit 1 2).
  assert (Fone : f32 one = true) by reflexivity.
  assert (Fhalf : f32 half = true) by reflexivity.
  destruct (F32_div_abs dt dm one Fdt Fdm Fone Hdm) as (Fr & Hr & Hrp & Hrn).
  { v32_const one. rewrite HU in *. lia. }
  fold r in Fr, Hr, Hrp, Hrn. v32_const one.
  assert (Hr2 : 2 * Z.abs (v32 dt) <= Z.abs (v32 dm) ->
                - 2 ^ 148 <= v32 r <= 2 ^ 148).
  { intros H2. destruct (F32_div_abs dt dm half Fdt Fdm Fhalf Hdm) as (_ & Hh & _).
    - v32_const half. rewrite HU in *. lia.
    - v32_const half. exact Hh. }
  (* the product *)
  set (big := binary_normalize F32.prec F32.emax 1025 (-4) false).
  set (small := F32.of_int 33).
  assert (Fbig : f32 big = true) by reflexivity.
  assert (Fsmall : f32 small = true) by reflexivity.
  destruct (F32_mul_abs t r big Ft Fr Fbig) as (Fu & Hu & Hup & Hun).
  { v32_const big. rewrite HU in *.
    assert (Ht' : - (1025 * 2 ^ 145) <= v32 t <= 1025 * 2 ^ 145) by lia.
    pose proof (mul_bound _ _ _ _ Ht' Hr). lia. }
  v32_const big.
  assert (Hu2 : 2 * Z.abs (v32 dt) <= Z.abs (v32 dm) ->
                - (33 * 2 ^ 149) <= v32 (F32.mul t r) <= 33 * 2 ^ 149).
  { intros H2. specialize (Hr2 H2).
    destruct (F32_mul_abs t r small Ft Fr Fsmall) as (_ & Hh & _).
    - v32_const small. rewrite HU in *.
      assert (Ht' : - (1025 * 2 ^ 145) <= v32 t <= 1025 * 2 ^ 145) by lia.
      assert (Hr' : - 2 ^ 148 <= v32 r <= 2 ^ 148) by lia.
      pose proof (mul_bound _ _ _ _ Ht' Hr'). lia.
    - v32_const small. exact Hh. }
  (* the sign of the product is the sign of [dt] *)
  assert (Hsp : 0 <= v32 dt -> 0 <= v32 (F32.mul t r)).
  { intros Hd. apply Hup.
    destruct (Z.lt_trichotomy (v32 dm) 0) as [Hneg|[H0|Hpos]]; [|done|].
    - assert (v32 r <= 0) by (apply Hrn; nia). nia.
    - assert (0 <= v32 r) by (apply Hrp; nia). nia. }
  assert (Hsn : v32 dt <= 0 -> v32 (F32.mul t r) <= 0).
  { intros Hd. apply Hun.
    destruct (Z.lt_trichotomy (v32 dm) 0) as [Hneg|[H0|Hpos]]; [|done|].
    - assert (0 <= v32 r) by (apply Hrp; nia). nia.
    - assert (v32 r <= 0) by (apply Hrn; nia). nia. }
  (* the sum *)
  set (top := S754_finite false 16777215 (-15)).
  assert (Ftop : f32 top = true) by reflexivity.
  assert (Hsum : 0 <= v32 pt + v32 (F32.mul t r) <= 512 * 2 ^ 149 - 2 ^ 134 ->
                 transverse (F32.add pt (F32.mul t r))).
  { intros Hb.
    destruct (F32_add_bracket pt (F32.mul t r) (S754_zero false) top) as [Fs Hs']; try done.
    split; [exact Fs|]. revert Hs'. change (v32 (S754_zero false)) with 0.
    v32_const top. rewrite HU. lia. }
  rewrite HU in *.
  destruct (Z.le_gt_cases (2 * Z.abs (v32 dt)) (Z.abs (v32 dm))) as [H2|H2].
  { left. apply Hsum. specialize (Hu2 H2). nia. }
  destruct (Z.lt_trichotomy (v32 dt) 0) as [Hneg|[H0|Hpos]].
  - specialize (Hsn ltac:(lia)).
    destruct (Z.le_gt_cases (64 * 2 ^ 149 + 2 ^ 146) (v32 pt)) as [Hfar|Hnear].
    + left. apply Hsum. nia.
    + right. split; [exact H2|]. left. done.
  - rewrite H0 in H2. lia.
  - specialize (Hsp ltac:(lia)).
    destruct (Z.le_gt_cases (v32 pt) (448 * 2 ^ 149 - 2 ^ 146)) as [Hfar|Hnear].
    + left. apply Hsum. nia.
    + right. split; [exact H2|]. right. done.
Qed.

(** A ray that crosses at most one cell per step hits a wall, unless the
    player is within 1/8 of the side of the grid the ray goes to. *)
Lemma vertical_steep :
  Z.abs (v32 dt) <= Z.abs (v32 dm) ->
  (exists (h : Hit.t) (k : nat), vertical_test player dm dt = Some (h, k) /\ wall_hit h) \/
  Z.abs (v32 dm) < 2 * Z.abs (v32 dt) /\
  (v32 pt < 64 * U32 + 2 ^ 146 /\ v32 dt < 0 \/
   448 * U32 - 2 ^ 146 < v32 pt /\ 0 < v32 dt).
Proof.
  intros Hsl.
  assert (HU : U32 = 2 ^ 149) by reflexivity.
  assert (Hsl0 : Z.abs (v32 dt) <= 2 ^ 0 * Z.abs (v32 dm)) by lia.
  assert (FdMn : f32 dMn = true) by reflexivity.
  assert (FdMp : f32 dMp = true) by reflexivity.
  assert (HdMn : - (64 * U32) <= v32 dMn <= 64 * U32) by (vm_compute; split; discriminate).
  assert (HdMp : - (64 * U32) <= v32 dMp <= 64 * U32) by (vm_compute; split; discriminate).
  destruct (Z.lt_trichotomy (v32 dm) 0) as [Hneg|[H0|Hpos]]; [|done|].
  - rewrite (vertical_neg Hneg). destruct vertical_tn as [Ft Ht].
    destruct (vertical_first tn Ft ltac:(lia) ltac:(nia) Hsl) as [HT|Hc];
      [left|right; exact Hc].
    fold T0n in HT.
    destruct (vertical_delta 0 ltac:(lia) Hsl0 dMn FdMn HdMn) as [Fd Hd].
    change (2 ^ (0 + 6)) with 64 in Hd.
    pose proof vertical_first_neg as HM.
    replace cm with (Z.of_nat (Z.to_nat (cm - 1)) + 1) in HM by lia.
    eapply (walk_left player Hplayer _ Fd Hd (Z.to_nat (cm - 1)) 8);
      first [exact HT | exact HM | lia].
  - rewrite (vertical_pos Hpos). destruct vertical_tp as [Ft Ht].
    destruct (vertical_first tp Ft ltac:(rewrite HU in *; lia) ltac:(nia) Hsl) as [HT|Hc];
      [left|right; exact Hc].
    fold T0p in HT.
    destruct (vertical_delta 0 ltac:(lia) Hsl0 dMp FdMp HdMp) as [Fd Hd].
    change (2 ^ (0 + 6)) with 64 in Hd.
    pose proof vertical_first_pos as HM.
    replace (cm + 1) with (7 - Z.of_nat (Z.to_nat (6 - cm))) in HM by lia.
    eapply (walk_right player Hplayer _ Fd Hd (Z.to_nat (6 - cm)) 8);
      first [exact HT | exact HM | lia].
Qed.

(** A ray towards a side of the grid from within 1/8 of it, of slope less
    than 2: the first point of the walk lies in a cell of that side. *)
Lemma vertical_corner :
  Z.abs (v32 dt) < 2 * Z.abs (v32 dm) ->
  (v32 pm < 64 * U32 + 2 ^ 146 /\ v32 dm < 0 \/
   448 * U32 - 2 ^ 146 < v32 pm /\ 0 < v32 dm) ->
  exists (h : Hit.t) (k : nat), vertical_test player dm dt = Some (h, k) /\ wall_hit h.
Proof.
  intros Hsl Hside.
  assert (HU : U32 = 2 ^ 149) by reflexivity.
  destruct vertical_player as (Fpt & Fpm & Hpt & Hpm).
  set (two := F32.of_int 2). set (half := F32.lit 1 2).
  set (quarter := F32.lit 1 4).
  set (lo := binary_normalize F32.prec F32.emax 127 (-1) false).
  set (hi := binary_normalize F32.prec F32.emax 897 (-1) false).
  assert (Ftwo : f32 two = true) by reflexivity.
  assert (Fhalf : f32 half = true) by reflexivity.
  assert (Fquarter : f32 quarter = true) by reflexivity.
  assert (Fqo : f32 (SFopp quarter) = true) by reflexivity.
  assert (Flo : f32 lo = true) by reflexivity.
  assert (Fhi : f32 hi = true) by reflexivity.
  destruct (F32_div_abs dt dm two Fdt Fdm Ftwo Hdm) as (Fr & Hr & _).
  { v32_const two. rewrite HU in *. lia. }
  fold r in Fr, Hr. v32_const two.
  assert (Hfirst : forall t : spec_float,
            f32 t = true -> - 2 ^ 147 <= v32 t <= 2 ^ 147 ->
            transverse (F32.add pt (F32.mul t r))).
  { intros t Ft Ht.
    destruct (F32_mul_abs t r half Ft Fr Fhalf) as (Fu & Hu & _).
    { v32_const half. rewrite HU in *.
      pose proof (mul_bound _ _ _ _ Ht Hr). lia. }
    v32_const half.
    destruct (F32_add_bracket pt (F32.mul t r) lo hi) as [Fs Hs]; try done.
    { v32_const lo. v32_const hi. rewrite HU in *. nia. }
    split; [exact Fs|]. revert Hs. v32_const lo. v32_const hi. rewrite HU. lia. }
  destruct Hside as [[Hnear Hneg]|[Hnear Hpos]].
  - rewrite (vertical_neg Hneg).
    assert (Ecm1 : cm = 1) by (rewrite HU in *; nia).
    pose proof vertical_first_neg as HM. rewrite Ecm1 in HM.
    destruct (F32_sub_bracket M0n pm (SFopp quarter) (S754_zero false)) as [Ft Ht];
      try done; try apply HM.
    { destruct HM as [_ HM]. v32_const (SFopp quarter).
      change (v32 (S754_zero false)) with 0. rewrite HU in *.
      change (2 ^ 143) with (2 * 2 ^ 142) in HM.
      change (2 ^ 149) with (128 * 2 ^ 142) in Hpm, Hnear.
      change (2 ^ 146) with (16 * 2 ^ 142) in Hnear. lia. }
    fold tn in Ft, Ht. revert Ht. v32_const (SFopp quarter).
    change (v32 (S754_zero false)) with 0. intros Ht.
    pose proof (Hfirst tn Ft ltac:(lia)) as HT. fold T0n in HT.
    destruct (transverse_cell _ HT) as (a & Ea & Ra).
    pose proof (before_line_cell 1 M0n ltac:(lia) HM) as Eb.
    pose proof (transverse_bounds _ HT) as BT.
    pose proof (before_line_bounds 1 M0n ltac:(lia) HM) as BM.
    apply (walk_boundary player 7 M0n T0n _ _ 0%nat 0 a);
      first [done | apply HT | apply HM | lia].
  - rewrite (vertical_pos Hpos).
    assert (Ecm6 : cm = 6) by (rewrite HU in *; nia).
    pose proof vertical_first_pos as HM. rewrite Ecm6 in HM.
    destruct (F32_sub_bracket M0p pm (S754_zero false) quarter) as [Ft Ht];
      try done; try apply HM.
    { destruct HM as [_ HM]. v32_const quarter.
      change (v32 (S754_zero false)) with 0. rewrite HM, HU in *.
      rewrite Ecm6 in Hpm. lia. }
    fold tp in Ft, Ht. revert Ht. v32_const quarter.
    change (v32 (S754_zero false)) with 0. intros Ht.
    pose proof (Hfirst tp Ft ltac:(lia)) as HT. fold T0p in HT.
    destruct (transverse_cell _ HT) as (a & Ea & Ra).
    pose proof (on_line_cell 7 M0p ltac:(lia) HM) as Eb.
    pose proof (transverse_bounds _ HT) as BT.
    pose proof (on_line_bounds 7 M0p ltac:(lia) HM) as BM.
    apply (walk_boundary player 7 M0p T0p _ _ 0%nat 7 a);
      first [done | apply HT | apply HM | lia].
Qed.
End VerticalTest.

(** *** The two tests together *)

(** The position lies in the cell [a]. *)
Lemma cell_of_inside (x : spec_float) (a : Z) :
  f32 x = true -> 0 <= a < 8 ->
  64 * a * U32 <= v32 x < 64 * (a + 1) * U32 ->
  cell_of x = Some a.
Proof.
  intros Fx Ha Hx. assert (HU : U32 = 2 ^ 149) by reflexivity.
  destruct (cell_of_spec x Fx ltac:(rewrite HU in *; lia)) as (a' & Ea & Hs).
  rewrite Ea. f_equal. rewrite HU in *. nia.
Qed.

Lemma horizontal_test_iterations (player : Player.t) (rayDirX rayDirY : spec_float)
    (h : Hit.t) (n : nat) :
  horizontal_test player rayDirX rayDirY = Some (h, n) -> (n <= Z.to_nat MAPY)%nat.
Proof.
  unfold horizontal_test. destruct (negb _); [|intros [= _ <-]; lia].
  destruct (F32.ltb _ _); cbv beta iota zeta; intros H;
    apply grid_walk_iterations in H; lia.
Qed.

Lemma vertical_test_iterations (player : Player.t) (rayDirX rayDirY : spec_float)
    (h : Hit.t) (n : nat) :
  vertical_test player rayDirX rayDirY = Some (h, n) -> (n <= Z.to_nat MAPX)%nat.
Proof.
  unfold vertical_test. destruct (negb _); [|intros [= _ <-]; lia].
  destruct (F32.ltb _ _); cbv beta iota zeta; intros H;
    apply grid_walk_iterations in H; lia.
Qed.

Lemma horizontal_test_level (player : Player.t) (rayDirX rayDirY : spec_float) :
  f32 rayDirY = true -> v32 rayDirY = 0 ->
  horizontal_test player rayDirX rayDirY = Some (no_hit, 0%nat).
Proof.
  intros Fy Hy. unfold horizontal_test. rewrite F32_eqb_val by done.
  change (v32 (F32.of_int 0)) with 0. rewrite Hy. reflexivity.
Qed.

Lemma vertical_test_upright (player : Player.t) (rayDirX rayDirY : spec_float) :
  f32 rayDirX = true -> v32 rayDirX = 0 ->
  vertical_test player rayDirX rayDirY = Some (no_hit, 0%nat).
Proof.
  intros Fx Hx. unfold vertical_test. rewrite F32_eqb_val by done.
  change (v32 (F32.of_int 0)) with 0. rewrite Hx. reflexivity.
Qed.

(** A hit of a wall is closer than no hit. *)
Lemma wall_hit_distance (h : Hit.t) :
  wall_hit h -> F32.ltb (Hit.distance h) (Hit.distance no_hit) = true.
Proof.
  intros (_ & _ & Fd & Hd). rewrite F32_ltb_val by done.
  apply Z.ltb_lt. v32_const (Hit.distance no_hit). rewrite U32_eq in Hd. lia.
Qed.

Lemma closer_hit_wall (H V : Hit.t) :
  H = no_hit \/ wall_hit H -> V = no_hit \/ wall_hit V ->
  wall_hit H \/ wall_hit V ->
  wall_hit (RayHit.wall (closer_hit H V)).
Proof.
  intros HH HV Hone. unfold closer_hit.
  destruct (F32.ltb (Hit.distance H) (Hit.distance V)) eqn:E; cbn [RayHit.wall].
  - destruct HH as [->|HH]; [|exact HH]. destruct HV as [->|HV].
    + destruct Hone as [(_ & Hw & _)|(_ & Hw & _)]; discriminate Hw.
    + destruct HV as (_ & _ & Fd & Hd).
      rewrite F32_ltb_val in E by done. apply Z.ltb_lt in E.
      revert E. v32_const (Hit.distance no_hit). rewrite U32_eq in Hd. lia.
  - destruct HV as [->|HV]; [|exact HV]. destruct HH as [->|HH].
    + destruct Hone as [(_ & Hw & _)|(_ & Hw & _)]; discriminate Hw.
    + apply wall_hit_distance in HH. congruence.
Qed.

(** The result of the two tests, one of which hits a wall. *)
Lemma cast_ray_of_tests (player : Player.t) (rayDirX rayDirY : spec_float) :
  (exists (h : Hit.t) (k : nat),
     horizontal_test player rayDirX rayDirY = Some (h, k) /\
     (h = no_hit \/ wall_hit h)) ->
  (exists (h : Hit.t) (k : nat),
     vertical_test player rayDirX rayDirY = Some (h, k) /\
     (h = no_hit \/ wall_hit h)) ->
  (exists (h : Hit.t) (k : nat),
     horizontal_test player rayDirX rayDirY = Some (h, k) /\ wall_hit h) \/
  (exists (h : Hit.t) (k : nat),
     vertical_test player rayDirX rayDirY = Some (h, k) /\ wall_hit h) ->
  exists (H V : Hit.t) (nH nV : nat),
    horizontal_test player rayDirX rayDirY = Some (H, nH) /\
    (nH <= Z.to_nat MAPY)%nat /\
    vertical_test player rayDirX rayDirY = Some (V, nV) /\
    (nV <= Z.to_nat MAPX)%nat /\
    cast_ray player rayDirX rayDirY = Some (closer_hit H V) /\
    wall_hit (RayHit.wall (closer_hit H V)) /\
    F32.ltb (Hit.distance (RayHit.wall (closer_hit H V))) (Hit.distance no_hit) = true.
Proof.
  intros (H & nH & EH & HH) (V & nV & EV & HV) Hone.
  assert (Hw : wall_hit (RayHit.wall (closer_hit H V))).
  { apply closer_hit_wall; try done.
    destruct Hone as [(h & k & E & W)|(h & k & E & W)]; [left|right]; congruence. }
  exists H, V, nH, nV.
  split; [exact EH|]. split; [exact (horizontal_test_iterations _ _ _ _ _ EH)|].
  split; [exact EV|]. split; [exact (vertical_test_iterations _ _ _ _ _ EV)|].
  split; [unfold cast_ray; rewrite EH, EV; reflexivity|].
  split; [exact Hw|]. now apply wall_hit_distance.
Qed.

Lemma wall_or_none (T : option (Hit.t * nat)) :
  (exists (h : Hit.t) (k : nat), T = Some (h, k) /\ wall_hit h) ->
  exists (h : Hit.t) (k : nat), T = Some (h, k) /\ (h = no_hit \/ wall_hit h).
Proof. intros (h & k & E & W). exists h, k. split; [exact E|now right]. Qed.



(** * The points of a line *)

Section LineShape.
Variables dx dy sx sy x0 y0 x1 y1 : Z.
Hypothesis Hdx : 0 <= dx.
Hypothesis Hdy : 0 <= dy.
Hypothesis Hsx : sx = 1 \/ sx = -1.
Hypothesis Hsy : sy = 1 \/ sy = -1.
Hypothesis Hx1 : x1 = x0 + sx * dx.
Hypothesis Hy1 : y1 = y0 + sy * dy.
Hypothesis Hsum : dx + dy <= INT_MAX.
Hypothesis Hx0i : in_int x0.
Hypothesis Hx1i : in_int x1.
Hypothesis Hy0i : in_int y0.
Hypothesis Hy1i : in_int y1.

Let pts_loop := r_drawline_loop (fun x y pts => pts ++ [(x, y)]).

(** The point reached after [a] steps along x and [b] steps along y. *)
Let on_track (p : Z * Z) : Prop :=
  exists a b : Z,
    p = (x0 + sx * a, y0 + sy * b) /\ 0 <= a <= dx /\ 0 <= b <= dy /\
    - Z.max dx dy <= 2 * (b * dx - a * dy) <= Z.max dx dy.

Lemma x_major_points (n : nat) : dy < dx ->
  forall a b err acc,
    0 <= a -> a + Z.of_nat n = dx -> 0 <= b ->
    0 <= err < dx -> err = Z.quot dx 2 - a * dy + b * dx ->
    exists pts,
      pts_loop (S n) dx dy sx sy x1 y1 (x0 + sx * a) (y0 + sy * b) err acc
        = Some (acc ++ pts)
      /\ pts.*1 = (fun k => x0 + sx * k) <$> seqZ a (Z.of_nat (S n))
      /\ Forall on_track pts.
Proof.
  intros Hmajor. pose proof (Z.quot_div_nonneg dx 2 Hdx ltac:(lia)) as Hq.
  assert (Hh : dx - 1 <= 2 * Z.quot dx 2 <= dx).
  { rewrite Hq. Z.div_mod_to_equations. lia. }
  clear Hq.
  induction n as [|n IH]; intros a b err acc Ha Han Hb Herr Heq.
  - assert (a = dx) by lia. subst a.
    assert (b = dy) by nia. subst b.
    exists [(x0 + sx * dx, y0 + sy * dy)]. unfold pts_loop.
    rewrite r_drawline_loop_unfold.
    rewrite <- Hx1, <- Hy1, !Z.eqb_refl. cbn [andb].
    split; [reflexivity|]. split; [cbn; now rewrite Hx1|].
    constructor; [|constructor]. exists dx, dy. rewrite Hx1, Hy1.
    split; [reflexivity|]. nia.
  - unfold pts_loop. rewrite r_drawline_loop_unfold.
    assert (Hne : (x0 + sx * a =? x1) = false) by (apply Z.eqb_neq; nia).
    rewrite Hne. cbn [andb].
    assert (Hb1 : err < dy -> b + 1 <= dy) by nia.
    assert (Hb0 : b <= dy) by nia.
    assert (Hhere : on_track (x0 + sx * a, y0 + sy * b)).
    { exists a, b. split; [reflexivity|]. nia. }
    rewrite (wrap_int_small (- dx)) by (unfold in_int, INT_MIN, INT_MAX in *; lia).
    replace (err >? - dx) with true by (symmetry; apply Z.gtb_lt; lia).
    rewrite (wrap_int_small (err - dy)) by (unfold in_int, INT_MIN, INT_MAX in *; lia).
    replace (x0 + sx * a + sx) with (x0 + sx * (a + 1)) by ring.
    rewrite (wrap_int_small (x0 + sx * (a + 1)))
      by (unfold in_int, INT_MIN, INT_MAX in *; nia).
    replace (Z.of_nat (S (S n))) with (Z.succ (Z.of_nat (S n))) by lia.
    rewrite seqZ_cons by lia.
    replace (Z.succ a) with (a + 1) by lia.
    replace (Z.pred (Z.succ (Z.of_nat (S n)))) with (Z.of_nat (S n)) by lia.
    destruct (Z.ltb_spec err dy) as [Hlt|Hge].
    + rewrite (wrap_int_small (err - dy + dx)) by (unfold in_int, INT_MIN, INT_MAX in *; lia).
      replace (y0 + sy * b + sy) with (y0 + sy * (b + 1)) by ring.
      rewrite (wrap_int_small (y0 + sy * (b + 1)))
        by (unfold in_int, INT_MIN, INT_MAX in *; nia).
      destruct (IH (a + 1) (b + 1) (err - dy + dx) (acc ++ [(x0 + sx * a, y0 + sy * b)]))
        as (pts & E & Hc & Hp); try lia.
      exists ((x0 + sx * a, y0 + sy * b) :: pts).
      fold pts_loop. rewrite E, <- app_assoc. split; [reflexivity|].
      split; [cbn [fmap list_fmap fst]; now rewrite <- Hc|]. now constructor.
    + cbv zeta.
      destruct (IH (a + 1) b (err - dy) (acc ++ [(x0 + sx * a, y0 + sy * b)]))
        as (pts & E & Hc & Hp); try lia.
      exists ((x0 + sx * a, y0 + sy * b) :: pts).
      fold pts_loop. rewrite E, <- app_assoc. split; [reflexivity|].
      split; [cbn [fmap list_fmap fst]; now rewrite <- Hc|]. now constructor.
Qed.

Lemma y_major_points (n : nat) : dx <= dy ->
  forall a b err acc,
    0 <= a <= dx -> 0 <= b -> b + Z.of_nat n = dy ->
    (0 < dy -> - dy < err <= 0) -> err = Z.quot (- dy) 2 - a * dy + b * dx ->
    exists pts,
      pts_loop (S n) dx dy sx sy x1 y1 (x0 + sx * a) (y0 + sy * b) err acc
        = Some (acc ++ pts)
      /\ pts.*2 = (fun k => y0 + sy * k) <$> seqZ b (Z.of_nat (S n))
      /\ Forall on_track pts.
Proof.
  intros Hmajor.
  assert (Hh : dy - 1 <= - (2 * Z.quot (- dy) 2) <= dy).
  { rewrite Z.quot_opp_l, Z.quot_div_nonneg by lia.
    Z.div_mod_to_equations. lia. }
  induction n as [|n IH]; intros a b err acc Ha Hb Hbn Herr Heq.
  - assert (b = dy) by lia. subst b.
    assert (a = dx) by nia. subst a.
    exists [(x0 + sx * dx, y0 + sy * dy)]. unfold pts_loop.
    rewrite r_drawline_loop_unfold.
    rewrite <- Hx1, <- Hy1, !Z.eqb_refl. cbn [andb].
    split; [reflexivity|]. split; [cbn; now rewrite Hy1|].
    constructor; [|constructor]. exists dx, dy. rewrite Hx1, Hy1.
    split; [reflexivity|]. nia.
  - unfold pts_loop. rewrite r_drawline_loop_unfold.
    assert (Hne : (y0 + sy * b =? y1) = false) by (apply Z.eqb_neq; nia).
    rewrite Hne, andb_false_r.
    assert (Herr' : - dy < err <= 0) by (apply Herr; lia). clear Herr.
    assert (Ha1 : err > - dx -> a + 1 <= dx) by nia.
    assert (Hhere : on_track (x0 + sx * a, y0 + sy * b)).
    { exists a, b. split; [reflexivity|]. nia. }
    rewrite (wrap_int_small (- dx)) by (unfold in_int, INT_MIN, INT_MAX in *; lia).
    replace (err <? dy) with true by (symmetry; apply Z.ltb_lt; lia).
    replace (y0 + sy * b + sy) with (y0 + sy * (b + 1)) by ring.
    rewrite (wrap_int_small (y0 + sy * (b + 1)))
      by (unfold in_int, INT_MIN, INT_MAX in *; nia).
    replace (Z.of_nat (S (S n))) with (Z.succ (Z.of_nat (S n))) by lia.
    rewrite seqZ_cons by lia.
    replace (Z.succ b) with (b + 1) by lia.
    replace (Z.pred (Z.succ (Z.of_nat (S n)))) with (Z.of_nat (S n)) by lia.
    destruct (Z.gtb_spec err (- dx)) as [Hgt|Hle]; cbv beta iota zeta.
    + rewrite (wrap_int_small (err - dy)) by (unfold in_int, INT_MIN, INT_MAX in *; lia).
      rewrite (wrap_int_small (err - dy + dx)) by (unfold in_int, INT_MIN, INT_MAX in *; lia).
      replace (x0 + sx * a + sx) with (x0 + sx * (a + 1)) by ring.
      rewrite (wrap_int_small (x0 + sx * (a + 1)))
        by (unfold in_int, INT_MIN, INT_MAX in *; nia).
      destruct (IH (a + 1) (b + 1) (err - dy + dx) (acc ++ [(x0 + sx * a, y0 + sy * b)]))
        as (pts & E & Hc & Hp); try lia.
      exists ((x0 + sx * a, y0 + sy * b) :: pts).
      fold pts_loop. rewrite E, <- app_assoc. split; [reflexivity|].
      split; [cbn [fmap list_fmap snd]; now rewrite <- Hc|]. now constructor.
    + rewrite (wrap_int_small (err + dx)) by (unfold in_int, INT_MIN, INT_MAX in *; lia).
      destruct (IH a (b + 1) (err + dx) (acc ++ [(x0 + sx * a, y0 + sy * b)]))
        as (pts & E & Hc & Hp); try lia.
      exists ((x0 + sx * a, y0 + sy * b) :: pts).
      fold pts_loop. rewrite E, <- app_assoc. split; [reflexivity|].
      split; [cbn [fmap list_fmap snd]; now rewrite <- Hc|]. now constructor.
Qed.

Lemma on_track_near (p : Z * Z) : on_track p -> near_line x0 y0 x1 y1 p.
Proof.
  intros (a & b & -> & Ha & Hb & Hd). unfold near_line. cbn [fst snd].
  rewrite Hx1, Hy1.
  replace ((x0 + sx * a - x0) * (y0 + sy * dy - y0) - (y0 + sy * b - y0) * (x0 + sx * dx - x0))
    with (sx * sy * (a * dy - b * dx)) by ring.
  replace (x0 + sx * dx - x0) with (sx * dx) by ring.
  replace (y0 + sy * dy - y0) with (sy * dy) by ring.
  assert (Ex : Z.abs (sx * dx) = dx) by (destruct Hsx as [-> | ->]; lia).
  assert (Ey : Z.abs (sy * dy) = dy) by (destruct Hsy as [-> | ->]; lia).
  rewrite Ex, Ey.
  split; [destruct Hsx as [-> | ->]; lia|].
  split; [destruct Hsy as [-> | ->]; lia|].
  destruct Hsx as [-> | ->]; destruct Hsy as [-> | ->]; lia.
Qed.
End LineShape.

Lemma r_drawline_shape (x0 y0 x1 y1 : Z) :
  in_int x0 -> in_int y0 -> in_int x1 -> in_int y1 ->
  Z.abs (x1 - x0) + Z.abs (y1 - y0) <= INT_MAX ->
  exists pts : list (Z * Z),
    (forall fuel : nat, (Z.max (Z.abs (x1 - x0)) (Z.abs (y1 - y0)) < Z.of_nat fuel) ->
       r_drawline_points fuel x0 y0 x1 y1 = Some pts /\
       forall color pixels,
         r_drawline fuel x0 y0 x1 y1 color pixels
         = Some (foldl (fun px p => r_drawpoint p.1 p.2 color px) pixels pts)) /\
    Forall (near_line x0 y0 x1 y1) pts /\
    (Z.abs (y1 - y0) < Z.abs (x1 - x0) ->
     pts.*1 = (fun k => x0 + (if x0 <? x1 then 1 else -1) * k)
              <$> seqZ 0 (Z.abs (x1 - x0) + 1)) /\
    (Z.abs (x1 - x0) <= Z.abs (y1 - y0) ->
     pts.*2 = (fun k => y0 + (if y0 <? y1 then 1 else -1) * k)
              <$> seqZ 0 (Z.abs (y1 - y0) + 1)).
Proof.
  intros Hx0 Hy0 Hx1 Hy1 Hsum.
  set (dx := Z.abs (x1 - x0)) in *. set (dy := Z.abs (y1 - y0)) in *.
  set (sx := if x0 <? x1 then 1 else -1).
  set (sy := if y0 <? y1 then 1 else -1).
  assert (Edx : (if x1 >? x0 then wrap_int (x1 - x0) else wrap_int (x0 - x1)) = dx).
  { unfold dx. destruct (Z.gtb_spec x1 x0);
      rewrite wrap_int_small; unfold in_int, INT_MIN, INT_MAX in *; lia. }
  assert (Edy : (if y1 >? y0 then wrap_int (y1 - y0) else wrap_int (y0 - y1)) = dy).
  { unfold dy. destruct (Z.gtb_spec y1 y0);
      rewrite wrap_int_small; unfold in_int, INT_MIN, INT_MAX in *; lia. }
  assert (Hsx : sx = 1 \/ sx = -1) by (unfold sx; destruct (x0 <? x1); auto).
  assert (Hsy : sy = 1 \/ sy = -1) by (unfold sy; destruct (y0 <? y1); auto).
  assert (Ex1 : x1 = x0 + sx * dx)
    by (unfold sx, dx; destruct (Z.ltb_spec x0 x1); lia).
  assert (Ey1 : y1 = y0 + sy * dy)
    by (unfold sy, dy; destruct (Z.ltb_spec y0 y1); lia).
  assert (Hdx : 0 <= dx) by (unfold dx; lia).
  assert (Hdy : 0 <= dy) by (unfold dy; lia).
  assert (Hloop : exists pts,
    r_drawline_loop (fun x y pts => pts ++ [(x, y)])
      (S (Z.to_nat (Z.max dx dy))) dx dy sx sy x1 y1 x0 y0
      (Z.quot (if dx >? dy then dx else wrap_int (- dy)) 2) []
      = Some pts
    /\ Forall (near_line x0 y0 x1 y1) pts
    /\ (dy < dx -> pts.*1 = (fun k => x0 + sx * k) <$> seqZ 0 (dx + 1))
    /\ (dx <= dy -> pts.*2 = (fun k => y0 + sy * k) <$> seqZ 0 (dy + 1))).
  { destruct (Z.gtb_spec dx dy) as [Hgt|Hle].
    - destruct (x_major_points dx dy sx sy x0 y0 x1 y1 Hdx Hdy Hsx Hsy Ex1 Ey1 Hsum
                  Hx0 Hx1 Hy0 Hy1 (Z.to_nat dx) Hgt 0 0 (Z.quot dx 2) [])
        as (pts & E & Hc & Hp); try lia.
      { rewrite Z.quot_div_nonneg by lia. Z.div_mod_to_equations. lia. }
      rewrite !Z.mul_0_r, !Z.add_0_r in E.
      exists pts. rewrite Z.max_l by lia. split; [exact E|].
      split; [|split; [|lia]].
      + eapply Forall_impl; [exact Hp|]. intros p.
        apply (on_track_near dx dy sx sy x0 y0 x1 y1 Hdx Hdy Hsx Hsy Ex1 Ey1).
      + intros _. rewrite Hc. do 2 f_equal. lia.
    - rewrite (wrap_int_small (- dy)) by (unfold in_int, INT_MIN, INT_MAX in *; lia).
      destruct (y_major_points dx dy sx sy x0 y0 x1 y1 Hdx Hdy Hsx Hsy Ex1 Ey1 Hsum
                  Hx0 Hx1 Hy0 Hy1 (Z.to_nat dy) Hle 0 0 (Z.quot (- dy) 2) [])
        as (pts & E & Hc & Hp); try lia.
      { rewrite Z.quot_opp_l, Z.quot_div_nonneg by lia.
        Z.div_mod_to_equations. lia. }
      rewrite !Z.mul_0_r, !Z.add_0_r in E.
      exists pts. rewrite Z.max_r by lia. split; [exact E|].
      split; [|split; [lia|]].
      + eapply Forall_impl; [exact Hp|]. intros p.
        apply (on_track_near dx dy sx sy x0 y0 x1 y1 Hdx Hdy Hsx Hsy Ex1 Ey1).
      + intros _. rewrite Hc. do 2 f_equal. lia. }
  destruct Hloop as (pts & E & Hnear & Hxs & Hys).
  exists pts. split; [|split; [exact Hnear|split; assumption]].
  intros fuel Hfuel.
  assert (Ef : fuel = (S (Z.to_nat (Z.max dx dy)) + (fuel - S (Z.to_nat (Z.max dx dy))))%nat)
    by lia.
  apply (r_drawline_loop_fuel _ _ (fuel - S (Z.to_nat (Z.max dx dy)))) in E.
  rewrite <- Ef in E.
  split.
  - unfold r_drawline_points, r_drawline_with. rewrite Edx, Edy. exact E.
  - intros color pixels. unfold r_drawline, r_drawline_with.
    rewrite r_drawline_loop_plot. rewrite Edx, Edy. fold sx sy. rewrite E. reflexivity.
Qed.

(** X1.  For end points whose coordinate differences fit an [int], every
    point that [r_drawline] plots lies in the bounding box of the segment and
    within half a pixel of it along the minor axis; a line that is wider than
    high has one point in each column from [x0] to [x1], in this order, and
    a line that is at least as high as wide one point in each row. *)
Theorem r_drawline_near_line (x0 y0 x1 y1 : Z) :
  in_int x0 -> in_int y0 -> in_int x1 -> in_int y1 ->
  Z.abs (x1 - x0) + Z.abs (y1 - y0) <= INT_MAX ->
  exists pts : list (Z * Z),
    (forall fuel : nat, (Z.max (Z.abs (x1 - x0)) (Z.abs (y1 - y0)) < Z.of_nat fuel) ->
       r_drawline_points fuel x0 y0 x1 y1 = Some pts) /\
    Forall (near_line x0 y0 x1 y1) pts /\
    (Z.abs (y1 - y0) < Z.abs (x1 - x0) ->
     pts.*1 = (fun k => x0 + (if x0 <? x1 then 1 else -1) * k)
              <$> seqZ 0 (Z.abs (x1 - x0) + 1)) /\
    (Z.abs (x1 - x0) <= Z.abs (y1 - y0) ->
     pts.*2 = (fun k => y0 + (if y0 <? y1 then 1 else -1) * k)
              <$> seqZ 0 (Z.abs (y1 - y0) + 1)).
Proof.
  intros Hx0 Hy0 Hx1 Hy1 Hsum.
  destruct (r_drawline_shape x0 y0 x1 y1 Hx0 Hy0 Hx1 Hy1 Hsum)
    as (pts & Hrun & Hnear & Hxs & Hys).
  exists pts. split; [|split; [exact Hnear|split; assumption]].
  intros fuel Hfuel. apply (Hrun fuel Hfuel).
Qed.

Lemma r_drawline_near_line_witness :
  exists pts : list (Z * Z),
    r_drawline_points 20 205 200 190 210 = Some pts /\
    Forall (near_line 205 200 190 210) pts /\
    pts.*1 = (fun k => 205 + -1 * k) <$> seqZ 0 16.
Proof.
  destruct (r_drawline_near_line 205 200 190 210)
    as (pts & Hrun & Hnear & Hxs & _);
    try (unfold in_int, INT_MIN, INT_MAX; lia).
  exists pts. split; [apply Hrun; lia|]. split; [exact Hnear|].
  apply Hxs. lia.
Defined.

(** * Painting the framebuffer *)

Lemma pixel_index_injective (x y x' y' : Z) :
  0 <= x < SCREEN_WIDTH -> 0 <= y < SCREEN_HEIGHT ->
  0 <= x' < SCREEN_WIDTH -> 0 <= y' < SCREEN_HEIGHT ->
  pixel_index x y = pixel_index x' y' -> x = x' /\ y = y'.
Proof. unfold pixel_index, SCREEN_WIDTH, SCREEN_HEIGHT. lia. Qed.

Lemma pixel_index_lt (x y : Z) :
  0 <= x < SCREEN_WIDTH -> 0 <= y < SCREEN_HEIGHT ->
  (pixel_index x y < Z.to_nat (SCREEN_WIDTH * SCREEN_HEIGHT))%nat.
Proof. unfold pixel_index, SCREEN_WIDTH, SCREEN_HEIGHT. lia. Qed.

Lemma length_r_drawpoint (x y color : Z) (pixels : list Z) :
  length (r_drawpoint x y color pixels) = length pixels.
Proof.
  unfold r_drawpoint. destruct (_ || _); [reflexivity|].
  cbv zeta. destruct (_ || _); [reflexivity|]. apply length_insert.
Qed.

Lemma r_drawpoint_lookup (x y color : Z) (pixels : list Z) (px py : Z) :
  length pixels = Z.to_nat (SCREEN_WIDTH * SCREEN_HEIGHT) ->
  0 <= px < SCREEN_WIDTH -> 0 <= py < SCREEN_HEIGHT ->
  r_drawpoint x y color pixels !! pixel_index px py
  = if (px =? x) && (py =? y) then Some color else pixels !! pixel_index px py.
Proof.
  intros Hlen Hpx Hpy.
  destruct (Z.eqb_spec px x) as [->|Hx]; cbn [andb].
  - destruct (Z.eqb_spec py y) as [->|Hy].
    + rewrite r_drawpoint_in by assumption. apply list_lookup_insert_eq.
      rewrite Hlen. now apply pixel_index_lt.
    + destruct (Z_lt_le_dec y 0) as [Hl|Hl];
        [now rewrite r_drawpoint_out by lia|].
      destruct (Z_lt_le_dec y SCREEN_HEIGHT) as [Hh|Hh];
        [|now rewrite r_drawpoint_out by lia].
      rewrite r_drawpoint_in by lia. apply list_lookup_insert_ne.
      intros E. apply pixel_index_injective in E; lia.
  - destruct (Z_lt_le_dec x 0) as [Hl|Hl];
      [now rewrite r_drawpoint_out by lia|].
    destruct (Z_lt_le_dec x SCREEN_WIDTH) as [Hh|Hh];
      [|now rewrite r_drawpoint_out by lia].
    destruct (Z_lt_le_dec y 0) as [Hl'|Hl'];
      [now rewrite r_drawpoint_out by lia|].
    destruct (Z_lt_le_dec y SCREEN_HEIGHT) as [Hh'|Hh'];
      [|now rewrite r_drawpoint_out by lia].
    rewrite r_drawpoint_in by lia. apply list_lookup_insert_ne.
    intros E. apply pixel_index_injective in E; lia.
Qed.

Lemma painted_ext (R R' : Z -> Z -> bool) (color : Z) (before after : list Z) :
  (forall x y, 0 <= x < SCREEN_WIDTH -> 0 <= y < SCREEN_HEIGHT -> R x y = R' x y) ->
  painted R color before after -> painted R' color before after.
Proof.
  intros HR [Hlen Hp]. split; [exact Hlen|].
  intros x y Hx Hy. rewrite <- HR by assumption. now apply Hp.
Qed.

Lemma painted_none (color : Z) (pixels : list Z) :
  painted (fun _ _ => false) color pixels pixels.
Proof. split; reflexivity. Qed.

Lemma painted_then (R1 R2 : Z -> Z -> bool) (color : Z) (a b c : list Z) :
  painted R1 color a b -> painted R2 color b c ->
  painted (fun x y => R1 x y || R2 x y) color a c.
Proof.
  intros [L1 P1] [L2 P2]. split; [congruence|].
  intros x y Hx Hy. rewrite P2, P1 by assumption.
  destruct (R1 x y), (R2 x y); reflexivity.
Qed.

Lemma painted_point (x y color : Z) (pixels : list Z) :
  length pixels = Z.to_nat (SCREEN_WIDTH * SCREEN_HEIGHT) ->
  painted (fun px py => (px =? x) && (py =? y)) color pixels
    (r_drawpoint x y color pixels).
Proof.
  intros Hlen. split; [apply length_r_drawpoint|].
  intros px py Hpx Hpy. now apply r_drawpoint_lookup.
Qed.

(** A loop whose iterations paint regions paints their union. *)
Lemma painted_loop {A} (f : A -> list Z -> list Z) (R : A -> Z -> Z -> bool)
    (color : Z) (l : list A) :
  (forall i pixels, i ∈ l ->
     length pixels = Z.to_nat (SCREEN_WIDTH * SCREEN_HEIGHT) ->
     painted (R i) color pixels (f i pixels)) ->
  forall pixels,
    length pixels = Z.to_nat (SCREEN_WIDTH * SCREEN_HEIGHT) ->
    painted (fun x y => existsb (fun i => R i x y) l) color pixels
      (foldl (fun pixels i => f i pixels) pixels l).
Proof.
  induction l as [|i l IH]; intros Hf pixels Hlen; [apply painted_none|].
  cbn [foldl existsb].
  pose proof (Hf i pixels ltac:(left) Hlen) as Hi.
  eapply painted_then; [exact Hi|].
  apply IH.
  - intros j px Hj. apply Hf. now right.
  - destruct Hi as [-> _]. exact Hlen.
Qed.

(** The same for iterations that may fail. *)
Lemma painted_loop_option {A} (f : A -> list Z -> option (list Z))
    (R : A -> Z -> Z -> bool) (color : Z) (l : list A) :
  (forall i pixels, i ∈ l ->
     length pixels = Z.to_nat (SCREEN_WIDTH * SCREEN_HEIGHT) ->
     exists after, f i pixels = Some after /\ painted (R i) color pixels after) ->
  forall pixels,
    length pixels = Z.to_nat (SCREEN_WIDTH * SCREEN_HEIGHT) ->
    exists after,
      foldl (fun acc i => pixels ← acc; f i pixels) (Some pixels) l = Some after /\
      painted (fun x y => existsb (fun i => R i x y) l) color pixels after.
Proof.
  induction l as [|i l IH]; intros Hf pixels Hlen.
  { exists pixels. split; [reflexivity|apply painted_none]. }
  cbn [foldl existsb mbind option_bind].
  destruct (Hf i pixels ltac:(left) Hlen) as (mid & E & Hi). rewrite E.
  destruct (IH (fun j px Hj => Hf j px ltac:(now right)) mid) as (after & E' & Hl).
  { destruct Hi as [-> _]. exact Hlen. }
  exists after. split; [exact E'|]. eapply painted_then; eassumption.
Qed.

Lemma existsb_seqZ (f : Z -> bool) (m n : Z) :
  existsb f (seqZ m n) = true <-> exists k, m <= k < m + n /\ f k = true.
Proof.
  rewrite existsb_exists. split.
  - intros (k & Hk & Hf). exists k. split; [|exact Hf].
    apply list_elem_of_In, elem_of_seqZ in Hk. lia.
  - intros (k & Hk & Hf). exists k. split; [|exact Hf].
    apply list_elem_of_In, elem_of_seqZ. lia.
Qed.

(** The values [a + k] for [k] from 0 to [n - 1]. *)
Lemma existsb_offset (a v n : Z) :
  existsb (fun k => v =? a + k) (seqZ 0 n) = (a <=? v) && (v <? a + n).
Proof.
  apply Bool.eq_iff_eq_true. rewrite existsb_seqZ, andb_true_iff.
  rewrite Z.leb_le, Z.ltb_lt. split.
  - intros (k & Hk & E). apply Z.eqb_eq in E. lia.
  - intros H. exists (v - a). split; [lia|]. apply Z.eqb_eq. lia.
Qed.

(** * Squares, rows and columns *)

Lemma painted_points (pts : list (Z * Z)) (color : Z) (pixels : list Z) :
  length pixels = Z.to_nat (SCREEN_WIDTH * SCREEN_HEIGHT) ->
  painted (fun x y => existsb (fun p : Z * Z => (x =? p.1) && (y =? p.2)) pts) color
    pixels (foldl (fun px p => r_drawpoint p.1 p.2 color px) pixels pts).
Proof.
  intros Hlen.
  apply (painted_loop (fun (p : Z * Z) px => r_drawpoint p.1 p.2 color px)
           (fun (p : Z * Z) x y => (x =? p.1) && (y =? p.2))); [|exact Hlen].
  intros p px _ Hpx. now apply painted_point.
Qed.

Lemma in_int_small (z : Z) : - 2 ^ 31 <= z <= 2 ^ 31 - 1 -> in_int z.
Proof. unfold in_int, INT_MIN, INT_MAX. lia. Qed.

(** X2.  [r_drawplayer] paints the square of 9 by 9 pixels whose upper left
    corner is (x, y), as far as it lies on the screen, and nothing else. *)
Theorem r_drawplayer_square (x y color : Z) (pixels : list Z) :
  length pixels = Z.to_nat (SCREEN_WIDTH * SCREEN_HEIGHT) ->
  in_int x -> in_int y -> x + 8 <= INT_MAX -> y + 8 <= INT_MAX ->
  painted (in_square x y 8) color pixels (r_drawplayer x y color pixels).
Proof.
  intros Hlen Hx Hy Hx8 Hy8. unfold r_drawplayer.
  eapply painted_ext;
    [|apply (painted_loop
               (fun i px => foldl (fun px j =>
                              r_drawpoint (wrap_int (x + i)) (wrap_int (y + j)) color px)
                              px (seqZ 0 9))
               (fun i px py => (px =? x + i) && ((y <=? py) && (py <? y + 9))));
      [|exact Hlen]].
  - intros px py _ _. unfold in_square.
    apply Bool.eq_iff_eq_true. rewrite existsb_seqZ, !andb_true_iff.
    rewrite !Z.leb_le. split.
    + intros (i & Hi & E). rewrite !andb_true_iff, Z.eqb_eq, Z.leb_le, Z.ltb_lt in E. lia.
    + intros H. exists (px - x). split; [lia|].
      rewrite !andb_true_iff, Z.eqb_eq, Z.leb_le, Z.ltb_lt. lia.
  - intros i px Hi Hpx. apply elem_of_seqZ in Hi.
    eapply painted_ext;
      [|apply (painted_loop
                 (fun j px => r_drawpoint (wrap_int (x + i)) (wrap_int (y + j)) color px)
                 (fun j px py => (px =? x + i) && (py =? y + j)));
        [|exact Hpx]].
    + intros qx qy _ _. apply Bool.eq_iff_eq_true.
      rewrite existsb_seqZ, !andb_true_iff, Z.eqb_eq, Z.leb_le, Z.ltb_lt. split.
      * intros (j & Hj & E). rewrite andb_true_iff, !Z.eqb_eq in E. lia.
      * intros H. exists (qy - y). split; [lia|].
        rewrite andb_true_iff, !Z.eqb_eq. lia.
    + intros j qx Hj Hqx. apply elem_of_seqZ in Hj.
      rewrite !wrap_int_small by (unfold in_int, INT_MIN, INT_MAX in *; lia).
      now apply painted_point.
Qed.

Lemma r_drawplayer_square_witness :
  let pixels := replicate (Z.to_nat (SCREEN_WIDTH * SCREEN_HEIGHT)) 0 in
  painted (in_square 1020 (-3) 8) 0xffff0090 pixels
    (r_drawplayer 1020 (-3) 0xffff0090 pixels).
Proof.
  intros pixels.
  apply (r_drawplayer_square 1020 (-3) 0xffff0090 pixels).
  - apply length_replicate.
  - unfold in_int, INT_MIN, INT_MAX. lia.
  - unfold in_int, INT_MIN, INT_MAX. lia.
  - unfold INT_MAX. lia.
  - unfold INT_MAX. lia.
Defined.

(** A list of points on one row, given by its columns. *)
Lemma points_of_row (pts : list (Z * Z)) (xs : list Z) (y : Z) :
  pts.*1 = xs -> Forall (fun p : Z * Z => p.2 = y) pts -> pts = (fun x => (x, y)) <$> xs.
Proof.
  intros <- H. induction H as [|[px py] l Hp Hl IH]; [reflexivity|].
  cbn in *. subst py. now rewrite IH at 1.
Qed.

Lemma points_of_column (pts : list (Z * Z)) (ys : list Z) (x : Z) :
  pts.*2 = ys -> Forall (fun p : Z * Z => p.1 = x) pts -> pts = (fun y => (x, y)) <$> ys.
Proof.
  intros <- H. induction H as [|[px py] l Hp Hl IH]; [reflexivity|].
  cbn in *. subst px. now rewrite IH at 1.
Qed.

(** The horizontal line from (x0, y) to (x1, y), left to right. *)
Lemma r_drawline_row (fuel : nat) (x0 x1 y color : Z) (pixels : list Z) :
  length pixels = Z.to_nat (SCREEN_WIDTH * SCREEN_HEIGHT) ->
  in_int x0 -> in_int x1 -> in_int y -> x0 <= x1 -> x1 - x0 <= INT_MAX ->
  x1 - x0 < Z.of_nat fuel ->
  exists after,
    r_drawline fuel x0 y x1 y color pixels = Some after /\
    painted (fun px py => (py =? y) && (x0 <=? px) && (px <=? x1)) color pixels after.
Proof.
  intros Hlen Hx0 Hx1 Hy Hle Hd Hfuel.
  destruct (r_drawline_shape x0 y x1 y Hx0 Hy Hx1 Hy ltac:(unfold INT_MAX in *; lia))
    as (pts & Hrun & Hnear & Hxs & Hys).
  destruct (Hrun fuel ltac:(lia)) as [_ Hdraw].
  assert (Hrow : Forall (fun p : Z * Z => p.2 = y) pts).
  { eapply Forall_impl; [exact Hnear|]. intros p (_ & Hb & _). lia. }
  assert (Epts : pts = (fun x => (x, y)) <$> ((fun k => x0 + k) <$> seqZ 0 (x1 - x0 + 1))).
  { apply points_of_row; [|exact Hrow].
    destruct (Z.eq_dec x0 x1) as [<-|Hne].
    - specialize (Hys ltac:(lia)). replace (x0 - x0 + 1) with 1 by lia.
      replace (Z.abs (y - y) + 1) with 1 in Hys by lia.
      destruct pts as [|p [|q pts]]; try discriminate Hys.
      apply Forall_inv in Hnear as (Hb & _).
      change (seqZ 0 1) with [0]. cbn [fmap list_fmap]. f_equal. lia.
    - specialize (Hxs ltac:(lia)). rewrite Hxs.
      replace (x0 <? x1) with true by (symmetry; apply Z.ltb_lt; lia).
      replace (Z.abs (x1 - x0)) with (x1 - x0) by lia.
      apply list_fmap_ext. intros _ k _. lia. }
  exists (foldl (fun px p => r_drawpoint p.1 p.2 color px) pixels pts).
  split; [apply Hdraw|].
  eapply painted_ext; [|now apply painted_points].
  intros px py _ _. apply Bool.eq_iff_eq_true.
  rewrite existsb_exists, !andb_true_iff, Z.eqb_eq, !Z.leb_le. split.
  - intros (p & Hp & E). apply andb_true_iff in E as [E1 E2].
    apply Z.eqb_eq in E1, E2. apply list_elem_of_In in Hp.
    rewrite Epts in Hp. apply list_elem_of_fmap in Hp as (x & -> & Hx).
    apply list_elem_of_fmap in Hx as (k & -> & Hk). apply elem_of_seqZ in Hk.
    cbn in *. lia.
  - intros [[Ey H0] H1]. exists (px, py). split.
    + apply list_elem_of_In. rewrite Epts. apply list_elem_of_fmap.
      exists px. split; [now rewrite Ey|]. apply list_elem_of_fmap.
      exists (px - x0). split; [lia|]. apply elem_of_seqZ. lia.
    + cbn. now rewrite !Z.eqb_refl.
Qed.

(** The vertical line from (x, y0) to (x, y1), top to bottom. *)
Lemma r_drawline_column (fuel : nat) (x y0 y1 color : Z) (pixels : list Z) :
  length pixels = Z.to_nat (SCREEN_WIDTH * SCREEN_HEIGHT) ->
  in_int x -> in_int y0 -> in_int y1 -> y0 <= y1 -> y1 - y0 <= INT_MAX ->
  y1 - y0 < Z.of_nat fuel ->
  exists after,
    r_drawline fuel x y0 x y1 color pixels = Some after /\
    painted (fun px py => (px =? x) && (y0 <=? py) && (py <=? y1)) color pixels after.
Proof.
  intros Hlen Hx Hy0 Hy1 Hle Hd Hfuel.
  destruct (r_drawline_shape x y0 x y1 Hx Hy0 Hx Hy1 ltac:(unfold INT_MAX in *; lia))
    as (pts & Hrun & Hnear & Hxs & Hys).
  destruct (Hrun fuel ltac:(lia)) as [_ Hdraw].
  assert (Hcol : Forall (fun p : Z * Z => p.1 = x) pts).
  { eapply Forall_impl; [exact Hnear|]. intros p (Hb & _). lia. }
  assert (Epts : pts = (fun y => (x, y)) <$> ((fun k => y0 + k) <$> seqZ 0 (y1 - y0 + 1))).
  { apply points_of_column; [|exact Hcol].
    specialize (Hys ltac:(lia)). rewrite Hys.
    replace (Z.abs (y1 - y0)) with (y1 - y0) by lia.
    apply list_fmap_ext. intros i k Hk.
    apply list_elem_of_lookup_2, elem_of_seqZ in Hk.
    destruct (Z.ltb_spec y0 y1); lia. }
  exists (foldl (fun px p => r_drawpoint p.1 p.2 color px) pixels pts).
  split; [apply Hdraw|].
  eapply painted_ext; [|now apply painted_points].
  intros px py _ _. apply Bool.eq_iff_eq_true.
  rewrite existsb_exists, !andb_true_iff, Z.eqb_eq, !Z.leb_le. split.
  - intros (p & Hp & E). apply andb_true_iff in E as [E1 E2].
    apply Z.eqb_eq in E1, E2. apply list_elem_of_In in Hp.
    rewrite Epts in Hp. apply list_elem_of_fmap in Hp as (y & -> & Hy).
    apply list_elem_of_fmap in Hy as (k & -> & Hk). apply elem_of_seqZ in Hk.
    cbn in *. lia.
  - intros [[Ex H0] H1]. exists (px, py). split.
    + apply list_elem_of_In. rewrite Epts. apply list_elem_of_fmap.
      exists py. split; [now rewrite Ex|]. apply list_elem_of_fmap.
      exists (py - y0). split; [lia|]. apply elem_of_seqZ. lia.
    + cbn. now rewrite !Z.eqb_refl.
Qed.

(** * The 2D map view *)

Lemma r_drawrectangle_painted (fuel : nat) (x y size color : Z) (pixels : list Z) :
  length pixels = Z.to_nat (SCREEN_WIDTH * SCREEN_HEIGHT) ->
  in_int x -> in_int y -> size <= INT_MAX ->
  x + size <= INT_MAX -> y + size <= INT_MAX -> size < Z.of_nat fuel ->
  exists after,
    r_drawrectangle fuel x y size color pixels = Some after /\
    painted (in_square x y size) color pixels after.
Proof.
  intros Hlen Hx Hy Hs Hxs Hys Hfuel. unfold r_drawrectangle.
  destruct (painted_loop_option
              (fun i px => r_drawline fuel x (wrap_int (y + i)) (wrap_int (x + size))
                             (wrap_int (y + i)) color px)
              (fun i px py => (py =? y + i) && (x <=? px) && (px <=? x + size))
              color (seqZ 0 (size + 1))) with (pixels := pixels)
    as (after & E & Hp); [|exact Hlen|].
  - intros i px Hi Hpx. apply elem_of_seqZ in Hi.
    rewrite !wrap_int_small by (unfold in_int, INT_MIN, INT_MAX in *; lia).
    apply r_drawline_row; try done; unfold in_int, INT_MIN, INT_MAX in *; lia.
  - exists after. split; [exact E|].
    eapply painted_ext; [|exact Hp].
    intros px py _ _. unfold in_square. apply Bool.eq_iff_eq_true.
    rewrite existsb_seqZ, !andb_true_iff, !Z.leb_le. split.
    + intros (i & Hi & H). rewrite !andb_true_iff, Z.eqb_eq, !Z.leb_le in H. lia.
    + intros H. exists (py - y). split; [lia|].
      rewrite !andb_true_iff, Z.eqb_eq, !Z.leb_le. lia.
Qed.



Lemma foldl_option_bind {A} (g : A -> list Z -> option (list Z)) (l : list A)
    (acc : option (list Z)) :
  foldl (fun acc j => pixels ← acc; g j pixels) acc l
  = pixels ← acc; foldl (fun acc j => pixels ← acc; g j pixels) (Some pixels) l.
Proof.
  destruct acc as [pixels|]; [reflexivity|].
  induction l as [|j l IH]; [reflexivity|exact IH].
Qed.

Lemma foldl_ext_in {A B} (f g : A -> B -> A) (l : list B) (a : A) :
  (forall a b, b ∈ l -> f a b = g a b) -> foldl f a l = foldl g a l.
Proof.
  revert a. induction l as [|b l IH]; intros a H; [reflexivity|].
  cbn [foldl]. rewrite H by left. apply IH. intros a' b' Hb. apply H. now right.
Qed.

(** The region painted by the wall cells. *)
Lemma wall_cells_painted (fuel : nat) (pixels : list Z) :
  length pixels = Z.to_nat (SCREEN_WIDTH * SCREEN_HEIGHT) ->
  (64 < fuel)%nat ->
  exists after,
    foldl (fun acc i =>
             foldl (fun acc j =>
                      pixels ← acc;
                      if cell_at Level.map (wrap_int (i + wrap_int (j * MAPX))) >? 0
                      then r_drawrectangle fuel (wrap_int (i * MAP_CELL_SIZE))
                             (wrap_int (j * MAP_CELL_SIZE)) MAP_CELL_SIZE 0xff888888 pixels
                      else Some pixels)
                   acc (seqZ 0 MAPY))
          (Some pixels) (seqZ 0 MAPX) = Some after /\
    painted (fun x y =>
               existsb (fun i =>
                 existsb (fun j =>
                   (cell_at Level.map (i + j * MAPX) >? 0) &&
                   in_square (i * MAP_CELL_SIZE) (j * MAP_CELL_SIZE) MAP_CELL_SIZE x y)
                   (seqZ 0 MAPY)) (seqZ 0 MAPX))
      0xff888888 pixels after.
Proof.
  intros Hlen Hfuel.
  set (cell := fun i j px =>
         if cell_at Level.map (wrap_int (i + wrap_int (j * MAPX))) >? 0
         then r_drawrectangle fuel (wrap_int (i * MAP_CELL_SIZE))
                (wrap_int (j * MAP_CELL_SIZE)) MAP_CELL_SIZE 0xff888888 px
         else Some px).
  set (R := fun i j x y =>
         (cell_at Level.map (i + j * MAPX) >? 0) &&
         in_square (i * MAP_CELL_SIZE) (j * MAP_CELL_SIZE) MAP_CELL_SIZE x y).
  assert (Hcell : forall i j px, 0 <= i < MAPX -> 0 <= j < MAPY ->
            length px = Z.to_nat (SCREEN_WIDTH * SCREEN_HEIGHT) ->
            exists after, cell i j px = Some after /\
                          painted (R i j) 0xff888888 px after).
  { intros i j px Hi Hj Hpx. unfold cell, R. unfold MAPX, MAPY, MAP_CELL_SIZE in *.
    rewrite (wrap_int_small (j * 8)) by (unfold in_int, INT_MIN, INT_MAX; lia).
    rewrite !wrap_int_small by (unfold in_int, INT_MIN, INT_MAX; lia).
    destruct (cell_at Level.map (i + j * 8) >? 0); cbn [andb].
    - apply r_drawrectangle_painted; try done;
        unfold in_int, INT_MIN, INT_MAX; lia.
    - exists px. split; [reflexivity|apply painted_none]. }
  rewrite (foldl_ext_in _ (fun acc i => px ← acc;
             foldl (fun acc j => px ← acc; cell i j px) (Some px) (seqZ 0 MAPY)))
    by (intros acc i _; apply foldl_option_bind).
  apply (painted_loop_option
           (fun i px => foldl (fun acc j => px ← acc; cell i j px) (Some px) (seqZ 0 MAPY))
           (fun i x y => existsb (fun j => R i j x y) (seqZ 0 MAPY)));
    [|exact Hlen].
  intros i px Hi Hpx. apply elem_of_seqZ in Hi.
  apply (painted_loop_option (cell i) (R i)); [|exact Hpx].
  intros j qx Hj Hqx. apply elem_of_seqZ in Hj. apply Hcell; try done; lia.
Qed.

Lemma elem_of_grid_lines (i : Z) :
  i ∈ grid_lines 8 <-> exists k, 0 <= k <= 8 /\ i = 64 * k.
Proof.
  unfold grid_lines. rewrite list_elem_of_fmap. split.
  - intros (k & -> & Hk). apply elem_of_seqZ in Hk. exists k. split; [lia|].
    unfold MAP_CELL_SIZE.
    rewrite wrap_int_small by (unfold in_int, INT_MIN, INT_MAX; lia). lia.
  - intros (k & Hk & ->). exists k. split; [|apply elem_of_seqZ; lia].
    unfold MAP_CELL_SIZE.
    rewrite wrap_int_small by (unfold in_int, INT_MIN, INT_MAX; lia). lia.
Qed.

Lemma existsb_grid_lines (f : Z -> bool) :
  existsb f (grid_lines 8) = true <-> exists k, 0 <= k <= 8 /\ f (64 * k) = true.
Proof.
  rewrite existsb_exists. split.
  - intros (i & Hi & Hf). apply list_elem_of_In, elem_of_grid_lines in Hi as (k & Hk & ->).
    now exists k.
  - intros (k & Hk & Hf). exists (64 * k). split; [|exact Hf].
    apply list_elem_of_In, elem_of_grid_lines. now exists k.
Qed.

Ltac bool_iff :=
  apply Bool.eq_iff_eq_true;
  repeat first [rewrite orb_true_iff | rewrite andb_true_iff | rewrite Z.eqb_eq
               | rewrite Z.leb_le | rewrite Z.ltb_lt | rewrite Z.gtb_lt ].

Lemma wall_cells_region (x y : Z) :
  0 <= x < 1024 -> 0 <= y < 512 -> on_grid x y = false ->
  existsb (fun i =>
    existsb (fun j =>
      (cell_at Level.map (i + j * MAPX) >? 0) &&
      in_square (i * MAP_CELL_SIZE) (j * MAP_CELL_SIZE) MAP_CELL_SIZE x y)
      (seqZ 0 MAPY)) (seqZ 0 MAPX)
  = wall_pixel x y.
Proof.
  intros Hx Hy Hg. apply Bool.eq_iff_eq_true. rewrite existsb_seqZ.
  unfold wall_pixel, on_grid in *. unfold MAPX, MAPY, MAP_CELL_SIZE in *.
  apply not_true_iff_false in Hg.
  rewrite !andb_true_iff, orb_true_iff, !Z.leb_le, !Z.eqb_eq in Hg.
  rewrite !andb_true_iff, !Z.ltb_lt, Z.gtb_lt.
  assert (Hin : x <= 512 ->
                x mod 64 <> 0 /\ y mod 64 <> 0) by (intros; split; intros E; apply Hg; lia).
  clear Hg. split.
  - intros (i & Hi & H). apply existsb_seqZ in H as (j & Hj & H).
    unfold in_square in H.
    rewrite !andb_true_iff, !Z.leb_le, Z.gtb_lt in H.
    destruct H as [Hw [[[H1 H2] H3] H4]].
    specialize (Hin ltac:(lia)). destruct Hin as [Hmx Hmy].
    assert (Ei : i = x / 64).
    { clear - Hi H1 H2 Hmx Hx. Z.div_mod_to_equations. lia. }
    assert (Ej : j = y / 64).
    { clear - Hj H3 H4 Hmy Hy. Z.div_mod_to_equations. lia. }
    subst i j. split.
    + clear - Hi Hj Hx Hy H1 H2 H3 H4 Hmx Hmy. Z.div_mod_to_equations. lia.
    + replace (y / 64 * 8 + x / 64) with (x / 64 + y / 64 * 8) by apply Z.add_comm.
      exact Hw.
  - intros [[Hx5 Hy5] Hw]. exists (x / 64).
    split; [clear - Hx Hx5; Z.div_mod_to_equations; lia|].
    apply existsb_seqZ. exists (y / 64).
    split; [clear - Hy Hy5; Z.div_mod_to_equations; lia|].
    unfold in_square.
    rewrite !andb_true_iff, !Z.leb_le, Z.gtb_lt.
    split; [|clear - Hx Hy Hx5 Hy5; Z.div_mod_to_equations; lia].
    replace (x / 64 + y / 64 * 8) with (y / 64 * 8 + x / 64) by apply Z.add_comm.
    exact Hw.
Qed.

(** X4.  [r_drawlevel] draws the 2D map: in the square of 513 by 513 pixels
    at the upper left corner of the screen every pixel whose column or row is
    a multiple of 64 is black; every other pixel of a wall cell is grey
    (0xff888888); every other pixel of the screen is left as it was. *)
Theorem r_drawlevel_image (fuel : nat) (pixels : list Z) :
  length pixels = Z.to_nat (SCREEN_WIDTH * SCREEN_HEIGHT) ->
  (MAPX * MAP_CELL_SIZE < Z.of_nat fuel) ->
  exists after,
    r_drawlevel fuel pixels = Some after /\
    length after = length pixels /\
    forall x y : Z, 0 <= x < SCREEN_WIDTH -> 0 <= y < SCREEN_HEIGHT ->
      after !! pixel_index x y
      = if on_grid x y then Some 0xFF000000
        else if wall_pixel x y then Some 0xff888888
        else pixels !! pixel_index x y.
Proof.
  intros Hlen Hfuel. unfold MAPX, MAP_CELL_SIZE in Hfuel. unfold r_drawlevel.
  destruct (wall_cells_painted fuel pixels Hlen ltac:(lia)) as (p1 & E1 & [L1 P1]).
  rewrite E1. cbn [mbind option_bind].
  assert (Hl1 : length p1 = Z.to_nat (SCREEN_WIDTH * SCREEN_HEIGHT))
    by (rewrite L1; exact Hlen).
  change (wrap_int (MAPX * MAP_CELL_SIZE)) with 512.
  change (wrap_int (MAPY * MAP_CELL_SIZE)) with 512.
  change (grid_lines MAPY) with (grid_lines 8).
  change (grid_lines MAPX) with (grid_lines 8).
  assert (Hline : forall i, i ∈ grid_lines 8 -> 0 <= i <= 512).
  { intros i Hi. apply elem_of_grid_lines in Hi as (k & Hk & ->). lia. }
  destruct (painted_loop_option
              (fun i px => r_drawline fuel 0 i 512 i 0xFF000000 px)
              (fun i px py => (py =? i) && (0 <=? px) && (px <=? 512))
              0xFF000000 (grid_lines 8)) with (pixels := p1)
    as (p2 & E2 & [L2 P2]); [|exact Hl1|].
  { intros i px Hi Hpx. apply Hline in Hi.
    apply r_drawline_row; try done; unfold in_int, INT_MIN, INT_MAX; lia. }
  rewrite E2. cbn [mbind option_bind].
  assert (Hl2 : length p2 = Z.to_nat (SCREEN_WIDTH * SCREEN_HEIGHT))
    by (rewrite L2; exact Hl1).
  destruct (painted_loop_option
              (fun i px => r_drawline fuel i 0 i 512 0xFF000000 px)
              (fun i px py => (px =? i) && (0 <=? py) && (py <=? 512))
              0xFF000000 (grid_lines 8)) with (pixels := p2)
    as (p3 & E3 & [L3 P3]); [|exact Hl2|].
  { intros i px Hi Hpx. apply Hline in Hi.
    apply r_drawline_column; try done; unfold in_int, INT_MIN, INT_MAX; lia. }
  exists p3. split; [exact E3|]. split; [now rewrite L3, L2, L1|].
  intros x y Hx Hy. rewrite P3, P2, P1 by assumption.
  unfold SCREEN_WIDTH, SCREEN_HEIGHT in Hx, Hy.
  match goal with
  | |- (if ?c then _ else if ?r then _ else if ?g then _ else _) = _ =>
      set (C := c); set (Rw := r); set (G := g)
  end.
  assert (Hlines : C || Rw = on_grid x y).
  { unfold C, Rw, on_grid, MAPX, MAPY, MAP_CELL_SIZE.
    apply Bool.eq_iff_eq_true.
    rewrite orb_true_iff, !existsb_grid_lines, !andb_true_iff, orb_true_iff.
    rewrite !Z.leb_le, !Z.eqb_eq. split.
    - intros [(k & Hk & H)|(k & Hk & H)];
        rewrite !andb_true_iff, Z.eqb_eq, !Z.leb_le in H;
        Z.div_mod_to_equations; lia.
    - intros [[Hx5 Hy5] [Hm|Hm]].
      + left. exists (x / 64). split; [Z.div_mod_to_equations; lia|].
        rewrite !andb_true_iff, Z.eqb_eq, !Z.leb_le. Z.div_mod_to_equations. lia.
      + right. exists (y / 64). split; [Z.div_mod_to_equations; lia|].
        rewrite !andb_true_iff, Z.eqb_eq, !Z.leb_le. Z.div_mod_to_equations. lia. }
  assert (Hcells : on_grid x y = false -> G = wall_pixel x y)
    by (intros Hg; now apply wall_cells_region).
  clearbody C Rw G. rewrite <- Hlines in *.
  destruct C, Rw; cbn [orb] in *; try reflexivity.
  now rewrite Hcells.
Qed.

Lemma r_drawlevel_image_witness :
  let pixels := replicate (Z.to_nat (SCREEN_WIDTH * SCREEN_HEIGHT)) 0xBBBBBBBB in
  exists after,
    r_drawlevel 513 pixels = Some after /\
    after !! pixel_index 64 100 = Some 0xFF000000 /\
    after !! pixel_index 30 30 = Some 0xff888888 /\
    after !! pixel_index 100 100 = Some 0xBBBBBBBB /\
    after !! pixel_index 600 100 = Some 0xBBBBBBBB.
Proof.
  intros pixels.
  destruct (r_drawlevel_image 513 pixels) as (after & E & _ & H).
  - apply length_replicate.
  - unfold MAPX, MAP_CELL_SIZE. lia.
  - exists after. split; [exact E|].
    assert (Hp : forall x y, 0 <= x < SCREEN_WIDTH -> 0 <= y < SCREEN_HEIGHT ->
              pixels !! pixel_index x y = Some 0xBBBBBBBB).
    { intros x y Hx Hy. apply lookup_replicate_2. now apply pixel_index_lt. }
    unfold SCREEN_WIDTH, SCREEN_HEIGHT in *.
    repeat split.
    + now rewrite (H 64 100) by lia.
    + now rewrite (H 30 30) by lia.
    + rewrite (H 100 100) by lia. apply (Hp 100 100); lia.
    + rewrite (H 600 100) by lia. apply (Hp 600 100); lia.
Defined.

(** * The HUD *)

(** A [for] loop over [m, m + n) that keeps an invariant. *)
Lemma foldl_seqZ_inv {St} (f : option St -> Z -> option St) (I : Z -> St -> Prop)
    (m : Z) (n : nat) :
  (forall i s, m <= i < m + Z.of_nat n -> I i s ->
     exists s', f (Some s) i = Some s' /\ I (i + 1) s') ->
  forall s, I m s ->
    exists s', foldl f (Some s) (seqZ m (Z.of_nat n)) = Some s' /\ I (m + Z.of_nat n) s'.
Proof.
  revert m. induction n as [|n IH]; intros m Hstep s Hs.
  { exists s. split; [reflexivity|]. now rewrite Z.add_0_r. }
  replace (Z.of_nat (S n)) with (Z.succ (Z.of_nat n)) by lia.
  rewrite seqZ_cons by lia. cbn [foldl].
  destruct (Hstep m s ltac:(lia) Hs) as (s1 & E1 & H1). rewrite E1.
  replace (Z.pred (Z.succ (Z.of_nat n))) with (Z.of_nat n) by lia.
  destruct (IH (Z.succ m)) with (s := s1) as (s2 & E2 & H2).
  - intros i s' Hi. apply Hstep. lia.
  - now replace (Z.succ m) with (m + 1) by lia.
  - exists s2. split; [exact E2|].
    now replace (m + Z.succ (Z.of_nat n)) with (Z.succ m + Z.of_nat n) by lia.
Qed.

Section Blit.
Variables (image : list Z) (key : option Z) (x0 y0 w h : Z) (pixels : list Z).
Hypothesis Hlen : length pixels = Z.to_nat (SCREEN_WIDTH * SCREEN_HEIGHT).
Hypothesis Hx0 : 0 <= x0.
Hypothesis Hy0 : 0 <= y0.
Hypothesis Hw : 0 <= w.
Hypothesis Hh : 0 <= h.
Hypothesis Hright : x0 + w <= SCREEN_WIDTH.
Hypothesis Hbottom : y0 + h <= SCREEN_HEIGHT.
Hypothesis Himage : w * h <= Z.of_nat (length image).
Hypothesis Hcount : w * h <= INT_MAX.

(** The cells of the image copied before the cell (x, y). *)
Let copied (x y cx cy : Z) : bool := (cy <? y) || (cy =? y) && (cx <? x).

Let Inv (x y : Z) (st : list Z * Z) : Prop :=
  st.2 = y * w + x /\ length st.1 = length pixels /\
  forall sx sy : Z, 0 <= sx < SCREEN_WIDTH -> 0 <= sy < SCREEN_HEIGHT ->
    st.1 !! pixel_index sx sy
    = if copied x y (sx - x0) (sy - y0)
      then overlay image key x0 y0 w h sx sy (pixels !! pixel_index sx sy)
      else pixels !! pixel_index sx sy.

Let body (y : Z) (acc : option (list Z * Z)) (x : Z) : option (list Z * Z) :=
  '(pixels, n) ← acc;
  c ← array_get image n;
  if bool_decide (key = Some c) then Some (pixels, wrap_int (n + 1))
  else
    pixels ← store (wrap_int (wrap_int (wrap_int (1024 * y0 + x0)
                                         + wrap_int (y * 1024)) + x)) c pixels;
    Some (pixels, wrap_int (n + 1)).

Lemma copied_ext (b b' : bool) (sx sy : Z) (under : option Z) :
  (in_box x0 y0 w h sx sy = true -> b = b') ->
  (if b then overlay image key x0 y0 w h sx sy under else under)
  = (if b' then overlay image key x0 y0 w h sx sy under else under).
Proof.
  intros H. destruct (in_box x0 y0 w h sx sy) eqn:Eb; [now rewrite H|].
  unfold overlay. rewrite Eb. now destruct b, b'.
Qed.

Lemma blit_cell (x y : Z) (st : list Z * Z) :
  0 <= x < w -> 0 <= y < h -> Inv x y st ->
  exists st', body y (Some st) x = Some st' /\ Inv (x + 1) y st'.
Proof.
  intros Hx Hy (En & Hl & Hp). destruct st as [px n]. cbn [fst snd] in *.
  unfold body. cbn [mbind option_bind].
  unfold SCREEN_WIDTH, SCREEN_HEIGHT in *.
  assert (Hn : 0 <= n < w * h) by nia.
  unfold array_get. replace (n <? 0) with false by (symmetry; apply Z.ltb_ge; lia).
  destruct (image !! Z.to_nat n) as [c|] eqn:Ec.
  2:{ apply lookup_ge_None in Ec. lia. }
  cbn [mbind option_bind].
  rewrite (wrap_int_small (n + 1)) by (unfold in_int, INT_MIN, INT_MAX in *; lia).
  assert (Ecell : forall sx sy, copied (x + 1) y (sx - x0) (sy - y0)
            = copied x y (sx - x0) (sy - y0) || ((sx =? x0 + x) && (sy =? y0 + y))).
  { intros sx sy. unfold copied. bool_iff. lia. }
  assert (Ehere : image !! Z.to_nat ((y0 + y - y0) * w + (x0 + x - x0)) = Some c).
  { rewrite <- Ec. do 2 f_equal. lia. }
  assert (Hbox : in_box x0 y0 w h (x0 + x) (y0 + y) = true).
  { unfold in_box. bool_iff. lia. }
  assert (Hnot : copied x y (x0 + x - x0) (y0 + y - y0) = false).
  { apply not_true_is_false. unfold copied.
    rewrite orb_true_iff, andb_true_iff, !Z.ltb_lt. lia. }
  destruct (bool_decide (key = Some c)) eqn:Ek.
  - eexists. split; [reflexivity|]. split; [cbn; lia|]. split; [exact Hl|].
    cbn [fst]. intros sx sy Hsx Hsy. rewrite Ecell, (Hp sx sy Hsx Hsy).
    destruct (Z.eqb_spec sx (x0 + x)) as [->|Hne]; [|now rewrite andb_false_l, orb_false_r].
    destruct (Z.eqb_spec sy (y0 + y)) as [->|Hne]; [|now rewrite andb_false_r, orb_false_r].
    rewrite Hnot. cbn [andb orb]. unfold overlay. rewrite Hbox, Ehere, Ek. reflexivity.
  - rewrite (wrap_int_small (1024 * y0 + x0))
      by (unfold in_int, INT_MIN, INT_MAX; lia).
    rewrite (wrap_int_small (y * 1024)) by (unfold in_int, INT_MIN, INT_MAX; lia).
    rewrite (wrap_int_small (1024 * y0 + x0 + y * 1024))
      by (unfold in_int, INT_MIN, INT_MAX; lia).
    rewrite (wrap_int_small (1024 * y0 + x0 + y * 1024 + x))
      by (unfold in_int, INT_MIN, INT_MAX; lia).
    unfold store.
    replace ((0 <=? 1024 * y0 + x0 + y * 1024 + x)
             && (1024 * y0 + x0 + y * 1024 + x <? Z.of_nat (length px))) with true
      by (symmetry; bool_iff; rewrite Hl, Hlen; lia).
    cbn [mbind option_bind].
    eexists. split; [reflexivity|]. split; [cbn; lia|].
    split; [cbn [fst]; now rewrite length_insert|].
    cbn [fst]. intros sx sy Hsx Hsy. rewrite Ecell.
    replace (Z.to_nat (1024 * y0 + x0 + y * 1024 + x))
      with (pixel_index (x0 + x) (y0 + y))
      by (unfold pixel_index, SCREEN_WIDTH; lia).
    destruct (Z.eqb_spec sx (x0 + x)) as [->|Hne].
    + destruct (Z.eqb_spec sy (y0 + y)) as [->|Hne].
      * rewrite orb_true_r. rewrite list_lookup_insert_eq
          by (rewrite Hl, Hlen; apply pixel_index_lt;
              unfold SCREEN_WIDTH, SCREEN_HEIGHT; lia).
        unfold overlay. now rewrite Hbox, Ehere, Ek.
      * rewrite andb_false_r, orb_false_r.
        rewrite list_lookup_insert_ne; [now apply Hp|].
        intros E. apply pixel_index_injective in E;
          unfold SCREEN_WIDTH, SCREEN_HEIGHT; lia.
    + rewrite andb_false_l, orb_false_r.
      rewrite list_lookup_insert_ne; [now apply Hp|].
      intros E. apply pixel_index_injective in E;
        unfold SCREEN_WIDTH, SCREEN_HEIGHT; lia.
Qed.

Lemma blit_row (y : Z) (st : list Z * Z) :
  0 <= y < h -> Inv 0 y st ->
  exists st', foldl (body y) (Some st) (seqZ 0 w) = Some st' /\ Inv 0 (y + 1) st'.
Proof.
  intros Hy Hst.
  destruct (foldl_seqZ_inv (body y) (fun x => Inv x y) 0 (Z.to_nat w)) with (s := st)
    as (st' & E & (En & Hl & Hp)).
  - intros x s Hx. apply blit_cell; lia.
  - exact Hst.
  - rewrite Z2Nat.id in * by lia. exists st'. split; [exact E|].
    split; [lia|]. split; [exact Hl|].
    intros sx sy Hsx Hsy. rewrite (Hp sx sy Hsx Hsy).
    apply copied_ext. intros Hb. unfold in_box in Hb. unfold copied.
    rewrite !andb_true_iff, !Z.leb_le, !Z.ltb_lt in Hb.
    apply Bool.eq_iff_eq_true.
    rewrite !orb_true_iff, !andb_true_iff, !Z.ltb_lt, !Z.eqb_eq. lia.
Qed.

Lemma blit_image :
  exists after,
    blit image key (1024 * y0 + x0) w h pixels = Some after /\
    length after = length pixels /\
    forall x y : Z, 0 <= x < SCREEN_WIDTH -> 0 <= y < SCREEN_HEIGHT ->
      after !! pixel_index x y
      = overlay image key x0 y0 w h x y (pixels !! pixel_index x y).
Proof.
  unfold blit.
  destruct (foldl_seqZ_inv
              (fun acc y => foldl (body y) acc (seqZ 0 w))
              (fun y => Inv 0 y) 0 (Z.to_nat h)) with (s := (pixels, 0))
    as (st' & E & (En & Hl & Hp)).
  - intros y s Hy. apply blit_row. lia.
  - split; [cbn; lia|]. split; [reflexivity|].
    intros sx sy Hsx Hsy. cbn [fst].
    apply (copied_ext false (copied 0 0 (sx - x0) (sy - y0)) sx sy). intros Hb. unfold in_box in Hb. unfold copied.
    rewrite !andb_true_iff, !Z.leb_le, !Z.ltb_lt in Hb.
    symmetry. apply not_true_is_false.
    rewrite !orb_true_iff, !andb_true_iff, !Z.ltb_lt, !Z.eqb_eq. lia.
  - rewrite Z2Nat.id in * by lia.
    change (wrap_int (1024 * y0 + x0)) with (wrap_int (1024 * y0 + x0)) in E.
    exists st'.1. split.
    + unfold body in E. rewrite <- (wrap_int_small (1024 * y0 + x0))
        by (unfold in_int, INT_MIN, INT_MAX, SCREEN_WIDTH, SCREEN_HEIGHT in *; lia).
      rewrite E. reflexivity.
    + split; [exact Hl|]. intros x y Hx Hy. rewrite (Hp x y Hx Hy).
      apply (copied_ext (copied 0 (0 + h) (x - x0) (y - y0)) true x y). intros Hb. unfold in_box in Hb. unfold copied.
      rewrite !andb_true_iff, !Z.leb_le, !Z.ltb_lt in Hb.
      rewrite !orb_true_iff, !andb_true_iff, !Z.ltb_lt, !Z.eqb_eq. lia.
Qed.
End Blit.

(** X5.  [r_draw_hud] stores only inside the framebuffer, provided the
    [pistol] array holds the 122 by 131 pixels and the [hud] array the 142
    by 38 pixels that are read.  Afterwards the screen shows the [hud] image
    at (882, 474), the [pistol] image at (732, 381) except for its pixels of
    colour 0xFFFF00FF, the two lines of the crosshair in 0xFF45FF17, and is
    unchanged elsewhere. *)
Theorem r_draw_hud_image (pistol hud : list Z) (fuel : nat) (pixels : list Z) :
  length pixels = Z.to_nat (SCREEN_WIDTH * SCREEN_HEIGHT) ->
  122 * 131 <= Z.of_nat (length pistol) ->
  142 * 38 <= Z.of_nat (length hud) ->
  (10 < fuel)%nat ->
  exists after,
    r_draw_hud pistol hud fuel pixels = Some after /\
    length after = length pixels /\
    forall x y : Z, 0 <= x < SCREEN_WIDTH -> 0 <= y < SCREEN_HEIGHT ->
      after !! pixel_index x y
      = overlay hud None 882 474 142 38 x y
          (overlay pistol (Some 0xFFFF00FF) 732 381 122 131 x y
             (if crosshair x y then Some 0xFF45FF17 else pixels !! pixel_index x y)).
Proof.
  intros Hlen Hpistol Hhud Hfuel. unfold r_draw_hud.
  destruct (r_drawline_row fuel 763 773 256 0xFF45FF17 pixels Hlen)
    as (p1 & E1 & [L1 P1]); try (unfold in_int, INT_MIN, INT_MAX; lia).
  rewrite E1. cbn [mbind option_bind].
  assert (Hl1 : length p1 = Z.to_nat (SCREEN_WIDTH * SCREEN_HEIGHT))
    by (rewrite L1; exact Hlen).
  destruct (r_drawline_column fuel 768 251 261 0xFF45FF17 p1 Hl1)
    as (p2 & E2 & [L2 P2]); try (unfold in_int, INT_MIN, INT_MAX; lia).
  rewrite E2. cbn [mbind option_bind].
  assert (Hl2 : length p2 = Z.to_nat (SCREEN_WIDTH * SCREEN_HEIGHT))
    by (rewrite L2; exact Hl1).
  change 390876 with (1024 * 381 + 732).
  destruct (blit_image pistol (Some 0xFFFF00FF) 732 381 122 131 p2 Hl2)
    as (p3 & E3 & L3 & P3);
    try (unfold SCREEN_WIDTH, SCREEN_HEIGHT, INT_MAX; lia).
  rewrite E3. cbn [mbind option_bind].
  assert (Hl3 : length p3 = Z.to_nat (SCREEN_WIDTH * SCREEN_HEIGHT))
    by (rewrite L3; exact Hl2).
  change 486258 with (1024 * 474 + 882).
  destruct (blit_image hud None 882 474 142 38 p3 Hl3)
    as (p4 & E4 & L4 & P4);
    try (unfold SCREEN_WIDTH, SCREEN_HEIGHT, INT_MAX; lia).
  exists p4. split; [exact E4|]. split; [now rewrite L4, L3, L2, L1|].
  intros x y Hx Hy. rewrite P4, P3, P2, P1 by assumption.
  do 2 f_equal. unfold crosshair.
  destruct ((y =? 256) && (763 <=? x) && (x <=? 773));
    destruct ((x =? 768) && (251 <=? y) && (y <=? 261)); reflexivity.
Qed.

Lemma r_draw_hud_image_witness :
  let pixels := replicate (Z.to_nat (SCREEN_WIDTH * SCREEN_HEIGHT)) 0xBBBBBBBB in
  let pistol := replicate (Z.to_nat (122 * 131)) 0xFFFF00FF in
  let hud := replicate (Z.to_nat (142 * 38)) 0xFF102030 in
  exists after,
    r_draw_hud pistol hud 11 pixels = Some after /\
    length after = length pixels.
Proof.
  intros pixels pistol hud.
  destruct (r_draw_hud_image pistol hud 11 pixels) as (after & E & L & _).
  - apply length_replicate.
  - unfold pistol. rewrite length_replicate. lia.
  - unfold hud. rewrite length_replicate. lia.
  - lia.
  - exists after. split; [exact E|exact L].
Defined.

Local Abbreviation v64 := (val F64.prec F64.emax).
Local Abbreviation f64 := (fin F64.prec F64.emax).
Local Abbreviation U64 := (unit_val F64.prec F64.emax).

(** * Keyboard input *)

(** ** Values of [double] numbers *)


Lemma F64_prec_emax : F64.prec < F64.emax.
Proof. reflexivity. Qed.

(** Replaces the value of a [double] constant by its numeral. *)
Ltac v64_const c :=
  let n := eval vm_compute in (v64 c) in
  change (v64 c) with n in *.

Lemma F64_add_bracket (x y lo hi : spec_float) :
  f64 x = true -> f64 y = true -> f64 lo = true -> f64 hi = true ->
  v64 lo <= v64 x + v64 y <= v64 hi ->
  f64 (F64.add x y) = true /\ v64 lo <= v64 (F64.add x y) <= v64 hi.
Proof. apply (SFadd_bracket F64.prec F64.emax F64_prec_pos F64_prec_emax). Qed.

Lemma F64_sub_bracket (x y lo hi : spec_float) :
  f64 x = true -> f64 y = true -> f64 lo = true -> f64 hi = true ->
  v64 lo <= v64 x - v64 y <= v64 hi ->
  f64 (F64.sub x y) = true /\ v64 lo <= v64 (F64.sub x y) <= v64 hi.
Proof. apply (SFsub_bracket F64.prec F64.emax F64_prec_pos F64_prec_emax). Qed.

Lemma F64_mul_bracket (x y lo hi : spec_float) :
  f64 x = true -> f64 y = true -> f64 lo = true -> f64 hi = true ->
  v64 lo * U64 <= v64 x * v64 y <= v64 hi * U64 ->
  f64 (F64.mul x y) = true /\ v64 lo <= v64 (F64.mul x y) <= v64 hi.
Proof. apply (SFmul_bracket F64.prec F64.emax F64_prec_pos F64_prec_emax). Qed.

(** The promotion of a [float] is exact. *)
Lemma F64_of_f32_val (x : spec_float) :
  f32 x = true ->
  f64 (F64.of_f32 x) = true /\ v64 (F64.of_f32 x) = v32 x * 2 ^ 925.
Proof.
  intros Fx. destruct x as [s| | |s m e]; try discriminate.
  { split; reflexivity. }
  destruct (F64_of_f32_finite s m e Fx) as (M & p & -> & Hp & EM & HbM).
  split; [exact HbM|].
  pose proof (bounded_digits F32.prec F32.emax m e Fx) as (He & _).
  pose proof (bounded_digits F64.prec F64.emax M (e - p) HbM) as (He' & _).
  change (emin F32.prec F32.emax) with (-149) in He.
  change (emin F64.prec F64.emax) with (-1074) in He'.
  rewrite !val_finite.
  change (emin F32.prec F32.emax) with (-149).
  change (emin F64.prec F64.emax) with (-1074).
  rewrite EM.
  replace (e - -149) with (e + 149) by lia.
  replace (e - p - -1074) with (e + 149 + 925 - p) by lia.
  assert (E : 2 ^ p * 2 ^ (e + 149 + 925 - p) = 2 ^ (e + 149) * 2 ^ 925).
  { rewrite <- !Z.pow_add_r by lia. f_equal. lia. }
  destruct s; cbn [cond_Zopp]; nia.
Qed.

(** The rounding to [float] of a number between two [float]s, given with
    any exponent. *)
Lemma F32_normalize_bracket (z e k : Z) (szero : bool) (lo hi : spec_float) :
  0 <= k -> 0 <= e + 149 + k -> f32 lo = true -> f32 hi = true ->
  v32 lo * 2 ^ k <= z * 2 ^ (e + 149 + k) <= v32 hi * 2 ^ k ->
  f32 (binary_normalize F32.prec F32.emax z e szero) = true /\
  v32 lo <= v32 (binary_normalize F32.prec F32.emax z e szero) <= v32 hi.
Proof.
  intros Hk He Flo Fhi Hb.
  assert (Hpk : 0 < 2 ^ k) by (apply Z.pow_pos_nonneg; lia).
  assert (Hworks : forall (s : bool) (m : positive),
    v32 lo * 2 ^ k <= cond_Zopp s (Zpos m) * 2 ^ (e + 149 + k) <= v32 hi * 2 ^ k ->
    f32 (binary_round F32.prec F32.emax s m e) = true /\
    v32 lo <= v32 (binary_round F32.prec F32.emax s m e) <= v32 hi).
  { intros s m Hm. rewrite binary_round_rnd.
    set (p := pad_of F32.prec F32.emax (Z.pos m) e).
    assert (Hp : 0 <= p) by (unfold p, pad_of; lia).
    assert (Hpp : 0 < 2 ^ p) by (apply Z.pow_pos_nonneg; lia).
    apply (rnd_bracket F32.prec F32.emax F32_prec_pos F32_prec_emax _ _ _ _ (p + k) lo hi);
      try done; try lia.
    - apply fine_pad. lia.
    - change (emin F32.prec F32.emax) with (-149). lia.
    - change (emin F32.prec F32.emax) with (-149).
      replace (e - p - -149 + (p + k)) with (e + 149 + k) by lia.
      rewrite Z.pow_add_r by lia.
      destruct s; cbn [cond_Zopp] in *; nia. }
  destruct z as [|m|m]; cbn [binary_normalize].
  - cbn. split; [reflexivity|]. cbn in Hb. nia.
  - now apply (Hworks false).
  - now apply (Hworks true).
Qed.

(** The conversion to [float] of a [double] between two [float]s. *)
Lemma F64_to_f32_bracket (x lo hi : spec_float) :
  f64 x = true -> f32 lo = true -> f32 hi = true ->
  v32 lo * 2 ^ 925 <= v64 x <= v32 hi * 2 ^ 925 ->
  f32 (F64.to_f32 x) = true /\ v32 lo <= v32 (F64.to_f32 x) <= v32 hi.
Proof.
  intros Fx Flo Fhi Hb. destruct x as [s| | |s m e]; try discriminate.
  { cbn in *. split; [reflexivity|lia]. }
  pose proof (bounded_digits F64.prec F64.emax m e Fx) as (He & _).
  change (emin F64.prec F64.emax) with (-1074) in He.
  rewrite val_finite in Hb. change (emin F64.prec F64.emax) with (-1074) in Hb.
  unfold F64.to_f32.
  apply (F32_normalize_bracket _ e 925); try done; try lia.
  replace (e + 149 + 925) with (e - -1074) by lia.
  destruct s; cbn [cond_Zopp] in *; lia.
Qed.

(** ** Angles *)

Lemma m_fix_ang_bounds (a : spec_float) :
  f32 a = true -> - (360 * U32) <= v32 a <= 719 * U32 ->
  f32 (m_fix_ang a) = true /\ 0 <= v32 (m_fix_ang a) <= 360 * U32 /\
  (0 <= v32 a <= 359 * U32 -> m_fix_ang a = a).
Proof.
  intros Fa Ha. unfold m_fix_ang.
  assert (HU : U32 = 2 ^ 149) by reflexivity.
  assert (F0 : f32 (F32.of_int 0) = true) by reflexivity.
  assert (F359 : f32 (F32.of_int 359) = true) by reflexivity.
  assert (F360 : f32 (F32.of_int 360) = true) by reflexivity.
  assert (Fm1 : f32 (F32.of_int (-1)) = true) by reflexivity.
  rewrite (F32_ltb_val (F32.of_int 359) a) by done.
  destruct (Z.ltb_spec (v32 (F32.of_int 359)) (v32 a)) as [Hbig|Hsmall].
  - destruct (F32_sub_bracket a (F32.of_int 360) (F32.of_int (-1)) (F32.of_int 359))
      as [F1 H1]; try done.
    { revert Hbig. v32_const (F32.of_int 359). v32_const (F32.of_int 360).
      v32_const (F32.of_int (-1)). rewrite HU in Ha. lia. }
    rewrite (F32_ltb_val _ (F32.of_int 0)) by done.
    destruct (Z.ltb_spec (v32 (F32.sub a (F32.of_int 360))) (v32 (F32.of_int 0)))
      as [Hneg|Hpos].
    + destruct (F32_add_bracket (F32.sub a (F32.of_int 360)) (F32.of_int 360)
                  (F32.of_int 359) (F32.of_int 360)) as [F2 H2]; try done.
      { revert Hneg H1. v32_const (F32.of_int 359). v32_const (F32.of_int 360).
        v32_const (F32.of_int (-1)). v32_const (F32.of_int 0). lia. }
      split; [exact F2|]. revert Hbig H2.
      v32_const (F32.of_int 359). v32_const (F32.of_int 360). rewrite HU.
      intros Hbig H2. split; [lia|intros H; exfalso; lia].
    + split; [exact F1|]. revert Hbig Hpos H1.
      v32_const (F32.of_int 359). v32_const (F32.of_int 0). rewrite HU.
      intros Hbig Hpos H1. split; [lia|intros H; exfalso; lia].
  - rewrite (F32_ltb_val a (F32.of_int 0)) by done.
    destruct (Z.ltb_spec (v32 a) (v32 (F32.of_int 0))) as [Hneg|Hpos].
    + destruct (F32_add_bracket a (F32.of_int 360) (F32.of_int 0) (F32.of_int 360))
        as [F2 H2]; try done.
      { revert Hneg. v32_const (F32.of_int 360). v32_const (F32.of_int 0).
        rewrite HU in Ha. lia. }
      split; [exact F2|]. revert Hneg H2.
      v32_const (F32.of_int 360). v32_const (F32.of_int 0). rewrite HU.
      intros Hneg H2. split; [lia|intros H; exfalso; lia].
    + split; [exact Fa|]. revert Hsmall Hpos.
      v32_const (F32.of_int 359). v32_const (F32.of_int 0). rewrite HU.
      intros Hsmall Hpos. split; [lia|reflexivity].
Qed.

(** X6.  [m_fix_ang] maps a finite angle between -360 and 719 to an angle
    between 0 and 360, both included, and leaves an angle between 0 and 359
    as it is. *)
Theorem m_fix_ang_range (a : spec_float) :
  fin F32.prec F32.emax a = true ->
  - (360 * unit_val F32.prec F32.emax) <= val F32.prec F32.emax a
    <= 719 * unit_val F32.prec F32.emax ->
  fin F32.prec F32.emax (m_fix_ang a) = true /\
  0 <= val F32.prec F32.emax (m_fix_ang a) <= 360 * unit_val F32.prec F32.emax /\
  (0 <= val F32.prec F32.emax a <= 359 * unit_val F32.prec F32.emax ->
   m_fix_ang a = a).
Proof. apply m_fix_ang_bounds. Qed.

(** The bound 360 is met: a negative angle of small size is rounded to 360
    when 360 is added. *)
Lemma m_fix_ang_range_witness :
  let a := F32.div (F32.of_int (-1)) (F32.of_int 1048576) in
  0 <= val F32.prec F32.emax (m_fix_ang a) <= 360 * unit_val F32.prec F32.emax /\
  m_fix_ang a = F32.of_int 360.
Proof.
  intros a. split; [|vm_compute; reflexivity].
  apply (m_fix_ang_range a).
  - reflexivity.
  - vm_compute. split; discriminate.
Defined.

Section Turn.
Variables cos sin : spec_float -> spec_float.

Lemma turn_angle (left : bool) (player : Player.t) :
  f32 (Player.angle player) = true ->
  0 <= v32 (Player.angle player) <= 360 * U32 ->
  f32 (Player.angle (turn cos sin left player)) = true /\
  0 <= v32 (Player.angle (turn cos sin left player)) <= 360 * U32.
Proof.
  intros Fa Ha. unfold turn. cbn [Player.angle].
  assert (HU : U32 = 2 ^ 149) by reflexivity.
  destruct (F64_of_f32_val _ Fa) as [Fd Vd].
  assert (Fc : f64 (lit64 18 10) = true) by reflexivity.
  set (d := F64.of_f32 (Player.angle player)) in *.
  assert (H : f32 (F64.to_f32 ((if left then F64.add else F64.sub) d (lit64 18 10))) = true /\
              - (2 * U32) <= v32 (F64.to_f32 ((if left then F64.add else F64.sub)
                                               d (lit64 18 10))) <= 362 * U32).
  { destruct left.
    - destruct (F64_add_bracket d (lit64 18 10) (F64.of_int 0) (F64.of_int 362))
        as [F1 H1]; try done.
      { rewrite Vd. v64_const (lit64 18 10). v64_const (F64.of_int 0).
        v64_const (F64.of_int 362). rewrite HU in Ha. lia. }
      destruct (F64_to_f32_bracket (F64.add d (lit64 18 10)) (F32.of_int 0)
                  (F32.of_int 362)) as [F2 H2]; try done.
      split; [exact F2|]. revert H2.
      v32_const (F32.of_int 0). v32_const (F32.of_int 362). rewrite HU. lia.
    - destruct (F64_sub_bracket d (lit64 18 10) (F64.of_int (-2)) (F64.of_int 360))
        as [F1 H1]; try done.
      { rewrite Vd. v64_const (lit64 18 10). v64_const (F64.of_int (-2)).
        v64_const (F64.of_int 360). rewrite HU in Ha. lia. }
      destruct (F64_to_f32_bracket (F64.sub d (lit64 18 10)) (F32.of_int (-2))
                  (F32.of_int 360)) as [F2 H2]; try done.
      split; [exact F2|]. revert H2.
      v32_const (F32.of_int (-2)). v32_const (F32.of_int 360). rewrite HU. lia. }
  destruct H as [F1 H1].
  destruct (m_fix_ang_bounds _ F1 ltac:(lia)) as (F2 & H2 & _). done.
Qed.
End Turn.

(** X7.  A rotation key keeps the angle of the player between 0 and 360,
    both included, whatever [cos] and [sin] return. *)
Theorem turn_keeps_angle (cos sin : spec_float -> spec_float) (left : bool)
    (player : Player.t) :
  fin F32.prec F32.emax (Player.angle player) = true ->
  0 <= val F32.prec F32.emax (Player.angle player)
    <= 360 * unit_val F32.prec F32.emax ->
  fin F32.prec F32.emax (Player.angle (turn cos sin left player)) = true /\
  0 <= val F32.prec F32.emax (Player.angle (turn cos sin left player))
    <= 360 * unit_val F32.prec F32.emax.
Proof. apply turn_angle. Qed.

Lemma turn_keeps_angle_witness :
  0 <= val F32.prec F32.emax
         (Player.angle (turn cos_series sin_series true initial_player))
    <= 360 * unit_val F32.prec F32.emax.
Proof.
  apply (turn_keeps_angle cos_series sin_series true initial_player).
  - reflexivity.
  - vm_compute. split; discriminate.
Defined.

(** ** Movement *)

Lemma check_collision_cells (x y : spec_float) (c : bool) :
  check_collision x y = Some c ->
  exists i j, cell_of x = Some i /\ cell_of y = Some j /\
              (c = false -> 0 <= i < MAPX /\ 0 <= j < MAPY).
Proof.
  unfold check_collision. destruct (cell_of x) as [i|]; [|discriminate].
  destruct (cell_of y) as [j|]; [|discriminate]. cbn [mbind option_bind].
  intros H. exists i, j. split; [reflexivity|]. split; [reflexivity|].
  intros ->. destruct (_ || _) eqn:E; [discriminate|].
  rewrite !orb_false_iff in E. lia.
Qed.

Lemma check_collision_defined (x y : spec_float) (i j : Z) :
  cell_of x = Some i -> cell_of y = Some j ->
  exists c, check_collision x y = Some c.
Proof.
  intros Ex Ey. unfold check_collision. rewrite Ex, Ey. cbn [mbind option_bind].
  destruct (_ || _); [eexists; reflexivity|].
  destruct (_ >? _); [eexists; reflexivity|].
  destruct (_ && _); eexists; reflexivity.
Qed.

(** The greatest [float]. *)
Lemma f32_size (x : spec_float) :
  f32 x = true -> Z.abs (v32 x) <= (2 ^ 24 - 1) * 2 ^ 253.
Proof.
  destruct x as [s| | |s m e]; intros Fx; try discriminate Fx; [cbn; lia|].
  pose proof (bounded_digits F32.prec F32.emax m e Fx) as (He & Hd & _).
  change (emin F32.prec F32.emax) with (-149) in He. unfold F32.prec in Hd.
  assert (Hm : Zpos m < 2 ^ 24).
  { pose proof (Zdigits2_bounds (Zpos m) ltac:(lia)) as [_ Hlt].
    eapply Z.lt_le_trans; [exact Hlt|]. apply Z.pow_le_mono_r; lia. }
  assert (He' : e <= 104).
  { unfold fin, bounded in Fx. apply andb_true_iff in Fx as [_ Fx].
    apply Z.leb_le in Fx. exact Fx. }
  rewrite val_finite. change (emin F32.prec F32.emax) with (-149).
  assert (Hp : 0 < 2 ^ (e - -149) <= 2 ^ 253).
  { split; [apply Z.pow_pos_nonneg; lia|apply Z.pow_le_mono_r; lia]. }
  destruct s; cbn [cond_Zopp]; nia.
Qed.

(** Replaces a closed integer expression by its numeral. *)
Ltac z_const e :=
  let n := eval vm_compute in e in
  change e with n in *.

(** A finite coordinate whose cell lies in the grid. *)
Lemma cell_of_bounds (x : spec_float) (a : Z) :
  f32 x = true -> cell_of x = Some a -> 0 <= a < 8 ->
  - U32 <= v32 x < 512 * U32.
Proof.
  intros Fx Ea Ha. assert (HU : U32 = 2 ^ 149) by reflexivity.
  destruct (Z.le_gt_cases (Z.abs (v32 x)) (2 ^ 36 * U32)) as [Hs|Hb].
  { apply (cell_in_grid x a); try done. lia. }
  exfalso. pose proof (f32_size x Fx) as Hx. rewrite HU in Hb.
  z_const ((2 ^ 24 - 1) * 2 ^ 253). z_const (2 ^ 36 * 2 ^ 149). z_const (2 ^ 149).
  set (top := S754_finite false 16777215 104).
  assert (Ftop : f32 top = true) by reflexivity.
  assert (Fbot : f32 (SFopp top) = true) by reflexivity.
  assert (F64c : f32 (F32.of_int MAP_CELL_SIZE) = true) by reflexivity.
  assert (Fp : f32 (F32.of_int (2 ^ 30)) = true) by reflexivity.
  assert (Fn : f32 (F32.of_int (- 2 ^ 30)) = true) by reflexivity.
  unfold cell_of, int_of_floor in Ea.
  destruct (Z.le_gt_cases 0 (v32 x)) as [Hpos|Hneg].
  - destruct (F32_div_bracket x (F32.of_int MAP_CELL_SIZE) (F32.of_int (2 ^ 30)) top)
      as [Fq Hq]; try done.
    { intros _. v32_const (F32.of_int MAP_CELL_SIZE). v32_const (F32.of_int (2 ^ 30)).
      v32_const top. rewrite HU. lia. }
    rewrite floor_Z_val in Ea by done. revert Hq Ea.
    v32_const (F32.of_int (2 ^ 30)). rewrite HU. intros Hq.
    destruct (_ && _); [|discriminate]. intros [= <-].
    change (binary_round F32.prec F32.emax false 64 0)
      with (F32.of_int MAP_CELL_SIZE) in *.
    match type of Ha with
    | context [?q / ?d] =>
        assert (1073741824 <= q / d) by (apply Z.div_le_lower_bound; lia)
    end.
    lia.
  - destruct (F32_div_bracket x (F32.of_int MAP_CELL_SIZE) (SFopp top)
                (F32.of_int (- 2 ^ 30))) as [Fq Hq]; try done.
    { intros _. v32_const (F32.of_int MAP_CELL_SIZE). v32_const (F32.of_int (- 2 ^ 30)).
      v32_const (SFopp top). rewrite HU. lia. }
    rewrite floor_Z_val in Ea by done. revert Hq Ea.
    v32_const (F32.of_int (- 2 ^ 30)). rewrite HU. intros Hq.
    destruct (_ && _); [|discriminate]. intros [= <-].
    change (binary_round F32.prec F32.emax false 64 0)
      with (F32.of_int MAP_CELL_SIZE) in *.
    match type of Ha with
    | context [?q / ?d] =>
        assert (q / d < 0) by (apply Z.div_lt_upper_bound; lia)
    end.
    lia.
Qed.

Lemma standing_bounds (x y : spec_float) :
  f32 x = true -> f32 y = true -> check_collision x y = Some false ->
  - U32 <= v32 x < 512 * U32 /\ - U32 <= v32 y < 512 * U32.
Proof.
  intros Fx Fy H. apply check_collision_cells in H as (i & j & Ei & Ej & Hr).
  specialize (Hr eq_refl). unfold MAPX, MAPY in Hr.
  split; [apply (cell_of_bounds x i)|apply (cell_of_bounds y j)]; tauto.
Qed.

(** The new coordinate [c + d * 2.5] or [c - d * 2.5]. *)
Lemma step_bounds (forward : bool) (c d : spec_float) :
  f32 c = true -> f32 d = true ->
  - U32 <= v32 c < 512 * U32 -> Z.abs (v32 d) <= U32 ->
  let new := F64.to_f32 ((if forward then F64.add else F64.sub) (F64.of_f32 c)
                           (F64.mul (F64.of_f32 d) (lit64 25 10))) in
  f32 new = true /\ - (4 * U32) <= v32 new <= 515 * U32.
Proof.
  intros Fc Fd Hc Hd new. assert (HU : U32 = 2 ^ 149) by reflexivity.
  destruct (F64_of_f32_val c Fc) as [Fc' Vc].
  destruct (F64_of_f32_val d Fd) as [Fd' Vd].
  assert (F25 : f64 (lit64 25 10) = true) by reflexivity.
  destruct (F64_mul_bracket (F64.of_f32 d) (lit64 25 10) (F64.of_int (-3)) (F64.of_int 3))
    as [Fp Hp]; try done.
  { rewrite Vd. v64_const (lit64 25 10). v64_const (F64.of_int (-3)).
    v64_const (F64.of_int 3). change (U64) with (2 ^ 1074). rewrite HU in *.
    change (2 ^ 1074) with (2 ^ 149 * 2 ^ 925). nia. }
  set (p := F64.mul (F64.of_f32 d) (lit64 25 10)) in *.
  revert Hp. v64_const (F64.of_int (-3)). v64_const (F64.of_int 3). intros Hp.
  assert (H : f64 ((if forward then F64.add else F64.sub) (F64.of_f32 c) p) = true /\
              v64 (F64.of_int (-4))
              <= v64 ((if forward then F64.add else F64.sub) (F64.of_f32 c) p)
              <= v64 (F64.of_int 515)).
  { destruct forward.
    - apply F64_add_bracket; try done. rewrite Vc.
      v64_const (F64.of_int (-4)). v64_const (F64.of_int 515). rewrite HU in *. lia.
    - apply F64_sub_bracket; try done. rewrite Vc.
      v64_const (F64.of_int (-4)). v64_const (F64.of_int 515). rewrite HU in *. lia. }
  destruct H as [Fs Hs].
  destruct (F64_to_f32_bracket _ (F32.of_int (-4)) (F32.of_int 515) Fs eq_refl eq_refl Hs)
    as [Fn Hn].
  unfold new. split; [exact Fn|]. revert Hn.
  v32_const (F32.of_int (-4)). v32_const (F32.of_int 515). rewrite HU. lia.
Qed.

Lemma cell_of_defined (x : spec_float) :
  f32 x = true -> - (4 * U32) <= v32 x <= 515 * U32 -> exists a, cell_of x = Some a.
Proof.
  intros Fx Hx. assert (HU : U32 = 2 ^ 149) by reflexivity.
  destruct (cell_of_spec x Fx ltac:(rewrite HU in *; lia)) as (a & Ea & _).
  now exists a.
Qed.

Lemma move_sane (forward : bool) (player : Player.t) :
  sane player -> exists player', move forward player = Some player' /\ sane player'.
Proof.
  intros (Fx & Fy & Hst & Fdx & Fdy & Hdx & Hdy & Fa & Ha).
  assert (HU : U32 = 2 ^ 149) by reflexivity.
  destruct (standing_bounds _ _ Fx Fy Hst) as [Hx Hy].
  destruct (step_bounds forward _ _ Fx Fdx Hx Hdx) as [Fnx Hnx].
  destruct (step_bounds forward _ _ Fy Fdy Hy Hdy) as [Fny Hny].
  cbv zeta in Fnx, Hnx, Fny, Hny.
  unfold move. cbv zeta.
  set (new_x := F64.to_f32 ((if forward then F64.add else F64.sub)
                              (F64.of_f32 (Player.x player))
                              (F64.mul (F64.of_f32 (Player.dx player)) (lit64 25 10)))) in *.
  set (new_y := F64.to_f32 ((if forward then F64.add else F64.sub)
                              (F64.of_f32 (Player.y player))
                              (F64.mul (F64.of_f32 (Player.dy player)) (lit64 25 10)))) in *.
  destruct (cell_of_defined new_x Fnx Hnx) as (i' & Ei').
  destruct (cell_of_defined new_y Fny Hny) as (j' & Ej').
  destruct (cell_of_defined (Player.x player) Fx ltac:(rewrite HU in *; lia)) as (i & Ei).
  destruct (cell_of_defined (Player.y player) Fy ltac:(rewrite HU in *; lia)) as (j & Ej).
  destruct (check_collision_defined new_x (Player.y player) i' j Ei' Ej) as (cx & Ecx).
  rewrite Ecx. cbn [mbind option_bind].
  set (x' := if cx then Player.x player else new_x).
  assert (Fx' : f32 x' = true) by (unfold x'; now destruct cx).
  assert (Ex' : exists a, cell_of x' = Some a)
    by (unfold x'; destruct cx; eauto).
  destruct Ex' as (a & Ex').
  assert (Hst' : check_collision x' (Player.y player) = Some false)
    by (unfold x'; now destruct cx).
  destruct (check_collision_defined x' new_y a j' Ex' Ej') as (cy & Ecy).
  rewrite Ecy. cbn [mbind option_bind].
  eexists. split; [reflexivity|].
  unfold sane, standing. cbn [Player.x Player.y Player.dx Player.dy Player.angle].
  split; [exact Fx'|]. split; [now destruct cy|].
  split; [now destruct cy|]. done.
Qed.

Section Keys.
Variables cos sin : spec_float -> spec_float.
Hypothesis cos_range :
  forall a, f64 (cos a) = true /\ Z.abs (v64 (cos a)) <= U64.
Hypothesis sin_range :
  forall a, f64 (sin a) = true /\ Z.abs (v64 (sin a)) <= U64.

Lemma direction_range (d : spec_float) :
  f64 d = true -> Z.abs (v64 d) <= U64 ->
  f32 (F64.to_f32 d) = true /\ Z.abs (v32 (F64.to_f32 d)) <= U32.
Proof.
  intros Fd Hd.
  destruct (F64_to_f32_bracket d (F32.of_int (-1)) (F32.of_int 1) Fd) as [Fr Hr];
    try done.
  { v32_const (F32.of_int (-1)). v32_const (F32.of_int 1).
    change U64 with (2 ^ 149 * 2 ^ 925) in Hd. lia. }
  split; [exact Fr|]. revert Hr.
  v32_const (F32.of_int (-1)). v32_const (F32.of_int 1).
  change U32 with (2 ^ 149). lia.
Qed.

Lemma turn_sane (left : bool) (player : Player.t) :
  sane player -> sane (turn cos sin left player).
Proof.
  intros (Fx & Fy & Hst & Fdx & Fdy & Hdx & Hdy & Fa & Ha).
  destruct (turn_angle cos sin left player Fa Ha) as [Fa' Ha'].
  unfold sane, standing.
  split; [exact Fx|]. split; [exact Fy|]. split; [exact Hst|].
  unfold turn in *. cbn [Player.x Player.y Player.dx Player.dy Player.angle] in *.
  set (rad := F64.of_f32 _).
  destruct (cos_range rad) as [Fc Hc]. destruct (sin_range rad) as [Fs Hs].
  destruct (direction_range (cos rad) Fc Hc) as [F1 H1].
  destruct (direction_range (SFopp (sin rad))) as [F2 H2].
  { now rewrite fin_opp. }
  { rewrite val_opp. lia. }
  done.
Qed.

Lemma process_keys_sane (left right up down : bool) (player : Player.t) :
  sane player ->
  exists player', process_keys cos sin left right up down player = Some player' /\
                  sane player'.
Proof.
  intros Hs. unfold process_keys. cbv zeta.
  set (p1 := if left then turn cos sin true player else player).
  assert (H1 : sane p1) by (unfold p1; destruct left; [now apply turn_sane|done]).
  set (p2 := if right then turn cos sin false p1 else p1).
  assert (H2 : sane p2) by (unfold p2; destruct right; [now apply turn_sane|done]).
  assert (H3 : exists p3, (if up then move true p2 else Some p2) = Some p3 /\ sane p3)
    by (destruct up; [now apply move_sane|now exists p2]).
  destruct H3 as (p3 & -> & H3). cbn [mbind option_bind].
  destruct down; [now apply move_sane|now exists p3].
Qed.

Lemma run_keys_sane (frames : list (bool * bool * bool * bool)) (player : Player.t) :
  sane player ->
  exists player', run_keys cos sin frames player = Some player' /\ sane player'.
Proof.
  unfold run_keys. revert player.
  induction frames as [|[[[l r] u] d] frames IH]; intros player Hs.
  { now exists player. }
  cbn [foldl mbind option_bind].
  destruct (process_keys_sane l r u d player Hs) as (p1 & -> & H1).
  now apply IH.
Qed.
End Keys.

Lemma move_standing (forward : bool) (player player' : Player.t) :
  standing player -> move forward player = Some player' -> standing player'.
Proof.
  unfold standing, move. cbv zeta. intros Hst H.
  set (new_x := F64.to_f32 ((if forward then F64.add else F64.sub)
                              (F64.of_f32 (Player.x player))
                              (F64.mul (F64.of_f32 (Player.dx player)) (lit64 25 10)))) in *.
  set (new_y := F64.to_f32 ((if forward then F64.add else F64.sub)
                              (F64.of_f32 (Player.y player))
                              (F64.mul (F64.of_f32 (Player.dy player)) (lit64 25 10)))) in *.
  destruct (check_collision new_x (Player.y player)) as [cx|] eqn:Ex;
    [|discriminate H].
  cbn [mbind option_bind] in H.
  destruct (check_collision (if cx then Player.x player else new_x) new_y)
    as [cy|] eqn:Ey; [|discriminate H].
  cbn [mbind option_bind] in H. injection H as <-. cbn [Player.x Player.y].
  destruct cy; [|exact Ey]. destruct cx; [exact Hst|exact Ex].
Qed.

Lemma process_keys_standing (cos sin : spec_float -> spec_float)
    (left right up down : bool) (player player' : Player.t) :
  standing player -> process_keys cos sin left right up down player = Some player' ->
  standing player'.
Proof.
  intros Hst. unfold process_keys. cbv zeta.
  set (p1 := if left then turn cos sin true player else player).
  assert (H1 : standing p1) by (unfold p1; now destruct left).
  set (p2 := if right then turn cos sin false p1 else p1).
  assert (H2 : standing p2) by (unfold p2; now destruct right).
  clearbody p2. clear p1 H1 Hst.
  destruct up.
  - destruct (move true p2) as [p3|] eqn:E3; [|discriminate].
    cbn [mbind option_bind]. apply move_standing in E3; [|exact H2].
    destruct down; [now apply move_standing|intros [= E]; now subst player'].
  - cbn [mbind option_bind].
    destruct down; [now apply move_standing|intros [= E]; now subst player'].
Qed.

(** X8.  Whatever keys are held in a sequence of frames and whatever [cos]
    and [sin] return, a player that stands where [check_collision] finds no
    obstacle still does after the frames: the movement never enters a wall,
    a blocking sprite or the outside of the map. *)
Theorem run_keys_standing (cos sin : spec_float -> spec_float)
    (frames : list (bool * bool * bool * bool)) (player player' : Player.t) :
  standing player -> run_keys cos sin frames player = Some player' ->
  standing player'.
Proof.
  unfold run_keys. revert player.
  induction frames as [|[[[l r] u] d] frames IH]; intros player Hst.
  { intros [= E]. now subst player'. }
  cbn [foldl mbind option_bind].
  destruct (process_keys cos sin l r u d player) as [p1|] eqn:E1.
  - apply IH. now apply (process_keys_standing cos sin l r u d player).
  - intros H. exfalso. revert H. clear. induction frames as [|[[[l r] u] d] frames IH];
      [discriminate|exact IH].
Qed.

Lemma run_keys_standing_witness :
  exists player' : Player.t,
    run_keys cos_series sin_series [(true, false, true, false); (false, false, true, false)]
      initial_player = Some player' /\
    standing player'.
Proof.
  assert (exists player' : Player.t,
            run_keys cos_series sin_series
              [(true, false, true, false); (false, false, true, false)]
              initial_player = Some player') as [player' E]
    by (eexists; vm_compute; reflexivity).
  exists player'. split; [exact E|].
  apply (run_keys_standing cos_series sin_series
           [(true, false, true, false); (false, false, true, false)]
           initial_player player');
    [vm_compute; reflexivity|exact E].
Defined.

(** X9.  If [cos] and [sin] return finite numbers between -1 and 1, then for
    every sequence of key states [process_inputs] converts no number outside
    the range of [int], and a player with a finite position in a free cell,
    a direction with components between -1 and 1 and an angle between 0 and
    360 keeps these properties. *)
Theorem run_keys_defined (cos sin : spec_float -> spec_float)
    (frames : list (bool * bool * bool * bool)) (player : Player.t) :
  (forall a, fin F64.prec F64.emax (cos a) = true /\
             Z.abs (val F64.prec F64.emax (cos a)) <= unit_val F64.prec F64.emax) ->
  (forall a, fin F64.prec F64.emax (sin a) = true /\
             Z.abs (val F64.prec F64.emax (sin a)) <= unit_val F64.prec F64.emax) ->
  sane player ->
  exists player', run_keys cos sin frames player = Some player' /\ sane player'.
Proof. intros Hcos Hsin. now apply run_keys_sane. Qed.

Lemma run_keys_defined_witness :
  exists player' : Player.t,
    run_keys (fun _ => F64.of_int 1) (fun _ => F64.of_int 0)
      [(true, false, true, false); (false, true, false, true)] initial_player
    = Some player' /\
    sane player'.
Proof.
  apply (run_keys_defined (fun _ => F64.of_int 1) (fun _ => F64.of_int 0)).
  - intros _. split; [reflexivity|]. vm_compute. discriminate.
  - intros _. split; [reflexivity|]. vm_compute. discriminate.
  - unfold sane, standing.
    repeat split; try reflexivity; vm_compute; discriminate.
Defined.

(** * Shading and the rows of a wall slice *)

(** ** Numbers that need no rounding *)

Lemma F32_round_exact (s : bool) (m : positive) (e : Z) :
  Zpos m < 2 ^ 24 -> -149 <= e <= 104 ->
  f32 (binary_round F32.prec F32.emax s m e) = true /\
  v32 (binary_round F32.prec F32.emax s m e)
  = cond_Zopp s (Zpos m) * 2 ^ (e + 149).
Proof.
  intros Hm He.
  set (p := pad_of F32.prec F32.emax (Zpos m) e).
  assert (Hd : 0 < Zdigits2 (Zpos m) <= 24).
  { pose proof (Zdigits2_bounds (Zpos m) ltac:(lia)) as [Hlo _].
    split; [cbn; lia|].
    destruct (Z.le_gt_cases (Zdigits2 (Zpos m)) 24) as [|Hgt]; [done|].
    assert (2 ^ 24 <= 2 ^ (Zdigits2 (Zpos m) - 1))
      by (apply Z.pow_le_mono_r; lia).
    lia. }
  assert (Hp : 0 <= p /\ -149 <= e - p).
  { unfold p, pad_of, fexp, emin, F32.prec, F32.emax. clear - He Hd. lia. }
  assert (Hpos : 0 < Zpos m * 2 ^ p)
    by (apply Z.mul_pos_pos; [lia|apply Z.pow_pos_nonneg; lia]).
  destruct (Zpos m * 2 ^ p) as [|M|M] eqn:EM; try lia.
  assert (HbM : bounded F32.prec F32.emax M (e - p) = true).
  { unfold bounded, canonical_mantissa. apply andb_true_intro.
    change (Z.pos (digits2_pos M)) with (Zdigits2 (Zpos M)).
    rewrite <- EM, Zdigits2_shift by lia.
    revert Hd. unfold p, pad_of, fexp, emin, F32.prec, F32.emax.
    intros Hd. split; [apply Z.eqb_eq|apply Z.leb_le]; clear - He Hd; lia. }
  rewrite binary_round_rnd. fold p. rewrite EM.
  rewrite rnd_canonical by exact HbM.
  split; [exact HbM|].
  rewrite val_finite. change (emin F32.prec F32.emax) with (-149).
  rewrite <- EM.
  replace (e + 149) with (p + (e - p - -149)) by lia.
  rewrite Z.pow_add_r by lia.
  destruct s; cbn [cond_Zopp]; lia.
Qed.

Lemma F32_normalize_exact (z e : Z) (szero : bool) :
  Z.abs z < 2 ^ 24 -> -149 <= e <= 104 ->
  f32 (binary_normalize F32.prec F32.emax z e szero) = true /\
  v32 (binary_normalize F32.prec F32.emax z e szero) = z * 2 ^ (e + 149).
Proof.
  intros Hz He. destruct z as [|m|m]; cbn [binary_normalize].
  - split; reflexivity.
  - apply (F32_round_exact false m e); lia.
  - apply (F32_round_exact true m e); lia.
Qed.

(** [(float) z] is the integer [z] itself as long as it has at most 24
    binary digits. *)
Lemma F32_of_int_exact (z : Z) :
  Z.abs z < 2 ^ 24 ->
  f32 (F32.of_int z) = true /\ v32 (F32.of_int z) = z * U32.
Proof. intros Hz. apply (F32_normalize_exact z 0 false); lia. Qed.

(** Truncation of a number that is not negative. *)
Lemma trunc_Z_val (x : spec_float) :
  f32 x = true -> 0 <= v32 x -> trunc_Z x = Some (v32 x / U32).
Proof.
  intros Fx Hx. pose proof (floor_Z_val x Fx) as Hf.
  destruct x as [s| | |s m e]; try discriminate; [reflexivity|].
  destruct s; [|exact Hf].
  rewrite val_finite in Hx. cbn [cond_Zopp] in Hx.
  assert (0 < Zpos m * 2 ^ (e - emin F32.prec F32.emax)); [|lia].
  apply Z.mul_pos_pos; [lia|]. apply Z.pow_pos_nonneg; [lia|].
  pose proof (bounded_digits F32.prec F32.emax m e Fx). lia.
Qed.

(** ** Shading never brightens *)

(** A colour channel multiplied with a factor between zero and one. *)
Lemma scale_channel_le (c : Z) (dark : spec_float) :
  0 <= c <= 255 -> f32 dark = true -> 0 <= v32 dark <= U32 ->
  exists c', scale_channel c dark = Some c' /\ 0 <= c' <= c /\
             (v32 dark = U32 -> c' = c).
Proof.
  intros Hc Fd Hd.
  destruct (F32_of_int_exact c) as [Fc Vc]; [lia|].
  assert (HU : 0 < U32) by (rewrite U32_eq; lia).
  destruct (F32_mul_bracket (F32.of_int c) dark (S754_zero false) (F32.of_int c))
    as [Fp Hp]; try done.
  { rewrite Vc. change (v32 (S754_zero false)) with 0. nia. }
  change (v32 (S754_zero false)) with 0 in Hp. rewrite Vc in Hp.
  exists (v32 (F32.mul (F32.of_int c) dark) / U32).
  assert (Hq : 0 <= v32 (F32.mul (F32.of_int c) dark) / U32 <= c).
  { split; [apply Z.div_pos; lia|apply Z.div_le_upper_bound; lia]. }
  split; [|split; [exact Hq|]].
  - unfold scale_channel, uint32_of_trunc. rewrite (trunc_Z_val _ Fp) by lia.
    cbn [mbind option_bind].
    replace (_ && _) with true; [reflexivity|].
    symmetry. apply andb_true_intro. split; [apply Z.leb_le|apply Z.ltb_lt]; lia.
  - intros E.
    destruct (F32_mul_bracket (F32.of_int c) dark (F32.of_int c) (F32.of_int c))
      as [_ Hp']; try done.
    { rewrite Vc, E. lia. }
    rewrite Vc in Hp'. replace (v32 (F32.mul (F32.of_int c) dark)) with (c * U32) by lia.
    apply Z.div_mul. lia.
Qed.

(** Bits that do not overlap are added. *)
Lemma lor_high_low (h l k : Z) :
  0 <= k -> 0 <= l < 2 ^ k -> Z.lor (h * 2 ^ k) l = h * 2 ^ k + l.
Proof.
  intros Hk Hl.
  assert (H0 : Z.land (h * 2 ^ k) l = 0).
  { apply Z.bits_inj'. intros n Hn.
    rewrite Z.land_spec, Z.bits_0, <- Z.shiftl_mul_pow2 by lia.
    destruct (Z.lt_ge_cases n k).
    - rewrite Z.shiftl_spec_low by lia. reflexivity.
    - rewrite <- (Z.mod_small l (2 ^ k)) by lia.
      rewrite Z.mod_pow2_bits_high by lia. apply andb_false_r. }
  rewrite <- Z.lxor_lor by exact H0. symmetry. apply Z.add_nocarry_lxor. exact H0.
Qed.

(** The pixel put together from three channels. *)
Lemma pack_channels (r g b : Z) :
  0 <= r <= 255 -> 0 <= g <= 255 -> 0 <= b <= 255 ->
  Z.lor (Z.lor (Z.lor 0xFF000000 ((Z.shiftl r 16) mod 2 ^ 32))
               ((Z.shiftl g 8) mod 2 ^ 32)) b
  = 0xFF000000 + r * 65536 + g * 256 + b.
Proof.
  intros Hr Hg Hb. rewrite !Z.shiftl_mul_pow2 by lia.
  change (2 ^ 16) with 65536. change (2 ^ 8) with 256. change (2 ^ 32) with 4294967296.
  rewrite !Z.mod_small by lia.
  pose proof (lor_high_low 255 (r * 65536) 24 ltac:(lia) ltac:(lia)) as H1.
  change (255 * 2 ^ 24) with 0xFF000000 in H1. rewrite H1.
  pose proof (lor_high_low (65280 + r) (g * 256) 16 ltac:(lia) ltac:(lia)) as H2.
  change (2 ^ 16) with 65536 in H2.
  replace ((65280 + r) * 65536) with (0xFF000000 + r * 65536) in H2 by lia.
  rewrite H2.
  pose proof (lor_high_low (16711680 + r * 256 + g) b 8 ltac:(lia) ltac:(lia)) as H3.
  change (2 ^ 8) with 256 in H3.
  replace ((16711680 + r * 256 + g) * 256)
    with (0xFF000000 + r * 65536 + g * 256) in H3 by lia.
  exact H3.
Qed.

Lemma channel_byte (p k : Z) :
  0 <= k -> Z.land (Z.shiftr p k) 0xFF = p / 2 ^ k mod 256.
Proof.
  intros Hk. change 0xFF with (Z.ones 8).
  rewrite Z.land_ones, Z.shiftr_div_pow2 by lia. reflexivity.
Qed.

(** The shaded colour, channel by channel. *)
Lemma shade_channels (color : Z) (dark : spec_float) :
  f32 dark = true -> 0 <= v32 dark <= U32 ->
  exists r g b : Z,
    shade color dark = Some (0xFF000000 + r * 65536 + g * 256 + b) /\
    0 <= r <= color / 65536 mod 256 /\
    0 <= g <= color / 256 mod 256 /\
    0 <= b <= color mod 256 /\
    (v32 dark = U32 ->
     r = color / 65536 mod 256 /\ g = color / 256 mod 256 /\ b = color mod 256).
Proof.
  intros Fd Hd. unfold shade.
  rewrite !channel_byte by lia.
  replace (Z.land color 255) with (color mod 256)
    by (change 255 with (Z.ones 8); now rewrite Z.land_ones by lia).
  change (2 ^ 16) with 65536. change (2 ^ 8) with 256.
  pose proof (Z.mod_pos_bound (color / 65536) 256 ltac:(lia)) as Br.
  pose proof (Z.mod_pos_bound (color / 256) 256 ltac:(lia)) as Bg.
  pose proof (Z.mod_pos_bound color 256 ltac:(lia)) as Bb.
  destruct (scale_channel_le (color / 65536 mod 256) dark ltac:(lia) Fd Hd)
    as (r & -> & Hr & Er).
  destruct (scale_channel_le (color / 256 mod 256) dark ltac:(lia) Fd Hd)
    as (g & -> & Hg & Eg).
  destruct (scale_channel_le (color mod 256) dark ltac:(lia) Fd Hd)
    as (b & -> & Hb & Eb).
  exists r, g, b. cbn [mbind option_bind].
  rewrite pack_channels by lia. repeat split; try lia; auto.
Qed.

(** The channels of a pixel put together from three channels. *)
Lemma channels_of_pixel (r g b : Z) :
  0 <= r <= 255 -> 0 <= g <= 255 -> 0 <= b <= 255 ->
  let p := 0xFF000000 + r * 65536 + g * 256 + b in
  0 <= p < 2 ^ 32 /\ alpha_channel p = 0xFF /\
  Z.land (Z.shiftr p 16) 0xFF = r /\ Z.land (Z.shiftr p 8) 0xFF = g /\
  Z.land p 0xFF = b.
Proof.
  intros Hr Hg Hb p. unfold alpha_channel. rewrite !channel_byte by lia.
  replace (Z.land p 255) with (p mod 256)
    by (change 255 with (Z.ones 8); now rewrite Z.land_ones by lia).
  change (2 ^ 32) with 4294967296. change (2 ^ 24) with 16777216.
  change (2 ^ 16) with 65536. change (2 ^ 8) with 256.
  unfold p. repeat split; try lia; Z.div_mod_to_equations; lia.
Qed.

(** ** The darkening factors *)

(** One minus a quotient of the distance that is not negative. *)
Lemma dimming_range (d K : spec_float) :
  f32 d = true -> 0 <= v32 d -> f32 K = true -> U32 <= v32 K ->
  f32 (F32.sub (F32.of_int 1) (F32.div d K)) = true /\
  - ((2 ^ 24 - 1) * 2 ^ 253) <= v32 (F32.sub (F32.of_int 1) (F32.div d K)) <= U32.
Proof.
  intros Fd Hd FK HK. pose proof (f32_size d Fd) as Hs.
  assert (HU : 0 < U32) by (rewrite U32_eq; lia).
  set (top := S754_finite false 16777215 104).
  assert (Vtop : v32 top = (2 ^ 24 - 1) * 2 ^ 253) by reflexivity.
  assert (Vbot : v32 (SFopp top) = - ((2 ^ 24 - 1) * 2 ^ 253)) by reflexivity.
  assert (Ftop : f32 top = true) by reflexivity.
  assert (Fbot : f32 (SFopp top) = true) by reflexivity.
  assert (F0 : f32 (S754_zero false) = true) by reflexivity.
  assert (F1 : f32 (F32.of_int 1) = true) by reflexivity.
  assert (V1 : v32 (F32.of_int 1) = U32) by reflexivity.
  assert (Hne : v32 K <> 0) by lia.
  assert (Hpos : 0 < v32 K ->
                 v32 (S754_zero false) * v32 K <= v32 d * U32 <= v32 top * v32 K).
  { intros _. change (v32 (S754_zero false)) with 0. rewrite Vtop. split; [lia|].
    apply Z.mul_le_mono_nonneg; lia. }
  assert (Hneg : v32 K < 0 ->
                 v32 top * v32 K <= v32 d * U32 <= v32 (S754_zero false) * v32 K)
    by (intros; lia).
  destruct (F32_div_bracket d K (S754_zero false) top Fd FK F0 Ftop Hne Hpos Hneg)
    as [Fq Hq].
  change (v32 (S754_zero false)) with 0 in Hq. rewrite Vtop in Hq.
  assert (Hs' : v32 (SFopp top) <= v32 (F32.of_int 1) - v32 (F32.div d K)
                <= v32 (F32.of_int 1)) by (rewrite Vbot, V1; lia).
  destruct (F32_sub_bracket (F32.of_int 1) (F32.div d K) (SFopp top) (F32.of_int 1)
              F1 Fq Fbot F1 Hs') as [Fa Ha].
  rewrite Vbot, V1 in Ha. split; [exact Fa|exact Ha].
Qed.

(** The minimum brightness taken for a smaller factor. *)
Lemma clamp_range (a m : spec_float) :
  f32 a = true -> f32 m = true -> v32 a <= U32 -> v32 m <= U32 ->
  f32 (if F32.ltb a m then m else a) = true /\
  v32 m <= v32 (if F32.ltb a m then m else a) <= U32.
Proof.
  intros Fa Fm Ha Hm. rewrite F32_ltb_val by done.
  destruct (Z.ltb_spec (v32 a) (v32 m)); (split; [done|lia]).
Qed.

(** Every darkening factor at a distance that is not negative is a number
    above zero and at most one. *)
Lemma darkening_factors (d : spec_float) :
  f32 d = true -> 0 <= v32 d ->
  Forall (fun k => f32 k = true /\ 0 < v32 k <= U32)
    [wall_darkening d false; wall_darkening d true; floor_darkening d;
     ceiling_darkening d; sprite_dark d].
Proof.
  intros Fd Hd.
  assert (HU : U32 = 2 ^ 149) by reflexivity.
  assert (H15 : f32 (F32.mul (F32.of_int MAP_CELL_SIZE) WALL_DISTANCE_DIMMING) = true /\
                U32 <= v32 (F32.mul (F32.of_int MAP_CELL_SIZE) WALL_DISTANCE_DIMMING))
    by (split; [reflexivity|vm_compute; discriminate]).
  assert (H11 : f32 (F32.mul (F32.of_int MAP_CELL_SIZE) SPRITE_DISTANCE_DIMMING) = true /\
                U32 <= v32 (F32.mul (F32.of_int MAP_CELL_SIZE) SPRITE_DISTANCE_DIMMING))
    by (split; [reflexivity|vm_compute; discriminate]).
  destruct H15 as [F15 V15]. destruct H11 as [F11 V11].
  destruct (dimming_range d _ Fd Hd F15 V15) as [Fw Hw].
  destruct (dimming_range d _ Fd Hd F11 V11) as [Fs Hs].
  assert (Fm7 : f32 (F32.lit 7 10) = true) by reflexivity.
  assert (Fm65 : f32 (F32.lit 65 100) = true) by reflexivity.
  assert (Hm7 : 0 < v32 (F32.lit 7 10) <= U32) by (vm_compute; split; [reflexivity|discriminate]).
  assert (Hm65 : 0 < v32 (F32.lit 65 100) <= U32)
    by (vm_compute; split; [reflexivity|discriminate]).
  destruct Hw as [Hw Hw1]. destruct Hs as [Hs Hs1].
  destruct Hm7 as [Hm7 Hm7']. destruct Hm65 as [Hm65 Hm65'].
  pose proof (clamp_range _ (F32.lit 7 10) Fw Fm7 Hw1 Hm7') as [Fcw Hcw].
  pose proof (clamp_range _ (F32.lit 65 100) Fw Fm65 Hw1 Hm65') as [Fcf Hcf].
  pose proof (clamp_range _ (F32.lit 7 10) Fs Fm7 Hs1 Hm7') as [Fcs Hcs].
  repeat apply Forall_cons_2; try apply Forall_nil_2.
  - split; [exact Fcw|]. split; [|exact (proj2 Hcw)].
    eapply Z.lt_le_trans; [exact Hm7|exact (proj1 Hcw)].
  - unfold wall_darkening. change WALL_MIN_BRIGHTNESS with (F32.lit 7 10).
    assert (F8 : f32 (F32.lit 8 10) = true) by reflexivity.
    assert (Fh : f32 (F32.lit 1 2) = true) by reflexivity.
    assert (F1 : f32 (F32.of_int 1) = true) by reflexivity.
    match goal with
    | |- f32 (F32.mul ?r _) = true /\ _ => set (w := r) in *
    end.
    assert (Hb : v32 (F32.lit 1 2) * U32 <= v32 w * v32 (F32.lit 8 10)
                 <= v32 (F32.of_int 1) * U32).
    { revert Hcw Hm7. v32_const (F32.lit 7 10). v32_const (F32.lit 8 10).
      v32_const (F32.lit 1 2). v32_const (F32.of_int 1). rewrite HU.
      z_const (2 ^ 149). lia. }
    destruct (F32_mul_bracket w (F32.lit 8 10) (F32.lit 1 2) (F32.of_int 1)
                Fcw F8 Fh F1 Hb) as [Fp Hp].
    split; [exact Fp|]. revert Hp. v32_const (F32.lit 1 2). v32_const (F32.of_int 1).
    rewrite HU. z_const (2 ^ 149). lia.
  - split; [exact Fcf|]. split; [|exact (proj2 Hcf)].
    eapply Z.lt_le_trans; [exact Hm65|exact (proj1 Hcf)].
  - unfold ceiling_darkening. change CEILING_MIN_BRIGHTNESS with (F32.lit 65 100).
    change CEILING_DISTANCE_DIMMING with WALL_DISTANCE_DIMMING.
    set (top := S754_finite false 16777215 104).
    assert (Fbot : f32 (SFopp top) = true) by reflexivity.
    assert (F85 : f32 (F32.lit 85 100) = true) by reflexivity.
    assert (F1 : f32 (F32.of_int 1) = true) by reflexivity.
    match goal with
    | |- context [F32.mul ?r (F32.lit 85 100)] => set (a := r) in *
    end.
    assert (Hb : v32 (SFopp top) * U32 <= v32 a * v32 (F32.lit 85 100)
                 <= v32 (F32.of_int 1) * U32).
    { revert Hw Hw1. v32_const (F32.lit 85 100). v32_const (SFopp top).
      v32_const (F32.of_int 1). rewrite HU.
      z_const ((2 ^ 24 - 1) * 2 ^ 253). z_const (2 ^ 149). lia. }
    destruct (F32_mul_bracket a (F32.lit 85 100) (SFopp top) (F32.of_int 1)
                Fw F85 Fbot F1 Hb) as [Fp Hp].
    change (v32 (F32.of_int 1)) with U32 in Hp.
    destruct Hp as [_ Hp].
    pose proof (clamp_range _ (F32.lit 65 100) Fp Fm65 Hp Hm65') as [Fc Hc].
    split; [exact Fc|]. split; [|exact (proj2 Hc)].
    eapply Z.lt_le_trans; [exact Hm65|exact (proj1 Hc)].
  - split; [exact Fcs|]. split; [|exact (proj2 Hcs)].
    eapply Z.lt_le_trans; [exact Hm7|exact (proj1 Hcs)].
Qed.

(** X10.  Shading a colour with a factor between zero and one is defined and
    gives an opaque pixel none of whose channels is brighter than the
    channel of the colour; with the factor one the channels are those of the
    colour. *)
Theorem shade_never_brightens (color : Z) (dark : spec_float) :
  fin F32.prec F32.emax dark = true ->
  0 <= val F32.prec F32.emax dark <= unit_val F32.prec F32.emax ->
  exists p : Z,
    shade color dark = Some p /\ 0 <= p < 2 ^ 32 /\ alpha_channel p = 0xFF /\
    Z.land (Z.shiftr p 16) 0xFF <= Z.land (Z.shiftr color 16) 0xFF /\
    Z.land (Z.shiftr p 8) 0xFF <= Z.land (Z.shiftr color 8) 0xFF /\
    Z.land p 0xFF <= Z.land color 0xFF /\
    (val F32.prec F32.emax dark = unit_val F32.prec F32.emax ->
     Z.land (Z.shiftr p 16) 0xFF = Z.land (Z.shiftr color 16) 0xFF /\
     Z.land (Z.shiftr p 8) 0xFF = Z.land (Z.shiftr color 8) 0xFF /\
     Z.land p 0xFF = Z.land color 0xFF).
Proof.
  intros Fd Hd.
  destruct (shade_channels color dark Fd Hd) as (r & g & b & E & Hr & Hg & Hb & Eq).
  pose proof (Z.mod_pos_bound (color / 65536) 256 ltac:(lia)) as Br.
  pose proof (Z.mod_pos_bound (color / 256) 256 ltac:(lia)) as Bg.
  pose proof (Z.mod_pos_bound color 256 ltac:(lia)) as Bb.
  destruct (channels_of_pixel r g b ltac:(lia) ltac:(lia) ltac:(lia))
    as (Hp & Ha & Cr & Cg & Cb).
  eexists. split; [exact E|]. rewrite Cr, Cg, Cb.
  rewrite !(channel_byte color) by lia.
  replace (Z.land color 255) with (color mod 256)
    by (change 255 with (Z.ones 8); now rewrite Z.land_ones by lia).
  change (2 ^ 16) with 65536. change (2 ^ 8) with 256.
  repeat split; try lia; try exact Ha; apply Eq; assumption.
Qed.

(** The sample colour at the minimum brightness of a sprite. *)
Lemma shade_never_brightens_witness :
  exists p : Z,
    shade 0xFF8040C0 (F32.lit 7 10) = Some p /\ 0 <= p < 2 ^ 32 /\
    alpha_channel p = 0xFF /\
    Z.land (Z.shiftr p 16) 0xFF <= Z.land (Z.shiftr 0xFF8040C0 16) 0xFF /\
    Z.land (Z.shiftr p 8) 0xFF <= Z.land (Z.shiftr 0xFF8040C0 8) 0xFF /\
    Z.land p 0xFF <= Z.land 0xFF8040C0 0xFF /\
    (val F32.prec F32.emax (F32.lit 7 10) = unit_val F32.prec F32.emax ->
     Z.land (Z.shiftr p 16) 0xFF = Z.land (Z.shiftr 0xFF8040C0 16) 0xFF /\
     Z.land (Z.shiftr p 8) 0xFF = Z.land (Z.shiftr 0xFF8040C0 8) 0xFF /\
     Z.land p 0xFF = Z.land 0xFF8040C0 0xFF).
Proof.
  apply (shade_never_brightens 0xFF8040C0 (F32.lit 7 10)).
  - reflexivity.
  - vm_compute. split; discriminate.
Defined.

(** X11.  At every finite distance that is not negative each of the five
    darkening factors (wall, vertical wall, floor, ceiling, sprite) is a
    finite number above zero and at most one, so that shading any colour
    with it is defined and gives an opaque pixel. *)
Theorem surfaces_shaded (d : spec_float) (color : Z) :
  fin F32.prec F32.emax d = true -> 0 <= val F32.prec F32.emax d ->
  Forall (fun k =>
            fin F32.prec F32.emax k = true /\
            0 < val F32.prec F32.emax k <= unit_val F32.prec F32.emax /\
            exists p : Z, shade color k = Some p /\ alpha_channel p = 0xFF)
    [wall_darkening d false; wall_darkening d true; floor_darkening d;
     ceiling_darkening d; sprite_dark d].
Proof.
  intros Fd Hd. eapply Forall_impl; [exact (darkening_factors d Fd Hd)|].
  intros k [Fk Hk]. cbn beta. split; [exact Fk|]. split; [exact Hk|].
  destruct (shade_channels color k Fk ltac:(lia)) as (r & g & b & E & Hr & Hg & Hb & _).
  pose proof (Z.mod_pos_bound (color / 65536) 256 ltac:(lia)) as Br.
  pose proof (Z.mod_pos_bound (color / 256) 256 ltac:(lia)) as Bg.
  pose proof (Z.mod_pos_bound color 256 ltac:(lia)) as Bb.
  destruct (channels_of_pixel r g b ltac:(lia) ltac:(lia) ltac:(lia))
    as (_ & Ha & _).
  eexists. split; [exact E|exact Ha].
Qed.

(** The factors at the distance 100. *)
Lemma surfaces_shaded_witness :
  Forall (fun k =>
            fin F32.prec F32.emax k = true /\
            0 < val F32.prec F32.emax k <= unit_val F32.prec F32.emax /\
            exists p : Z, shade 0xFF8040C0 k = Some p /\ alpha_channel p = 0xFF)
    [wall_darkening (F32.of_int 100) false; wall_darkening (F32.of_int 100) true;
     floor_darkening (F32.of_int 100); ceiling_darkening (F32.of_int 100);
     sprite_dark (F32.of_int 100)].
Proof.
  apply (surfaces_shaded (F32.of_int 100) 0xFF8040C0).
  - reflexivity.
  - vm_compute. discriminate.
Defined.

(** ** The rows of a wall slice *)

(** [(int)x] of a number that is not negative. *)
Lemma int_of_trunc_val (x : spec_float) :
  f32 x = true -> 0 <= v32 x -> v32 x / U32 <= INT_MAX ->
  int_of_trunc x = Some (v32 x / U32).
Proof.
  intros Fx Hx Hm. unfold int_of_trunc. rewrite (trunc_Z_val x Fx Hx).
  cbn [mbind option_bind].
  assert (0 <= v32 x / U32) by (apply Z.div_pos; [lia|rewrite U32_eq; lia]).
  replace (_ && _) with true; [reflexivity|].
  symmetry. apply andb_true_intro. unfold INT_MIN.
  split; apply Z.leb_le; lia.
Qed.

(** A wall that is not higher than the screen. *)
Lemma wall_rows_fit (h : spec_float) :
  f32 h = true -> 0 <= v32 h <= 512 * U32 ->
  exists top bottom : Z,
    wall_rows h = Some (top, bottom) /\ 0 <= top <= bottom /\ bottom <= SCREEN_HEIGHT.
Proof.
  intros Fh Hh. assert (HU : U32 = 2 ^ 149) by reflexivity.
  assert (F512 : f32 (F32.of_int SCREEN_HEIGHT) = true) by reflexivity.
  assert (V512 : v32 (F32.of_int SCREEN_HEIGHT) = 512 * U32) by reflexivity.
  assert (F0 : f32 (S754_zero false) = true) by reflexivity.
  assert (F2 : f32 (F32.of_int 2) = true) by reflexivity.
  assert (V2 : v32 (F32.of_int 2) = 2 * U32) by reflexivity.
  unfold wall_rows. rewrite F32_ltb_val by done.
  replace (v32 (F32.of_int SCREEN_HEIGHT) <? v32 h) with false
    by (symmetry; apply Z.ltb_ge; lia).
  set (n := (512 * U32 - v32 h + 2 ^ 141 - 1) / 2 ^ 141).
  assert (Hn : 0 <= n <= 2 ^ 17 /\ 512 * U32 - v32 h <= n * 2 ^ 141
               /\ n * 2 ^ 141 < 512 * U32 - v32 h + 2 ^ 141).
  { unfold n. rewrite HU in *. z_const (2 ^ 149). z_const (2 ^ 141). z_const (2 ^ 17).
    Z.div_mod_to_equations. lia. }
  clearbody n. destruct Hn as (Hn & Hn1 & Hn2).
  destruct (F32_normalize_exact n (-8) false ltac:(lia) ltac:(lia)) as [Fg Vg].
  destruct (F32_normalize_exact n (-9) false ltac:(lia) ltac:(lia)) as [Fg2 Vg2].
  destruct (F32_normalize_exact (2 ^ 18 + 1) (-9) false ltac:(lia) ltac:(lia))
    as [Fhi Vhi].
  change (-8 + 149) with 141 in Vg. change (-9 + 149) with 140 in Vg2, Vhi.
  set (g := binary_normalize F32.prec F32.emax n (-8) false) in *.
  set (g2 := binary_normalize F32.prec F32.emax n (-9) false) in *.
  set (hi := binary_normalize F32.prec F32.emax (2 ^ 18 + 1) (-9) false) in *.
  (* SCREEN_HEIGHT - wallHeight *)
  assert (Ha' : v32 (S754_zero false) <= v32 (F32.of_int SCREEN_HEIGHT) - v32 h <= v32 g).
  { change (v32 (S754_zero false)) with 0. rewrite V512, Vg. lia. }
  destruct (F32_sub_bracket (F32.of_int SCREEN_HEIGHT) h (S754_zero false) g
              F512 Fh F0 Fg Ha') as [Fa Ha].
  change (v32 (S754_zero false)) with 0 in Ha. rewrite Vg in Ha.
  set (a := F32.sub (F32.of_int SCREEN_HEIGHT) h) in *.
  (* ... / 2 *)
  assert (Hne : v32 (F32.of_int 2) <> 0) by (rewrite V2, HU; lia).
  assert (Hpos : 0 < v32 (F32.of_int 2) ->
                 v32 (S754_zero false) * v32 (F32.of_int 2) <= v32 a * U32
                 <= v32 g2 * v32 (F32.of_int 2)).
  { intros _. change (v32 (S754_zero false)) with 0. rewrite V2, Vg2.
    assert (0 < U32) by (rewrite HU; lia). change (2 ^ 141) with (2 * 2 ^ 140) in Ha.
    nia. }
  assert (Hneg : v32 (F32.of_int 2) < 0 ->
                 v32 g2 * v32 (F32.of_int 2) <= v32 a * U32
                 <= v32 (S754_zero false) * v32 (F32.of_int 2))
    by (rewrite V2, HU; lia).
  destruct (F32_div_bracket a (F32.of_int 2) (S754_zero false) g2
              Fa F2 F0 Fg2 Hne Hpos Hneg) as [Fb Hb].
  change (v32 (S754_zero false)) with 0 in Hb. rewrite Vg2 in Hb.
  set (b := F32.div a (F32.of_int 2)) in *.
  (* wallTop *)
  assert (Htop : 0 <= v32 b / U32 /\ v32 b / U32 * 2 ^ 9 <= n).
  { rewrite HU. revert Hb. z_const (2 ^ 149). z_const (2 ^ 140).
    z_const (2 ^ 9). intros Hb. Z.div_mod_to_equations. lia. }
  rewrite (int_of_trunc_val b Fb) by (unfold INT_MAX; lia).
  cbn [mbind option_bind].
  set (top := v32 b / U32) in *. clearbody top. destruct Htop as [Htop Htop'].
  destruct (F32_of_int_exact top ltac:(lia)) as [Ft Vt].
  (* wallTop + wallHeight *)
  assert (Hc' : v32 (F32.of_int top) <= v32 (F32.of_int top) + v32 h <= v32 hi).
  { rewrite Vt, Vhi. revert Hn1 Hn2 Hh. rewrite HU. z_const (2 ^ 149).
    z_const (2 ^ 141). z_const (2 ^ 140). z_const (2 ^ 9) . z_const (2 ^ 18 + 1).
    lia. }
  destruct (F32_add_bracket (F32.of_int top) h (F32.of_int top) hi Ft Fh Ft Fhi Hc')
    as [Fc Hc].
  rewrite Vt, Vhi in Hc.
  set (c := F32.add (F32.of_int top) h) in *.
  assert (Hbot : top <= v32 c / U32 <= 512).
  { rewrite HU. revert Hc. rewrite HU. z_const (2 ^ 149). z_const (2 ^ 140).
    z_const (2 ^ 18 + 1). intros Hc. Z.div_mod_to_equations. lia. }
  rewrite (int_of_trunc_val c Fc) by (unfold INT_MAX; lia).
  cbn [mbind option_bind].
  exists top, (v32 c / U32). split; [reflexivity|]. unfold SCREEN_HEIGHT. lia.
Qed.

(** Every wall height that is a number and not negative. *)
Lemma wall_rows_spec (h : spec_float) :
  F32.valid h = true -> nonneg h = true ->
  exists top bottom : Z,
    wall_rows h = Some (top, bottom) /\ 0 <= top <= bottom /\ bottom <= SCREEN_HEIGHT.
Proof.
  intros Vh Hh.
  destruct (nonneg_cases h Hh) as [[s ->]|[(m & e & ->)| ->]].
  - exists 256, 256. split; [destruct s; vm_compute; reflexivity|].
    unfold SCREEN_HEIGHT. lia.
  - assert (Fh : f32 (S754_finite false m e) = true) by exact Vh.
    assert (Hpos : 0 <= v32 (S754_finite false m e)).
    { rewrite val_finite. cbn [cond_Zopp]. apply Z.mul_nonneg_nonneg; [lia|].
      apply Z.pow_nonneg. lia. }
    destruct (Z.le_gt_cases (v32 (S754_finite false m e)) (512 * U32)) as [Hle|Hgt].
    + apply wall_rows_fit; [exact Fh|lia].
    + exists 0, SCREEN_HEIGHT. unfold wall_rows.
      rewrite F32_ltb_val by done.
      replace (_ <? _) with true; [|symmetry; apply Z.ltb_lt; exact Hgt].
      split; [reflexivity|]. unfold SCREEN_HEIGHT. lia.
  - exists 0, SCREEN_HEIGHT. split; [reflexivity|]. unfold SCREEN_HEIGHT. lia.
Qed.

(** X12.  For every finite corrected distance above zero the rows of the wall
    slice are defined and lie in the screen: 0 <= wallTop <= wallBottom <=
    SCREEN_HEIGHT, so that the ceiling rows [0, wallTop), the wall rows
    [wallTop, wallBottom) and the floor rows [wallBottom, SCREEN_HEIGHT)
    divide the column. *)
Theorem wall_rows_in_screen (correctedDistance : spec_float) :
  fin F32.prec F32.emax correctedDistance = true ->
  0 < val F32.prec F32.emax correctedDistance ->
  exists wallTop wallBottom : Z,
    wall_rows (wall_height correctedDistance) = Some (wallTop, wallBottom) /\
    0 <= wallTop <= wallBottom /\ wallBottom <= SCREEN_HEIGHT.
Proof.
  intros Fd Hd. destruct correctedDistance as [s| | |s m e]; try discriminate.
  destruct s.
  { rewrite val_finite in Hd. cbn [cond_Zopp] in Hd.
    assert (0 < Zpos m * 2 ^ (e - emin F32.prec F32.emax)); [|lia].
    apply Z.mul_pos_pos; [lia|]. apply Z.pow_pos_nonneg; [lia|].
    pose proof (bounded_digits F32.prec F32.emax m e Fd). lia. }
  apply wall_rows_spec.
  - apply SFdiv_valid. exact F32_prec_pos.
  - apply SFdiv_nonneg. reflexivity.
Qed.

(** A wall at the distance 100 and a wall at the distance 10, which is
    higher than the screen. *)
Lemma wall_rows_in_screen_witness :
  (exists wallTop wallBottom : Z,
     wall_rows (wall_height (F32.of_int 100)) = Some (wallTop, wallBottom) /\
     0 <= wallTop <= wallBottom /\ wallBottom <= SCREEN_HEIGHT) /\
  wall_rows (wall_height (F32.of_int 100)) = Some (92, 419) /\
  wall_rows (wall_height (F32.of_int 10)) = Some (0, 512).
Proof.
  split; [|split; vm_compute; reflexivity].
  apply (wall_rows_in_screen (F32.of_int 100)).
  - reflexivity.
  - vm_compute. reflexivity.
Defined.
